(** * Similarity graph of the book explorer (src/app/page.tsx)

    A shallow embedding of the pure core of [src/app/page.tsx]:
    [calculateSimilarity], [generateConnectionReason],
    [calculateGenreSimilarity] and the [bookGraphData] memo (pair
    enumeration, degree-capped greedy selection, pruning and union-find
    connectivity repair).

    The development then covers the rest of the page ([genreGraphData],
    [findConnection], [backgroundImages], the book lists of
    [fetchBooksForGenre] and [handleSearchBookSelect]), the API routes of
    [src/app/api/books/search/route.ts] ([detectGenre], the genre check of
    the books route, the batches and fallbacks of the sentiment route) and
    [clamp] and [buildItems] of [src/components/BookCoverBackground.tsx].

    JavaScript numbers are IEEE 754 binary64 values; they are modelled by
    Rocq's primitive [float], whose operations are the binary64 ones with
    round-to-nearest-even.  Where a property is a bound, the numbers are
    related to the real numbers they stand for ([toR]) and the rounding of
    every operation is accounted for.  Array indices and lengths are
    [nat]. *)

From Stdlib Require Import Floats ZArith Lia Sorted Reals Lra.
From stdpp Require Import base option list gmap strings pretty.

Local Open Scope string_scope.
Local Open Scope list_scope.
Local Open Scope nat_scope.

(** ** JavaScript numbers *)

Module Js.

Definition number := float.

(** [x === y] on numbers: false on NaN, true on [+0 === -0]. *)
Definition strict_eq (x y : number) : bool := PrimFloat.eqb x y.

(** [x > y] and [x < y]: false as soon as one side is NaN. *)
Definition gt (x y : number) : bool := PrimFloat.ltb y x.
Definition lt (x y : number) : bool := PrimFloat.ltb x y.

(** [arr.reduce((acc, val, i) => f(acc, val, i), init)]. *)
Fixpoint reduce_from {A B : Type} (f : B → A → nat → B) (i : nat) (l : list A) (acc : B) : B :=
  match l with
  | [] => acc
  | x :: l' => reduce_from f (S i) l' (f acc x i)
  end.

Definition reduce {A B : Type} (f : B → A → nat → B) (l : list A) (init : B) : B :=
  reduce_from f 0 l init.

(** [arr[i]] on an array of numbers used in arithmetic: an index out of range
    reads [undefined], which arithmetic turns into NaN. *)
Definition num_at (l : list number) (i : nat) : number := nth i l PrimFloat.nan.

(** [Array.prototype.sort(cmp)].  The comparator returns a number; a negative
    result orders its first argument before the second, and NaN counts as 0.
    The sort is stable (ECMAScript 2019).  Elements are inserted one by one,
    each before the first element it is ordered strictly ahead of; for a
    consistent comparator this is the result every conforming engine returns.
    It is the sort of the pair list, whose comparator is consistent on the
    similarities of the data model. *)
Fixpoint sort_insert {A : Type} (cmp : A → A → number) (x : A) (l : list A) : list A :=
  match l with
  | [] => [x]
  | y :: l' => if lt (cmp x y) 0%float then x :: y :: l' else y :: sort_insert cmp x l'
  end.

Definition sort {A : Type} (cmp : A → A → number) (l : list A) : list A :=
  fold_left (λ acc x, sort_insert cmp x acc) l [].

(** [Array.prototype.sort(cmp)] on an array of fewer than 64 elements, as V8
    runs it (TimSort with a single run), the order an inconsistent comparator
    gets in Node.js and Chrome.  [before cmp x y] is the test [order < 0] on
    [cmp(x, y)], with NaN counted as 0. *)
Definition before {A : Type} (cmp : A → A → number) (x y : A) : bool := lt (cmp x y) 0%float.

(** CountAndMakeRun: the elements that continue the run after [previous],
    each compared with the one before it, and the elements left over.  A
    descending run goes on while [order < 0], an ascending run until then. *)
Fixpoint run_tail {A : Type} (cmp : A → A → number) (descending : bool) (previous : A)
    (l : list A) : list A * list A :=
  match l with
  | [] => ([], [])
  | current :: l' =>
      if Bool.eqb (before cmp current previous) descending
      then let '(run, rest) := run_tail cmp descending current l' in (current :: run, rest)
      else ([], l)
  end.

(** The initial run, reversed when it is strictly descending, and the rest. *)
Definition count_and_make_run {A : Type} (cmp : A → A → number) (l : list A)
    : list A * list A :=
  match l with
  | a0 :: a1 :: l' =>
      let descending := before cmp a1 a0 in
      let '(run, rest) := run_tail cmp descending a1 l' in
      (if descending then rev (a0 :: a1 :: run) else a0 :: a1 :: run, rest)
  | _ => (l, [])
  end.

(** BinaryInsertionSort: the binary search for the slot of [pivot] in the
    sorted part, between [left] and [right]. *)
Fixpoint insertion_point {A : Type} (cmp : A → A → number) (pivot : A) (sorted : list A)
    (fuel left right : nat) : nat :=
  match fuel with
  | 0 => left
  | S fuel' =>
      if (left <? right)%nat then
        let mid := (left + (right - left) / 2)%nat in
        match sorted !! mid with
        | Some x =>
            if before cmp pivot x then insertion_point cmp pivot sorted fuel' left mid
            else insertion_point cmp pivot sorted fuel' (mid + 1)%nat right
        | None => left
        end
      else left
  end.

Definition binary_insert {A : Type} (cmp : A → A → number) (sorted : list A) (pivot : A)
    : list A :=
  let left := insertion_point cmp pivot sorted (length sorted) 0 (length sorted) in
  take left sorted ++ pivot :: drop left sorted.

Definition sortV8 {A : Type} (cmp : A → A → number) (l : list A) : list A :=
  let '(run, rest) := count_and_make_run cmp l in
  fold_left (binary_insert cmp) rest run.

(** [arr.slice(0, k)]. *)
Definition slice0 {A : Type} (k : nat) (l : list A) : list A := take k l.

(** The integer [n] as a number (exact below 2^53). *)
Definition of_Z (n : Z) : number :=
  SF2Prim (binary_normalize prec emax n 0 false).

Definition of_nat (n : nat) : number := of_Z (Z.of_nat n).

(** [Math.round]: NaN, the infinities and integral values are returned as they
    are; otherwise the nearest integer, ties towards +∞, keeping the sign of
    the argument when the result is zero. *)
Definition Math_round (x : number) : number :=
  match Prim2SF x with
  | S754_finite s m e =>
      if (0 <=? e)%Z then x
      else
        let k := (- e)%Z in
        let n := ((2 * (if s then Z.neg m else Z.pos m) + 2 ^ k) / 2 ^ (k + 1))%Z in
        if (n =? 0)%Z then (if s then (-0)%float else 0%float) else of_Z n
  | _ => x
  end.

(** [Math.ceil] and [Math.floor] of a finite number, as integers. *)
Definition Math_ceil (x : number) : option Z :=
  match Prim2SF x with
  | S754_zero _ => Some 0%Z
  | S754_finite s m e =>
      let v := if s then Z.neg m else Z.pos m in
      if (0 <=? e)%Z then Some (v * 2 ^ e)%Z
      else Some (- ((- v) / 2 ^ (- e)))%Z
  | _ => None
  end.

Definition Math_floor (x : number) : option Z :=
  match Prim2SF x with
  | S754_zero _ => Some 0%Z
  | S754_finite s m e =>
      let v := if s then Z.neg m else Z.pos m in
      if (0 <=? e)%Z then Some (v * 2 ^ e)%Z
      else Some (v / 2 ^ (- e))%Z
  | _ => None
  end.

(** [String(x)] for the values [Math.round] returns when its argument is below
    1e21 in absolute value: NaN, the infinities and integers printed in
    decimal ([-0] prints as [0]).  Larger values print in exponent notation in
    ECMAScript and are outside this instance. *)
Definition Number_toString (x : number) : string :=
  match Prim2SF x with
  | S754_nan => "NaN"
  | S754_infinity s => if s then "-Infinity" else "Infinity"
  | S754_zero _ => "0"
  | S754_finite s m e =>
      let v := if s then Z.neg m else Z.pos m in
      pretty (if (0 <=? e)%Z then v * 2 ^ e else v / 2 ^ (- e))%Z
  end.

End Js.

(** ** Data model (lines 42-75) *)

Record SentimentScores := {
  moody : Js.number;
  scientific : Js.number;
  optimistic : Js.number;
  philosophical : Js.number;
  adventurous : Js.number
}.

Record BookNode := {
  id : string;
  title : string;
  author : string;
  genre : string;
  year : Js.number;
  coverUrl : option string;
  description : option string;
  sentimentScores : SentimentScores
}.

Record GraphLink := {
  source : string;
  target : string;
  similarityWeight : Js.number;
  reason : string
}.

(** ** calculateSimilarity (lines 97-107) *)

Definition scoreVec (a : SentimentScores) : list Js.number :=
  [moody a; scientific a; optimistic a; philosophical a; adventurous a].

Definition dotProduct (aVec bVec : list Js.number) : Js.number :=
  Js.reduce (λ sum val i, (sum + val * Js.num_at bVec i)%float) aVec 0%float.

Definition sumSquares (aVec : list Js.number) : Js.number :=
  Js.reduce (λ sum val _, (sum + val * val)%float) aVec 0%float.

Definition magnitude (aVec : list Js.number) : Js.number :=
  PrimFloat.sqrt (sumSquares aVec).

Definition calculateSimilarity (a b : SentimentScores) : Js.number :=
  let aVec := scoreVec a in
  let bVec := scoreVec b in
  let magnitudeA := magnitude aVec in
  let magnitudeB := magnitude bVec in
  if Js.strict_eq magnitudeA 0%float || Js.strict_eq magnitudeB 0%float then 0%float
  else (dotProduct aVec bVec / (magnitudeA * magnitudeB))%float.

Definition mkScores (m s o p a : Js.number) : SentimentScores :=
  {| moody := m; scientific := s; optimistic := o; philosophical := p; adventurous := a |}.

(** ** Objects used as maps

    An object literal, or an object parsed from JSON, that is read or written
    with a computed key acts as a finite map of its own properties as long as
    the key is not the name of a property that every object inherits from
    [Object.prototype] (ECMA-262, 20.1.3 and B.2.2.1): reading such a name
    gives the inherited function, or the prototype for [__proto__], unless
    the object has a property of its own with that name, and writing
    [__proto__] sets the prototype.  The page and the routes use such objects
    with genres and book identifiers as keys.  They are modelled as finite
    maps of their own properties, and the theorems on lookups and updates
    with keys that come from a request or a response assume the keys plain. *)
Definition Object_prototype_keys : list string :=
  [ "constructor"; "__defineGetter__"; "__defineSetter__"; "hasOwnProperty";
    "__lookupGetter__"; "__lookupSetter__"; "isPrototypeOf"; "propertyIsEnumerable";
    "toString"; "valueOf"; "__proto__"; "toLocaleString" ].

Definition inheritedKey (k : string) : bool := existsb (String.eqb k) Object_prototype_keys.

Definition plainKey (k : string) : Prop := inheritedKey k = false.

(** ** calculateGenreSimilarity (lines 142-175)

    The [similarities] object literal and its rows, as finite maps of their
    own properties: the lookups of line 173 on plain keys.  The page calls
    the function with the keys of [genreColors], which are plain. *)

Record GenreSimilarity := {
  weight : Js.number;
  genreReason : string
}.

Definition similarities : gmap string (gmap string GenreSimilarity) :=
  <["Sci-Fi" :=
      <["Non-Fiction" := {| weight := 0.7%float; genreReason := "Scientific exploration and intellectual curiosity" |}]>
      (<["Literary Fiction" := {| weight := 0.6%float; genreReason := "Dystopian themes and social commentary" |}]>
      (<["Fantasy" := {| weight := 0.5%float; genreReason := "World-building and speculative elements" |}]>
      (<["Mystery" := {| weight := 0.4%float; genreReason := "Problem-solving and discovery" |}]>
      (<["Philosophy" := {| weight := 0.75%float; genreReason := "Existential questions and human nature" |}]> ∅))))]>
  (<["Non-Fiction" :=
      <["Philosophy" := {| weight := 0.85%float; genreReason := "Pursuit of knowledge and understanding" |}]>
      (<["Literary Fiction" := {| weight := 0.5%float; genreReason := "Human condition and historical context" |}]>
      (<["Mystery" := {| weight := 0.45%float; genreReason := "Investigation and analysis" |}]>
      (<["Fantasy" := {| weight := 0.3%float; genreReason := "Cultural mythology and archetypes" |}]> ∅)))]>
  (<["Literary Fiction" :=
      <["Philosophy" := {| weight := 0.8%float; genreReason := "Deep character study and moral questions" |}]>
      (<["Mystery" := {| weight := 0.55%float; genreReason := "Psychological exploration" |}]>
      (<["Fantasy" := {| weight := 0.45%float; genreReason := "Narrative storytelling traditions" |}]> ∅))]>
  (<["Fantasy" :=
      <["Mystery" := {| weight := 0.5%float; genreReason := "Quest narratives and hidden truths" |}]>
      (<["Philosophy" := {| weight := 0.55%float; genreReason := "Mythological wisdom and hero journeys" |}]> ∅)]>
  (<["Mystery" :=
      <["Philosophy" := {| weight := 0.5%float; genreReason := "Search for truth and meaning" |}]> ∅]>
  ∅)))).

(** [similarities[genreA]?.[genreB]]. *)
Definition lookupSimilarity (genreA genreB : string) : option GenreSimilarity :=
  similarities !! genreA ≫= λ row, row !! genreB.

(** [x || y] on values that are objects or [undefined]. *)
Definition orElse {A : Type} (x y : option A) : option A :=
  match x with Some _ => x | None => y end.

Definition calculateGenreSimilarity (genreA genreB : string) : GenreSimilarity :=
  if String.eqb genreA genreB then {| weight := 1%float; genreReason := "Same genre" |}
  else
    let lookup := orElse (lookupSimilarity genreA genreB) (lookupSimilarity genreB genreA) in
    default {| weight := 0.3%float; genreReason := "Shared literary heritage" |} lookup.

(** ** generateConnectionReason (lines 110-139)

    The template literals convert [Math.round(similarity * 100)] to a string
    with the engine's [Number::toString]; the conversion is a parameter of
    the development ([Js.Number_toString] is the instance used in examples). *)

Record Dimension := {
  name : string;
  diff : Js.number;
  avg : Js.number
}.

Definition dimensions (a b : SentimentScores) : list Dimension :=
  [ {| name := "moody atmosphere";
       diff := PrimFloat.abs (moody a - moody b)%float;
       avg := ((moody a + moody b) / 2)%float |};
    {| name := "scientific rigor";
       diff := PrimFloat.abs (scientific a - scientific b)%float;
       avg := ((scientific a + scientific b) / 2)%float |};
    {| name := "optimistic outlook";
       diff := PrimFloat.abs (optimistic a - optimistic b)%float;
       avg := ((optimistic a + optimistic b) / 2)%float |};
    {| name := "philosophical depth";
       diff := PrimFloat.abs (philosophical a - philosophical b)%float;
       avg := ((philosophical a + philosophical b) / 2)%float |};
    {| name := "adventurous spirit";
       diff := PrimFloat.abs (adventurous a - adventurous b)%float;
       avg := ((adventurous a + adventurous b) / 2)%float |} ].

(** The comparator of line 123. *)
Definition dimensionCmp (x y : Dimension) : Js.number :=
  ((diff x - diff y) + (avg y - avg x) * 0.5)%float.

(** Line 123, on the five dimensions; the comparator is not consistent in
    binary64, so the order is the one of the engine's algorithm. *)
Definition rankedDimensions (a b : SentimentScores) : list Dimension :=
  Js.sortV8 dimensionCmp (dimensions a b).

(** [reasons.join(" and ")]. *)
Definition joinAnd (reasons : list string) : string := String.concat " and " reasons.

(** [Number::toString], supplied by the engine. *)
Class NumberToString := number_toString : Js.number → string.

Section Explorer.

Context {engine : NumberToString}.

Definition percent (similarity : Js.number) : string :=
  number_toString (Js.Math_round (similarity * 100)%float).

Definition fallbackSentence (similarity : Js.number) : string :=
  "These works share a " +:+ percent similarity +:+
  "% thematic similarity based on their emotional and intellectual profiles.".

(** The [reasons] array after the two pushes of lines 127-132. *)
Definition reasonsOf (topMatches : list Dimension) : list string :=
  match topMatches with
  | [t0; t1] =>
      (if Js.gt (avg t0) 0.5%float then ["Both share strong " +:+ name t0] else []) ++
      (if Js.gt (avg t1) 0.5%float then ["similar " +:+ name t1] else [])
  | _ => []
  end.

Definition generateConnectionReason (bookA bookB : BookNode) (similarity : Js.number) : string :=
  let a := sentimentScores bookA in
  let b := sentimentScores bookB in
  let topMatches := Js.slice0 2 (rankedDimensions a b) in
  let reasons := reasonsOf topMatches in
  if (length reasons =? 0)%nat then fallbackSentence similarity
  else joinAnd reasons +:+ ". Overall " +:+ percent similarity +:+ "% thematic match.".

(** ** bookGraphData (lines 284-415) *)

(** An element of [allPairs]. *)
Record Pair := {
  pair_i : nat;
  pair_j : nat;
  pair_sim : Js.number
}.

Definition emptyScores : SentimentScores :=
  mkScores PrimFloat.nan PrimFloat.nan PrimFloat.nan PrimFloat.nan PrimFloat.nan.

Definition noNode : BookNode :=
  {| id := ""; title := ""; author := ""; genre := ""; year := PrimFloat.nan;
     coverUrl := None; description := None; sentimentScores := emptyScores |}.

(** [nodes[i]]; every index the build uses is below [nodes.length]. *)
Definition nodeAt (nodes : list BookNode) (i : nat) : BookNode := nth i nodes noNode.

(** Lines 291-297: the two nested loops, [i < j]. *)
Definition allPairs (nodes : list BookNode) : list Pair :=
  flat_map (λ i,
    map (λ j, {| pair_i := i; pair_j := j;
                 pair_sim := calculateSimilarity (sentimentScores (nodeAt nodes i))
                                                 (sentimentScores (nodeAt nodes j)) |})
        (seq (S i) (length nodes - S i)))
    (seq 0 (length nodes)).

(** The comparator [(a, b) => b.sim - a.sim] of lines 300 and 326. *)
Definition simCmp (a b : Pair) : Js.number := (pair_sim b - pair_sim a)%float.

Definition maxConnectionsPerNode : nat := 3.

(** [Math.floor(nodes.length * 1.5)]: the product is exact in binary64. *)
Definition targetTotalConnections (n : nat) : nat := (3 * n) / 2.

(** [nodeConnectionCount.get(k) || 0]. *)
Definition connectionCount (counts : gmap nat nat) (k : nat) : nat := default 0 (counts !! k).

(** Lines 310-323: the greedy pass with its [break]. *)
Fixpoint greedySelect (target : nat) (pairs : list Pair)
    (selectedPairs : list Pair) (nodeConnectionCount : gmap nat nat) : list Pair * gmap nat nat :=
  match pairs with
  | [] => (selectedPairs, nodeConnectionCount)
  | pr :: rest =>
      let countI := connectionCount nodeConnectionCount (pair_i pr) in
      let countJ := connectionCount nodeConnectionCount (pair_j pr) in
      if (countI <? maxConnectionsPerNode)%nat && (countJ <? maxConnectionsPerNode)%nat then
        let selectedPairs' := selectedPairs ++ [pr] in
        let counts' := <[pair_j pr := countJ + 1]> (<[pair_i pr := countI + 1]> nodeConnectionCount) in
        if (target <=? length selectedPairs')%nat then (selectedPairs', counts')
        else greedySelect target rest selectedPairs' counts'
      else greedySelect target rest selectedPairs nodeConnectionCount
  end.

(** Lines 299-323. *)
Definition selectedPairsOf (nodes : list BookNode) : list Pair :=
  fst (greedySelect (targetTotalConnections (length nodes))
         (Js.sort simCmp (allPairs nodes)) [] ∅).

(** [Math.max(1, Math.ceil(selectedPairs.length * 0.7))] (line 329).  For the
    lengths an array can have, the binary64 product never rounds across an
    integer, so the result is the exact ceiling of seven tenths. *)
Definition edgesToKeep (selectedCount : nat) : nat :=
  Nat.max 1 ((7 * selectedCount + 9) / 10).

(** Lines 326-330. *)
Definition prunedPairsOf (nodes : list BookNode) : list Pair :=
  let selectedPairs := Js.sort simCmp (selectedPairsOf nodes) in
  Js.slice0 (edgesToKeep (length selectedPairs)) selectedPairs.

(** Lines 334-339 and 403-408: the link pushed for the pair [(i, j)]. *)
Definition linkOf (nodes : list BookNode) (i j : nat) (sim : Js.number) : GraphLink :=
  {| source := id (nodeAt nodes i);
     target := id (nodeAt nodes j);
     similarityWeight := sim;
     reason := generateConnectionReason (nodeAt nodes i) (nodeAt nodes j) sim |}.

Definition prunedLinksOf (nodes : list BookNode) : list GraphLink :=
  map (λ pr, linkOf nodes (pair_i pr) (pair_j pr) (pair_sim pr)) (prunedPairsOf nodes).

(** The link the repair pushes for the node [b.1] with similarity [b.2]. *)
Definition repairLink (nodes : list BookNode) (searchedIdx : nat) (b : nat * Js.number) : GraphLink :=
  linkOf nodes b.1 searchedIdx b.2.

(** *** Union-find (lines 344-352)

    [parent] is the mutable array; [find] compresses paths as it returns, so
    it hands back the updated array with the root.  The recursion depth of
    [find] is bounded by the fuel; [None] means the fuel ran out or an index
    was out of range. *)

Fixpoint find (fuel : nat) (parent : list nat) (x : nat) : option (list nat * nat) :=
  match fuel with
  | O => None
  | S fuel' =>
      px ← parent !! x;
      if decide (px ≠ x) then
        '(parent', r) ← find fuel' parent px;
        Some (<[x := r]> parent', r)
      else Some (parent, px)
  end.

Definition union (fuel : nat) (parent : list nat) (x y : nat) : option (list nat) :=
  '(parent1, px) ← find fuel parent x;
  '(parent2, py) ← find fuel parent1 y;
  Some (if decide (px ≠ py) then <[px := py]> parent2 else parent2).

(** [new Map(nodes.map((n, i) => [n.id, i]))]: a later entry replaces an
    earlier one with the same key. *)
Definition nodeIdToIndexOf (nodes : list BookNode) : gmap string nat :=
  fold_left (λ m (entry : string * nat), <[entry.1 := entry.2]> m)
            (imap (λ i n, (id n, i)) nodes) ∅.

(** Lines 356-362. *)
Fixpoint unionLinks (fuel : nat) (nodeIdToIndex : gmap string nat)
    (links : list GraphLink) (parent : list nat) : option (list nat) :=
  match links with
  | [] => Some parent
  | link :: rest =>
      match nodeIdToIndex !! source link, nodeIdToIndex !! target link with
      | Some sourceIdx, Some targetIdx =>
          parent' ← union fuel parent sourceIdx targetIdx;
          unionLinks fuel nodeIdToIndex rest parent'
      | _, _ => unionLinks fuel nodeIdToIndex rest parent
      end
  end.

(** Lines 365-367: an empty string is falsy, a missing key is nullish. *)
Definition searchedIdxOf (nodeIdToIndex : gmap string nat) (highlightedBookId : option string) : nat :=
  match highlightedBookId with
  | Some h => if String.eqb h "" then 0 else default 0 (nodeIdToIndex !! h)
  | None => 0
  end.

(** [set.add(x)] on a [Set], which iterates in insertion order. *)
Definition setAdd (x : nat) (s : list nat) : list nat :=
  if decide (x ∈ s) then s else s ++ [x].

(** Lines 372-377. *)
Fixpoint collectComponents (fuel : nat) (searchedComponent : nat) (idxs : list nat)
    (parent : list nat) (disconnectedComponents : list nat) : option (list nat * list nat) :=
  match idxs with
  | [] => Some (parent, disconnectedComponents)
  | i :: rest =>
      '(parent', componentRoot) ← find fuel parent i;
      collectComponents fuel searchedComponent rest parent'
        (if decide (componentRoot ≠ searchedComponent)
         then setAdd componentRoot disconnectedComponents else disconnectedComponents)
  end.

(** Lines 382-384: [.filter(idx => find(idx) === componentRoot)]. *)
Fixpoint nodesInComponentOf (fuel : nat) (componentRoot : nat) (idxs : list nat)
    (parent : list nat) : option (list nat * list nat) :=
  match idxs with
  | [] => Some (parent, [])
  | idx :: rest =>
      '(parent1, r) ← find fuel parent idx;
      '(parent2, kept) ← nodesInComponentOf fuel componentRoot rest parent1;
      Some (parent2, if decide (r = componentRoot) then idx :: kept else kept)
  end.

(** Lines 387-399.  [bestNodeIdx] starts at the sentinel [-1], written [None];
    [bestSimilarity] starts at [-1]. *)
Definition bestNodeStep (nodes : list BookNode) (searchedIdx : nat)
    (best : option nat * Js.number) (nodeIdx : nat) : option nat * Js.number :=
  let sim := calculateSimilarity (sentimentScores (nodeAt nodes nodeIdx))
                                 (sentimentScores (nodeAt nodes searchedIdx)) in
  if Js.gt sim best.2 then (Some nodeIdx, sim) else best.

Definition bestNodeOf (nodes : list BookNode) (searchedIdx : nat)
    (nodesInComponent : list nat) : option nat * Js.number :=
  fold_left (bestNodeStep nodes searchedIdx) nodesInComponent (None, (-1)%float).

(** Lines 380-412: one iteration per disconnected component. *)
Fixpoint repairComponents (fuel : nat) (nodes : list BookNode) (searchedIdx : nat)
    (components : list nat) (parent : list nat) (links : list GraphLink)
    : option (list nat * list GraphLink) :=
  match components with
  | [] => Some (parent, links)
  | componentRoot :: rest =>
      '(parent1, nodesInComponent) ←
        nodesInComponentOf fuel componentRoot (seq 0 (length nodes)) parent;
      match bestNodeOf nodes searchedIdx nodesInComponent with
      | (Some bestNodeIdx, bestSimilarity) =>
          parent2 ← union fuel parent1 bestNodeIdx searchedIdx;
          repairComponents fuel nodes searchedIdx rest parent2
            (links ++ [linkOf nodes bestNodeIdx searchedIdx bestSimilarity])
      | (None, _) => repairComponents fuel nodes searchedIdx rest parent1 links
      end
  end.

Record BookGraph := {
  nodes : list BookNode;
  links : list GraphLink
}.

(** Lines 344-362: the union-find state after the pruned links are merged. *)
Definition initialComponents (nodes : list BookNode) : option (list nat) :=
  unionLinks (length nodes) (nodeIdToIndexOf nodes) (prunedLinksOf nodes) (seq 0 (length nodes)).

(** Lines 370-377. *)
Definition disconnectedComponentsOf (nodes : list BookNode) (searchedIdx : nat)
    (parent : list nat) : option (list nat * list nat) :=
  '(parent1, searchedComponent) ← find (length nodes) parent searchedIdx;
  collectComponents (length nodes) searchedComponent (seq 0 (length nodes)) parent1 [].

Definition bookGraphData (genreBooks : list BookNode) (highlightedBookId : option string)
    : option BookGraph :=
  if (length genreBooks =? 0)%nat then Some {| nodes := []; links := [] |}
  else
    let nodes := genreBooks in
    let links := prunedLinksOf nodes in
    parent ← initialComponents nodes;
    let searchedIdx := searchedIdxOf (nodeIdToIndexOf nodes) highlightedBookId in
    '(parent1, disconnectedComponents) ← disconnectedComponentsOf nodes searchedIdx parent;
    '(_, links') ← repairComponents (length nodes) nodes searchedIdx
                     disconnectedComponents parent1 links;
    Some {| nodes := nodes; links := links' |}.

End Explorer.

(** ** Binary64 numbers as real numbers *)

(** The power [2^e] for an integer [e] of either sign. *)
Definition pow2 (e : Z) : R := powerRZ 2 e.

Arguments pow2 : simpl never.

(** The real value of a number; NaN and the infinities count as 0 and are
    told apart by [isFinite]. *)
Definition SF2R (f : spec_float) : R :=
  match f with
  | S754_finite s m e => ((if s then -1 else 1) * IZR (Z.pos m) * pow2 e)%R
  | _ => 0%R
  end.

Definition toR (x : Js.number) : R := SF2R (Prim2SF x).

Definition SFfinite (f : spec_float) : Prop :=
  match f with S754_zero _ | S754_finite _ _ _ => True | _ => False end.

Definition isFinite (x : Js.number) : Prop := SFfinite (Prim2SF x).

(** The unit roundoff of binary64. *)
Definition u64 : R := pow2 (-53).

(** [y] lies at the location [l] of the interval from [m] to [m + 1]. *)
Definition located (y : R) (m : Z) (l : location) : Prop :=
  match l with
  | loc_Exact => y = IZR m
  | loc_Inexact Lt => (IZR m < y < IZR m + / 2)%R
  | loc_Inexact Eq => y = (IZR m + / 2)%R
  | loc_Inexact Gt => (IZR m + / 2 < y < IZR m + 1)%R
  end.

(** A zero or a finite number with an exponent of the format. *)
Definition SFregular (f : spec_float) : Prop :=
  match f with
  | S754_zero _ => True
  | S754_finite _ _ e => (-1074 ≤ e)%Z
  | _ => False
  end.

(** The number is a zero or finite, with the sign [s] and the absolute value
    [v]. *)
Definition SFmagnitude (f : spec_float) (s : bool) (v : R) : Prop :=
  match f with
  | S754_zero s' => s' = s ∧ v = 0%R
  | S754_finite s' m e => s' = s ∧ v = (IZR (Z.pos m) * pow2 e)%R
  | _ => False
  end.

(** What a comparison of [SpecFloat] says about two real numbers. *)
Definition ordered (c : option comparison) (a b : R) : Prop :=
  match c with
  | Some Lt => (a < b)%R
  | Some Eq => a = b
  | Some Gt => (b < a)%R
  | None => False
  end.

(** ** The dimensions of a sentiment vector *)

(** The five dimensions, in the order of lines 112-118. *)
Inductive Component := Moody | Scientific | Optimistic | Philosophical | Adventurous.

Definition allComponents : list Component :=
  [Moody; Scientific; Optimistic; Philosophical; Adventurous].

Definition component (k : Component) (a : SentimentScores) : Js.number :=
  match k with
  | Moody => moody a
  | Scientific => scientific a
  | Optimistic => optimistic a
  | Philosophical => philosophical a
  | Adventurous => adventurous a
  end.

(** The name of a dimension in the explanation. *)
Definition label (k : Component) : string :=
  match k with
  | Moody => "moody atmosphere"
  | Scientific => "scientific rigor"
  | Optimistic => "optimistic outlook"
  | Philosophical => "philosophical depth"
  | Adventurous => "adventurous spirit"
  end.

(** The entry of the array of lines 112-118 for one dimension. *)
Definition dimensionOf (a b : SentimentScores) (k : Component) : Dimension :=
  {| name := label k;
     diff := PrimFloat.abs (component k a - component k b)%float;
     avg := ((component k a + component k b) / 2)%float |}.

(** The combined score of a dimension, [difference - 0.5 * average], over
    the real numbers. *)
Definition combinedScore (a b : SentimentScores) (k : Component) : R :=
  (Rabs (toR (component k a) - toR (component k b))
   - 0.5 * ((toR (component k a) + toR (component k b)) / 2))%R.

(** The combined score of an entry as the code holds it. *)
Definition storedScore (d : Dimension) : R := (toR (diff d) - toR (avg d) / 2)%R.

(** Two sentiment vectors on which the comparator of line 123 ties the moody
    and the scientific dimension although their combined scores differ. *)
Definition nearTieA : SentimentScores := mkScores 0x1p-60%float 0.5625%float 1%float 0%float 0%float.
Definition nearTieB : SentimentScores := mkScores 0%float 0.9375%float 1%float 1%float 1%float.

(** The entries of the array are finite and inside the unit interval, up to
    rounding. *)
Definition regularDimension (d : Dimension) : Prop :=
  isFinite (diff d) ∧ isFinite (avg d) ∧
  (0 <= toR (diff d) <= 1 + 3 * u64)%R ∧ (0 <= toR (avg d) <= 1 + 3 * u64)%R.

(** ** Sentiment vectors away from underflow *)

(** A component that is 0 or at least [2^-500]: the products of two such
    components are 0 or normal numbers. *)
Definition awayFromUnderflow (x : Js.number) : bool :=
  Js.strict_eq x 0%float || PrimFloat.leb 0x1p-500%float x.

Definition noUnderflow (a : SentimentScores) : bool :=
  forallb awayFromUnderflow (scoreVec a).

(** The dot product and the sum of squares over the real numbers. *)
Definition realDot (a b : SentimentScores) : R :=
  (toR (moody a) * toR (moody b) + toR (scientific a) * toR (scientific b)
   + toR (optimistic a) * toR (optimistic b) + toR (philosophical a) * toR (philosophical b)
   + toR (adventurous a) * toR (adventurous b))%R.

Definition realSquares (a : SentimentScores) : R := realDot a a.

(** Two vectors with components in the unit interval on which the squares
    and the products underflow. *)
Definition tinyA : SentimentScores :=
  mkScores 0x1p-537%float 0x1.3333333333333p-538%float 0x1.3333333333333p-538%float
           0x1.3333333333333p-538%float 0x1.3333333333333p-538%float.

Definition tinyB : SentimentScores :=
  mkScores 0x1p-537%float 0x1p-537%float 0x1p-537%float 0x1p-537%float 0x1p-537%float.

(** A component of a vector with components in the unit interval and away
    from underflow. *)
Definition safeComponent (x : Js.number) : Prop :=
  isFinite x ∧ (0 <= toR x <= 1)%R ∧ (toR x = 0 ∨ pow2 (-500) <= toR x)%R.

(** *** Example inputs *)

Definition book (ident : string) (scores : SentimentScores) : BookNode :=
  {| id := ident; title := ""; author := ""; genre := ""; year := 0%float;
     coverUrl := None; description := None; sentimentScores := scores |}.

Definition axis1 : SentimentScores := mkScores 1%float 0%float 0%float 0%float 0%float.
Definition axis2 : SentimentScores := mkScores 0%float 1%float 0%float 0%float 0%float.
Definition axis3 : SentimentScores := mkScores 0%float 0%float 1%float 0%float 0%float.

(** Four books with the same profile and two books orthogonal to everything:
    the greedy pass saturates the first four, pruning keeps five of their six
    links, and the last two books are left to the repair step. *)
Definition sixBooks : list BookNode :=
  [book "a" axis1; book "b" axis1; book "c" axis1; book "d" axis1;
   book "e" axis2; book "f" axis3].

(** The fifth book has a NaN component. *)
Definition booksWithNaN : list BookNode :=
  [book "a" axis1; book "b" axis1; book "c" axis1; book "d" axis1;
   book "e" (mkScores PrimFloat.nan 0%float 0%float 0%float 0%float)].

(** The fifth book has a component below the unit interval. *)
Definition booksWithNegative : list BookNode :=
  [book "a" axis1; book "b" axis1; book "c" axis1; book "d" axis1;
   book "e" (mkScores (-1)%float 0%float 0%float 0%float 0%float)].

(** ** Specification vocabulary *)

(** [reach parent k x r]: following [parent] from [x] reaches the root [r]
    after [k] steps. *)
Inductive reach (parent : list nat) : nat → nat → nat → Prop :=
| reach_root r : parent !! r = Some r → reach parent 0 r r
| reach_step k x y r :
    parent !! x = Some y → y ≠ x → reach parent k y r → reach parent (S k) x r.

Definition rootOf (parent : list nat) (x r : nat) : Prop := ∃ k, reach parent k x r.

(** Every index of the array leads to a root: the array is a forest. *)
Definition forest (parent : list nat) : Prop :=
  ∀ x, x < length parent → ∃ r, rootOf parent x r.

(** Two indices are in the same component. *)
Definition sameRoot (parent : list nat) (x y : nat) : Prop :=
  ∃ r, rootOf parent x r ∧ rootOf parent y r.

(** The root of [x], read off without compressing paths. *)
Definition rootIter (parent : list nat) (x : nat) : nat :=
  Nat.iter (length parent) (λ y, nth y parent y) x.

(** Number of components of a union-find array. *)
Definition componentCount (parent : list nat) : nat :=
  length (remove_dups (map (rootIter parent) (seq 0 (length parent)))).

(** Reachability through the links of a graph, on node identifiers. *)
Inductive connected (links : list GraphLink) : string → string → Prop :=
| connected_refl a : connected links a a
| connected_link l : l ∈ links → connected links (source l) (target l)
| connected_sym a b : connected links a b → connected links b a
| connected_trans a b c : connected links a b → connected links b c → connected links a c.

(** Running the component detection of lines 344-362 on a list of links and
    reading the root of every index. *)
Fixpoint rootsOf (fuel : nat) (idxs : list nat) (parent : list nat) : option (list nat) :=
  match idxs with
  | [] => Some []
  | i :: rest =>
      '(parent', r) ← find fuel parent i;
      rs ← rootsOf fuel rest parent';
      Some (r :: rs)
  end.

Definition unionFindRoots (nodes : list BookNode) (links : list GraphLink) : option (list nat) :=
  parent ← unionLinks (length nodes) (nodeIdToIndexOf nodes) links (seq 0 (length nodes));
  rootsOf (length nodes) (seq 0 (length nodes)) parent.

(** Number of pairs of a list that touch the index [v]. *)
Definition incident (v : nat) (pr : Pair) : bool :=
  (pair_i pr =? v)%nat || (pair_j pr =? v)%nat.

Definition degreeIn (v : nat) (pairs : list Pair) : nat :=
  length (filter (λ pr, incident v pr = true) pairs).

(** A sentiment vector of the data model: five components in [0, 1]. *)
Definition inUnitInterval (x : Js.number) : bool :=
  PrimFloat.leb 0%float x && PrimFloat.leb x 1%float.

Definition validScores (a : SentimentScores) : bool :=
  forallb inUnitInterval (scoreVec a).

Definition validNodes (nodes : list BookNode) : Prop :=
  ∀ x, x ∈ nodes → validScores (sentimentScores x) = true.

(** The array [p'] has the length and the roots of [p]. *)
Definition sameRoots (p p' : list nat) : Prop :=
  length p' = length p ∧ ∀ z r, rootOf p z r ↔ rootOf p' z r.

(** Every component of [p] lies inside a class of [R]. *)
Definition refines (p : list nat) (R : nat → nat → Prop) : Prop :=
  ∀ x y, sameRoot p x y → R x y.

(** Every node compares above the initial [bestSimilarity] against the
    searched node. *)
Definition simsAbove (nodes : list BookNode) (searchedIdx : nat) : Prop :=
  ∀ i, i < length nodes →
    Js.gt (calculateSimilarity (sentimentScores (nodeAt nodes i))
                               (sentimentScores (nodeAt nodes searchedIdx))) (-1)%float = true.

(** [x] may stand directly before [y]: the comparator does not order [y]
    strictly ahead of [x]. *)
Definition notAfter {A : Type} (cmp : A → A → Js.number) (x y : A) : Prop :=
  Js.lt (cmp y x) 0%float = false.

Definition zeroMagnitude (a : SentimentScores) : Prop :=
  Js.strict_eq (magnitude (scoreVec a)) 0%float = true.

Definition zeroScores : SentimentScores :=
  mkScores 0%float 0%float 0%float 0%float 0%float.

Definition neutralScores : SentimentScores :=
  mkScores 0.5%float 0.5%float 0.5%float 0.5%float 0.5%float.

Definition diagonalScores : SentimentScores :=
  mkScores 1%float 1%float 1%float 0%float 0%float.

(** The genres that occur in the [similarities] table. *)
Definition genreKeys : list string :=
  ["Sci-Fi"; "Non-Fiction"; "Literary Fiction"; "Fantasy"; "Mystery"; "Philosophy"].

(** *** Binary64 values by sign and size *)

(** A number that is zero or positive and below [2^K]. *)
Definition nonnegBelow (K : Z) (f : spec_float) : Prop :=
  match f with
  | S754_zero _ => True
  | S754_finite false m e => (Zdigits2 (Z.pos m) + e ≤ K)%Z
  | _ => False
  end.

(** A number that is positive (possibly infinite) and at least [2^(L-1)]. *)
Definition positiveFrom (L : Z) (f : spec_float) : Prop :=
  match f with
  | S754_finite false m e => (L ≤ Zdigits2 (Z.pos m) + e)%Z
  | S754_infinity false => True
  | _ => False
  end.

(** A number that is neither NaN nor negative. *)
Definition notNegative (f : spec_float) : Prop :=
  match f with
  | S754_zero _ | S754_finite false _ _ | S754_infinity false => True
  | _ => False
  end.

Definition isZero (f : spec_float) : Prop :=
  match f with S754_zero _ => True | _ => False end.

(** [v] is the negation of [u], up to the sign of a zero. *)
Definition negated (u v : spec_float) : Prop :=
  v = SFopp u ∨ (isZero u ∧ isZero v).

(** *** The integer formulas against their binary64 evaluation *)

Definition agreesWithCeil (s : nat) : bool :=
  match Js.Math_ceil (Js.of_nat s * 0.7)%float with
  | Some c => (Z.max 1 c =? Z.of_nat (edgesToKeep s))%Z
  | None => false
  end.

Definition agreesWithFloor (n : nat) : bool :=
  match Js.Math_floor (Js.of_nat n * 1.5)%float with
  | Some f => (f =? Z.of_nat (targetTotalConnections n))%Z
  | None => false
  end.

(** ** Vocabulary for the further properties *)

(** Two links join the same two identifiers, in either direction. *)
Definition sameEnds (l1 l2 : GraphLink) : Prop :=
  (source l1 = source l2 ∧ target l1 = target l2) ∨
  (source l1 = target l2 ∧ target l1 = source l2).

(** No two links of the list join the same two identifiers. *)
Definition distinctEnds (L : list GraphLink) : Prop :=
  ∀ k1 k2 l1 l2, L !! k1 = Some l1 → L !! k2 = Some l2 → sameEnds l1 l2 → k1 = k2.

(** The similarity of the nodes at two indices. *)
Definition simAt (nodes : list BookNode) (i j : nat) : Js.number :=
  calculateSimilarity (sentimentScores (nodeAt nodes i)) (sentimentScores (nodeAt nodes j)).

(** The index pair of a pair. *)
Definition pairKey (pr : Pair) : nat * nat := (pair_i pr, pair_j pr).

(** [a] may stand before [b] in a list ordered by decreasing similarity. *)
Definition bySimilarity (a b : Pair) : Prop :=
  PrimFloat.leb (pair_sim b) (pair_sim a) = true.

Definition byWeight (l1 l2 : GraphLink) : Prop :=
  PrimFloat.leb (similarityWeight l2) (similarityWeight l1) = true.

(** The similarity of the pair is neither NaN nor negative. *)
Definition simNotNegative (pr : Pair) : Prop := notNegative (Prim2SF (pair_sim pr)).

(** ** The rest of the page (src/app/page.tsx) *)

(** An object literal whose keys are iterated: the own properties in
    insertion order (none of the keys below is an array index). *)
Definition Object_keys {A : Type} (o : list (string * A)) : list string := map fst o.

(** [o[k]] on such an object, for a plain key or a key of the object: [None]
    is [undefined]. *)
Definition Object_get {A : Type} (o : list (string * A)) (k : string) : option A :=
  snd <$> List.find (λ e, String.eqb e.1 k) o.

(** Lines 11-24. *)
Definition genreColors : list (string * string) :=
  [ ("Sci-Fi", "#06b6d4"); ("Non-Fiction", "#8b5cf6"); ("Literary Fiction", "#ec4899");
    ("Fantasy", "#f59e0b"); ("Mystery", "#10b981"); ("Philosophy", "#6366f1");
    ("Romance", "#f43f5e"); ("Horror", "#dc2626"); ("Historical Fiction", "#a16207");
    ("Biography", "#0891b2"); ("Self-Help", "#84cc16"); ("Poetry", "#d946ef") ].

(** Lines 240-253. *)
Definition estimatedCounts : list (string * Z) :=
  [ ("Sci-Fi", 1000%Z); ("Non-Fiction", 5000%Z); ("Literary Fiction", 3000%Z);
    ("Fantasy", 2000%Z); ("Mystery", 1500%Z); ("Philosophy", 800%Z);
    ("Romance", 4000%Z); ("Horror", 1200%Z); ("Historical Fiction", 2500%Z);
    ("Biography", 3500%Z); ("Self-Help", 2800%Z); ("Poetry", 1800%Z) ].

Module GenreNode.
Record t := {
  id : string;
  name : string;
  color : option string;
  bookCount : option Z
}.
End GenreNode.

Module GenreGraph.
Record t := {
  nodes : list GenreNode.t;
  links : list GraphLink
}.
End GenreGraph.

(** [genres[i]]; the loops of lines 266-267 stay below [genres.length]. *)
Definition genreAt (genres : list string) (i : nat) : string := nth i genres "".

(** Lines 265-278: a link for every pair [i < j] whose weight exceeds 0.4. *)
Definition genreLinks (genres : list string) : list GraphLink :=
  flat_map (λ i,
    flat_map (λ j,
      let s := calculateGenreSimilarity (genreAt genres i) (genreAt genres j) in
      if Js.gt (weight s) 0.4%float
      then [ {| source := genreAt genres i; target := genreAt genres j;
                similarityWeight := weight s; reason := genreReason s |} ]
      else [])
      (seq (S i) (length genres - S i)))
    (seq 0 (length genres)).

(** Lines 256-281. *)
Definition genreGraphData : GenreGraph.t :=
  let genres := Object_keys genreColors in
  {| GenreGraph.nodes :=
       map (λ genre, {| GenreNode.id := genre; GenreNode.name := genre;
                        GenreNode.color := Object_get genreColors genre;
                        GenreNode.bookCount := Object_get estimatedCounts genre |}) genres;
     GenreGraph.links := genreLinks genres |}.

(** *** findConnection (lines 1105-1129) *)

Inductive ViewMode := view_genres | view_books.

(** An end of a link is the identifier it was built with, or, once the force
    layout has resolved it, the node object; lines 1111-1122 read the
    identifier in both cases, which the model keeps as the end itself. *)
Definition endId (e : string) : string := e.

(** The state updates of [findConnection]: [None] when it returns without
    setting anything, otherwise the values given to [setConnectedBook] and
    [setConnectionReason]. *)
Definition findConnection (viewMode : ViewMode) (bookGraphData : BookGraph) (bookId : string)
    : option (option BookNode * string) :=
  match viewMode with
  | view_genres => None
  | view_books =>
      link ← List.find (λ l, String.eqb (endId (source l)) bookId ||
                             String.eqb (endId (target l)) bookId) (links bookGraphData);
      let connectedId :=
        if String.eqb (endId (source link)) bookId then endId (target link)
        else endId (source link) in
      let connected := List.find (λ n, String.eqb (id n) connectedId) (nodes bookGraphData) in
      Some (connected, reason link)
  end.

(** *** backgroundImages (lines 1143-1164) *)

(** [if (s)] on an optional string: [undefined] and [""] are falsy. *)
Definition truthyString (s : option string) : bool :=
  match s with
  | Some u => negb (String.eqb u "")
  | None => false
  end.

Definition defaultCovers : list string :=
  [ "https://covers.openlibrary.org/b/id/8225261-L.jpg";
    "https://covers.openlibrary.org/b/id/8091016-L.jpg";
    "https://covers.openlibrary.org/b/id/7222246-L.jpg";
    "https://covers.openlibrary.org/b/id/8739161-L.jpg";
    "https://covers.openlibrary.org/b/id/10521270-L.jpg";
    "https://covers.openlibrary.org/b/id/12818647-L.jpg";
    "https://covers.openlibrary.org/b/id/8406786-L.jpg";
    "https://covers.openlibrary.org/b/id/6979861-L.jpg" ].

(** The covers pushed by the [forEach] of lines 1146-1148. *)
Definition loadedCovers (genreBooks : list BookNode) : list string :=
  flat_map (λ book, if truthyString (coverUrl book) then [default "" (coverUrl book)] else [])
           genreBooks.

Definition backgroundImages (genreBooks : list BookNode) : list string :=
  let covers := loadedCovers genreBooks in
  if (length covers <? 6)%nat
  then covers ++ Js.slice0 (8 - length covers) defaultCovers
  else covers.

(** *** Books and sentiments joined (lines 467-482 and 609-667) *)

(** A book as the books and search endpoints return it. *)
Module ApiBook.
Record t := {
  id : string;
  title : string;
  author : string;
  genre : string;
  year : Js.number;
  coverUrl : option string;
  subjects : list string;
  description : option string
}.
End ApiBook.

(** [x || 0] on a number: 0, -0 and NaN are falsy. *)
Definition orZero (x : Js.number) : Js.number :=
  if Js.strict_eq x 0%float || PrimFloat.is_nan x then 0%float else x.

(** Lines 610-626 of [handleSearchBookSelect]: the searched book is put in
    front of the first eleven books unless the list already has it. *)
Definition withSearchedBook (searchResult : ApiBook.t) (books : list ApiBook.t) : list ApiBook.t :=
  let hasSearchedBook :=
    existsb (λ b, String.eqb (ApiBook.id b) (ApiBook.id searchResult)) books in
  if negb hasSearchedBook then
    {| ApiBook.id := ApiBook.id searchResult;
       ApiBook.title := ApiBook.title searchResult;
       ApiBook.author := ApiBook.author searchResult;
       ApiBook.genre := ApiBook.genre searchResult;
       ApiBook.year := ApiBook.year searchResult;
       ApiBook.coverUrl := ApiBook.coverUrl searchResult;
       ApiBook.subjects := ApiBook.subjects searchResult;
       ApiBook.description := ApiBook.description searchResult |}
    :: Js.slice0 11 books
  else books.

(** Lines 467-482 and 652-667: [sentiments] is the object of the sentiment
    response, as a finite map of its own properties, read with the plain
    identifiers of the books; a book without an entry gets the neutral
    profile. *)
Definition booksWithSentiments (sentiments : gmap string SentimentScores)
    (books : list ApiBook.t) : list BookNode :=
  map (λ book,
    {| id := ApiBook.id book;
       title := ApiBook.title book;
       author := ApiBook.author book;
       genre := ApiBook.genre book;
       year := orZero (ApiBook.year book);
       coverUrl := ApiBook.coverUrl book;
       description := ApiBook.description book;
       sentimentScores := default neutralScores (sentiments !! ApiBook.id book) |}) books.

(** ** The API routes (src/app/api/books/search/route.ts)

    The file holds the search route (lines 1-193), the books route (lines
    194-313) and the sentiment route (lines 314-429). *)

(** [String.prototype.toLowerCase], supplied by the engine: it follows the
    Unicode case mappings. *)
Class StringToLowerCase := string_toLowerCase : string → string.

(** The mapping on ASCII text, where it lowers the letters A-Z and leaves
    every other character as it is; the instance used in examples. *)
Fixpoint asciiToLowerCase (s : string) : string :=
  match s with
  | EmptyString => EmptyString
  | String c s' =>
      let n := Ascii.nat_of_ascii c in
      String (if (65 <=? n)%nat && (n <=? 90)%nat then Ascii.ascii_of_nat (n + 32) else c)
             (asciiToLowerCase s')
  end.

(** [s.includes(keyword)]: [keyword] occurs in [s] as a substring. *)
Fixpoint String_includes (s keyword : string) : bool :=
  String.prefix keyword s ||
  match s with
  | EmptyString => false
  | String _ s' => String_includes s' keyword
  end.

Module SearchRoute.

(** Lines 4-68. *)
Definition SUBJECT_TO_GENRE : list (string * string) :=
  [ ("science fiction", "Sci-Fi"); ("sci-fi", "Sci-Fi"); ("science_fiction", "Sci-Fi");
    ("futuristic", "Sci-Fi"); ("space", "Sci-Fi"); ("aliens", "Sci-Fi");
    ("cyberpunk", "Sci-Fi"); ("dystopia", "Sci-Fi");
    ("fantasy", "Fantasy"); ("magic", "Fantasy"); ("epic fantasy", "Fantasy");
    ("dragons", "Fantasy"); ("wizards", "Fantasy"); ("mythology", "Fantasy");
    ("mystery", "Mystery"); ("detective", "Mystery"); ("crime", "Mystery");
    ("thriller", "Mystery"); ("suspense", "Mystery"); ("noir", "Mystery");
    ("philosophy", "Philosophy"); ("ethics", "Philosophy"); ("metaphysics", "Philosophy");
    ("existentialism", "Philosophy"); ("logic", "Philosophy");
    ("nonfiction", "Non-Fiction"); ("non-fiction", "Non-Fiction"); ("history", "Non-Fiction");
    ("science", "Non-Fiction"); ("true crime", "Non-Fiction");
    ("fiction", "Literary Fiction"); ("literary fiction", "Literary Fiction");
    ("classic", "Literary Fiction"); ("literature", "Literary Fiction");
    ("novel", "Literary Fiction");
    ("romance", "Romance"); ("love", "Romance"); ("love stories", "Romance");
    ("romantic", "Romance");
    ("horror", "Horror"); ("gothic", "Horror"); ("supernatural", "Horror");
    ("scary", "Horror"); ("zombies", "Horror"); ("vampires", "Horror"); ("ghosts", "Horror");
    ("historical fiction", "Historical Fiction"); ("historical", "Historical Fiction");
    ("historical novel", "Historical Fiction"); ("war", "Historical Fiction");
    ("biography", "Biography"); ("autobiography", "Biography"); ("memoir", "Biography");
    ("biographies", "Biography");
    ("self-help", "Self-Help"); ("self help", "Self-Help");
    ("personal development", "Self-Help"); ("motivation", "Self-Help");
    ("inspirational", "Self-Help");
    ("poetry", "Poetry"); ("poems", "Poetry"); ("verse", "Poetry"); ("poet", "Poetry") ].

(** Lines 74-87: the scores start at zero.  They are counts of matches, far
    below 2^53, where the binary64 increments of the source are exact. *)
Definition initialScores : list (string * nat) :=
  [ ("Sci-Fi", 0); ("Fantasy", 0); ("Mystery", 0); ("Philosophy", 0);
    ("Non-Fiction", 0); ("Literary Fiction", 0); ("Romance", 0); ("Horror", 0);
    ("Historical Fiction", 0); ("Biography", 0); ("Self-Help", 0); ("Poetry", 0) ].

(** [genreScores[genre] += 1] (line 93); every genre of [SUBJECT_TO_GENRE]
    is a key of the scores. *)
Definition increment (genre : string) (genreScores : list (string * nat)) : list (string * nat) :=
  map (λ e, if String.eqb e.1 genre then (e.1, e.2 + 1) else e) genreScores.

Section DetectGenre.

Context {lower : StringToLowerCase}.

(** Lines 90-95: one subject against every keyword. *)
Definition scoreSubject (genreScores : list (string * nat)) (subject : string)
    : list (string * nat) :=
  let lowerSubject := string_toLowerCase subject in
  fold_left (λ scores entry,
               if String_includes lowerSubject entry.1 then increment entry.2 scores else scores)
            SUBJECT_TO_GENRE genreScores.

(** Lines 99-106. *)
Definition highestScore (genreScores : list (string * nat)) : nat * string :=
  fold_left (λ best entry, if (best.1 <? entry.2)%nat then (entry.2, entry.1) else best)
            genreScores (0, "Literary Fiction").

(** Lines 70-109. *)
Definition detectGenre (subjects : list string) : string :=
  if (length subjects =? 0)%nat then "Literary Fiction"
  else (highestScore (fold_left scoreSubject subjects initialScores)).2.

End DetectGenre.

(** *** Vocabulary for the genre detection *)

(** The genres in the order the scores are read. *)
Definition genreOrder : list string := map fst initialScores.

(** The number of keywords of [genre] that occur in a lowered subject. *)
Definition keywordHits (table : list (string * string)) (lowerSubject genre : string) : nat :=
  length (filter (λ entry, String_includes lowerSubject entry.1 && String.eqb entry.2 genre = true)
                 table).

(** The number of (subject, keyword) matches that count for [genre]. *)
Definition hits {lower : StringToLowerCase} (subjects : list string) (genre : string) : nat :=
  sum_list (map (λ subject, keywordHits SUBJECT_TO_GENRE (string_toLowerCase subject) genre)
                subjects).

End SearchRoute.

Module BooksRoute.

(** Lines 197-210, as a finite map of the object's own properties. *)
Definition GENRE_TO_SUBJECTS : gmap string (list string) :=
  list_to_map
    [ ("Sci-Fi", ["science_fiction"; "sci-fi"; "futuristic"]);
      ("Non-Fiction", ["nonfiction"; "history"; "science"]);
      ("Literary Fiction", ["literary_fiction"; "classic_literature"; "fiction"]);
      ("Fantasy", ["fantasy"; "magic"; "epic_fantasy"]);
      ("Mystery", ["mystery"; "detective"; "crime_fiction"; "thriller"]);
      ("Philosophy", ["philosophy"; "ethics"; "metaphysics"]);
      ("Romance", ["romance"; "love_stories"; "romantic_fiction"]);
      ("Horror", ["horror"; "gothic"; "supernatural"; "scary"]);
      ("Historical Fiction", ["historical_fiction"; "historical_novel"]);
      ("Biography", ["biography"; "autobiography"; "memoir"]);
      ("Self-Help", ["self-help"; "personal_development"; "motivation"]);
      ("Poetry", ["poetry"; "poems"; "verse"]) ].

(** An error response: the status and the [error] field of the body. *)
Record ErrorResponse := {
  status : Z;
  error : string
}.

(** Lines 256-271 of [GET]: the checks on the [genre] parameter, up to the
    subject the upstream query is made with: [subjects[0]], which is
    [undefined] on an empty array, and also on the truthy value read for a
    genre that names an inherited property. *)
Definition subjectQuery (genre : option string) : ErrorResponse + option string :=
  if negb (truthyString genre)
  then inl {| status := 400; error := "Genre parameter is required" |}
  else
    match GENRE_TO_SUBJECTS !! default "" genre with
    | Some subjects => inr (head subjects)
    | None =>
        if inheritedKey (default "" genre) then inr None
        else inl {| status := 400; error := "Invalid genre" |}
    end.

End BooksRoute.

Module SentimentRoute.

Record BookInput := {
  id : string;
  title : string;
  author : string;
  genre : string;
  subjects : option (list string);
  description : option string
}.

(** Lines 417-429: the [fallbacks] object, as a finite map of its own
    properties; [getFallbackScores] reads it with the genre of a book, a
    plain key. *)
Definition fallbacks : gmap string SentimentScores :=
  list_to_map
    [ ("Sci-Fi", mkScores 0.5%float 0.9%float 0.5%float 0.7%float 0.7%float);
      ("Non-Fiction", mkScores 0.3%float 0.8%float 0.6%float 0.6%float 0.3%float);
      ("Literary Fiction", mkScores 0.6%float 0.2%float 0.4%float 0.8%float 0.3%float);
      ("Fantasy", mkScores 0.5%float 0.1%float 0.6%float 0.4%float 0.9%float);
      ("Mystery", mkScores 0.7%float 0.4%float 0.4%float 0.3%float 0.6%float);
      ("Philosophy", mkScores 0.4%float 0.3%float 0.5%float 1.0%float 0.1%float) ].

Definition getFallbackScores (genre : string) : SentimentScores :=
  default (mkScores 0.5%float 0.5%float 0.5%float 0.5%float 0.5%float) (fallbacks !! genre).

(** What one call of [generateText] does: it throws, or it resolves with an
    [output] that may be absent. *)
Inductive Generated :=
| Threw
| Output (output : option SentimentScores).

Definition BATCH_SIZE : nat := 5.

(** A response of [POST]. *)
Inductive Response :=
| Sentiments (sentiments : gmap string SentimentScores)
| Failed (status : Z) (error : string).

Section Post.

(** The outcome of the [generateText] call made for [books[i]]. *)
Variable generateText : nat → Generated.

(** Lines 353-372: the promise made for the book at index [i]. *)
Definition scoreBook (i : nat) (book : BookInput) : string * option SentimentScores :=
  match generateText i with
  | Output output => (id book, output)
  | Threw => (id book, Some (getFallbackScores (genre book)))
  end.

(** Lines 375-379: [results] is written with the plain identifiers of the
    books. *)
Definition storeResults (results : gmap string SentimentScores)
    (batchResults : list (string * option SentimentScores)) : gmap string SentimentScores :=
  fold_left (λ results result,
               match result.2 with
               | Some scores => <[result.1 := scores]> results
               | None => results
               end) batchResults results.

(** The values [i] takes in the loop of line 349. *)
Definition batchStarts (n : nat) : list nat :=
  map (λ k, k * BATCH_SIZE) (seq 0 ((n + BATCH_SIZE - 1) / BATCH_SIZE)).

(** Lines 349-380: one batch after the other, [books.slice(i, i + BATCH_SIZE)]
    each. *)
Definition runBatches (books : list BookInput) : gmap string SentimentScores :=
  fold_left (λ results i,
               let batch := take BATCH_SIZE (drop i books) in
               let batchResults := imap (λ k book, scoreBook (i + k) book) batch in
               storeResults results batchResults)
            (batchStarts (length books)) ∅.

(** Lines 337-387 on a body that parses to an array of book inputs. *)
Definition POST (books : list BookInput) : Response :=
  if (length books =? 0)%nat then Failed 400 "Books array is required"
  else Sentiments (runBatches books).

(** The results of the books stored one after the other, without batches. *)
Definition oneByOne (books : list BookInput) : gmap string SentimentScores :=
  storeResults ∅ (imap scoreBook books).

End Post.

(** The identifiers and the genres of the books are plain keys. *)
Definition plainBooks (books : list BookInput) : Prop :=
  Forall (λ b, plainKey (id b) ∧ plainKey (genre b)) books.

End SentimentRoute.

(** ** The cover background (src/components/BookCoverBackground.tsx) *)

Module BookCoverBackground.

(** [Math.max] and [Math.min] of two numbers: NaN if one of them is NaN, and
    [-0] counts as smaller than [+0]. *)
Definition Math_max (a b : Js.number) : Js.number :=
  if PrimFloat.is_nan a || PrimFloat.is_nan b then PrimFloat.nan
  else if PrimFloat.ltb a b then b
  else if PrimFloat.ltb b a then a
  else if PrimFloat.get_sign a then b else a.

Definition Math_min (a b : Js.number) : Js.number :=
  if PrimFloat.is_nan a || PrimFloat.is_nan b then PrimFloat.nan
  else if PrimFloat.ltb a b then a
  else if PrimFloat.ltb b a then b
  else if PrimFloat.get_sign a then a else b.

(** Line 41. *)
Definition clamp (v min max : Js.number) : Js.number :=
  Math_min (Math_max v min) max.

(** Line 9: an image is a URL or an object with a [src] and maybe an [alt]. *)
Inductive ImageItem :=
| ImageUrl (url : string)
| ImageObject (src : string) (alt : option string).

(** An element of [normalizedImages]. *)
Record Image := {
  src : string;
  alt : string
}.

(** Lines 23-30; the coordinates and sizes are small integers. *)
Record ItemDef := {
  item_src : string;
  item_alt : string;
  x : Z;
  y : Z;
  sizeX : Z;
  sizeY : Z
}.

(** A slot of [coords]. *)
Record Coord := {
  coord_x : Z;
  coord_y : Z;
  coord_sizeX : Z;
  coord_sizeY : Z
}.

Definition evenYs : list Z := [-4; -2; 0; 2; 4]%Z.
Definition oddYs : list Z := [-3; -1; 1; 3; 5]%Z.

(** Line 48: [Array.from({ length: seg }, (_, i) => -37 + i * 2)]. *)
Definition xCols (seg : nat) : list Z := map (λ i, (-37 + Z.of_nat i * 2)%Z) (seq 0 seg).

(** Lines 52-55. *)
Definition coordsOf (seg : nat) : list Coord :=
  List.concat (imap (λ c x,
    let ys := if (c mod 2 =? 0)%nat then evenYs else oddYs in
    map (λ y, {| coord_x := x; coord_y := y; coord_sizeX := 2; coord_sizeY := 2 |}) ys)
    (xCols seg)).

(** Lines 62-67: [image.src || ''] and [image.alt || '']. *)
Definition normalize (image : ImageItem) : Image :=
  match image with
  | ImageUrl url => {| src := url; alt := "" |}
  | ImageObject s a => {| src := s; alt := default "" a |}
  end.

Definition noImage : Image := {| src := ""; alt := "" |}.

(** [usedImages[i]]; the loops of lines 73-84 stay below the length. *)
Definition imageAt (usedImages : list Image) (i : nat) : Image := nth i usedImages noImage.

(** Line 70. *)
Definition fillSlots (totalSlots : nat) (normalizedImages : list Image) : list Image :=
  map (λ i, imageAt normalizedImages (i mod length normalizedImages)) (seq 0 totalSlots).

(** Lines 75-82: the inner loop over [j], with its [break]. *)
Fixpoint swapWithNextDifferent (usedImages : list Image) (i : nat) (js : list nat) : list Image :=
  match js with
  | [] => usedImages
  | j :: rest =>
      if negb (String.eqb (src (imageAt usedImages j)) (src (imageAt usedImages i)))
      then
        let tmp := imageAt usedImages i in
        <[j := tmp]> (<[i := imageAt usedImages j]> usedImages)
      else swapWithNextDifferent usedImages i rest
  end.

(** Lines 73-84: one round of the outer loop. *)
Definition shuffleStep (usedImages : list Image) (i : nat) : list Image :=
  if String.eqb (src (imageAt usedImages i)) (src (imageAt usedImages (i - 1)))
  then swapWithNextDifferent usedImages i (seq (i + 1) (length usedImages - (i + 1)))
  else usedImages.

Definition shuffle (usedImages : list Image) : list Image :=
  fold_left shuffleStep (seq 1 (length usedImages - 1)) usedImages.

(** Lines 47-91. *)
Definition buildItems (pool : list ImageItem) (seg : nat) : list ItemDef :=
  let coords := coordsOf seg in
  let totalSlots := length coords in
  if (length pool =? 0)%nat then
    map (λ c, {| item_src := ""; item_alt := "";
                 x := coord_x c; y := coord_y c;
                 sizeX := coord_sizeX c; sizeY := coord_sizeY c |}) coords
  else
    let normalizedImages := map normalize pool in
    let usedImages := shuffle (fillSlots totalSlots normalizedImages) in
    imap (λ i c, {| item_src := src (imageAt usedImages i);
                    item_alt := alt (imageAt usedImages i);
                    x := coord_x c; y := coord_y c;
                    sizeX := coord_sizeX c; sizeY := coord_sizeY c |}) coords.

(** *** Vocabulary *)

(** If slot [i] shows the image of the slot before it, every later slot
    shows it too. *)
Definition settledAt (usedImages : list Image) (i : nat) : Prop :=
  src (imageAt usedImages i) = src (imageAt usedImages (i - 1)) →
  ∀ k, i ≤ k → k < length usedImages →
    src (imageAt usedImages k) = src (imageAt usedImages i).

(** Two neighbouring slots show the same image only inside a run of that
    image which lasts to the end of the list. *)
Definition repeatsOnlyAtEnd (usedImages : list Image) : Prop :=
  ∀ i, 1 ≤ i → i < length usedImages → settledAt usedImages i.

(** The image shown by an item. *)
Definition imageOf (item : ItemDef) : Image := {| src := item_src item; alt := item_alt item |}.

End BookCoverBackground.

(** *** fetchBooksForGenre (src/app/page.tsx, lines 418-494) *)

Inductive LoadingState := idle | fetching_books | generating_sentiments.

(** The state the callback reads and sets: [genreBooks], [error],
    [loadingState] and the map behind [booksCacheRef]. *)
Module PageState.
Record t := {
  genreBooks : list BookNode;
  error : option string;
  loadingState : LoadingState;
  booksCache : gmap string (list BookNode)
}.
End PageState.

(** What awaiting a [fetch] and the [json()] of its response gives: the
    promise rejects, with the message of an [Error] or with another value;
    the response is not ok; or the body parses to [data]. *)
Inductive Fetched (A : Type) :=
| Rejected (message : option string)
| NotOk
| Body (data : A).

Arguments Rejected {A} message.
Arguments NotOk {A}.
Arguments Body {A} data.

(** Line 490: [err instanceof Error ? err.message : "An error occurred"]. *)
Definition errorMessage (message : option string) : string :=
  default "An error occurred" message.

(** The state after the [catch] and [finally] blocks. *)
Definition failedWith (st : PageState.t) (message : string) : PageState.t :=
  {| PageState.genreBooks := PageState.genreBooks st;
     PageState.error := Some message;
     PageState.loadingState := idle;
     PageState.booksCache := PageState.booksCache st |}.

(** One call of [fetchBooksForGenre], run to completion against the two
    responses it awaits. *)
Definition fetchBooksForGenre (genre : string)
    (booksResponse : Fetched (list ApiBook.t))
    (sentimentResponse : Fetched (gmap string SentimentScores))
    (st : PageState.t) : PageState.t :=
  match PageState.booksCache st !! genre with
  | Some cached =>
      {| PageState.genreBooks := cached;
         PageState.error := PageState.error st;
         PageState.loadingState := PageState.loadingState st;
         PageState.booksCache := PageState.booksCache st |}
  | None =>
      match booksResponse with
      | Rejected message => failedWith st (errorMessage message)
      | NotOk => failedWith st "Failed to fetch books from Open Library"
      | Body books =>
          if (length books =? 0)%nat then failedWith st "No books found for this genre"
          else
            match sentimentResponse with
            | Rejected message => failedWith st (errorMessage message)
            | NotOk => failedWith st "Failed to generate sentiment scores"
            | Body sentiments =>
                let booksWithSentiments := booksWithSentiments sentiments books in
                {| PageState.genreBooks := booksWithSentiments;
                   PageState.error := None;
                   PageState.loadingState := idle;
                   PageState.booksCache :=
                     <[genre := booksWithSentiments]> (PageState.booksCache st) |}
            end
      end
  end.

(** The call went through both requests and stored its books. *)
Definition succeeded (booksResponse : Fetched (list ApiBook.t))
    (sentimentResponse : Fetched (gmap string SentimentScores)) : Prop :=
  ∃ books sentiments,
    booksResponse = Body books ∧ books ≠ [] ∧ sentimentResponse = Body sentiments.

(** *** handleSearchBookSelect and handleBackToGenres (lines 553-714)

    Their effect on the state that [fetchBooksForGenre] reads and sets, each
    run to completion; the other setters of the two callbacks (highlighted
    book, selected genre, view mode, selection) are outside [PageState.t]. *)








(** *** Example inputs *)

Definition dune : ApiBook.t :=
  {| ApiBook.id := "OL893415W"; ApiBook.title := "Dune"; ApiBook.author := "Frank Herbert";
     ApiBook.genre := "Sci-Fi"; ApiBook.year := 1965%float;
     ApiBook.coverUrl := None; ApiBook.subjects := ["Science fiction"];
     ApiBook.description := None |}.

Definition duneInput : SentimentRoute.BookInput :=
  {| SentimentRoute.id := "OL893415W"; SentimentRoute.title := "Dune";
     SentimentRoute.author := "Frank Herbert"; SentimentRoute.genre := "Sci-Fi";
     SentimentRoute.subjects := Some ["Science fiction"];
     SentimentRoute.description := None |}.

(** Six fetched books and the sentiments returned for them: the profiles of
    [sixBooks]. *)
Definition apiBook (ident : string) : ApiBook.t :=
  {| ApiBook.id := ident; ApiBook.title := ""; ApiBook.author := "";
     ApiBook.genre := "Sci-Fi"; ApiBook.year := 0%float;
     ApiBook.coverUrl := None; ApiBook.subjects := [];
     ApiBook.description := None |}.

Definition sixApiBooks : list ApiBook.t :=
  [apiBook "a"; apiBook "b"; apiBook "c"; apiBook "d"; apiBook "e"; apiBook "f"].

Definition sixSentiments : gmap string SentimentScores :=
  list_to_map [("a", axis1); ("b", axis1); ("c", axis1); ("d", axis1);
               ("e", axis2); ("f", axis3)].


(** The page before any genre is loaded. *)
Definition initialPage : PageState.t :=
  {| PageState.genreBooks := []; PageState.error := None;
     PageState.loadingState := idle; PageState.booksCache := ∅ |}.

(** A pool in which an image occurs twice. *)
Definition threeCovers : list BookCoverBackground.ImageItem :=
  [ BookCoverBackground.ImageUrl "a"; BookCoverBackground.ImageUrl "a";
    BookCoverBackground.ImageUrl "b" ].

(** * Verification *)

Section ExplorerFacts.

Context {engine : NumberToString}.

(** ** Union-find: roots, compression and union *)

Section UnionFind.

Implicit Types (parent p q : list nat) (x y r k : nat).

Lemma reach_det p k x r :
  reach p k x r → ∀ k' r', reach p k' x r' → k = k' ∧ r = r'.
Proof.
  induction 1 as [r Hr | k x y r Hx Hne Hy IH]; intros k' r' H'.
  - inversion H' as [? Hr' | ? ? y' ? Hx' Hne' _]; subst; [done | congruence].
  - inversion H' as [? Hr' | k'' ? y' ? Hx' Hne' Hy']; subst; [congruence |].
    assert (y' = y) as -> by congruence.
    destruct (IH _ _ Hy') as [-> ->]. done.
Qed.

Lemma rootOf_det p x r r' : rootOf p x r → rootOf p x r' → r = r'.
Proof. intros [k H] [k' H']. by destruct (reach_det _ _ _ _ H _ _ H'). Qed.

Lemma reach_is_root p k x r : reach p k x r → p !! r = Some r.
Proof. induction 1; done. Qed.

Lemma reach_lt p k x r : reach p k x r → x < length p.
Proof. destruct 1; by eapply lookup_lt_Some. Qed.

Lemma rootOf_lt p x r : rootOf p x r → x < length p ∧ r < length p.
Proof.
  intros [k H]. split; [by eapply reach_lt |].
  eapply lookup_lt_Some, reach_is_root, H.
Qed.

Lemma rootOf_root p r : p !! r = Some r → rootOf p r r.
Proof. exists 0. by constructor. Qed.

Lemma rootOf_is_root p x r : rootOf p x r → p !! r = Some r.
Proof. intros [k H]. by eapply reach_is_root. Qed.

Lemma rootOf_of_root p x r : p !! x = Some x → rootOf p x r → r = x.
Proof. intros Hx H. eapply rootOf_det; [exact H | by apply rootOf_root]. Qed.

Lemma rootOf_step p x y r : p !! x = Some y → rootOf p y r → rootOf p x r.
Proof.
  intros Hx [k H]. destruct (decide (y = x)) as [->|Hne]; [by exists k |].
  exists (S k). by econstructor.
Qed.

(** The nodes met on the way to the root are pairwise distinct, so a path has
    fewer steps than the array has cells. *)
Lemma reach_path p k x r :
  reach p k x r →
  ∃ l, length l = S k ∧ NoDup l ∧
       ∀ y, y ∈ l → y < length p ∧ ∃ k', k' ≤ k ∧ reach p k' y r.
Proof.
  induction 1 as [r Hr | k x y r Hx Hne Hy (l & Hlen & Hnd & Hl)].
  - exists [r]. split_and!; [done | apply NoDup_singleton |].
    intros y ->%list_elem_of_singleton. split; [by eapply lookup_lt_Some |].
    exists 0. split; [done | by constructor].
  - exists (x :: l). split_and!; [simpl; lia | |].
    + constructor; [| done]. intros Hin.
      destruct (Hl _ Hin) as (_ & k' & Hk' & Hreach).
      assert (reach p (S k) x r) as Hsk by (by econstructor).
      destruct (reach_det _ _ _ _ Hsk _ _ Hreach) as [<- _]. lia.
    + intros z [-> | Hin]%elem_of_cons.
      * split; [by eapply lookup_lt_Some |]. exists (S k). split; [done | by econstructor].
      * destruct (Hl _ Hin) as (Hlt & k' & Hk' & Hreach). split; [done |].
        exists k'. split; [lia | done].
Qed.

Lemma reach_bound p k x r : reach p k x r → k < length p.
Proof.
  intros (l & Hlen & Hnd & Hl)%reach_path.
  assert (l ⊆+ seq 0 (length p)) as Hsub.
  { apply NoDup_submseteq; [done |]. intros y Hy.
    apply elem_of_seq. destruct (Hl _ Hy). lia. }
  apply submseteq_length in Hsub. rewrite length_seq in Hsub. lia.
Qed.

(** Redirecting a non-root [x] to its own root keeps every root. *)
Lemma compress_rootOf q x r :
  rootOf q x r → x ≠ r →
  ∀ z r', rootOf q z r' → rootOf (<[x := r]> q) z r'.
Proof.
  intros Hx Hne z r' [k Hz].
  induction Hz as [r' Hr' | k z w r' Hz Hwz Hw IH].
  - apply rootOf_root. rewrite list_lookup_insert_ne; [done |].
    intros ->. apply Hne. symmetry. by eapply rootOf_of_root.
  - destruct (decide (z = x)) as [-> | Hzx].
    + assert (r' = r) as ->.
      { eapply rootOf_det; [| exact Hx]. exists (S k). by econstructor. }
      eapply rootOf_step.
      * apply list_lookup_insert_eq. by eapply lookup_lt_Some.
      * apply rootOf_root. rewrite list_lookup_insert_ne; [| done].
        by eapply rootOf_is_root.
    + eapply rootOf_step; [| exact IH].
      by rewrite list_lookup_insert_ne.
Qed.

(** [find] returns the root and an array with the same roots. *)
Lemma find_reach fuel p k x r :
  reach p k x r → k < fuel →
  ∃ p', find fuel p x = Some (p', r) ∧ length p' = length p ∧
        ∀ z r', rootOf p z r' → rootOf p' z r'.
Proof.
  intros H. revert fuel.
  induction H as [r Hr | k x y r Hx Hne Hy IH]; intros fuel Hfuel.
  - destruct fuel as [| fuel]; [lia |]. exists p. simpl. rewrite Hr. simpl.
    rewrite decide_False by (intros ?; done). done.
  - destruct fuel as [| fuel]; [lia |].
    destruct (IH fuel) as (p1 & Hfind & Hlen & Hroots); [lia |].
    exists (<[x := r]> p1). simpl. rewrite Hx. simpl.
    rewrite decide_True by done. rewrite Hfind. simpl.
    split_and!; [done | by rewrite length_insert |].
    intros z r' Hz. apply compress_rootOf.
    + apply Hroots. exists (S k). by econstructor.
    + intros ->. apply reach_is_root in Hy. congruence.
    + by apply Hroots.
Qed.

Lemma forest_preserved p p' :
  forest p → length p' = length p →
  (∀ z r', rootOf p z r' → rootOf p' z r') → forest p'.
Proof.
  intros Hf Hlen Hroots x Hx. rewrite Hlen in Hx.
  destruct (Hf x Hx) as [r Hr]. exists r. by apply Hroots.
Qed.

Lemma rootOf_back p p' z r' :
  forest p → length p' = length p →
  (∀ z r', rootOf p z r' → rootOf p' z r') →
  rootOf p' z r' → rootOf p z r'.
Proof.
  intros Hf Hlen Hroots Hz.
  destruct (Hf z) as [r Hr]; [rewrite <- Hlen; by destruct (rootOf_lt _ _ _ Hz) |].
  by rewrite (rootOf_det _ _ _ _ Hz (Hroots _ _ Hr)).
Qed.

Lemma find_forest p x :
  forest p → x < length p →
  ∃ p' r, find (length p) p x = Some (p', r) ∧ rootOf p x r ∧
          length p' = length p ∧ forest p' ∧
          ∀ z r', rootOf p z r' ↔ rootOf p' z r'.
Proof.
  intros Hf Hx. destruct (Hf x Hx) as [r [k Hr]].
  destruct (find_reach (length p) p k x r Hr) as (p' & Hfind & Hlen & Hroots);
    [by eapply reach_bound |].
  exists p', r. split_and!; [done | by exists k | done | by eapply forest_preserved |].
  intros z r'. split; [apply Hroots | by apply rootOf_back].
Qed.

(** Hanging the root [rx] under another root [ry] moves exactly the
    component of [rx]. *)
Lemma link_rootOf q rx ry :
  q !! rx = Some rx → q !! ry = Some ry → rx ≠ ry →
  ∀ z r', rootOf q z r' →
          rootOf (<[rx := ry]> q) z (if decide (r' = rx) then ry else r').
Proof.
  intros Hrx Hry Hne z r' [k Hz].
  induction Hz as [r' Hr' | k z w r' Hz Hwz Hw IH].
  - case_decide as Hd.
    + subst r'. eapply rootOf_step.
      * apply list_lookup_insert_eq. by eapply lookup_lt_Some.
      * apply rootOf_root. by rewrite list_lookup_insert_ne.
    + apply rootOf_root. by rewrite list_lookup_insert_ne.
  - eapply rootOf_step; [| exact IH].
    rewrite list_lookup_insert_ne; [done |]. intros ->. congruence.
Qed.

Lemma union_forest p x y :
  forest p → x < length p → y < length p →
  ∃ p' rx ry, union (length p) p x y = Some p' ∧
    rootOf p x rx ∧ rootOf p y ry ∧
    length p' = length p ∧ forest p' ∧
    ∀ z r', rootOf p z r' → rootOf p' z (if decide (r' = rx) then ry else r').
Proof.
  intros Hf Hx Hy.
  destruct (find_forest p x Hf Hx) as (p1 & rx & Hfx & Hrx & Hlen1 & Hf1 & Hroots1).
  destruct (find_forest p1 y Hf1) as (p2 & ry & Hfy & Hry & Hlen2 & Hf2 & Hroots2);
    [by rewrite Hlen1 |].
  rewrite Hlen1 in Hfy.
  exists (if decide (rx ≠ ry) then <[rx := ry]> p2 else p2), rx, ry.
  unfold union. rewrite Hfx. simpl. rewrite Hfy. simpl.
  assert (∀ z r', rootOf p z r' → rootOf p2 z r') as Hroots.
  { intros z r' Hz. by apply Hroots2, Hroots1. }
  split_and!; [done | done | by apply Hroots1 | .. ].
  - case_decide; rewrite ?length_insert; congruence.
  - case_decide as Hd; [| done].
    intros z Hz. rewrite length_insert in Hz.
    destruct (Hf2 z Hz) as [r' Hr']. eexists.
    apply link_rootOf; [| | done | exact Hr'].
    + eapply rootOf_is_root, Hroots, Hrx.
    + eapply rootOf_is_root, Hroots2, Hry.
  - intros z r' Hz. case_decide as Hd.
    + apply link_rootOf; [| | done | by apply Hroots].
      * eapply rootOf_is_root, Hroots, Hrx.
      * eapply rootOf_is_root, Hroots2, Hry.
    + subst ry.
      case_decide; subst; by apply Hroots.
Qed.

End UnionFind.

(** ** Sorting, pair enumeration and greedy selection *)

Lemma sort_insert_perm {A : Type} (cmp : A → A → Js.number) x l :
  Js.sort_insert cmp x l ≡ₚ x :: l.
Proof.
  induction l as [| y l IH]; simpl; [done |].
  destruct (Js.lt _ _); [done |]. rewrite IH. apply Permutation_swap.
Qed.

Lemma sort_perm {A : Type} (cmp : A → A → Js.number) l : Js.sort cmp l ≡ₚ l.
Proof.
  unfold Js.sort.
  assert (∀ acc, fold_left (λ acc x, Js.sort_insert cmp x acc) l acc ≡ₚ acc ++ l) as H.
  { induction l as [| x l IH]; intros acc; simpl; [by rewrite app_nil_r |].
    rewrite IH, sort_insert_perm. simpl. apply Permutation_middle. }
  apply H.
Qed.

Lemma sort_length {A : Type} (cmp : A → A → Js.number) l : length (Js.sort cmp l) = length l.
Proof. by rewrite sort_perm. Qed.

Lemma allPairs_ordered nodes pr :
  pr ∈ allPairs nodes → pair_i pr < pair_j pr ∧ pair_j pr < length nodes.
Proof.
  unfold allPairs. intros Hin.
  apply list_elem_of_In, in_flat_map in Hin as (i & Hi & Hin).
  apply in_map_iff in Hin as (j & <- & Hj).
  apply in_seq in Hi, Hj. simpl. lia.
Qed.

Lemma degreeIn_app v l1 l2 : degreeIn v (l1 ++ l2) = degreeIn v l1 + degreeIn v l2.
Proof. unfold degreeIn. by rewrite filter_app, length_app. Qed.

Lemma degreeIn_single v pr :
  degreeIn v [pr] = if incident v pr then 1 else 0.
Proof.
  unfold degreeIn. rewrite filter_cons, filter_nil.
  destruct (incident v pr); by case_decide.
Qed.

Lemma connectionCount_insert counts k c v :
  connectionCount (<[k := c]> counts) v = if decide (k = v) then c else connectionCount counts v.
Proof. unfold connectionCount. rewrite lookup_insert. by case_decide. Qed.

(** The counters mirror the degrees in the selected list, and no degree
    exceeds the cap. *)
Lemma greedySelect_degree target pairs selected counts :
  (∀ pr, pr ∈ pairs → pair_i pr ≠ pair_j pr) →
  (∀ v, connectionCount counts v = degreeIn v selected) →
  (∀ v, degreeIn v selected ≤ maxConnectionsPerNode) →
  ∀ v, degreeIn v (greedySelect target pairs selected counts).1 ≤ maxConnectionsPerNode.
Proof.
  revert selected counts.
  induction pairs as [| pr rest IH]; intros selected counts Hne Hcnt Hdeg; simpl; [done |].
  assert (∀ pr', pr' ∈ rest → pair_i pr' ≠ pair_j pr') as Hne'.
  { intros pr' Hin. apply Hne. by right. }
  destruct (_ <? _) eqn:Hi; simpl; [| by apply IH].
  destruct (connectionCount counts (pair_j pr) <? _) eqn:Hj; simpl; [| by apply IH].
  apply Nat.ltb_lt in Hi, Hj.
  assert (pair_i pr ≠ pair_j pr) as Hij by (apply Hne; by left).
  assert (∀ v, degreeIn v (selected ++ [pr]) ≤ maxConnectionsPerNode) as Hdeg'.
  { intros v. rewrite degreeIn_app, degreeIn_single. unfold incident.
    destruct (Nat.eqb_spec (pair_i pr) v) as [<- |]; simpl.
    - rewrite <- Hcnt. lia.
    - destruct (Nat.eqb_spec (pair_j pr) v) as [<- |]; [rewrite <- Hcnt; lia |].
      specialize (Hdeg v). lia. }
  assert (∀ v, connectionCount (<[pair_j pr := connectionCount counts (pair_j pr) + 1]>
                 (<[pair_i pr := connectionCount counts (pair_i pr) + 1]> counts)) v
               = degreeIn v (selected ++ [pr])) as Hcnt'.
  { intros v. rewrite !connectionCount_insert, degreeIn_app, degreeIn_single. unfold incident.
    destruct (decide (pair_j pr = v)) as [Hjv | Hjv], (decide (pair_i pr = v)) as [Hiv | Hiv].
    - congruence.
    - subst v. rewrite Nat.eqb_refl, orb_true_r. by rewrite Hcnt.
    - subst v. rewrite Nat.eqb_refl. simpl. by rewrite Hcnt.
    - apply Nat.eqb_neq in Hiv, Hjv. rewrite Hiv, Hjv. simpl. rewrite Hcnt. lia. }
  destruct (_ <=? _); simpl; [done |]. by apply IH.
Qed.

Lemma greedySelect_length target pairs selected counts :
  length selected < target →
  length (greedySelect target pairs selected counts).1 ≤ target.
Proof.
  revert selected counts.
  induction pairs as [| pr rest IH]; intros selected counts Hlt; simpl; [lia |].
  destruct (_ && _); [| by apply IH].
  destruct (Nat.leb_spec target (length (selected ++ [pr]))) as [Hle | Hgt]; simpl.
  - rewrite length_app in *. simpl in *. lia.
  - by apply IH.
Qed.

Lemma greedySelect_subset target pairs selected counts pr :
  pr ∈ (greedySelect target pairs selected counts).1 → pr ∈ selected ∨ pr ∈ pairs.
Proof.
  revert selected counts.
  induction pairs as [| pr' rest IH]; intros selected counts; simpl; [by left |].
  destruct (_ && _).
  - destruct (_ <=? _); simpl.
    + intros [? | ->%list_elem_of_singleton]%elem_of_app; [by left | right; by left].
    + intros [[? | ->%list_elem_of_singleton]%elem_of_app | ?]%IH;
        [by left | right; by left | right; by right].
  - intros [? | ?]%IH; [by left | right; by right].
Qed.

Lemma selectedPairsOf_ordered nodes pr :
  pr ∈ selectedPairsOf nodes → pair_i pr < pair_j pr ∧ pair_j pr < length nodes.
Proof.
  unfold selectedPairsOf.
  intros [Hin | Hin]%greedySelect_subset; [by apply elem_of_nil in Hin |].
  rewrite sort_perm in Hin. by apply allPairs_ordered.
Qed.

Lemma selectedPairsOf_degree nodes v :
  degreeIn v (selectedPairsOf nodes) ≤ maxConnectionsPerNode.
Proof.
  unfold selectedPairsOf. apply greedySelect_degree.
  - intros pr Hin. rewrite sort_perm in Hin. apply allPairs_ordered in Hin. lia.
  - intros v'. done.
  - intros v'. unfold degreeIn. simpl. lia.
Qed.

Lemma selectedPairsOf_length nodes :
  length (selectedPairsOf nodes) ≤ targetTotalConnections (length nodes).
Proof.
  unfold selectedPairsOf. destruct nodes as [| x nodes]; [done |].
  apply greedySelect_length. unfold targetTotalConnections.
  rewrite length_cons. generalize (length nodes). intros n.
  change (length []) with 0. apply Nat.div_str_pos. lia.
Qed.

Lemma prunedPairsOf_length nodes :
  length (prunedPairsOf nodes) = (7 * length (selectedPairsOf nodes) + 9) / 10.
Proof.
  unfold prunedPairsOf, Js.slice0, edgesToKeep.
  rewrite length_take, sort_length.
  set (s := length (selectedPairsOf nodes)).
  clearbody s.
  assert ((7 * s + 9) / 10 ≤ s) by (apply Nat.lt_succ_r, Nat.Div0.div_lt_upper_bound; lia).
  destruct (decide (s = 0)) as [-> | Hs]; [done |].
  assert (1 ≤ (7 * s + 9) / 10) by (apply Nat.div_le_lower_bound; lia).
  lia.
Qed.

Lemma prunedPairsOf_ordered nodes pr :
  pr ∈ prunedPairsOf nodes → pair_i pr < pair_j pr ∧ pair_j pr < length nodes.
Proof.
  unfold prunedPairsOf, Js.slice0. intros Hin.
  apply elem_of_take in Hin as (i & Hin & _).
  apply list_elem_of_lookup_2 in Hin. rewrite sort_perm in Hin.
  by apply selectedPairsOf_ordered.
Qed.

(** ** The identifier index *)

Lemma nodeIdToIndexOf_snoc nodes x :
  nodeIdToIndexOf (nodes ++ [x]) = <[id x := length nodes]> (nodeIdToIndexOf nodes).
Proof.
  unfold nodeIdToIndexOf. rewrite imap_app, fold_left_app. simpl.
  by rewrite Nat.add_0_r.
Qed.

Lemma nodeAt_app_l nodes x a : a < length nodes → nodeAt (nodes ++ [x]) a = nodeAt nodes a.
Proof. intros Ha. unfold nodeAt. by rewrite app_nth1. Qed.

Lemma nodeAt_app_r nodes x : nodeAt (nodes ++ [x]) (length nodes) = x.
Proof. unfold nodeAt. by rewrite nth_middle. Qed.

Lemma nodeAt_elem_of nodes a : a < length nodes → nodeAt nodes a ∈ nodes.
Proof. intros Ha. apply list_elem_of_In, nth_In, Ha. Qed.

Lemma elem_of_nodeAt nodes x : x ∈ nodes → ∃ a, a < length nodes ∧ nodeAt nodes a = x.
Proof.
  intros (a & Ha)%list_elem_of_lookup_1. exists a.
  split; [by eapply lookup_lt_Some | by apply nth_lookup_Some].
Qed.

Lemma nodeIdToIndexOf_Some nodes s a :
  nodeIdToIndexOf nodes !! s = Some a → a < length nodes ∧ id (nodeAt nodes a) = s.
Proof.
  induction nodes as [| x nodes IH] using rev_ind; [done |].
  rewrite nodeIdToIndexOf_snoc, lookup_insert, length_app. simpl.
  case_decide as Hd.
  - intros [= <-]. split; [lia |]. by rewrite nodeAt_app_r.
  - intros [Hlt Hid]%IH. split; [lia |]. by rewrite nodeAt_app_l.
Qed.

Lemma nodeIdToIndexOf_None nodes s :
  (∀ x, x ∈ nodes → id x ≠ s) → nodeIdToIndexOf nodes !! s = None.
Proof.
  intros Hs. destruct (nodeIdToIndexOf nodes !! s) as [a |] eqn:E; [| done].
  apply nodeIdToIndexOf_Some in E as [Hlt Hid].
  destruct (Hs (nodeAt nodes a)); [by apply nodeAt_elem_of | done].
Qed.

Lemma nodeIdToIndexOf_NoDup nodes a :
  NoDup (map id nodes) → a < length nodes →
  nodeIdToIndexOf nodes !! id (nodeAt nodes a) = Some a.
Proof.
  induction nodes as [| x nodes IH] using rev_ind; [simpl; lia |].
  rewrite map_app, length_app. simpl.
  intros (Hnd & Hx & _)%NoDup_app Ha.
  rewrite nodeIdToIndexOf_snoc.
  destruct (decide (a = length nodes)) as [-> | Hne].
  - by rewrite nodeAt_app_r, lookup_insert_eq.
  - rewrite nodeAt_app_l by lia. rewrite lookup_insert_ne.
    + apply IH; [done | lia].
    + intros Heq. apply (Hx (id x)); [| by left].
      rewrite Heq. apply list_elem_of_In, in_map, list_elem_of_In, nodeAt_elem_of. lia.
Qed.

(** ** Components: merging links, collecting roots *)

Section Components.

Implicit Types (p q : list nat) (R : nat → nat → Prop).

Lemma sameRoots_refl p : sameRoots p p.
Proof. by split. Qed.

Lemma sameRoots_trans p1 p2 p3 : sameRoots p1 p2 → sameRoots p2 p3 → sameRoots p1 p3.
Proof.
  intros [Hl1 H1] [Hl2 H2]. split; [congruence |].
  intros z r. by rewrite H1, H2.
Qed.

Lemma sameRoots_forest p p' : sameRoots p p' → forest p → forest p'.
Proof.
  intros [Hlen H] Hf. eapply forest_preserved; [done | done |].
  intros z r. apply H.
Qed.

Lemma find_ok p x :
  forest p → x < length p →
  ∃ p' r, find (length p) p x = Some (p', r) ∧ rootOf p x r ∧ sameRoots p p'.
Proof.
  intros Hf Hx.
  destruct (find_forest p x Hf Hx) as (p' & r & Hfind & Hr & Hlen & _ & Hroots).
  exists p', r. split_and!; [done | done |]. split; [done | exact Hroots].
Qed.

Lemma sameRoots_refines p p' R : sameRoots p p' → refines p R → refines p' R.
Proof.
  intros [_ H] Href x y (r & Hx & Hy). apply Href. exists r. by rewrite !H.
Qed.

Lemma sameRoots_sameRoot p p' x y : sameRoots p p' → sameRoot p x y ↔ sameRoot p' x y.
Proof.
  intros [_ H]. unfold sameRoot. split; intros (r & ? & ?); exists r; by rewrite ?H in *.
Qed.

Lemma union_ok p x y :
  forest p → x < length p → y < length p →
  ∃ p' rx ry, union (length p) p x y = Some p' ∧
    rootOf p x rx ∧ rootOf p y ry ∧ length p' = length p ∧ forest p' ∧
    (∀ z r, rootOf p z r → rootOf p' z (if decide (r = rx) then ry else r)) ∧
    (∀ a b, sameRoot p a b → sameRoot p' a b) ∧
    sameRoot p' x y ∧
    (∀ R, Symmetric R → Transitive R → refines p R → R x y → refines p' R).
Proof.
  intros Hf Hx Hy.
  destruct (union_forest p x y Hf Hx Hy)
    as (p' & rx & ry & Hun & Hrx & Hry & Hlen & Hf' & Hmove).
  exists p', rx, ry. split_and!; try done.
  - intros a b (r & Ha & Hb). eexists. split; by apply Hmove.
  - exists ry. split.
    + generalize (Hmove _ _ Hrx). by rewrite decide_True.
    + generalize (Hmove _ _ Hry). by case_decide.
  - intros R Hsym Htrans Href Hxy a b (r & Ha & Hb).
    destruct (Hf a) as [ra Hra].
    { rewrite <- Hlen. by destruct (rootOf_lt _ _ _ Ha). }
    destruct (Hf b) as [rb Hrb].
    { rewrite <- Hlen. by destruct (rootOf_lt _ _ _ Hb). }
    pose proof (rootOf_det _ _ _ _ Ha (Hmove _ _ Hra)) as Er.
    pose proof (rootOf_det _ _ _ _ Hb (Hmove _ _ Hrb)) as Er'.
    destruct (decide (ra = rx)) as [-> | Hna], (decide (rb = rx)) as [-> | Hnb]; subst.
    + apply Href; eexists; split; eassumption.
    + transitivity x; [apply Href; eexists; split; eassumption |].
      transitivity y; [exact Hxy |]. apply Href; eexists; split; eassumption.
    + transitivity y; [apply Href; eexists; split; eassumption |].
      transitivity x; [symmetry; exact Hxy |]. apply Href; eexists; split; eassumption.
    + apply Href; eexists; split; eassumption.
Qed.

Lemma unionLinks_ok idx links p :
  forest p → (∀ s a, idx !! s = Some a → a < length p) →
  ∃ p', unionLinks (length p) idx links p = Some p' ∧ length p' = length p ∧ forest p' ∧
    (∀ x y, sameRoot p x y → sameRoot p' x y) ∧
    (∀ l a b, l ∈ links → idx !! source l = Some a → idx !! target l = Some b →
              sameRoot p' a b) ∧
    (∀ R, Symmetric R → Transitive R → refines p R →
          (∀ l a b, l ∈ links → idx !! source l = Some a → idx !! target l = Some b → R a b) →
          refines p' R).
Proof.
  intros Hf Hidx. revert p Hf Hidx.
  induction links as [| l links IH]; intros p Hf Hidx; simpl.
  - exists p. split_and!; try done. intros l a b Hin. by apply elem_of_nil in Hin.
  - destruct (idx !! source l) as [a |] eqn:Ea, (idx !! target l) as [b |] eqn:Eb.
    2-4: destruct (IH p Hf Hidx) as (p' & Hun & Hlen & Hf' & Hmono & Hcomp & Hsound);
      exists p'; (split_and!; try done);
      [ intros l' a' b' [-> | Hin]%elem_of_cons ?; [congruence | by eapply Hcomp]
      | intros R ? ? ? HR; apply Hsound; try done;
        intros l' a' b' Hin; apply HR; by right ].
    destruct (union_ok p a b Hf) as (p1 & ra & rb & Hun & _ & _ & Hlen1 & Hf1 & _ & Hmono1 & Hab & Hsound1);
      [by eapply Hidx | by eapply Hidx |].
    rewrite Hun. simpl.
    destruct (IH p1 Hf1) as (p' & Hun' & Hlen' & Hf' & Hmono & Hcomp & Hsound).
    { intros s c Hs. rewrite Hlen1. by eapply Hidx. }
    rewrite Hlen1 in Hun'. exists p'. split_and!; try done; try congruence.
    + intros x y Hxy. by apply Hmono, Hmono1.
    + intros l' a' b' [-> | Hin]%elem_of_cons Ha' Hb'; [| by eapply Hcomp].
      apply Hmono. congruence.
    + intros R Hsym Htrans Href HR. apply Hsound; try done.
      * apply Hsound1; try done. eapply HR; [by left | done | done].
      * intros l' a' b' Hin. apply HR. by right.
Qed.

Lemma setAdd_elem_of x y s : y ∈ setAdd x s ↔ y = x ∨ y ∈ s.
Proof.
  unfold setAdd. case_decide; [| rewrite elem_of_app, list_elem_of_singleton]; naive_solver.
Qed.

Lemma setAdd_NoDup x s : NoDup s → NoDup (setAdd x s).
Proof.
  unfold setAdd. case_decide; [done |]. intros Hnd.
  apply NoDup_app. split_and!; [done | | apply NoDup_singleton].
  intros y Hy ->%list_elem_of_singleton. done.
Qed.

Lemma collectComponents_ok sc idxs p acc :
  forest p → (∀ i, i ∈ idxs → i < length p) →
  ∃ p' comps, collectComponents (length p) sc idxs p acc = Some (p', comps) ∧
    sameRoots p p' ∧ (NoDup acc → NoDup comps) ∧
    ∀ c, c ∈ comps ↔ c ∈ acc ∨ (c ≠ sc ∧ ∃ i, i ∈ idxs ∧ rootOf p i c).
Proof.
  revert p acc.
  induction idxs as [| i idxs IH]; intros p acc Hf Hidx; simpl.
  - exists p, acc. split_and!; [done | apply sameRoots_refl | done |].
    intros c. split; [by left | intros [? | (_ & i & Hi & _)]; [done |]].
    by apply elem_of_nil in Hi.
  - destruct (find_ok p i Hf) as (p1 & r & Hfind & Hr & Hsame); [apply Hidx; by left |].
    rewrite Hfind. simpl.
    pose proof Hsame as [Hlen1 Hroots1].
    destruct (IH p1 (if decide (r ≠ sc) then setAdd r acc else acc))
      as (p' & comps & Hcoll & Hsame' & Hnd & Hcomps).
    { by eapply sameRoots_forest. }
    { intros j Hj. rewrite Hlen1. apply Hidx. by right. }
    rewrite Hlen1 in Hcoll. exists p', comps.
    split_and!; [done | by eapply sameRoots_trans | |].
    + intros Hacc. apply Hnd. case_decide; [by apply setAdd_NoDup | done].
    + intros c. rewrite Hcomps. split.
      * intros [Hc | (Hne & j & Hj & Hrj)].
        -- case_decide as Hd; [| by left].
           apply setAdd_elem_of in Hc as [-> | ?]; [| by left].
           right. split; [done |]. exists i. split; [by left | done].
        -- right. split; [done |]. exists j. split; [by right | by apply Hroots1].
      * intros [Hc | (Hne & j & [-> | Hj]%elem_of_cons & Hrj)].
        -- left. case_decide; [apply setAdd_elem_of; by right | done].
        -- left. rewrite (rootOf_det _ _ _ _ Hrj Hr).
           rewrite (rootOf_det _ _ _ _ Hrj Hr) in Hne.
           rewrite decide_True by done. apply setAdd_elem_of. by left.
        -- right. split; [done |]. exists j. split; [done | by apply Hroots1].
Qed.

Lemma nodesInComponentOf_ok c idxs p :
  forest p → (∀ i, i ∈ idxs → i < length p) →
  ∃ p' kept, nodesInComponentOf (length p) c idxs p = Some (p', kept) ∧
    sameRoots p p' ∧ ∀ i, i ∈ kept ↔ i ∈ idxs ∧ rootOf p i c.
Proof.
  revert p.
  induction idxs as [| i idxs IH]; intros p Hf Hidx; simpl.
  - exists p, []. split_and!; [done | apply sameRoots_refl |].
    intros i. split; [by intros ?%elem_of_nil | by intros [?%elem_of_nil _]].
  - destruct (find_ok p i Hf) as (p1 & r & Hfind & Hr & Hsame); [apply Hidx; by left |].
    rewrite Hfind. simpl.
    pose proof Hsame as [Hlen1 Hroots1].
    destruct (IH p1) as (p' & kept & Hrec & Hsame' & Hkept).
    { by eapply sameRoots_forest. }
    { intros j Hj. rewrite Hlen1. apply Hidx. by right. }
    rewrite Hlen1 in Hrec. rewrite Hrec. simpl.
    eexists _, _. split_and!; [done | by eapply sameRoots_trans |].
    intros j. case_decide as Hd.
    + rewrite elem_of_cons, Hkept, elem_of_cons. split.
      * intros [-> | [? ?]]; [split; [by left | by subst] |].
        split; [by right | by apply Hroots1].
      * intros [[-> | ?] ?]; [by left | right]. split; [done | by apply Hroots1].
    + rewrite Hkept, elem_of_cons. split.
      * intros [? ?]. split; [by right | by apply Hroots1].
      * intros [[-> | ?] Hj]; [| split; [done | by apply Hroots1]].
        destruct Hd. by eapply rootOf_det.
Qed.

Lemma rootsOf_ok idxs p :
  forest p → (∀ i, i ∈ idxs → i < length p) →
  ∃ rs, rootsOf (length p) idxs p = Some rs ∧ Forall2 (rootOf p) idxs rs.
Proof.
  revert p.
  induction idxs as [| i idxs IH]; intros p Hf Hidx; simpl.
  - by exists [].
  - destruct (find_ok p i Hf) as (p1 & r & Hfind & Hr & Hsame); [apply Hidx; by left |].
    rewrite Hfind. simpl.
    pose proof Hsame as [Hlen1 Hroots1].
    destruct (IH p1) as (rs & Hrec & Hrs).
    { by eapply sameRoots_forest. }
    { intros j Hj. rewrite Hlen1. apply Hidx. by right. }
    rewrite Hlen1 in Hrec. rewrite Hrec. simpl. exists (r :: rs). split; [done |].
    constructor; [done |].
    eapply Forall2_impl; [exact Hrs |]. intros j rj. apply Hroots1.
Qed.

End Components.

(** ** Connectivity repair *)

Lemma bestNodeOf_fold nodes searchedIdx l best :
  match (fold_left (bestNodeStep nodes searchedIdx) l best).1 with
  | Some b => best.1 = Some b ∨ b ∈ l
  | None => best.1 = None
  end.
Proof.
  revert best. induction l as [| x l IH]; intros best; simpl.
  - destruct best.1; [by left | done].
  - specialize (IH (bestNodeStep nodes searchedIdx best x)).
    destruct (fold_left _ _ _).1 as [b |].
    + destruct IH as [IH | IH]; [| right; by right].
      unfold bestNodeStep in IH. destruct (Js.gt _ _); simpl in IH.
      * injection IH as ->. right. by left.
      * by left.
    + unfold bestNodeStep in IH. by destruct (Js.gt _ _).
Qed.

Lemma bestNodeOf_elem_of nodes searchedIdx l b s :
  bestNodeOf nodes searchedIdx l = (Some b, s) → b ∈ l.
Proof.
  intros H. pose proof (bestNodeOf_fold nodes searchedIdx l (None, (-1)%float)) as Hf.
  unfold bestNodeOf in H. rewrite H in Hf. simpl in Hf. by destruct Hf.
Qed.

Lemma bestNodeOf_fold_Some nodes searchedIdx l best b :
  best.1 = Some b → is_Some (fold_left (bestNodeStep nodes searchedIdx) l best).1.
Proof.
  revert best b. induction l as [| x l IH]; intros best b Hb; simpl; [by eexists |].
  unfold bestNodeStep at 2. destruct (Js.gt _ _); by eapply IH.
Qed.

Lemma bestNodeOf_is_Some nodes searchedIdx l :
  simsAbove nodes searchedIdx → l ≠ [] → (∀ i, i ∈ l → i < length nodes) →
  is_Some (bestNodeOf nodes searchedIdx l).1.
Proof.
  intros Hsims Hl Hlt. destruct l as [| x l]; [done |].
  unfold bestNodeOf. simpl. eapply bestNodeOf_fold_Some.
  unfold bestNodeStep. simpl. rewrite Hsims; [done |]. apply Hlt. by left.
Qed.

Lemma bestNodeOf_sim nodes searchedIdx l b bs :
  bestNodeOf nodes searchedIdx l = (Some b, bs) →
  bs = calculateSimilarity (sentimentScores (nodeAt nodes b))
                           (sentimentScores (nodeAt nodes searchedIdx)).
Proof.
  unfold bestNodeOf.
  assert (∀ best,
    (∀ b', best.1 = Some b' →
           best.2 = calculateSimilarity (sentimentScores (nodeAt nodes b'))
                                        (sentimentScores (nodeAt nodes searchedIdx))) →
    fold_left (bestNodeStep nodes searchedIdx) l best = (Some b, bs) →
    bs = calculateSimilarity (sentimentScores (nodeAt nodes b))
                             (sentimentScores (nodeAt nodes searchedIdx))) as H.
  { induction l as [| x l IH]; intros best Hbest; simpl.
    - intros E. subst best. by apply (Hbest b).
    - apply IH. unfold bestNodeStep. destruct (Js.gt _ _); [| done].
      simpl. by intros b' [= <-]. }
  apply H. by intros b'.
Qed.

Section Repair.

Variable nodes : list BookNode.
Variable searchedIdx : nat.
Hypothesis searchedIdx_lt : searchedIdx < length nodes.

Implicit Types (p : list nat) (R : nat → nat → Prop).

(** One pass of lines 380-412 over the collected roots.  [sc] is the root of
    the searched node; the roots in [comps] are pairwise distinct roots of the
    array other than [sc]. *)
Lemma repairComponents_ok comps p links sc :
  forest p → length p = length nodes → rootOf p searchedIdx sc →
  NoDup comps → (∀ c, c ∈ comps → p !! c = Some c ∧ c ≠ sc) →
  ∃ p' bests,
    repairComponents (length nodes) nodes searchedIdx comps p links
      = Some (p', links ++ map (repairLink nodes searchedIdx) bests) ∧
    forest p' ∧ length p' = length nodes ∧ rootOf p' searchedIdx sc ∧
    NoDup bests.*1 ∧
    (∀ b, b ∈ bests.*1 → ∃ c, c ∈ comps ∧ rootOf p b c) ∧
    (∀ z r, rootOf p z r → rootOf p' z r ∨ rootOf p' z sc) ∧
    (∀ z r, rootOf p z r → r ∉ comps → rootOf p' z r) ∧
    (∀ R, Symmetric R → Transitive R → refines p R →
          (∀ b, b ∈ bests.*1 → R b searchedIdx) → refines p' R) ∧
    (simsAbove nodes searchedIdx →
       length bests = length comps ∧ ∀ z r, rootOf p z r → r ∈ comps → rootOf p' z sc) ∧
    (∀ b, b ∈ bests →
          b.2 = calculateSimilarity (sentimentScores (nodeAt nodes b.1))
                                    (sentimentScores (nodeAt nodes searchedIdx))).
Proof.
  revert p links.
  induction comps as [| c comps IH]; intros p links Hf Hlen Hsc Hnd Hroots; simpl.
  - exists p, []. simpl. rewrite app_nil_r.
    split_and!; try done.
    + by intros b ?%elem_of_nil.
    + intros z r ?. by left.
    + intros _. split; [done |]. by intros z r _ ?%elem_of_nil.
    + by intros b ?%elem_of_nil.
  - apply NoDup_cons in Hnd as [Hc Hnd].
    destruct (Hroots c) as [Hcroot Hcsc]; [by left |].
    destruct (nodesInComponentOf_ok c (seq 0 (length p)) p Hf)
      as (p1 & kept & Hkept & Hsame & Hin).
    { intros i Hi%elem_of_seq. lia. }
    rewrite Hlen in Hkept, Hin. rewrite Hkept. simpl.
    pose proof Hsame as [Hlen1 Hroots1].
    pose proof (sameRoots_forest _ _ Hsame Hf) as Hf1.
    assert (∀ c', c' ∈ comps → p1 !! c' = Some c' ∧ c' ≠ sc) as Hroots'.
    { intros c' Hc'. destruct (Hroots c') as [Hr ?]; [by right |]. split; [| done].
      eapply rootOf_is_root, Hroots1, rootOf_root, Hr. }
    destruct (bestNodeOf nodes searchedIdx kept) as [[b |] bs] eqn:Ebest.
    + (* a repair link is pushed *)
      assert (b ∈ kept) as Hb by (by eapply bestNodeOf_elem_of).
      apply Hin in Hb as [Hbseq Hbc]. apply elem_of_seq in Hbseq.
      destruct (union_ok p1 b searchedIdx Hf1)
        as (p2 & rb & rs & Hun & Hrb & Hrs & Hlen2 & Hf2 & Hmove & Hmono & Hbs & Hsound);
        [lia | lia |].
      assert (rb = c) as -> by (eapply rootOf_det; [exact Hrb | by apply Hroots1]).
      assert (rs = sc) as -> by (eapply rootOf_det; [exact Hrs | by apply Hroots1]).
      rewrite Hlen1, Hlen in Hun. rewrite Hun. simpl.
      assert (∀ z r, rootOf p z r → rootOf p2 z (if decide (r = c) then sc else r)) as Hmove'.
      { intros z r Hz. by apply Hmove, Hroots1. }
      destruct (IH p2 (links ++ [linkOf nodes b searchedIdx bs]))
        as (p' & bests & Hrep & Hf' & Hlen' & Hsc' & Hndb & Hbests & Hkeep & Huntouched & Hsound' & Hall & Hsim);
        [done | congruence | | done | |].
      { generalize (Hmove' _ _ Hsc). by rewrite decide_False. }
      { intros c' Hc'. destruct (Hroots' c') as [Hr ?]; [done |]. split; [| done].
        assert (c' ≠ c) by (intros ->; done).
        assert (rootOf p c' c') as Hcc by (apply Hroots1, rootOf_root, Hr).
        generalize (Hmove' _ _ Hcc). rewrite decide_False by done. apply rootOf_is_root. }
      rewrite Hrep.
      exists p', ((b, bs) :: bests). simpl. rewrite <- app_assoc. simpl.
      assert (∀ b', b' ∈ bests.*1 → ∃ c', c' ∈ comps ∧ rootOf p b' c') as Hbests'.
      { intros b' Hb'. destruct (Hbests b' Hb') as (c' & Hc' & Hb'c'). exists c'. split; [done |].
        destruct (Hf b') as [r Hr].
        { destruct (rootOf_lt _ _ _ Hb'c'). lia. }
        pose proof (rootOf_det _ _ _ _ Hb'c' (Hmove' _ _ Hr)) as E.
        case_decide; subst; [| done]. by destruct (Hroots' sc Hc'). }
      split_and!; try done.
      * constructor; [| done]. intros Hbin.
        destruct (Hbests' b Hbin) as (c' & Hc' & Hbc').
        apply Hc. by rewrite (rootOf_det _ _ _ _ Hbc Hbc').
      * intros b' [-> | Hb']%elem_of_cons.
        -- exists c. split; [by left | done].
        -- destruct (Hbests' b' Hb') as (c' & ? & ?). exists c'. split; [by right | done].
      * intros z r Hz. specialize (Hmove' _ _ Hz).
        case_decide; subst.
        -- right. destruct (Hkeep _ _ Hmove'); done.
        -- apply (Hkeep _ _ Hmove').
      * intros z r Hz Hr. apply Huntouched.
        -- generalize (Hmove' _ _ Hz). rewrite decide_False; [done |].
           intros ->. apply Hr. by left.
        -- intros ?. apply Hr. by right.
      * intros R Hsym Htrans Href HR. apply Hsound'; try done.
        -- apply Hsound; try done.
           ++ by eapply sameRoots_refines.
           ++ apply HR. by left.
        -- intros b' Hb'. apply HR. by right.
      * intros Hsims. destruct (Hall Hsims) as [Hlenb Hallz]. split; [by rewrite Hlenb |].
        intros z r Hz [-> | Hr]%elem_of_cons.
        -- generalize (Hmove' _ _ Hz). rewrite decide_True by done. intros Hz2.
           apply Huntouched; [done |]. intros ?. by destruct (Hroots' sc).
        -- specialize (Hmove' _ _ Hz). case_decide; subst; [done |].
           by eapply Hallz.
      * intros b' [-> | Hb']%elem_of_cons; [simpl; by eapply bestNodeOf_sim | by apply Hsim].
    + (* no candidate compared above the initial best similarity *)
      destruct (IH p1 links)
        as (p' & bests & Hrep & Hf' & Hlen' & Hsc' & Hndb & Hbests & Hkeep & Huntouched & Hsound' & Hall & Hsim);
        [done | congruence | by apply Hroots1 | done | done |].
      rewrite Hrep.
      exists p', bests. split_and!; try done.
      * intros b' Hb'. destruct (Hbests b' Hb') as (c' & ? & ?). exists c'.
        split; [by right | by apply Hroots1].
      * intros z r Hz. apply (Hkeep z r). by apply Hroots1.
      * intros z r Hz Hr. apply Huntouched; [by apply Hroots1 |].
        intros ?. apply Hr. by right.
      * intros R Hsym Htrans Href HR. apply Hsound'; try done.
        by eapply sameRoots_refines.
      * intros Hsims. exfalso.
        assert (is_Some (bestNodeOf nodes searchedIdx kept).1) as [b Hb].
        { apply bestNodeOf_is_Some; [done | |].
          - intros E. assert (c ∈ kept) as Hck; [| rewrite E in Hck; by apply elem_of_nil in Hck].
            apply Hin. split; [| by apply rootOf_root].
            apply elem_of_seq. apply lookup_lt_Some in Hcroot. lia.
          - intros i [Hi _]%Hin. apply elem_of_seq in Hi. lia. }
        by rewrite Ebest in Hb.
Qed.

End Repair.

(** ** The whole build *)

Lemma forest_seq n : forest (seq 0 n).
Proof.
  intros x Hx. rewrite length_seq in Hx. exists x. apply rootOf_root.
  by rewrite lookup_seq_lt.
Qed.

Lemma rootOf_seq n x r : rootOf (seq 0 n) x r → r = x.
Proof.
  intros H. eapply rootOf_of_root; [| exact H].
  destruct (rootOf_lt _ _ _ H) as [Hx _]. rewrite length_seq in Hx.
  by rewrite lookup_seq_lt.
Qed.

Lemma rootIter_reach p k x r :
  reach p k x r → ∀ m, k ≤ m → Nat.iter m (λ y, nth y p y) x = r.
Proof.
  induction 1 as [r Hr | k x y r Hx Hne Hy IH]; intros m Hm.
  - induction m as [| m IHm]; [done |]. simpl. rewrite IHm by lia.
    by apply nth_lookup_Some.
  - destruct m as [| m]; [lia |]. rewrite Nat.iter_succ_r.
    rewrite (nth_lookup_Some _ _ _ _ Hx). apply IH. lia.
Qed.

Lemma rootIter_rootOf p x r : rootOf p x r → rootIter p x = r.
Proof.
  intros [k H]. unfold rootIter. eapply rootIter_reach; [exact H |].
  apply reach_bound in H. lia.
Qed.

Lemma componentCount_split p searchedIdx sc comps :
  forest p → rootOf p searchedIdx sc → NoDup comps →
  (∀ c, c ∈ comps ↔ c ≠ sc ∧ ∃ i, i ∈ seq 0 (length p) ∧ rootOf p i c) →
  componentCount p = S (length comps).
Proof.
  intros Hf Hsc Hnd Hcomps. unfold componentCount.
  change (S (length comps)) with (length (sc :: comps)).
  apply Permutation_length, NoDup_Permutation.
  - apply NoDup_remove_dups.
  - constructor; [| done]. rewrite Hcomps. by intros [? _].
  - intros r. rewrite elem_of_remove_dups, elem_of_cons, Hcomps. split.
    + intros (i & <- & Hi)%list_elem_of_In%in_map_iff. apply list_elem_of_In in Hi.
      destruct (Hf i) as [r Hr]; [apply elem_of_seq in Hi; lia |].
      rewrite (rootIter_rootOf _ _ _ Hr).
      destruct (decide (r = sc)); [by left | right]. split; [done |]. by exists i.
    + intros [-> | (_ & i & Hi & Hr)]; apply list_elem_of_In, in_map_iff.
      * exists searchedIdx. split; [by apply rootIter_rootOf |].
        apply list_elem_of_In, elem_of_seq. destruct (rootOf_lt _ _ _ Hsc). lia.
      * exists i. split; [by apply rootIter_rootOf | by apply list_elem_of_In].
Qed.

Lemma searchedIdxOf_lt nodes highlightedBookId :
  nodes ≠ [] → searchedIdxOf (nodeIdToIndexOf nodes) highlightedBookId < length nodes.
Proof.
  intros Hne. assert (0 < length nodes) by (destruct nodes; [done | simpl; lia]).
  unfold searchedIdxOf. destruct highlightedBookId as [h |]; [| done].
  destruct (String.eqb h ""); [done |].
  destruct (nodeIdToIndexOf nodes !! h) as [a |] eqn:E; [| done].
  by apply nodeIdToIndexOf_Some in E as [? _].
Qed.

Lemma initialComponents_ok nodes :
  ∃ p0, initialComponents nodes = Some p0 ∧ length p0 = length nodes ∧ forest p0 ∧
    (∀ l a b, l ∈ prunedLinksOf nodes →
       nodeIdToIndexOf nodes !! source l = Some a →
       nodeIdToIndexOf nodes !! target l = Some b → sameRoot p0 a b) ∧
    (∀ R : nat → nat → Prop, Reflexive R → Symmetric R → Transitive R →
       (∀ l a b, l ∈ prunedLinksOf nodes →
          nodeIdToIndexOf nodes !! source l = Some a →
          nodeIdToIndexOf nodes !! target l = Some b → R a b) →
       refines p0 R).
Proof.
  unfold initialComponents.
  destruct (unionLinks_ok (nodeIdToIndexOf nodes) (prunedLinksOf nodes) (seq 0 (length nodes)))
    as (p0 & Hun & Hlen & Hf & _ & Hcomp & Hsound).
  { apply forest_seq. }
  { intros s a [Ha _]%nodeIdToIndexOf_Some. by rewrite length_seq. }
  rewrite length_seq in Hun, Hlen. exists p0. split_and!; try done.
  intros R Hrefl Hsym Htrans HR. apply Hsound; try done.
  intros x y (r & ->%rootOf_seq & ->%rootOf_seq). done.
Qed.

Lemma disconnectedComponentsOf_ok nodes searchedIdx p0 :
  forest p0 → length p0 = length nodes → searchedIdx < length nodes →
  ∃ p1 comps sc, disconnectedComponentsOf nodes searchedIdx p0 = Some (p1, comps) ∧
    sameRoots p0 p1 ∧ rootOf p0 searchedIdx sc ∧ NoDup comps ∧
    ∀ c, c ∈ comps ↔ c ≠ sc ∧ ∃ i, i ∈ seq 0 (length nodes) ∧ rootOf p0 i c.
Proof.
  intros Hf Hlen Hs. unfold disconnectedComponentsOf. rewrite <- Hlen.
  destruct (find_ok p0 searchedIdx Hf) as (p1 & sc & Hfind & Hsc & Hsame); [lia |].
  rewrite Hfind. simpl. pose proof Hsame as [Hlen1 Hroots1].
  destruct (collectComponents_ok sc (seq 0 (length p0)) p1 [])
    as (p2 & comps & Hcoll & Hsame2 & Hnd & Hcomps).
  { by eapply sameRoots_forest. }
  { intros i Hi%elem_of_seq. lia. }
  rewrite Hlen1 in Hcoll. exists p2, comps, sc.
  split_and!; [done | by eapply sameRoots_trans | done | apply Hnd; constructor |].
  intros c. rewrite Hcomps. split.
  - intros [?%elem_of_nil | (? & i & ? & ?)]; [done |]. split; [done |].
    exists i. split; [done | by apply Hroots1].
  - intros (? & i & ? & ?). right. split; [done |]. exists i. split; [done | by apply Hroots1].
Qed.

(** What one run of [bookGraphData] on a non-empty list produces. *)
Lemma bookGraphData_run genreBooks highlightedBookId :
  genreBooks ≠ [] →
  let searchedIdx := searchedIdxOf (nodeIdToIndexOf genreBooks) highlightedBookId in
  ∃ p0 bests,
    initialComponents genreBooks = Some p0 ∧
    bookGraphData genreBooks highlightedBookId
      = Some {| nodes := genreBooks;
                links := prunedLinksOf genreBooks ++ map (repairLink genreBooks searchedIdx) bests |} ∧
    NoDup bests.*1 ∧ searchedIdx ∉ bests.*1 ∧ (∀ b, b ∈ bests.*1 → b < length genreBooks) ∧
    (simsAbove genreBooks searchedIdx →
       S (length bests) = componentCount p0 ∧
       ∀ z, z < length genreBooks →
         connected (prunedLinksOf genreBooks ++ map (repairLink genreBooks searchedIdx) bests)
                   (id (nodeAt genreBooks z)) (id (nodeAt genreBooks searchedIdx))) ∧
    (∀ b, b ∈ bests →
          b.2 = calculateSimilarity (sentimentScores (nodeAt genreBooks b.1))
                                    (sentimentScores (nodeAt genreBooks searchedIdx)) ∧
          ¬ sameRoot p0 b.1 searchedIdx).
Proof.
  intros Hne searchedIdx.
  assert (searchedIdx < length genreBooks) as Hs by (by apply searchedIdxOf_lt).
  destruct (initialComponents_ok genreBooks) as (p0 & Hinit & Hlen0 & Hf0 & _ & Hsound0).
  destruct (disconnectedComponentsOf_ok genreBooks searchedIdx p0 Hf0 Hlen0 Hs)
    as (p1 & comps & sc & Hdisc & Hsame1 & Hsc & Hnd & Hcomps).
  pose proof Hsame1 as [Hlen1 Hroots1].
  destruct (repairComponents_ok genreBooks searchedIdx Hs comps p1 (prunedLinksOf genreBooks) sc)
    as (p' & bests & Hrep & Hf' & Hlen' & Hsc' & Hndb & Hbests & Hkeep & _ & Hsound & Hall & Hsim).
  { by eapply sameRoots_forest. }
  { congruence. }
  { by apply Hroots1. }
  { done. }
  { intros c (Hc & i & Hi & Hr)%Hcomps. split; [| done].
    eapply rootOf_is_root, Hroots1, Hr. }
  exists p0, bests. split_and!; [done | | done | | | |].
  - unfold bookGraphData. destruct (Nat.eqb_spec (length genreBooks) 0) as [E | _]; [lia |].
    rewrite Hinit. simpl. fold searchedIdx. rewrite Hdisc. simpl.
    by rewrite Hrep.
  - intros Hin. destruct (Hbests _ Hin) as (c & (Hc & _)%Hcomps & Hr).
    apply Hc. eapply rootOf_det; [exact Hr | by apply Hroots1].
  - intros b Hb. destruct (Hbests _ Hb) as (c & _ & Hr).
    destruct (rootOf_lt _ _ _ Hr). lia.
  - intros Hsims. destruct (Hall Hsims) as [Hlenb Hallz]. split.
    + rewrite Hlenb. symmetry. eapply componentCount_split; try done.
      by rewrite Hlen0.
    + set (L := prunedLinksOf genreBooks ++ map (repairLink genreBooks searchedIdx) bests).
      set (R := λ x y : nat, connected L (id (nodeAt genreBooks x)) (id (nodeAt genreBooks y))).
      assert (Reflexive R) by (intros x; apply connected_refl).
      assert (Symmetric R) by (intros x y; apply connected_sym).
      assert (Transitive R) by (intros x y z; apply connected_trans).
      assert (refines p' R) as Href.
      { apply Hsound; try done.
        - eapply sameRoots_refines; [exact Hsame1 |]. apply Hsound0; try done.
          intros l a b Hl [_ Ha]%nodeIdToIndexOf_Some [_ Hb]%nodeIdToIndexOf_Some.
          unfold R. rewrite Ha, Hb. apply connected_link, elem_of_app. by left.
        - intros b Hb. unfold R.
          apply list_elem_of_fmap in Hb as ([b' s] & -> & Hb). simpl.
          apply (connected_link L (repairLink genreBooks searchedIdx (b', s))).
          apply elem_of_app. right. by apply list_elem_of_In, in_map, list_elem_of_In. }
      intros z Hz. apply Href. exists sc. split; [| done].
      destruct (Hf0 z) as [r Hr]; [lia |]. apply Hroots1 in Hr.
      destruct (decide (r = sc)) as [-> | Hrsc].
      * destruct (Hkeep _ _ Hr); done.
      * eapply Hallz; [exact Hr |]. apply Hcomps. split; [done |].
        exists z. split; [apply elem_of_seq; lia | by apply Hroots1].
  - intros b Hb. split; [by apply Hsim |]. intros (r & Hb1 & Hs1).
    destruct (Hbests b.1) as (c & (Hc & _)%Hcomps & Hr).
    { apply list_elem_of_fmap. by exists b. }
    apply Hroots1 in Hb1. apply Hc.
    rewrite (rootOf_det _ _ _ _ Hr Hb1). by eapply rootOf_det.
Qed.

(** ** Binary64 arithmetic on the unit interval

    The connectivity repair compares every similarity with [-1].  This part
    shows that the comparison succeeds for sentiment vectors of the data
    model: the similarity of two vectors with components in [0, 1] is never
    NaN and never negative.  The argument follows the binary64 operations of
    [SpecFloat] and tracks the number of binary digits of the mantissa and
    the exponent of every intermediate result. *)

Section FloatBounds.

Local Open Scope Z_scope.

Lemma fexp_eq e : fexp prec emax e = Z.max (e - 53) (-1074).
Proof. reflexivity. Qed.

Lemma digits2_pos_size p : digits2_pos p = Pos.size p.
Proof. induction p as [p IH | p IH |]; simpl; by rewrite ?IH. Qed.

Lemma Zdigits2_log2 m : 0 < m → Zdigits2 m = Z.log2 m + 1.
Proof.
  destruct m as [| p | p]; [lia | | lia]. intros _. simpl.
  rewrite digits2_pos_size. destruct p; simpl; lia.
Qed.

Lemma Zdigits2_0 : Zdigits2 0 = 0.
Proof. reflexivity. Qed.

Lemma Zdigits2_nonneg m : 0 ≤ Zdigits2 m.
Proof. destruct m; simpl; lia. Qed.

Lemma Zdigits2_pos m : 0 < m → 1 ≤ Zdigits2 m.
Proof. intros H. rewrite Zdigits2_log2 by done. pose proof (Z.log2_nonneg m). lia. Qed.

Lemma Zdigits2_mono a b : 0 ≤ a → a ≤ b → Zdigits2 a ≤ Zdigits2 b.
Proof.
  intros Ha Hab. destruct (decide (a = 0)) as [-> | Hne]; [apply Zdigits2_nonneg |].
  rewrite !Zdigits2_log2 by lia. pose proof (Z.log2_le_mono a b Hab). lia.
Qed.

Lemma Zdigits2_succ m : 0 ≤ m → Zdigits2 (m + 1) ≤ Zdigits2 m + 1.
Proof.
  intros Hm. destruct (decide (m = 0)) as [-> | Hne]; [done |].
  rewrite !Zdigits2_log2 by lia. pose proof (Z.log2_succ_le m) as H.
  rewrite <- !Z.add_1_r in H. lia.
Qed.

Lemma Zdigits2_mul a b :
  0 < a → 0 < b →
  Zdigits2 a + Zdigits2 b - 1 ≤ Zdigits2 (a * b) ∧ Zdigits2 (a * b) ≤ Zdigits2 a + Zdigits2 b.
Proof.
  intros Ha Hb. rewrite !Zdigits2_log2 by lia.
  pose proof (Z.log2_mul_below a b Ha Hb).
  pose proof (Z.log2_mul_above a b). lia.
Qed.

Lemma Zdigits2_shiftl m s : 0 < m → 0 ≤ s → Zdigits2 (Z.shiftl m s) = Zdigits2 m + s.
Proof.
  intros Hm Hs. assert (0 < Z.shiftl m s).
  { rewrite Z.shiftl_mul_pow2 by done. apply Z.mul_pos_pos; [done |]. by apply Z.pow_pos_nonneg. }
  rewrite !Zdigits2_log2 by done. rewrite Z.log2_shiftl by lia. lia.
Qed.

(** Shifting right by [n] removes [n] digits; nothing is left when [n] is at
    least the number of digits. *)
Lemma Zdigits2_shiftr m n :
  0 ≤ m → 0 ≤ n →
  0 ≤ Z.shiftr m n ∧ Zdigits2 (Z.shiftr m n) = Z.max 0 (Zdigits2 m - n).
Proof.
  intros Hm Hn. split; [by apply Z.shiftr_nonneg |].
  destruct (decide (m = 0)) as [-> | Hne]; [rewrite Z.shiftr_0_l; simpl; lia |].
  destruct (decide (Z.shiftr m n = 0)) as [E | Hne'].
  - rewrite E. simpl. apply Z.shiftr_eq_0_iff in E as [-> | [_ Hlt]]; [done |].
    rewrite Zdigits2_log2 by lia. lia.
  - assert (0 < Z.shiftr m n) by (pose proof (Z.shiftr_nonneg m n); lia).
    rewrite !Zdigits2_log2 by lia. rewrite Z.log2_shiftr by lia.
    assert (¬ Z.log2 m < n); [| lia].
    intros Hlt. apply Hne', Z.shiftr_eq_0_iff. right. lia.
Qed.

(** *** The shift records of the rounding function *)

Lemma shr_1_m mrs : 0 ≤ shr_m mrs → shr_m (shr_1 mrs) = Z.div2 (shr_m mrs).
Proof. destruct mrs as [[| [p | p |] | p] r s]; simpl; done || lia. Qed.

Lemma iter_pos_nat {A : Type} (f : A → A) p x :
  SpecFloat.iter_pos f p x = Nat.iter (Pos.to_nat p) f x.
Proof.
  revert x. induction p as [p IH | p IH |]; intros x.
  - change (SpecFloat.iter_pos f p~1 x)
      with (SpecFloat.iter_pos f p (SpecFloat.iter_pos f p (f x))).
    rewrite !IH, Pos2Nat.inj_xI, Nat.iter_succ_r.
    replace (2 * Pos.to_nat p)%nat with (Pos.to_nat p + Pos.to_nat p)%nat by lia.
    by rewrite Nat.iter_add.
  - change (SpecFloat.iter_pos f p~0 x)
      with (SpecFloat.iter_pos f p (SpecFloat.iter_pos f p x)).
    rewrite !IH, Pos2Nat.inj_xO.
    replace (2 * Pos.to_nat p)%nat with (Pos.to_nat p + Pos.to_nat p)%nat by lia.
    by rewrite Nat.iter_add.
  - done.
Qed.

Lemma shr_m_iter n mrs :
  0 ≤ shr_m mrs → shr_m (Nat.iter n shr_1 mrs) = Z.shiftr (shr_m mrs) (Z.of_nat n).
Proof.
  intros Hm. induction n as [| n IH]; [by rewrite Z.shiftr_0_r |].
  simpl Nat.iter. rewrite shr_1_m.
  - rewrite IH, Z.div2_spec, Z.shiftr_shiftr by lia. f_equal. lia.
  - rewrite IH. by apply Z.shiftr_nonneg.
Qed.

Lemma shr_spec mrs e n :
  0 ≤ shr_m mrs →
  shr_m (shr mrs e n).1 = Z.shiftr (shr_m mrs) (Z.max 0 n) ∧ (shr mrs e n).2 = e + Z.max 0 n.
Proof.
  intros Hm. destruct n as [| p | p]; simpl.
  - split; [done | lia].
  - rewrite iter_pos_nat, shr_m_iter by done. rewrite positive_nat_Z. split; [done | lia].
  - split; [done | lia].
Qed.

Lemma shr_record_of_loc_m m l : shr_m (shr_record_of_loc m l) = m.
Proof. by destruct l as [| []]. Qed.

Lemma shr_fexp_spec m e l :
  0 ≤ m →
  let n := Z.max 0 (fexp prec emax (Zdigits2 m + e) - e) in
  shr_m (shr_fexp prec emax m e l).1 = Z.shiftr m n ∧ (shr_fexp prec emax m e l).2 = e + n.
Proof.
  intros Hm n. unfold shr_fexp.
  pose proof (shr_spec (shr_record_of_loc m l) e (fexp prec emax (Zdigits2 m + e) - e)) as H.
  rewrite shr_record_of_loc_m in H. by apply H.
Qed.

Lemma round_nearest_even_bounds m l :
  m ≤ round_nearest_even m l ∧ round_nearest_even m l ≤ m + 1.
Proof. destruct l as [| []]; simpl; try destruct (Z.even m); lia. Qed.

(** The result of the rounding function, with its two shifts spelled out. *)
Lemma binary_round_aux_spec sx mx ex lx :
  0 ≤ mx →
  ∃ m2 m3 e' e'',
    let n1 := Z.max 0 (fexp prec emax (Zdigits2 mx + ex) - ex) in
    let n2 := Z.max 0 (fexp prec emax (Zdigits2 m2 + e') - e') in
    e' = ex + n1 ∧ Z.shiftr mx n1 ≤ m2 ∧ m2 ≤ Z.shiftr mx n1 + 1 ∧
    m3 = Z.shiftr m2 n2 ∧ e'' = e' + n2 ∧
    binary_round_aux prec emax sx mx ex lx =
      match m3 with
      | 0 => S754_zero sx
      | Z.pos m => if e'' <=? emax - prec then S754_finite sx m e'' else S754_infinity sx
      | Z.neg _ => S754_nan
      end.
Proof.
  intros Hm. unfold binary_round_aux.
  destruct (shr_fexp_spec mx ex lx Hm) as [Hm1 He1].
  destruct (shr_fexp prec emax mx ex lx) as [mrs' e'] eqn:E1. simpl in Hm1, He1.
  set (m2 := round_nearest_even (shr_m mrs') (loc_of_shr_record mrs')).
  pose proof (round_nearest_even_bounds (shr_m mrs') (loc_of_shr_record mrs')) as [Hlo Hhi].
  fold m2 in Hlo, Hhi.
  assert (0 ≤ m2) as Hm2.
  { rewrite Hm1 in Hlo. pose proof (Z.shiftr_nonneg mx (Z.max 0 (fexp prec emax (Zdigits2 mx + ex) - ex))). lia. }
  destruct (shr_fexp_spec m2 e' loc_Exact Hm2) as [Hm3 He3].
  destruct (shr_fexp prec emax m2 e' loc_Exact) as [mrs'' e''] eqn:E2. simpl in Hm3, He3.
  exists m2, (shr_m mrs''), e', e''. cbv zeta.
  rewrite <- Hm1. split_and!; done.
Qed.

Lemma binary_round_aux_notNegative mx ex lx :
  0 ≤ mx → notNegative (binary_round_aux prec emax false mx ex lx).
Proof.
  intros Hm.
  destruct (binary_round_aux_spec false mx ex lx Hm)
    as (m2 & m3 & e' & e'' & He' & Hlo & Hhi & Hm3 & He'' & ->).
  destruct m3 as [| p | p]; [done | by destruct (_ <=? _) |].
  pose proof (Z.shiftr_nonneg mx (Z.max 0 (fexp prec emax (Zdigits2 mx + ex) - ex))).
  pose proof (Z.shiftr_nonneg m2 (Z.max 0 (fexp prec emax (Zdigits2 m2 + e') - e'))). lia.
Qed.

Lemma binary_round_aux_below K mx ex lx :
  0 ≤ mx → Zdigits2 mx + ex ≤ K → 0 ≤ K → K ≤ 900 →
  nonnegBelow (K + 1) (binary_round_aux prec emax false mx ex lx).
Proof.
  intros Hm HK HK0 HK9.
  destruct (binary_round_aux_spec false mx ex lx Hm)
    as (m2 & m3 & e' & e'' & He' & Hlo & Hhi & Hm3 & He'' & ->).
  rewrite !fexp_eq in *.
  set (n1 := Z.max 0 (Z.max (Zdigits2 mx + ex - 53) (-1074) - ex)) in *.
  set (n2 := Z.max 0 (Z.max (Zdigits2 m2 + e' - 53) (-1074) - e')) in *.
  destruct (Zdigits2_shiftr mx n1 Hm) as [Hs1 Hd1]; [lia |].
  assert (0 ≤ m2) as Hm2 by lia.
  destruct (Zdigits2_shiftr m2 n2 Hm2) as [Hs3 Hd3]; [lia |].
  rewrite <- Hm3 in Hs3, Hd3.
  assert (Zdigits2 m2 ≤ Zdigits2 (Z.shiftr mx n1) + 1) as Hd2.
  { etrans; [apply (Zdigits2_mono m2 (Z.shiftr mx n1 + 1)); lia |]. by apply Zdigits2_succ. }
  pose proof (Zdigits2_nonneg mx). pose proof (Zdigits2_nonneg m2).
  destruct m3 as [| p | p]; [done | | lia].
  assert (1 ≤ Zdigits2 (Z.pos p)) by (by apply Zdigits2_pos).
  assert (e'' ≤ 971 ∧ Zdigits2 (Z.pos p) + e'' ≤ K + 1) as [He9 Hres] by lia.
  destruct (Z.leb_spec e'' (emax - prec)) as [_ | Hgt]; [done |].
  change (emax - prec) with 971 in Hgt. lia.
Qed.

Lemma binary_round_aux_from L mx ex lx :
  0 < mx → L ≤ Zdigits2 mx + ex → -1073 ≤ L →
  positiveFrom L (binary_round_aux prec emax false mx ex lx).
Proof.
  intros Hm HL HL0.
  destruct (binary_round_aux_spec false mx ex lx) as (m2 & m3 & e' & e'' & He' & Hlo & Hhi & Hm3 & He'' & ->); [lia |].
  rewrite !fexp_eq in *.
  set (n1 := Z.max 0 (Z.max (Zdigits2 mx + ex - 53) (-1074) - ex)) in *.
  set (n2 := Z.max 0 (Z.max (Zdigits2 m2 + e' - 53) (-1074) - e')) in *.
  destruct (Zdigits2_shiftr mx n1) as [Hs1 Hd1]; [lia | lia |].
  assert (0 ≤ m2) as Hm2 by lia.
  destruct (Zdigits2_shiftr m2 n2 Hm2) as [Hs3 Hd3]; [lia |].
  rewrite <- Hm3 in Hs3, Hd3.
  assert (Zdigits2 (Z.shiftr mx n1) ≤ Zdigits2 m2) as Hd2 by (apply Zdigits2_mono; lia).
  pose proof (Zdigits2_pos mx Hm).
  destruct m3 as [| p | p]; [simpl in Hd3; lia | | lia].
  destruct (_ <=? _); [| done]. simpl. change (Z.pos (digits2_pos p)) with (Zdigits2 (Z.pos p)). lia.
Qed.

(** [lia] is given the digit counts as opaque integers. *)
Ltac digits_lia :=
  simpl in *;
  change IntDef.Z.min with Z.min in *;
  change IntDef.Z.max with Z.max in *;
  repeat match goal with
  | |- context [Z.pos (digits2_pos ?p)] => generalize dependent (Z.pos (digits2_pos p))
  | H : context [Z.pos (digits2_pos ?p)] |- _ => generalize dependent (Z.pos (digits2_pos p))
  end;
  intros; lia.

Lemma nonnegBelow_mono K K' f : K ≤ K' → nonnegBelow K f → nonnegBelow K' f.
Proof. intros HK. destruct f as [| | | [] m e]; simpl; try done. lia. Qed.

Lemma Zdigits2_double a : 0 < a → Zdigits2 (2 * a) = Zdigits2 a + 1.
Proof.
  intros Ha. rewrite <- (Zdigits2_shiftl a 1) by lia.
  by rewrite Z.shiftl_mul_pow2, Z.mul_comm.
Qed.

Lemma Zdigits2_add a b :
  0 < a → 0 < b → Zdigits2 (a + b) ≤ Z.max (Zdigits2 a) (Zdigits2 b) + 1.
Proof.
  intros Ha Hb.
  destruct (Z.le_ge_cases a b).
  - etrans; [apply (Zdigits2_mono (a + b) (2 * b)); lia |].
    rewrite Zdigits2_double by done. lia.
  - etrans; [apply (Zdigits2_mono (a + b) (2 * a)); lia |].
    rewrite Zdigits2_double by done. lia.
Qed.

Lemma shl_align_spec m e e' :
  Z.pos (shl_align m e e').1 = Z.shiftl (Z.pos m) (e - (shl_align m e e').2) ∧
  (shl_align m e e').2 = Z.min e e'.
Proof.
  unfold shl_align. destruct (e' - e) as [| d | d] eqn:E; simpl.
  - rewrite Z.sub_diag. split; [done | lia].
  - rewrite Z.sub_diag. split; [done | lia].
  - replace (e - e') with (Z.pos d) by lia. split; [| lia].
    simpl. by rewrite (Pos.iter_swap_gen _ _ Z.pos xO (Z.mul 2)).
Qed.

Lemma shl_align_digits m e e' :
  Zdigits2 (Z.pos (shl_align m e e').1) + (shl_align m e e').2 = Zdigits2 (Z.pos m) + e.
Proof.
  destruct (shl_align_spec m e e') as [-> He].
  rewrite Zdigits2_shiftl by lia. lia.
Qed.

Lemma SFmul_below K1 K2 x y :
  nonnegBelow K1 x → nonnegBelow K2 y → 0 ≤ K1 + K2 → K1 + K2 ≤ 900 →
  nonnegBelow (K1 + K2 + 1) (SFmul prec emax x y).
Proof.
  intros Hx Hy H0 H9.
  destruct x as [sx | | | [] mx ex], y as [sy | | | [] my ey]; simpl in *; try done.
  apply binary_round_aux_below; [done | | done | done].
  change (Z.pos (mx * my)) with (Z.pos mx * Z.pos my).
  destruct (Zdigits2_mul (Z.pos mx) (Z.pos my)) as [_ Hle]; [done | done |].
  digits_lia.
Qed.

Lemma binary_round_below K m e :
  Zdigits2 (Z.pos m) + e ≤ K → 0 ≤ K → K ≤ 900 →
  nonnegBelow (K + 1) (binary_round prec emax false m e).
Proof.
  intros HK H0 H9. unfold binary_round.
  pose proof (shl_align_digits m e (fexp prec emax (Z.pos (digits2_pos m) + e))) as Hd.
  destruct (shl_align m e _) as [mz ez]. simpl in Hd.
  apply binary_round_aux_below; [done | digits_lia | done | done].
Qed.

Lemma SFadd_below K1 K2 x y :
  nonnegBelow K1 x → nonnegBelow K2 y → 0 ≤ Z.max K1 K2 → Z.max K1 K2 ≤ 800 →
  nonnegBelow (Z.max K1 K2 + 2) (SFadd prec emax x y).
Proof.
  intros Hx Hy H0 H9.
  destruct x as [sx | | | [] mx ex], y as [sy | | | [] my ey]; simpl in Hx, Hy; try done.
  - simpl. by destruct sx, sy.
  - simpl. lia.
  - simpl. lia.
  - unfold SFadd, cond_Zopp.
    pose proof (shl_align_digits mx ex (Z.min ex ey)) as Hdx.
    pose proof (shl_align_digits my ey (Z.min ex ey)) as Hdy.
    destruct (shl_align_spec mx ex (Z.min ex ey)) as [_ Hex].
    destruct (shl_align_spec my ey (Z.min ex ey)) as [_ Hey].
    destruct (shl_align mx ex _) as [ax ex'], (shl_align my ey _) as [ay ey']. simpl in *.
    change (Z.pos ax + Z.pos ay) with (Z.pos (ax + ay)). simpl binary_normalize.
    replace (Z.max K1 K2 + 2) with (Z.max K1 K2 + 1 + 1) by lia.
    apply binary_round_below; [| lia | lia].
    change (Z.pos (ax + ay)) with (Z.pos ax + Z.pos ay).
    pose proof (Zdigits2_add (Z.pos ax) (Z.pos ay) eq_refl eq_refl).
    digits_lia.
Qed.

Lemma Zdigits2_sqrt a : 0 < a → (Zdigits2 a + 1) / 2 ≤ Zdigits2 (Z.sqrt a).
Proof.
  intros Ha. assert (0 < Z.sqrt a) by (by apply Z.sqrt_pos).
  rewrite !Zdigits2_log2 by done.
  set (k := Z.log2 a / 2).
  assert (0 ≤ Z.log2 a) by apply Z.log2_nonneg.
  assert (0 ≤ k) by (by apply Z.div_pos).
  assert (k ≤ Z.log2 (Z.sqrt a)) as Hk.
  2:{ replace (Z.log2 a + 1 + 1) with (Z.log2 a + 1 * 2) by lia.
      rewrite Z.div_add by lia. fold k. lia. }
  rewrite <- (Z.log2_pow2 k) by done.
  apply Z.log2_le_mono, Z.sqrt_le_square; [lia | by apply Z.pow_nonneg |].
  rewrite <- Z.pow_add_r by done.
  etrans; [| apply (Z.log2_spec a Ha)].
  apply Z.pow_le_mono_r; [done |]. subst k.
  pose proof (Z.mul_div_le (Z.log2 a) 2). lia.
Qed.

Lemma SFsqrt_from m e :
  -1073 ≤ Zdigits2 (Z.pos m) + e →
  positiveFrom ((Zdigits2 (Z.pos m) + e + 1) / 2) (SFsqrt prec emax (S754_finite false m e)).
Proof.
  intros HL. unfold SFsqrt, SFsqrt_core_binary.
  set (d := Zdigits2 (Z.pos m)) in *.
  set (e' := Z.min (fexp prec emax (Z.div2 (d + e + 1))) (Z.div2 e)).
  set (s := e - 2 * e').
  assert (0 ≤ s) as Hs.
  { subst s e'. rewrite (Z.div2_div e). pose proof (Z.mul_div_le e 2). lia. }
  set (m' := match s with Z.pos _ => Z.shiftl (Z.pos m) s | 0 => Z.pos m | Z.neg _ => 0 end).
  assert (m' = Z.shiftl (Z.pos m) s) as Hm'.
  { subst m'. destruct s; [by rewrite Z.shiftl_0_r | done | lia]. }
  assert (0 < m') as Hpos.
  { rewrite Hm', Z.shiftl_mul_pow2 by done. apply Z.mul_pos_pos; [done |]. by apply Z.pow_pos_nonneg. }
  pose proof (Z.sqrtrem_sqrt m') as Hq. pose proof (Zdigits2_sqrt m' Hpos) as Hdq.
  destruct (Z.sqrtrem m') as [q r]. simpl in Hq. subst q.
  assert (Zdigits2 m' = d + s) as Hdm by (rewrite Hm'; by apply Zdigits2_shiftl).
  apply binary_round_aux_from.
  - by apply Z.sqrt_pos.
  - rewrite Hdm in Hdq. subst s.
    replace (d + (e - 2 * e') + 1) with (d + e + 1 + - e' * 2) in Hdq by lia.
    rewrite Z.div_add in Hdq by lia. lia.
  - apply Z.div_le_lower_bound; lia.
Qed.

Lemma SFmul_from L1 L2 x y :
  positiveFrom L1 x → positiveFrom L2 y → -1073 ≤ L1 + L2 - 1 →
  positiveFrom (L1 + L2 - 1) (SFmul prec emax x y).
Proof.
  intros Hx Hy HL.
  destruct x as [| [] | | [] mx ex], y as [| [] | | [] my ey]; simpl in *; try done.
  apply binary_round_aux_from; [done | | done].
  change (Z.pos (mx * my)) with (Z.pos mx * Z.pos my).
  destruct (Zdigits2_mul (Z.pos mx) (Z.pos my)) as [Hge _]; [done | done |].
  digits_lia.
Qed.

Lemma SFdiv_notNegative K L x y :
  nonnegBelow K x → positiveFrom L y → notNegative (SFdiv prec emax x y).
Proof.
  intros Hx Hy.
  destruct x as [sx | | | [] mx ex], y as [| [] | | [] my ey]; simpl in *; try done.
  unfold SFdiv_core_binary.
  match goal with
  | |- context [Z.div_eucl ?a ?b] =>
      pose proof (Z.div_pos a b) as Hq; unfold Z.div in Hq;
      assert (0 ≤ a) as Ha; [| destruct (Z.div_eucl a b) as [q r]]
  end.
  { match goal with |- 0 ≤ match ?s with _ => _ end => destruct s eqn:Es end; try done.
    rewrite Z.shiftl_mul_pow2 by done. apply Z.mul_nonneg_nonneg; [done |]. by apply Z.pow_nonneg. }
  apply binary_round_aux_notNegative. simpl in Hq. by apply Hq.
Qed.

Local Open Scope float_scope.

Lemma inUnitInterval_below x : inUnitInterval x = true → nonnegBelow 1 (Prim2SF x).
Proof.
  unfold inUnitInterval. rewrite andb_true_iff, !FloatAxioms.leb_spec. intros [H0 H1].
  pose proof (Prim2SF_valid x) as Hv.
  change (Prim2SF 0) with (S754_zero false) in H0.
  change (Prim2SF 1) with (S754_finite false 4503599627370496 (-52)) in H1.
  destruct (Prim2SF x) as [s | [] | | [] m e]; try done.
  unfold SFleb, SFcompare in H1. simpl in Hv. unfold bounded, canonical_mantissa in Hv.
  apply andb_true_iff in Hv as [Hc _]. apply Z.eqb_eq in Hc. rewrite fexp_eq in Hc.
  assert (e ≤ -52)%Z by (destruct (Z.compare_spec e (-52)); [lia | lia | done]).
  unfold nonnegBelow. change (Zdigits2 (Z.pos m)) with (Z.pos (digits2_pos m)).
  generalize dependent (Z.pos (digits2_pos m)). intros. lia.
Qed.

Lemma mul_below x y :
  inUnitInterval x = true → inUnitInterval y = true → nonnegBelow 3 (Prim2SF (x * y)).
Proof.
  intros Hx%inUnitInterval_below Hy%inUnitInterval_below. rewrite FloatAxioms.mul_spec.
  by apply (SFmul_below 1 1).
Qed.

Lemma add_below K x y :
  (3 ≤ K)%Z → (K ≤ 800)%Z →
  nonnegBelow K (Prim2SF x) → nonnegBelow 3 (Prim2SF y) → nonnegBelow (K + 2) (Prim2SF (x + y)).
Proof.
  intros H3 H8 Hx Hy. rewrite FloatAxioms.add_spec.
  replace K with (Z.max K 3) at 1 by lia. apply SFadd_below; [done | done | lia | lia].
Qed.

Lemma validScores_components a :
  validScores a = true →
  inUnitInterval (moody a) = true ∧ inUnitInterval (scientific a) = true ∧
  inUnitInterval (optimistic a) = true ∧ inUnitInterval (philosophical a) = true ∧
  inUnitInterval (adventurous a) = true.
Proof.
  unfold validScores, scoreVec. simpl. rewrite !andb_true_iff. tauto.
Qed.

Lemma dotProduct_below a b :
  validScores a = true → validScores b = true →
  nonnegBelow 13 (Prim2SF (dotProduct (scoreVec a) (scoreVec b))).
Proof.
  intros (? & ? & ? & ? & ?)%validScores_components (? & ? & ? & ? & ?)%validScores_components.
  unfold dotProduct, Js.reduce, scoreVec. simpl.
  repeat (first [ apply (add_below 11) | apply (add_below 9) | apply (add_below 7)
                | apply (add_below 5) | apply (add_below 3) | by apply mul_below | done ]).
Qed.

Lemma sumSquares_below a :
  validScores a = true → nonnegBelow 13 (Prim2SF (sumSquares (scoreVec a))).
Proof.
  intros (? & ? & ? & ? & ?)%validScores_components.
  unfold sumSquares, Js.reduce, scoreVec. simpl.
  repeat (first [ apply (add_below 11) | apply (add_below 9) | apply (add_below 7)
                | apply (add_below 5) | apply (add_below 3) | by apply mul_below | done ]).
Qed.

Lemma positiveFrom_mono L L' f : (L' ≤ L)%Z → positiveFrom L f → positiveFrom L' f.
Proof. intros HL. destruct f as [| | | [] m e]; simpl; try done. lia. Qed.

(** A non-zero magnitude of a valid vector is at least [2^-537]. *)
Lemma magnitude_from a :
  validScores a = true → Js.strict_eq (magnitude (scoreVec a)) 0 = false →
  positiveFrom (-536) (Prim2SF (magnitude (scoreVec a))).
Proof.
  intros Hbelow%sumSquares_below Hz.
  unfold Js.strict_eq, magnitude in *. rewrite FloatAxioms.eqb_spec, FloatAxioms.sqrt_spec in Hz. rewrite FloatAxioms.sqrt_spec.
  pose proof (Prim2SF_valid (sumSquares (scoreVec a))) as Hv.
  destruct (Prim2SF (sumSquares (scoreVec a))) as [s | | | [] m e]; try done.
  simpl in Hv. unfold bounded, canonical_mantissa in Hv.
  apply andb_true_iff in Hv as [Hc _]. apply Z.eqb_eq in Hc. rewrite fexp_eq in Hc.
  assert (-1073 ≤ Zdigits2 (Z.pos m) + e)%Z as HL.
  { pose proof (Zdigits2_pos (Z.pos m) eq_refl).
    change (Z.pos (digits2_pos m)) with (Zdigits2 (Z.pos m)) in Hc. lia. }
  eapply positiveFrom_mono; [| by apply SFsqrt_from].
  apply Z.div_le_lower_bound; lia.
Qed.

Lemma notNegative_above f : notNegative f → SFltb (Prim2SF (-1)) f = true.
Proof.
  change (Prim2SF (-1)) with (S754_finite true 4503599627370496 (-52)).
  by destruct f as [| [] | | [] m e].
Qed.

Lemma notNegative_from_zero f : notNegative f → SFleb (S754_zero false) f = true.
Proof. by destruct f as [| [] | | [] m e]. Qed.

(** The similarity of two valid vectors is neither NaN nor negative. *)
Lemma calculateSimilarity_notNegative a b :
  validScores a = true → validScores b = true →
  notNegative (Prim2SF (calculateSimilarity a b)).
Proof.
  intros Ha Hb. unfold calculateSimilarity.
  destruct (Js.strict_eq (magnitude (scoreVec a)) 0) eqn:Ea; [done |].
  destruct (Js.strict_eq (magnitude (scoreVec b)) 0) eqn:Eb; [done |]. simpl.
  rewrite FloatAxioms.div_spec, FloatAxioms.mul_spec.
  eapply SFdiv_notNegative; [by apply dotProduct_below |].
  apply (SFmul_from (-536) (-536)); [by apply magnitude_from | by apply magnitude_from | done].
Qed.

(** It compares above [-1], the initial [bestSimilarity] of the repair. *)
Lemma calculateSimilarity_above a b :
  validScores a = true → validScores b = true →
  Js.gt (calculateSimilarity a b) (-1) = true.
Proof.
  intros Ha Hb. unfold Js.gt. rewrite FloatAxioms.ltb_spec.
  by apply notNegative_above, calculateSimilarity_notNegative.
Qed.

Lemma calculateSimilarity_nonneg a b :
  validScores a = true → validScores b = true →
  PrimFloat.leb 0 (calculateSimilarity a b) = true.
Proof.
  intros Ha Hb. rewrite FloatAxioms.leb_spec.
  by apply notNegative_from_zero, calculateSimilarity_notNegative.
Qed.

End FloatBounds.

Lemma validNodes_simsAbove nodes searchedIdx :
  validNodes nodes → searchedIdx < length nodes → simsAbove nodes searchedIdx.
Proof.
  intros Hv Hs i Hi.
  apply calculateSimilarity_above; apply Hv, nodeAt_elem_of; done.
Qed.

(** ** Checking the output with a fresh union-find *)

Lemma Forall2_rootOf_replicate p idxs rs r :
  Forall2 (rootOf p) idxs rs → (∀ i, i ∈ idxs → rootOf p i r) →
  rs = replicate (length idxs) r.
Proof.
  induction 1 as [| i ri idxs rs Hi _ IH]; intros Hall; [done |]. simpl. f_equal.
  - eapply rootOf_det; [exact Hi |]. apply Hall. by left.
  - apply IH. intros j Hj. apply Hall. by right.
Qed.

Lemma sameRoot_trans p x y z : sameRoot p x y → sameRoot p y z → sameRoot p x z.
Proof.
  intros (r & Hx & Hy) (r' & Hy' & Hz). exists r. split; [done |].
  by rewrite (rootOf_det _ _ _ _ Hy Hy').
Qed.

Lemma sameRoot_sym p x y : sameRoot p x y → sameRoot p y x.
Proof. intros (r & Hx & Hy). by exists r. Qed.

Lemma nodeAt_id_inj nodes i j :
  NoDup (map id nodes) → i < length nodes → j < length nodes →
  id (nodeAt nodes i) = id (nodeAt nodes j) → i = j.
Proof.
  intros Hnd Hi Hj Heq.
  pose proof (nodeIdToIndexOf_NoDup nodes i Hnd Hi) as H1.
  pose proof (nodeIdToIndexOf_NoDup nodes j Hnd Hj) as H2.
  rewrite Heq in H1. congruence.
Qed.

(** With distinct identifiers, nodes connected through links are in the same
    component of any union-find array that merged the ends of every link. *)
Lemma connected_sameRoot nodes L p :
  NoDup (map id nodes) →
  (∀ l, l ∈ L → ∃ i j, i < length nodes ∧ j < length nodes ∧
                       source l = id (nodeAt nodes i) ∧ target l = id (nodeAt nodes j)) →
  (∀ l a b, l ∈ L → nodeIdToIndexOf nodes !! source l = Some a →
            nodeIdToIndexOf nodes !! target l = Some b → sameRoot p a b) →
  (∀ x, x < length nodes → sameRoot p x x) →
  ∀ x y, x < length nodes → y < length nodes →
    connected L (id (nodeAt nodes x)) (id (nodeAt nodes y)) → sameRoot p x y.
Proof.
  intros Hnd Hends Hcomp Hrefl x y Hx Hy Hconn.
  assert (∀ a b, connected L a b →
            a = b ∨ ∃ i j, i < length nodes ∧ j < length nodes ∧
                           a = id (nodeAt nodes i) ∧ b = id (nodeAt nodes j) ∧ sameRoot p i j) as Hind.
  { induction 1 as [a | l Hl | a b _ IH | a b c _ IH1 _ IH2].
    - by left.
    - right. destruct (Hends l Hl) as (i & j & Hi & Hj & Hsrc & Htgt).
      exists i, j. split_and!; try done.
      apply (Hcomp l); [done | |].
      + rewrite Hsrc. by apply nodeIdToIndexOf_NoDup.
      + rewrite Htgt. by apply nodeIdToIndexOf_NoDup.
    - destruct IH as [-> | (i & j & ? & ? & ? & ? & ?)]; [by left | right].
      exists j, i. split_and!; try done. by apply sameRoot_sym.
    - destruct IH1 as [-> | (i & j & Hi & Hj & Ha & Hb & Hij)]; [done |].
      destruct IH2 as [<- | (j' & k & Hj' & Hk & Hb' & Hc & Hjk)].
      + right. by exists i, j.
      + right. exists i, k. split_and!; try done.
        assert (j = j') as <- by (apply (nodeAt_id_inj nodes); congruence).
        by eapply sameRoot_trans. }
  destruct (Hind _ _ Hconn) as [Heq | (i & j & Hi & Hj & Hxi & Hyj & Hij)].
  - apply (nodeAt_id_inj nodes) in Heq; [| done | done | done]. subst. by apply Hrefl.
  - apply (nodeAt_id_inj nodes) in Hxi; [| done | done | done].
    apply (nodeAt_id_inj nodes) in Hyj; [| done | done | done]. by subst i j.
Qed.

(** If every link joins two nodes of the list and every node is connected to
    the node [s], the component detection finds one root for all indices. *)
Lemma unionFindRoots_single nodes L s :
  NoDup (map id nodes) → s < length nodes →
  (∀ l, l ∈ L → ∃ i j, i < length nodes ∧ j < length nodes ∧
                       source l = id (nodeAt nodes i) ∧ target l = id (nodeAt nodes j)) →
  (∀ z, z < length nodes → connected L (id (nodeAt nodes z)) (id (nodeAt nodes s))) →
  ∃ r, unionFindRoots nodes L = Some (replicate (length nodes) r).
Proof.
  intros Hnd Hs Hends Hconn. unfold unionFindRoots.
  destruct (unionLinks_ok (nodeIdToIndexOf nodes) L (seq 0 (length nodes)))
    as (p & Hun & Hlen & Hf & _ & Hcomp & _).
  { apply forest_seq. }
  { intros a b [Hb _]%nodeIdToIndexOf_Some. by rewrite length_seq. }
  rewrite length_seq in Hun, Hlen. rewrite Hun. simpl.
  destruct (rootsOf_ok (seq 0 (length nodes)) p Hf) as (rs & Hrs & Hall).
  { intros i Hi%elem_of_seq. lia. }
  rewrite Hlen in Hrs. rewrite Hrs.
  destruct (Hf s) as [r Hr]; [lia |]. exists r. f_equal.
  assert (rs = replicate (length (seq 0 (length nodes))) r) as ->; [| by rewrite length_seq].
  eapply Forall2_rootOf_replicate; [exact Hall |].
  intros z Hz%elem_of_seq.
  destruct (connected_sameRoot nodes L p Hnd Hends Hcomp) with (x := z) (y := s)
    as (r' & Hz' & Hs'); [| lia | done | apply Hconn; lia |].
  - intros x Hx. destruct (Hf x) as [rx Hrx]; [lia |]. by exists rx.
  - by rewrite (rootOf_det _ _ _ _ Hr Hs').
Qed.

Lemma prunedLinksOf_ends nodes l :
  l ∈ prunedLinksOf nodes →
  ∃ i j, i < length nodes ∧ j < length nodes ∧
         source l = id (nodeAt nodes i) ∧ target l = id (nodeAt nodes j).
Proof.
  unfold prunedLinksOf. intros (pr & <- & Hpr%list_elem_of_In)%list_elem_of_In%in_map_iff.
  apply prunedPairsOf_ordered in Hpr. exists (pair_i pr), (pair_j pr). simpl.
  split_and!; try done; lia.
Qed.

Lemma repairLinks_ends nodes s bests l :
  s < length nodes → (∀ b, b ∈ bests.*1 → b < length nodes) →
  l ∈ map (repairLink nodes s) bests →
  ∃ i j, i < length nodes ∧ j < length nodes ∧
         source l = id (nodeAt nodes i) ∧ target l = id (nodeAt nodes j).
Proof.
  intros Hs Hb (b & <- & Hin%list_elem_of_In)%list_elem_of_In%in_map_iff.
  exists b.1, s. split_and!; try done.
  apply Hb. apply list_elem_of_fmap. by exists b.
Qed.

(** With distinct identifiers, the components found after merging the
    pruned links are the connected components of the pruned graph. *)
Lemma initialComponents_adequate nodes p0 :
  NoDup (map id nodes) → initialComponents nodes = Some p0 →
  ∀ x y, x < length nodes → y < length nodes →
    sameRoot p0 x y ↔
    connected (prunedLinksOf nodes) (id (nodeAt nodes x)) (id (nodeAt nodes y)).
Proof.
  intros Hnd Hinit x y Hx Hy.
  destruct (initialComponents_ok nodes) as (p & Hinit' & Hlen & Hf & Hcomp & Hsound).
  assert (p = p0) as -> by congruence.
  split.
  - set (R := λ i j : nat,
          connected (prunedLinksOf nodes) (id (nodeAt nodes i)) (id (nodeAt nodes j))).
    assert (Reflexive R) by (intros i; apply connected_refl).
    assert (Symmetric R) by (intros i j; apply connected_sym).
    assert (Transitive R) by (intros i j k; apply connected_trans).
    apply (Hsound R); try done.
    intros l a b Hl [_ Ha]%nodeIdToIndexOf_Some [_ Hb]%nodeIdToIndexOf_Some.
    unfold R. rewrite Ha, Hb. by apply connected_link.
  - apply (connected_sameRoot nodes (prunedLinksOf nodes) p0); try done.
    + intros l. apply prunedLinksOf_ends.
    + intros z Hz. destruct (Hf z) as [r Hr]; [lia |]. by exists r.
Qed.

(** ** The build on every input *)

Lemma prunedLinksOf_nil : prunedLinksOf [] = [].
Proof. reflexivity. Qed.

Lemma bookGraphData_shape genreBooks highlightedBookId :
  let searchedIdx := searchedIdxOf (nodeIdToIndexOf genreBooks) highlightedBookId in
  ∃ g bests,
    bookGraphData genreBooks highlightedBookId = Some g ∧
    nodes g = genreBooks ∧
    links g = prunedLinksOf genreBooks ++ map (repairLink genreBooks searchedIdx) bests ∧
    NoDup bests.*1 ∧ searchedIdx ∉ bests.*1.
Proof.
  intros searchedIdx. destruct (decide (genreBooks = [])) as [-> | Hne].
  - exists {| nodes := []; links := [] |}, []. split_and!; try done; [constructor | by intros ?%elem_of_nil].
  - destruct (bookGraphData_run genreBooks highlightedBookId Hne)
      as (p0 & bests & _ & Hrun & Hnd & Hs & _).
    eexists _, bests. split_and!; [exact Hrun | done | done | done | done].
Qed.

Lemma validNodes_connected genreBooks highlightedBookId :
  genreBooks ≠ [] → validNodes genreBooks →
  let searchedIdx := searchedIdxOf (nodeIdToIndexOf genreBooks) highlightedBookId in
  ∃ p0 g bests,
    initialComponents genreBooks = Some p0 ∧
    bookGraphData genreBooks highlightedBookId = Some g ∧
    nodes g = genreBooks ∧
    links g = prunedLinksOf genreBooks ++ map (repairLink genreBooks searchedIdx) bests ∧
    (∀ b, b ∈ bests.*1 → b < length genreBooks) ∧
    S (length bests) = componentCount p0 ∧
    ∀ z, z < length genreBooks →
      connected (links g) (id (nodeAt genreBooks z)) (id (nodeAt genreBooks searchedIdx)).
Proof.
  intros Hne Hvalid searchedIdx.
  destruct (bookGraphData_run genreBooks highlightedBookId Hne)
    as (p0 & bests & Hinit & Hrun & _ & _ & Hlt & Hsims & _).
  destruct Hsims as [Hcount Hconn].
  { apply validNodes_simsAbove; [done | by apply searchedIdxOf_lt]. }
  eexists p0, _, bests. split_and!; [done | exact Hrun | done | done | done | done | done].
Qed.

(** ** Properties of the graph build *)

Lemma filter_eq_absent (l : list nat) v : v ∉ l → filter (λ b, b = v) l = [].
Proof.
  induction l as [| b l IH]; [done |]. intros Hv.
  rewrite filter_cons. case_decide as Hd.
  - subst b. destruct Hv. by left.
  - apply IH. intros ?. apply Hv. by right.
Qed.

Lemma NoDup_count_le (l : list nat) v : NoDup l → length (filter (λ b, b = v) l) ≤ 1.
Proof.
  induction 1 as [| b l Hb Hnd IH]; [simpl; lia |].
  rewrite filter_cons. case_decide as Hd; [| done]. subst b. simpl.
  rewrite filter_eq_absent by done. simpl. lia.
Qed.

(** C1: for a list of at least one entity with distinct identifiers, each
    carrying a sentiment vector of the data model, and an anchor identifier
    present in the list, the build returns a graph on the same nodes in which
    every node is connected to the anchor through the links, and running the
    union-find component detection over the returned links gives one root for
    all indices. *)
Theorem C1_connected_to_anchor genreBooks anchorId :
  1 ≤ length genreBooks →
  NoDup (map id genreBooks) →
  validNodes genreBooks →
  (∃ x, x ∈ genreBooks ∧ id x = anchorId) →
  ∃ g r,
    bookGraphData genreBooks (Some anchorId) = Some g ∧
    nodes g = genreBooks ∧
    (∀ x, x ∈ genreBooks → connected (links g) (id x) anchorId) ∧
    unionFindRoots (nodes g) (links g) = Some (replicate (length genreBooks) r).
Proof.
  intros Hlen Hnd Hvalid (y & Hy & Hid).
  assert (genreBooks ≠ []) as Hne by (intros ->; simpl in Hlen; lia).
  destruct (validNodes_connected genreBooks (Some anchorId) Hne Hvalid)
    as (p0 & g & bests & _ & Hrun & Hnodes & Hlinks & Hlt & _ & Hconn).
  set (s := searchedIdxOf (nodeIdToIndexOf genreBooks) (Some anchorId)) in *.
  assert (s < length genreBooks) as Hs by (by apply searchedIdxOf_lt).
  destruct (unionFindRoots_single genreBooks (links g) s Hnd Hs) as [r Hr].
  { intros l. rewrite Hlinks. intros [Hl | Hl]%elem_of_app.
    - by apply prunedLinksOf_ends.
    - by eapply repairLinks_ends. }
  { done. }
  exists g, r. split_and!; [done | done | | by rewrite Hnodes].
  intros x (z & Hz & <-)%elem_of_nodeAt.
  apply elem_of_nodeAt in Hy as (k & Hk & <-). subst anchorId.
  eapply connected_trans; [by apply Hconn |].
  apply connected_sym. by apply Hconn.
Qed.

(** C2: on every input the number of links after pruning is the ceiling of
    seven tenths of min(selected, floor(1.5 n)), that is the count [k] with
    7x <= 10k < 7x + 10.  The union-find built from the pruned links finds the
    connected components of the pruned graph (stated for distinct
    identifiers), and for sentiment vectors of the data model the repair adds
    exactly one link less than the number of these components (no link for
    the empty list, which has no component). *)
Theorem C2_edge_counts genreBooks highlightedBookId :
  let kept := length (prunedLinksOf genreBooks) in
  let x := Nat.min (length (selectedPairsOf genreBooks))
                   (targetTotalConnections (length genreBooks)) in
  (7 * x ≤ 10 * kept ∧ 10 * kept < 7 * x + 10) ∧
  ∃ p0,
    initialComponents genreBooks = Some p0 ∧
    (NoDup (map id genreBooks) →
     ∀ i j, i < length genreBooks → j < length genreBooks →
       sameRoot p0 i j ↔
       connected (prunedLinksOf genreBooks)
                 (id (nodeAt genreBooks i)) (id (nodeAt genreBooks j))) ∧
    (validNodes genreBooks →
     ∃ g,
       bookGraphData genreBooks highlightedBookId = Some g ∧
       take kept (links g) = prunedLinksOf genreBooks ∧
       length (links g) = kept + (componentCount p0 - 1)).
Proof.
  intros kept x. split.
  - subst kept x. unfold prunedLinksOf. rewrite length_map, prunedPairsOf_length.
    rewrite Nat.min_l by apply selectedPairsOf_length.
    generalize (length (selectedPairsOf genreBooks)). intros n.
    pose proof (Nat.div_mod_eq (7 * n + 9) 10) as Hd.
    pose proof (Nat.mod_upper_bound (7 * n + 9) 10). lia.
  - destruct (initialComponents_ok genreBooks) as (p0 & Hinit & _).
    exists p0. split_and!; [done | intros Hnd; by apply initialComponents_adequate |].
    intros Hvalid. destruct (decide (genreBooks = [])) as [-> | Hne].
    + exists {| nodes := []; links := [] |}.
      assert (p0 = []) as -> by (by injection Hinit as <-). done.
    + destruct (validNodes_connected genreBooks highlightedBookId Hne Hvalid)
        as (p0' & g & bests & Hinit' & Hrun & _ & Hlinks & _ & Hcount & _).
      assert (p0' = p0) as -> by congruence.
      exists g. split_and!; [done | |].
      * subst kept. by rewrite Hlinks, take_app_length.
      * subst kept. rewrite Hlinks, length_app, length_map. lia.
Qed.

(** C3: no index is incident to more than three pairs selected by the greedy
    pass; every link added by the repair goes from a node other than the
    searched node to the searched node, and no node is the source of two of
    them; the searched node itself can receive several (two in the example
    of six books). *)
Theorem C3_degree_cap :
  (∀ genreBooks highlightedBookId,
     let searchedIdx := searchedIdxOf (nodeIdToIndexOf genreBooks) highlightedBookId in
     (∀ v, degreeIn v (selectedPairsOf genreBooks) ≤ 3) ∧
     ∃ g bests,
       bookGraphData genreBooks highlightedBookId = Some g ∧
       links g = prunedLinksOf genreBooks ++ map (repairLink genreBooks searchedIdx) bests ∧
       searchedIdx ∉ bests.*1 ∧
       ∀ v, length (filter (λ b, b = v) bests.*1) ≤ 1) ∧
  (∃ g bests,
     bookGraphData sixBooks (Some "b") = Some g ∧
     links g = prunedLinksOf sixBooks ++ map (repairLink sixBooks 1) bests ∧
     length bests = 2).
Proof.
  split.
  - intros genreBooks highlightedBookId searchedIdx. split.
    + intros v. apply selectedPairsOf_degree.
    + destruct (bookGraphData_shape genreBooks highlightedBookId)
        as (g & bests & Hrun & _ & Hlinks & Hnd & Hs).
      exists g, bests. split_and!; try done.
      intros v. by apply NoDup_count_le.
  - eexists _, [(4, 0%float); (5, 0%float)].
    split_and!; [vm_compute; reflexivity | vm_compute; reflexivity | done].
Qed.

(** C10: an anchor identifier that matches no entity makes the build use
    index 0 as the searched node, and the build still returns a graph; for a
    non-empty list of sentiment vectors of the data model the repair adds, for
    every component but that of the first entity, one link to the first
    entity, after which every node is connected to the first entity. *)
Theorem C10_unknown_anchor_falls_back genreBooks anchorId :
  (∀ x, x ∈ genreBooks → id x ≠ anchorId) →
  searchedIdxOf (nodeIdToIndexOf genreBooks) (Some anchorId) = 0 ∧
  (∃ g, bookGraphData genreBooks (Some anchorId) = Some g ∧ nodes g = genreBooks) ∧
  (genreBooks ≠ [] → validNodes genreBooks →
   ∃ p0 g bests,
     initialComponents genreBooks = Some p0 ∧
     bookGraphData genreBooks (Some anchorId) = Some g ∧
     links g = prunedLinksOf genreBooks ++ map (repairLink genreBooks 0) bests ∧
     S (length bests) = componentCount p0 ∧
     ∀ x, x ∈ genreBooks → connected (links g) (id x) (id (nodeAt genreBooks 0))).
Proof.
  intros Habsent.
  assert (searchedIdxOf (nodeIdToIndexOf genreBooks) (Some anchorId) = 0) as Hs.
  { unfold searchedIdxOf. destruct (String.eqb anchorId ""); [done |].
    by rewrite nodeIdToIndexOf_None. }
  split_and!; [done | |].
  - destruct (bookGraphData_shape genreBooks (Some anchorId)) as (g & _ & Hrun & Hnodes & _).
    by exists g.
  - intros Hne Hvalid.
    destruct (validNodes_connected genreBooks (Some anchorId) Hne Hvalid)
      as (p0 & g & bests & Hinit & Hrun & _ & Hlinks & _ & Hcount & Hconn).
    rewrite Hs in Hlinks, Hconn.
    exists p0, g, bests. split_and!; try done.
    intros x (z & Hz & <-)%elem_of_nodeAt. by apply Hconn.
Qed.

(** C5, as the code has it: the build validates nothing.  On every input,
    whatever the components of the vectors, it returns a graph whose nodes are
    the input entities; an invalid component flows into the similarity
    weights, and the node it belongs to can stay disconnected. *)
Theorem C5_no_validation genreBooks highlightedBookId :
  ∃ g, bookGraphData genreBooks highlightedBookId = Some g ∧ nodes g = genreBooks.
Proof.
  destruct (bookGraphData_shape genreBooks highlightedBookId) as (g & _ & Hrun & Hnodes & _).
  by exists g.
Qed.

(** ** Binary64 arithmetic: commutation and negation *)

Section FloatSymmetry.

Local Open Scope Z_scope.

Lemma Prim2SF_eq x y : Prim2SF x = Prim2SF y → x = y.
Proof. intros H. by rewrite <- (SF2Prim_Prim2SF x), <- (SF2Prim_Prim2SF y), H. Qed.

Lemma float_mul_comm x y : (x * y)%float = (y * x)%float.
Proof.
  apply Prim2SF_eq. rewrite !FloatAxioms.mul_spec.
  destruct (Prim2SF x) as [sx | sx | | sx mx ex], (Prim2SF y) as [sy | sy | | sy my ey];
    simpl; rewrite ?(xorb_comm sy sx); try done.
  by rewrite (Pos.mul_comm my mx), (Z.add_comm ey ex).
Qed.

Lemma binary_round_aux_opp s m e l :
  binary_round_aux prec emax (negb s) m e l = SFopp (binary_round_aux prec emax s m e l).
Proof.
  unfold binary_round_aux.
  destruct (shr_fexp prec emax m e l) as [mrs' e'].
  destruct (shr_fexp prec emax _ e' loc_Exact) as [mrs'' e''].
  destruct (shr_m mrs''); simpl; [done | by destruct (_ <=? _) | done].
Qed.

Lemma binary_round_opp s m e :
  binary_round prec emax (negb s) m e = SFopp (binary_round prec emax s m e).
Proof.
  unfold binary_round. destruct (shl_align m e _) as [mz ez]. apply binary_round_aux_opp.
Qed.

Lemma binary_normalize_opp m e :
  negated (binary_normalize prec emax m e false) (binary_normalize prec emax (- m) e false).
Proof.
  destruct m as [| p | p]; simpl.
  - by right.
  - left. apply (binary_round_opp false).
  - left. apply (binary_round_opp true).
Qed.

Lemma SFsub_negated x y : negated (SFsub prec emax x y) (SFsub prec emax y x).
Proof.
  destruct x as [sx | sx | | sx mx ex], y as [sy | sy | | sy my ey].
  16: { unfold SFsub. change IntDef.Z.min with Z.min. rewrite (Z.min_comm ey ex).
        match goal with
        | |- negated (binary_normalize _ _ ?a _ _) (binary_normalize _ _ ?b _ _) =>
            replace b with (- a) by lia; apply binary_normalize_opp
        end. }
  all: try (destruct sx); try (destruct sy); simpl; try (by left); by right.
Qed.

Lemma SFadd_negated a a' b b' :
  negated a a' → negated b b' → negated (SFadd prec emax a b) (SFadd prec emax a' b').
Proof.
  intros [-> | [Ha Ha']] [-> | [Hb Hb']].
  - destruct a as [sa | sa | | sa ma ea], b as [sb | sb | | sb mb eb].
    16: { unfold SFadd, SFopp.
          match goal with
          | |- negated (binary_normalize _ _ ?a _ _) (binary_normalize _ _ ?b _ _) =>
              replace b with (- a) by (destruct sa, sb; simpl; lia); apply binary_normalize_opp
          end. }
    all: try (destruct sa); try (destruct sb); simpl; try (by left); by right.
  - destruct a as [sa | sa | | sa ma ea], b as [sb | | |], b' as [sb' | | |]; try done;
      try (destruct sa); try (destruct sb); try (destruct sb'); simpl; try (by left); by right.
  - destruct a as [sa | | |], a' as [sa' | | |], b as [sb | sb | | sb mb eb]; try done;
      try (destruct sa); try (destruct sa'); try (destruct sb); simpl; try (by left); by right.
  - destruct a as [[] | | |], a' as [[] | | |], b as [[] | | |], b' as [[] | | |]; try done;
      by right.
Qed.

Lemma SFmul_negated u v (m : positive) (e : Z) :
  negated u v →
  negated (SFmul prec emax u (S754_finite false m e)) (SFmul prec emax v (S754_finite false m e)).
Proof.
  intros [-> | [Hu Hv]].
  - left. destruct u as [su | su | | su mu eu]; simpl; try done.
    + by destruct su.
    + by destruct su.
    + rewrite !xorb_false_r. apply binary_round_aux_opp.
  - right. by destruct u, v.
Qed.

Lemma negated_ltb c c' :
  negated c c' → SFltb c (S754_zero false) = true → SFltb c' (S754_zero false) = false.
Proof.
  intros [-> | [Hc Hc']].
  - by destruct c as [| [] | | [] m e].
  - by destruct c.
Qed.

(** The comparator of the dimensions never orders two dimensions both ways. *)
Lemma dimensionCmp_antisym x y :
  Js.lt (dimensionCmp x y) 0%float = true → Js.lt (dimensionCmp y x) 0%float = false.
Proof.
  unfold Js.lt, dimensionCmp.
  rewrite !FloatAxioms.ltb_spec, !FloatAxioms.add_spec, !FloatAxioms.mul_spec, !FloatAxioms.sub_spec.
  change (Prim2SF 0%float) with (S754_zero false).
  change (Prim2SF 0.5%float) with (S754_finite false 4503599627370496 (-53)).
  apply negated_ltb, SFadd_negated; [apply SFsub_negated |].
  apply SFmul_negated, SFsub_negated.
Qed.

End FloatSymmetry.

(** ** The ranking of the dimensions *)

Lemma sort_insert_sorted {A : Type} (cmp : A → A → Js.number) x l :
  (∀ a b, Js.lt (cmp a b) 0%float = true → Js.lt (cmp b a) 0%float = false) →
  Sorted (notAfter cmp) l → Sorted (notAfter cmp) (Js.sort_insert cmp x l).
Proof.
  intros Hanti. induction 1 as [| y l Hl IH Hhd]; simpl.
  - by repeat constructor.
  - destruct (Js.lt (cmp x y) 0%float) eqn:E.
    + constructor; [by constructor |]. constructor. by apply Hanti.
    + constructor; [done |].
      destruct l as [| z l]; simpl.
      * by constructor.
      * destruct (Js.lt (cmp x z) 0%float); constructor; [done |].
        by inversion Hhd.
Qed.

Lemma sort_sorted {A : Type} (cmp : A → A → Js.number) l :
  (∀ a b, Js.lt (cmp a b) 0%float = true → Js.lt (cmp b a) 0%float = false) →
  Sorted (notAfter cmp) (Js.sort cmp l).
Proof.
  intros Hanti. unfold Js.sort.
  assert (∀ acc, Sorted (notAfter cmp) acc →
                 Sorted (notAfter cmp) (fold_left (λ acc x, Js.sort_insert cmp x acc) l acc)) as H.
  { induction l as [| x l IH]; intros acc Hacc; simpl; [done |].
    by apply IH, sort_insert_sorted. }
  apply H. constructor.
Qed.

End ExplorerFacts.

(** ** Similarity: zero magnitude and symmetry *)

Section SimilarityFacts.

Local Open Scope Z_scope.

Lemma dotProduct_self a : dotProduct (scoreVec a) (scoreVec a) = sumSquares (scoreVec a).
Proof. reflexivity. Qed.

Lemma calculateSimilarity_comm a b : calculateSimilarity a b = calculateSimilarity b a.
Proof.
  unfold calculateSimilarity. rewrite (orb_comm (Js.strict_eq (magnitude (scoreVec b)) 0%float)).
  destruct (_ || _); [done |].
  rewrite (float_mul_comm (magnitude (scoreVec b))). f_equal.
  unfold dotProduct, Js.reduce, scoreVec. simpl.
  by rewrite (float_mul_comm (moody b)), (float_mul_comm (scientific b)),
    (float_mul_comm (optimistic b)), (float_mul_comm (philosophical b)),
    (float_mul_comm (adventurous b)).
Qed.

End SimilarityFacts.

(** ** The integer formulas against their binary64 evaluation *)

(** [Math.max(1, Math.ceil(s * 0.7))] and [Math.floor(n * 1.5)], evaluated in
    binary64, are [edgesToKeep s] and [targetTotalConnections n] for every
    length up to 4096. *)
Lemma length_formulas_binary64 :
  forallb (λ k, agreesWithCeil k && agreesWithFloor k) (seq 0 4097) = true.
Proof. vm_compute. reflexivity. Qed.

(** ** Properties of the similarity and of the genre table *)

(** C4: when one of the two vectors has zero magnitude, the similarity is
    exactly 0, which is not NaN; no division takes place. *)
Theorem C4_zero_magnitude a b :
  zeroMagnitude a ∨ zeroMagnitude b →
  calculateSimilarity a b = 0%float ∧ PrimFloat.is_nan (calculateSimilarity a b) = false.
Proof.
  unfold zeroMagnitude, calculateSimilarity. intros [-> | ->]; [done |].
  by rewrite orb_true_r.
Qed.

(** The all-zero vector has zero magnitude, so its similarity with the neutral
    vector, on either side, is 0. *)
Lemma C4_witness :
  (zeroMagnitude zeroScores ∨ zeroMagnitude neutralScores) ∧
  calculateSimilarity zeroScores neutralScores = 0%float ∧
  PrimFloat.is_nan (calculateSimilarity zeroScores neutralScores) = false.
Proof.
  assert (zeroMagnitude zeroScores ∨ zeroMagnitude neutralScores) as H by (left; reflexivity).
  split; [exact H |]. exact (C4_zero_magnitude zeroScores neutralScores H).
Defined.

(** *** calculateGenreSimilarity *)

Lemma lookupSimilarity_outside_l a b : a ∉ genreKeys → lookupSimilarity a b = None.
Proof.
  intros Ha. unfold lookupSimilarity, similarities.
  rewrite !lookup_insert_ne; [by rewrite lookup_empty | ..];
    intros <-; apply Ha; unfold genreKeys; set_solver.
Qed.

Lemma lookupSimilarity_outside_r a b : b ∉ genreKeys → lookupSimilarity a b = None.
Proof.
  intros Hb. unfold lookupSimilarity.
  destruct (similarities !! a) as [row |] eqn:E; [| done]. simpl.
  unfold similarities in E.
  repeat (rewrite lookup_insert in E; case_decide; [injection E as <- |]).
  all: try (rewrite lookup_empty in E; done).
  all: rewrite !lookup_insert_ne; [by rewrite lookup_empty | ..];
    intros <-; apply Hb; unfold genreKeys; set_solver.
Qed.

Lemma genreKeys_cases a :
  a ∈ genreKeys →
  a = "Sci-Fi" ∨ a = "Non-Fiction" ∨ a = "Literary Fiction" ∨ a = "Fantasy" ∨
  a = "Mystery" ∨ a = "Philosophy".
Proof. unfold genreKeys. set_solver. Qed.

Lemma calculateGenreSimilarity_comm a b :
  calculateGenreSimilarity a b = calculateGenreSimilarity b a.
Proof.
  unfold calculateGenreSimilarity.
  rewrite (String.eqb_sym b a).
  destruct (String.eqb a b); [done |].
  f_equal.
  destruct (decide (a ∈ genreKeys)) as [Ha | Ha].
  2:{ by rewrite (lookupSimilarity_outside_l a b), (lookupSimilarity_outside_r b a). }
  destruct (decide (b ∈ genreKeys)) as [Hb | Hb].
  2:{ by rewrite (lookupSimilarity_outside_l b a), (lookupSimilarity_outside_r a b). }
  apply genreKeys_cases in Ha, Hb.
  destruct Ha as [-> | [-> | [-> | [-> | [-> | ->]]]]],
           Hb as [-> | [-> | [-> | [-> | [-> | ->]]]]];
    vm_compute; reflexivity.
Qed.

(** C9 fails as stated: the reasons returned are "Same genre" and "Shared
    literary heritage", not "Same category" and "Shared heritage". *)
Lemma C9_counterexample :
  calculateGenreSimilarity "Sci-Fi" "Sci-Fi" = {| weight := 1%float; genreReason := "Same genre" |} ∧
  String.eqb (genreReason (calculateGenreSimilarity "Sci-Fi" "Sci-Fi")) "Same category" = false ∧
  calculateGenreSimilarity "Romance" "Horror"
    = {| weight := 0.3%float; genreReason := "Shared literary heritage" |} ∧
  String.eqb (genreReason (calculateGenreSimilarity "Romance" "Horror")) "Shared heritage" = false.
Proof. repeat split; vm_compute; reflexivity. Qed.

(** C9, amended: on genre names that are plain keys (not the name of a
    property inherited from [Object.prototype], where the object lookup of
    line 173 answers with the inherited member), the lookup is symmetric in
    its two arguments, and two distinct genres absent from the table in both
    orders get weight 0.3 with reason "Shared literary heritage"; two
    identical names, plain or not, get weight 1 with reason "Same genre". *)
Theorem C9_genre_similarity :
  (∀ a b, plainKey a → plainKey b →
          calculateGenreSimilarity a b = calculateGenreSimilarity b a) ∧
  (∀ a, calculateGenreSimilarity a a = {| weight := 1%float; genreReason := "Same genre" |}) ∧
  (∀ a b, plainKey a → plainKey b → a ≠ b →
          lookupSimilarity a b = None → lookupSimilarity b a = None →
          calculateGenreSimilarity a b
            = {| weight := 0.3%float; genreReason := "Shared literary heritage" |}).
Proof.
  split_and!.
  - intros a b _ _. apply calculateGenreSimilarity_comm.
  - intros a. unfold calculateGenreSimilarity. by rewrite String.eqb_refl.
  - intros a b _ _ Hne Hab Hba. unfold calculateGenreSimilarity.
    rewrite (proj2 (String.eqb_neq a b) Hne), Hab, Hba. done.
Qed.

Lemma C9_witness :
  calculateGenreSimilarity "Romance" "Horror" = calculateGenreSimilarity "Horror" "Romance" ∧
  calculateGenreSimilarity "Romance" "Horror"
    = {| weight := 0.3%float; genreReason := "Shared literary heritage" |}.
Proof.
  split.
  - apply (proj1 C9_genre_similarity "Romance" "Horror"); reflexivity.
  - apply (proj2 (proj2 C9_genre_similarity) "Romance" "Horror");
      [reflexivity | reflexivity | done | reflexivity | reflexivity].
Defined.

(** ** The build on the example inputs *)

Lemma validNodes_forallb nodes :
  forallb (λ x, validScores (sentimentScores x)) nodes = true → validNodes nodes.
Proof.
  intros H x Hx. rewrite forallb_forall in H. by apply H, list_elem_of_In.
Qed.

Lemma sixBooks_valid : validNodes sixBooks.
Proof. by apply validNodes_forallb. Qed.

Lemma sixBooks_NoDup : NoDup (map id sixBooks).
Proof. apply (bool_decide_unpack _). by vm_compute. Qed.

(** C5 fails as stated: a list whose fifth entity has a NaN component is
    accepted; the build returns the five links among the first four entities
    and leaves the fifth entity without a link.  No error is raised. *)
Lemma C5_counterexample :
  validScores (sentimentScores (nodeAt booksWithNaN 4)) = false ∧
  (λ g, (nodes g, map (λ l, (source l, target l)) (links g)))
    <$> bookGraphData (engine := Js.Number_toString) booksWithNaN (Some "a")
  = Some (booksWithNaN, [("a", "b"); ("a", "c"); ("a", "d"); ("b", "c"); ("b", "d")]).
Proof. split; vm_compute; reflexivity. Qed.

(** The same happens with a component below the unit interval. *)
Example negative_component_accepted :
  validScores (sentimentScores (nodeAt booksWithNegative 4)) = false ∧
  (λ g, (nodes g, map (λ l, (source l, target l)) (links g)))
    <$> bookGraphData (engine := Js.Number_toString) booksWithNegative (Some "a")
  = Some (booksWithNegative, [("a", "b"); ("a", "c"); ("a", "d"); ("b", "c"); ("b", "d")]).
Proof. split; vm_compute; reflexivity. Qed.

Lemma C1_witness :
  ∃ g r,
    bookGraphData (engine := Js.Number_toString) sixBooks (Some "b") = Some g ∧
    nodes g = sixBooks ∧
    (∀ x, x ∈ sixBooks → connected (links g) (id x) "b") ∧
    unionFindRoots (nodes g) (links g) = Some (replicate (length sixBooks) r).
Proof.
  apply (C1_connected_to_anchor (engine := Js.Number_toString) sixBooks "b").
  - simpl. lia.
  - exact sixBooks_NoDup.
  - exact sixBooks_valid.
  - exists (book "b" axis1). split; [| reflexivity]. unfold sixBooks. set_solver.
Defined.

Lemma C2_witness :
  ∃ g,
    bookGraphData (engine := Js.Number_toString) sixBooks (Some "b") = Some g ∧
    length (links g) = 7.
Proof.
  destruct (C2_edge_counts (engine := Js.Number_toString) sixBooks (Some "b"))
    as (_ & p0 & Hinit & _ & Hrepair).
  destruct (Hrepair sixBooks_valid) as (g & Hrun & _ & Hlen).
  exists g. split; [exact Hrun |].
  rewrite Hlen. vm_compute in Hinit. injection Hinit as <-. reflexivity.
Defined.

Lemma C10_witness :
  searchedIdxOf (nodeIdToIndexOf sixBooks) (Some "missing") = 0 ∧
  (∃ g, bookGraphData (engine := Js.Number_toString) sixBooks (Some "missing") = Some g ∧ nodes g = sixBooks) ∧
  (sixBooks ≠ [] → validNodes sixBooks →
   ∃ p0 g bests,
     initialComponents (engine := Js.Number_toString) sixBooks = Some p0 ∧
     bookGraphData (engine := Js.Number_toString) sixBooks (Some "missing") = Some g ∧
     links g = prunedLinksOf (engine := Js.Number_toString) sixBooks
               ++ map (repairLink (engine := Js.Number_toString) sixBooks 0) bests ∧
     S (length bests) = componentCount p0 ∧
     ∀ x, x ∈ sixBooks → connected (links g) (id x) (id (nodeAt sixBooks 0))).
Proof.
  apply (C10_unknown_anchor_falls_back (engine := Js.Number_toString) sixBooks "missing").
  intros x Hx. unfold sixBooks in Hx.
  repeat (apply elem_of_cons in Hx as [-> | Hx]; [done |]).
  by apply elem_of_nil in Hx.
Defined.

(** The run on the six books: five links survive the pruning, and the two
    books left alone each get a link to the searched book "b". *)
Example sixBooks_links :
  (λ g, map (λ l, (source l, target l, similarityWeight l)) (links g))
    <$> bookGraphData (engine := Js.Number_toString) sixBooks (Some "b")
  = Some [("a", "b", 1%float); ("a", "c", 1%float); ("a", "d", 1%float);
          ("b", "c", 1%float); ("b", "d", 1%float);
          ("e", "b", 0%float); ("f", "b", 0%float)].
Proof. vm_compute. reflexivity. Qed.

Example explanation_example :
  generateConnectionReason (engine := Js.Number_toString)
    (book "a" (mkScores 0.1 0.8 0.1 0.9 0.1)%float)
    (book "b" (mkScores 0.1 0.7 0.1 0.9 0.1)%float) 0.81%float
  = "Both share strong philosophical depth and similar scientific rigor. Overall 81% thematic match.".
Proof. vm_compute. reflexivity. Qed.

Example explanation_fallback :
  generateConnectionReason (engine := Js.Number_toString)
    (book "a" (mkScores 0.1 0.1 0.1 0.1 0.1)%float)
    (book "b" (mkScores 0.1 0.1 0.1 0.1 0.1)%float) 0.81%float
  = "These works share a 81% thematic similarity based on their emotional and intellectual profiles.".
Proof. vm_compute. reflexivity. Qed.

(** * Further developments

    More facts about the graph build, and facts about the other functions of
    the page, of the API routes and of the cover background. *)

(** ** The links of the graph *)

Section GraphFacts.

Context {engine : NumberToString}.

(** ** The links of the graph, pair by pair *)

Lemma allPairs_sim nodes pr :
  pr ∈ allPairs nodes → pair_sim pr = simAt nodes (pair_i pr) (pair_j pr).
Proof.
  unfold allPairs. intros Hin.
  apply list_elem_of_In, in_flat_map in Hin as (i & Hi & Hin).
  by apply in_map_iff in Hin as (j & <- & Hj).
Qed.

Lemma selectedPairsOf_allPairs nodes pr : pr ∈ selectedPairsOf nodes → pr ∈ allPairs nodes.
Proof.
  unfold selectedPairsOf.
  intros [Hin | Hin]%greedySelect_subset; [by apply elem_of_nil in Hin |].
  by rewrite sort_perm in Hin.
Qed.

Lemma prunedPairsOf_selected nodes pr : pr ∈ prunedPairsOf nodes → pr ∈ selectedPairsOf nodes.
Proof.
  unfold prunedPairsOf, Js.slice0. intros Hin.
  apply elem_of_take in Hin as (i & Hin & _).
  apply list_elem_of_lookup_2 in Hin. by rewrite sort_perm in Hin.
Qed.

Lemma prunedLinksOf_linkOf nodes l :
  l ∈ prunedLinksOf nodes →
  ∃ i j, i < j ∧ j < length nodes ∧ l = linkOf nodes i j (simAt nodes i j).
Proof.
  unfold prunedLinksOf. intros (pr & <- & Hpr%list_elem_of_In)%list_elem_of_In%in_map_iff.
  exists (pair_i pr), (pair_j pr).
  pose proof (prunedPairsOf_ordered _ _ Hpr) as [? ?].
  rewrite <- allPairs_sim; [done |].
  by apply selectedPairsOf_allPairs, prunedPairsOf_selected.
Qed.

(** What every link of a built graph is. *)
Lemma bookGraphData_links genreBooks highlightedBookId :
  ∃ g, bookGraphData genreBooks highlightedBookId = Some g ∧ nodes g = genreBooks ∧
    ∀ l, l ∈ links g →
      ∃ i j, i < length genreBooks ∧ j < length genreBooks ∧ i ≠ j ∧
             l = linkOf genreBooks i j (simAt genreBooks i j).
Proof.
  destruct (decide (genreBooks = [])) as [-> | Hne].
  - exists {| nodes := []; links := [] |}. split_and!; [done | done |].
    by intros l ?%elem_of_nil.
  - destruct (bookGraphData_run genreBooks highlightedBookId Hne)
      as (p0 & bests & _ & Hrun & _ & Hs & Hlt & _ & Hsim).
    eexists. split_and!; [exact Hrun | done |]. simpl.
    intros l [Hl | Hl]%elem_of_app.
    + destruct (prunedLinksOf_linkOf _ _ Hl) as (i & j & ? & ? & ->).
      exists i, j. split_and!; [lia | done | lia | done].
    + apply list_elem_of_In, in_map_iff in Hl as (b & <- & Hb%list_elem_of_In).
      exists b.1, (searchedIdxOf (nodeIdToIndexOf genreBooks) highlightedBookId).
      assert (b.1 ∈ bests.*1) as Hb1 by (apply list_elem_of_fmap; by exists b).
      split_and!.
      * by apply Hlt.
      * by apply searchedIdxOf_lt.
      * intros E. apply Hs. by rewrite <- E.
      * unfold repairLink, simAt. by rewrite (proj1 (Hsim b Hb)).
Qed.

(** ** No parallel links *)

Lemma sameEnds_sym l1 l2 : sameEnds l1 l2 → sameEnds l2 l1.
Proof. intros [[? ?] | [? ?]]; [left | right]; by split. Qed.

Lemma distinctEnds_app A B :
  distinctEnds A → distinctEnds B →
  (∀ a b, a ∈ A → b ∈ B → ¬ sameEnds a b) →
  distinctEnds (A ++ B).
Proof.
  intros HA HB HAB k1 k2 l1 l2 H1 H2 Hsame.
  apply lookup_app_Some in H1 as [H1 | [Hk1 H1]], H2 as [H2 | [Hk2 H2]].
  - by eapply HA.
  - exfalso. eapply HAB; [| | exact Hsame]; by eapply list_elem_of_lookup_2.
  - exfalso. eapply HAB; [| | exact (sameEnds_sym _ _ Hsame)]; by eapply list_elem_of_lookup_2.
  - assert (k1 - length A = k2 - length A) by (by eapply HB). lia.
Qed.

Lemma greedySelect_sublist target pairs selected counts :
  ∃ chosen, (greedySelect target pairs selected counts).1 = selected ++ chosen ∧
            chosen `sublist_of` pairs.
Proof.
  revert selected counts.
  induction pairs as [| pr rest IH]; intros selected counts; simpl.
  - exists []. by rewrite app_nil_r.
  - destruct (_ && _).
    + destruct (_ <=? _); simpl.
      * exists [pr]. split; [done |]. apply sublist_skip, sublist_nil_l.
      * destruct (IH (selected ++ [pr])
                     (<[pair_j pr := connectionCount counts (pair_j pr) + 1]>
                        (<[pair_i pr := connectionCount counts (pair_i pr) + 1]> counts)))
          as (chosen & -> & Hsub).
        exists (pr :: chosen). rewrite <- app_assoc. split; [done |]. by apply sublist_skip.
    + destruct (IH selected counts) as (chosen & -> & Hsub).
      exists chosen. split; [done |]. by apply sublist_cons.
Qed.

Lemma allPairs_NoDup nodes : NoDup (map pairKey (allPairs nodes)).
Proof.
  unfold allPairs. generalize (length nodes). intros n.
  assert (∀ l : list nat, NoDup l →
    NoDup (map pairKey (flat_map (λ i,
      map (λ j, {| pair_i := i; pair_j := j; pair_sim := simAt nodes i j |})
          (seq (S i) (n - S i))) l))) as H.
  { induction l as [| i l IH]; intros Hnd; simpl; [constructor |].
    apply NoDup_cons in Hnd as [Hi Hnd].
    rewrite map_app. apply NoDup_app. split_and!.
    - rewrite map_map. simpl. apply NoDup_fmap_2; [| apply NoDup_seq].
      by intros j1 j2 [= ->].
    - intros k Hk1 Hk2.
      apply list_elem_of_In, in_map_iff in Hk1 as (pr1 & <- & Hpr1).
      apply in_map_iff in Hpr1 as (j & <- & _).
      apply list_elem_of_In, in_map_iff in Hk2 as (pr & Hkey & Hpr).
      apply in_flat_map in Hpr as (i' & Hi' & Hpr).
      apply in_map_iff in Hpr as (j' & <- & _).
      unfold pairKey in Hkey. simpl in Hkey. injection Hkey as E1 E2. subst i'.
      apply Hi. by apply list_elem_of_In.
    - by apply IH. }
  apply H, NoDup_seq.
Qed.

Lemma prunedPairsOf_NoDup nodes : NoDup (map pairKey (prunedPairsOf nodes)).
Proof.
  assert (NoDup (map pairKey (selectedPairsOf nodes))) as Hsel.
  { unfold selectedPairsOf.
    destruct (greedySelect_sublist (targetTotalConnections (length nodes))
                (Js.sort simCmp (allPairs nodes)) [] ∅) as (chosen & -> & Hsub).
    simpl. eapply sublist_NoDup; [| by apply (fmap_sublist pairKey)].
    rewrite (sort_perm simCmp (allPairs nodes)). apply allPairs_NoDup. }
  unfold prunedPairsOf, Js.slice0.
  eapply sublist_NoDup; [| apply (fmap_sublist pairKey), sublist_take].
  by rewrite (sort_perm simCmp (selectedPairsOf nodes)).
Qed.

Lemma prunedLinksOf_distinctEnds nodes :
  NoDup (map id nodes) → distinctEnds (prunedLinksOf nodes).
Proof.
  intros Hnd k1 k2 l1 l2 H1 H2 Hsame. unfold prunedLinksOf in H1, H2.
  apply list_lookup_fmap_Some in H1 as (pr1 & -> & Hk1).
  apply list_lookup_fmap_Some in H2 as (pr2 & -> & Hk2).
  pose proof (prunedPairsOf_ordered nodes pr1 (list_elem_of_lookup_2 _ _ _ Hk1)) as [? ?].
  pose proof (prunedPairsOf_ordered nodes pr2 (list_elem_of_lookup_2 _ _ _ Hk2)) as [? ?].
  destruct Hsame as [[Hs Ht] | [Hs Ht]]; simpl in Hs, Ht;
    apply (nodeAt_id_inj nodes) in Hs; try done; try lia;
    apply (nodeAt_id_inj nodes) in Ht; try done; try lia.
  eapply (NoDup_lookup (map pairKey (prunedPairsOf nodes))); [apply prunedPairsOf_NoDup | |].
  - change (map pairKey (prunedPairsOf nodes)) with (pairKey <$> prunedPairsOf nodes).
    rewrite list_lookup_fmap, Hk1. done.
  - change (map pairKey (prunedPairsOf nodes)) with (pairKey <$> prunedPairsOf nodes).
    rewrite list_lookup_fmap, Hk2. simpl. unfold pairKey. by rewrite Hs, Ht.
Qed.

Lemma repairLinks_distinctEnds nodes s (bests : list (nat * Js.number)) :
  NoDup (map id nodes) → s < length nodes →
  NoDup bests.*1 → s ∉ bests.*1 → (∀ b, b ∈ bests.*1 → b < length nodes) →
  distinctEnds (map (repairLink nodes s) bests).
Proof.
  intros Hnd Hs Hndb Hsb Hlt k1 k2 l1 l2 H1 H2 Hsame.
  apply list_lookup_fmap_Some in H1 as (b1 & -> & Hk1).
  apply list_lookup_fmap_Some in H2 as (b2 & -> & Hk2).
  assert (b1.1 ∈ bests.*1) as Hb1.
  { apply list_elem_of_fmap. exists b1. split; [done | by eapply list_elem_of_lookup_2]. }
  assert (b2.1 ∈ bests.*1) as Hb2.
  { apply list_elem_of_fmap. exists b2. split; [done | by eapply list_elem_of_lookup_2]. }
  destruct Hsame as [[Hsrc _] | [Hsrc _]]; simpl in Hsrc;
    apply (nodeAt_id_inj nodes) in Hsrc; try done; try (by apply Hlt).
  - eapply (NoDup_lookup bests.*1); [done | |].
    + by rewrite list_lookup_fmap, Hk1.
    + rewrite list_lookup_fmap, Hk2. simpl. by rewrite Hsrc.
  - exfalso. apply Hsb. by rewrite <- Hsrc.
Qed.

(** With distinct identifiers the built graph is simple. *)
Lemma bookGraphData_simple genreBooks highlightedBookId :
  NoDup (map id genreBooks) →
  ∃ g, bookGraphData genreBooks highlightedBookId = Some g ∧
       (∀ l, l ∈ links g → source l ≠ target l) ∧ distinctEnds (links g).
Proof.
  intros Hnd.
  destruct (bookGraphData_links genreBooks highlightedBookId) as (g & Hrun & _ & Hlinks).
  exists g. split_and!; [done | |].
  - intros l (i & j & Hi & Hj & Hij & ->)%Hlinks. simpl. intros E.
    by apply (nodeAt_id_inj genreBooks) in E.
  - destruct (decide (genreBooks = [])) as [-> | Hne].
    { injection Hrun as <-. by intros k1 k2 l1 l2 ?. }
    destruct (bookGraphData_run genreBooks highlightedBookId Hne)
      as (p0 & bests & Hinit & Hrun' & Hndb & Hs & Hlt & _ & Hsim).
    rewrite Hrun in Hrun'. injection Hrun' as ->. simpl.
    set (s := searchedIdxOf (nodeIdToIndexOf genreBooks) highlightedBookId) in *.
    assert (s < length genreBooks) as Hslt by (by apply searchedIdxOf_lt).
    apply distinctEnds_app.
    + by apply prunedLinksOf_distinctEnds.
    + by apply repairLinks_distinctEnds.
    + intros a b Ha Hb Hsame.
      apply list_elem_of_In, in_map_iff in Hb as (b' & <- & Hb'%list_elem_of_In).
      destruct (Hsim b' Hb') as [_ Hsep].
      assert (b'.1 < length genreBooks) as Hb'lt.
      { apply Hlt, list_elem_of_fmap. by exists b'. }
      pose proof (connected_link _ _ Ha) as Hconn.
      destruct (prunedLinksOf_ends _ _ Ha) as (i & j & Hi & Hj & Hsrc & Htgt).
      rewrite Hsrc, Htgt in Hconn.
      apply (initialComponents_adequate genreBooks p0 Hnd Hinit i j Hi Hj) in Hconn.
      apply Hsep.
      destruct Hsame as [[Es Et] | [Es Et]]; simpl in Es, Et;
        rewrite Hsrc in Es; rewrite Htgt in Et;
        apply (nodeAt_id_inj genreBooks) in Es; try done;
        apply (nodeAt_id_inj genreBooks) in Et; try done; subst.
      * done.
      * by apply sameRoot_sym.
Qed.

(** A single book: one node and no link. *)
Lemma bookGraphData_single x highlightedBookId :
  bookGraphData [x] highlightedBookId = Some {| nodes := [x]; links := [] |}.
Proof.
  unfold bookGraphData. simpl.
  assert (prunedLinksOf [x] = []) as E by reflexivity.
  unfold initialComponents. rewrite E. simpl.
  assert (searchedIdxOf (nodeIdToIndexOf [x]) highlightedBookId = 0) as ->.
  { assert ([x] ≠ []) as Hne by done.
    pose proof (searchedIdxOf_lt [x] highlightedBookId Hne) as H. simpl in H. lia. }
  reflexivity.
Qed.

End GraphFacts.

Section FloatOrder.

Local Open Scope Z_scope.

(** [lia] with the digit counts of the mantissas as opaque integers. *)
Ltac size_lia :=
  simpl in *;
  change IntDef.Z.min with Z.min in *;
  change IntDef.Z.max with Z.max in *;
  repeat match goal with
  | |- context [Z.pos (digits2_pos ?p)] => generalize dependent (Z.pos (digits2_pos p))
  | H : context [Z.pos (digits2_pos ?p)] |- _ => generalize dependent (Z.pos (digits2_pos p))
  end;
  intros; lia.

Lemma valid_finite s m e :
  valid_binary (S754_finite s m e) = true →
  e = Z.max (Zdigits2 (Z.pos m) + e - 53) (-1074) ∧ e ≤ 971.
Proof.
  unfold valid_binary, SpecFloat.bounded, SpecFloat.canonical_mantissa.
  intros [H1 H2]%andb_prop. rewrite fexp_eq in H1.
  apply Z.eqb_eq in H1. apply Z.leb_le in H2.
  change (Z.pos (digits2_pos m)) with (Zdigits2 (Z.pos m)) in H1.
  change (emax - prec) with 971 in H2. lia.
Qed.

Lemma binary_round_from p e :
  -1074 ≤ e → positiveFrom (-1073) (binary_round prec emax false p e).
Proof.
  intros He. unfold binary_round.
  pose proof (shl_align_digits p e (fexp prec emax (Z.pos (digits2_pos p) + e))) as Hd.
  destruct (shl_align p e _) as [mz ez]. simpl in Hd.
  pose proof (Zdigits2_pos (Z.pos p)).
  apply binary_round_aux_from; [lia | size_lia | lia].
Qed.

Lemma Zdigits2_bound m k : 0 < m → Zdigits2 m ≤ k → m < 2 ^ k.
Proof.
  intros Hm Hd. rewrite Zdigits2_log2 in Hd by done.
  apply Z.log2_lt_pow2; lia.
Qed.

Lemma Zdigits2_least m k : 0 < m → 0 ≤ k → k < Zdigits2 m → 2 ^ k ≤ m.
Proof.
  intros Hm Hk Hd. rewrite Zdigits2_log2 in Hd by done.
  apply Z.log2_le_pow2; lia.
Qed.

(** On canonical positive numbers, the comparison of [SpecFloat] is the
    comparison of the aligned mantissas. *)
Lemma SFcompare_aligned mx ex my ey :
  valid_binary (S754_finite false mx ex) = true →
  valid_binary (S754_finite false my ey) = true →
  SFleb (S754_finite false my ey) (S754_finite false mx ex) = false →
  Z.shiftl (Z.pos mx) (ex - Z.min ex ey) < Z.shiftl (Z.pos my) (ey - Z.min ex ey).
Proof.
  intros [Hx _]%valid_finite [Hy _]%valid_finite. unfold SFleb, SFcompare.
  destruct (Z.compare_spec ey ex) as [-> | Hlt | Hgt]; [| done |].
  - rewrite Z.min_id, Z.sub_diag, !Z.shiftl_0_r.
    change (PosDef.Pos.compare_cont Eq my mx) with (Pos.compare my mx).
    destruct (Pos.compare_spec my mx); try done; intros _; lia.
  - intros _. rewrite Z.min_l by lia. rewrite Z.sub_diag, Z.shiftl_0_r.
    rewrite Z.shiftl_mul_pow2 by lia.
    assert (Z.pos mx < 2 ^ 53) by (apply Zdigits2_bound; lia).
    assert (2 ^ 52 ≤ Z.pos my) by (apply Zdigits2_least; lia).
    assert (2 ^ 1 ≤ 2 ^ (ey - ex)) by (apply Z.pow_le_mono_r; lia).
    nia.
Qed.

Local Open Scope float_scope.

(** For numbers that are neither NaN nor negative, a difference that does
    not compare below zero means the subtrahend is the smaller one. *)
Lemma sub_not_below x y :
  notNegative (Prim2SF x) → notNegative (Prim2SF y) →
  Js.lt (x - y) 0 = false → PrimFloat.leb y x = true.
Proof.
  unfold Js.lt. rewrite FloatAxioms.ltb_spec, FloatAxioms.leb_spec, FloatAxioms.sub_spec.
  change (Prim2SF 0) with (S754_zero false).
  pose proof (Prim2SF_valid x) as Vx. pose proof (Prim2SF_valid y) as Vy.
  destruct (Prim2SF x) as [sx | [] | | [] mx ex], (Prim2SF y) as [sy | [] | | [] my ey];
    try done; intros _ _.
  destruct (SFleb (S754_finite false my ey) (S754_finite false mx ex)) eqn:E; [done |].
  pose proof (SFcompare_aligned mx ex my ey Vx Vy E) as Hlt.
  unfold SF64sub, SFsub. change IntDef.Z.min with Z.min.
  destruct (shl_align_spec mx ex (Z.min ex ey)) as [Ex Ex'].
  destruct (shl_align_spec my ey (Z.min ex ey)) as [Ey Ey'].
  rewrite Ex' in Ex. rewrite Ey' in Ey.
  replace (Z.min ex (Z.min ex ey)) with (Z.min ex ey) in Ex by lia.
  replace (Z.min ey (Z.min ex ey)) with (Z.min ex ey) in Ey by lia.
  simpl cond_Zopp. rewrite Ex, Ey.
  apply valid_finite in Vx as [Hx _], Vy as [Hy _].
  destruct (Z.shiftl (Z.pos mx) (ex - Z.min ex ey) - Z.shiftl (Z.pos my) (ey - Z.min ex ey))%Z
    as [| d | d] eqn:Ed; [lia | lia |].
  simpl. rewrite (binary_round_opp false).
  pose proof (binary_round_from d (Z.min ex ey)) as Hpos.
  destruct (binary_round prec emax false d (Z.min ex ey)) as [| [] | | [] m e];
    simpl in *; try done; exfalso; apply Hpos; lia.
Qed.

Lemma SFleb_trans x y z :
  notNegative x → notNegative y → notNegative z →
  SFleb x y = true → SFleb y z = true → SFleb x z = true.
Proof.
  destruct x as [sx | [] | | [] mx ex], y as [sy | [] | | [] my ey], z as [sz | [] | | [] mz ez];
    try done.
  unfold SFleb, SFcompare. intros _ _ _.
  change (PosDef.Pos.compare_cont Eq mx my) with (Pos.compare mx my).
  change (PosDef.Pos.compare_cont Eq my mz) with (Pos.compare my mz).
  change (PosDef.Pos.compare_cont Eq mx mz) with (Pos.compare mx mz).
  destruct (Z.compare_spec ex ey), (Z.compare_spec ey ez), (Z.compare_spec ex ez);
    try done; try lia;
    destruct (Pos.compare_spec mx my), (Pos.compare_spec my mz), (Pos.compare_spec mx mz);
    try done; lia.
Qed.

Lemma simCmp_antisym a b :
  Js.lt (simCmp a b) 0 = true → Js.lt (simCmp b a) 0 = false.
Proof.
  unfold Js.lt, simCmp. rewrite !FloatAxioms.ltb_spec, !FloatAxioms.sub_spec.
  change (Prim2SF 0) with (S754_zero false).
  apply negated_ltb, SFsub_negated.
Qed.

End FloatOrder.

(** ** Pruning keeps the most similar pairs *)

Section Pruning.

Context {engine : NumberToString}.

Lemma StronglySorted_impl {A : Type} (R R' : A → A → Prop) l :
  (∀ a b, R a b → R' a b) → StronglySorted R l → StronglySorted R' l.
Proof.
  intros HR. induction 1 as [| a l Hl IH Hall]; constructor; [done |].
  eapply Forall_impl; [exact Hall | by intros b; apply HR].
Qed.

Lemma sort_simCmp_sorted l :
  Forall simNotNegative l → StronglySorted bySimilarity (Js.sort simCmp l).
Proof.
  intros Hall.
  set (R := λ a b, simNotNegative a ∧ simNotNegative b ∧ bySimilarity a b).
  assert (Transitive R) as HT.
  { intros a b c (Ha & Hb & Hab) (_ & Hc & Hbc). split_and!; try done.
    unfold bySimilarity in *. rewrite FloatAxioms.leb_spec in *.
    by eapply (SFleb_trans _ (Prim2SF (pair_sim b))). }
  apply (StronglySorted_impl R); [by intros a b (_ & _ & ?) |].
  apply Sorted_StronglySorted; [done |].
  assert (Forall simNotNegative (Js.sort simCmp l)) as Hall'.
  { by rewrite (sort_perm simCmp l). }
  pose proof (sort_sorted simCmp l simCmp_antisym) as Hs.
  induction Hs as [| a l' Hl' IH Hhd]; [constructor |].
  apply Forall_cons in Hall' as [Ha Hall'].
  constructor; [by apply IH |].
  destruct Hhd as [| b l'' Hab]; constructor.
  apply Forall_cons in Hall' as [Hb _]. split_and!; try done.
  unfold notAfter, simCmp in Hab. by apply sub_not_below.
Qed.

Lemma validNodes_simNotNegative nodes :
  validNodes nodes → Forall simNotNegative (selectedPairsOf nodes).
Proof.
  intros Hv. apply Forall_forall. intros pr Hpr.
  apply selectedPairsOf_allPairs in Hpr.
  pose proof (allPairs_ordered _ _ Hpr) as [? ?].
  unfold simNotNegative. rewrite (allPairs_sim _ _ Hpr).
  apply calculateSimilarity_notNegative; apply Hv, nodeAt_elem_of; lia.
Qed.

Lemma StronglySorted_app_inv {A : Type} (R : A → A → Prop) l1 l2 :
  StronglySorted R (l1 ++ l2) →
  StronglySorted R l1 ∧ ∀ a b, a ∈ l1 → b ∈ l2 → R a b.
Proof.
  induction l1 as [| x l1 IH]; simpl; intros H.
  - split; [constructor | by intros a b ?%elem_of_nil].
  - apply StronglySorted_inv in H as [H Hall]. destruct (IH H) as [Hs Hcross].
    split.
    + constructor; [done |]. by apply Forall_app in Hall as [? _].
    + intros a b [-> | Ha]%elem_of_cons Hb; [| by apply Hcross].
      rewrite Forall_forall in Hall. apply Hall, elem_of_app. by right.
Qed.

(** For vectors of the data model, the pruning keeps a prefix of the
    selected pairs ordered by decreasing similarity. *)
Lemma prunedPairsOf_strongest nodes :
  validNodes nodes →
  ∃ dropped,
    selectedPairsOf nodes ≡ₚ prunedPairsOf nodes ++ dropped ∧
    StronglySorted bySimilarity (prunedPairsOf nodes) ∧
    ∀ kept d, kept ∈ prunedPairsOf nodes → d ∈ dropped → bySimilarity kept d.
Proof.
  intros Hv. unfold prunedPairsOf, Js.slice0.
  set (sorted := Js.sort simCmp (selectedPairsOf nodes)).
  set (k := edgesToKeep (length sorted)).
  exists (drop k sorted).
  pose proof (sort_simCmp_sorted _ (validNodes_simNotNegative nodes Hv)) as Hs.
  fold sorted in Hs. rewrite <- (take_drop k sorted) in Hs.
  apply StronglySorted_app_inv in Hs as [Hs Hcross].
  split_and!; [| done | done].
  rewrite take_drop. symmetry. apply sort_perm.
Qed.

Lemma linksOf_sorted nodes (l : list Pair) :
  StronglySorted bySimilarity l →
  StronglySorted byWeight (map (λ pr, linkOf nodes (pair_i pr) (pair_j pr) (pair_sim pr)) l).
Proof.
  induction 1 as [| a l Hl IH Hall]; simpl; constructor; [done |].
  apply Forall_forall. intros lk (b & <- & Hb)%list_elem_of_In%in_map_iff.
  rewrite Forall_forall in Hall. apply Hall. by apply list_elem_of_In.
Qed.

End Pruning.

(** ** The most similar pair *)

Section TopPair.

Local Open Scope Z_scope.

Lemma SFleb_aligned mx ex my ey :
  valid_binary (S754_finite false mx ex) = true →
  valid_binary (S754_finite false my ey) = true →
  SFleb (S754_finite false my ey) (S754_finite false mx ex) = true →
  Z.shiftl (Z.pos my) (ey - Z.min ex ey) ≤ Z.shiftl (Z.pos mx) (ex - Z.min ex ey).
Proof.
  intros [Hx _]%valid_finite [Hy _]%valid_finite. unfold SFleb, SFcompare.
  destruct (Z.compare_spec ey ex) as [-> | Hlt | Hgt]; [| | done].
  - rewrite Z.min_id, Z.sub_diag, !Z.shiftl_0_r.
    change (PosDef.Pos.compare_cont Eq my mx) with (Pos.compare my mx).
    destruct (Pos.compare_spec my mx); try done; intros _; lia.
  - intros _. rewrite Z.min_r by lia. rewrite Z.sub_diag, Z.shiftl_0_r.
    rewrite Z.shiftl_mul_pow2 by lia.
    assert (Z.pos my < 2 ^ 53) by (apply Zdigits2_bound; lia).
    assert (2 ^ 52 ≤ Z.pos mx) by (apply Zdigits2_least; lia).
    assert (2 ^ 1 ≤ 2 ^ (ex - ey)) by (apply Z.pow_le_mono_r; lia).
    nia.
Qed.

Local Open Scope float_scope.

(** For numbers that are neither NaN nor negative, the difference with a
    number that is not larger does not compare below zero. *)
Lemma sub_of_smaller x y :
  notNegative (Prim2SF x) → notNegative (Prim2SF y) →
  PrimFloat.leb y x = true → Js.lt (x - y) 0 = false.
Proof.
  unfold Js.lt. rewrite FloatAxioms.ltb_spec, FloatAxioms.leb_spec, FloatAxioms.sub_spec.
  change (Prim2SF 0) with (S754_zero false).
  pose proof (Prim2SF_valid x) as Vx. pose proof (Prim2SF_valid y) as Vy.
  destruct (Prim2SF x) as [sx | [] | | [] mx ex], (Prim2SF y) as [sy | [] | | [] my ey];
    try done; intros _ _; try (by destruct sx; try destruct sy).
  intros Hle. pose proof (SFleb_aligned mx ex my ey Vx Vy Hle) as Hal.
  unfold SF64sub, SFsub. change IntDef.Z.min with Z.min.
  destruct (shl_align_spec mx ex (Z.min ex ey)) as [Ex Ex'].
  destruct (shl_align_spec my ey (Z.min ex ey)) as [Ey Ey'].
  rewrite Ex' in Ex. rewrite Ey' in Ey.
  replace (Z.min ex (Z.min ex ey)) with (Z.min ex ey) in Ex by lia.
  replace (Z.min ey (Z.min ex ey)) with (Z.min ex ey) in Ey by lia.
  simpl cond_Zopp. rewrite Ex, Ey.
  apply valid_finite in Vx as [Hx _], Vy as [Hy _].
  destruct (Z.shiftl (Z.pos mx) (ex - Z.min ex ey) - Z.shiftl (Z.pos my) (ey - Z.min ex ey))%Z
    as [| d | d] eqn:Ed; [done | | lia].
  simpl.
  pose proof (binary_round_from d (Z.min ex ey)) as Hpos.
  destruct (binary_round prec emax false d (Z.min ex ey)) as [| [] | | [] m e];
    simpl in *; try done; exfalso; apply Hpos; lia.
Qed.

Lemma leb_refl_notNegative x : notNegative (Prim2SF x) → PrimFloat.leb x x = true.
Proof.
  rewrite FloatAxioms.leb_spec. unfold SFleb.
  destruct (Prim2SF x) as [sx | [] | | [] mx ex]; try done; intros _; simpl.
  change (PosDef.Pos.compare_cont Eq mx mx) with (Pos.compare mx mx).
  by rewrite Z.compare_refl, Pos.compare_refl.
Qed.

End TopPair.

Section TopPairGraph.

Context {engine : NumberToString}.

Lemma allPairs_complete nodes i j :
  i < j → j < length nodes →
  {| pair_i := i; pair_j := j; pair_sim := simAt nodes i j |} ∈ allPairs nodes.
Proof.
  intros Hij Hj. unfold allPairs. apply list_elem_of_In, in_flat_map.
  exists i. split; [apply in_seq; lia |].
  apply in_map_iff. exists j. split; [done |]. apply in_seq. lia.
Qed.

Lemma validNodes_allPairs nodes : validNodes nodes → Forall simNotNegative (allPairs nodes).
Proof.
  intros Hv. apply Forall_forall. intros pr Hpr.
  pose proof (allPairs_ordered _ _ Hpr) as [? ?].
  unfold simNotNegative. rewrite (allPairs_sim _ _ Hpr).
  apply calculateSimilarity_notNegative; apply Hv, nodeAt_elem_of; lia.
Qed.

(** A pair that is at least as similar as every other one stays in front. *)
Lemma sort_head p l :
  simNotNegative p →
  Forall (λ pr, simNotNegative pr ∧ bySimilarity p pr) l →
  ∀ acc, ∃ acc', fold_left (λ acc x, Js.sort_insert simCmp x acc) l (p :: acc) = p :: acc'.
Proof.
  intros Hp. induction 1 as [| x l [Hx Hpx] _ IH]; intros acc; simpl; [by eexists |].
  assert (Js.lt (simCmp x p) 0%float = false) as ->; [| apply IH].
  unfold simCmp. by apply sub_of_smaller.
Qed.

Lemma most_similar_first nodes :
  validNodes nodes → 2 ≤ length nodes →
  ∃ p rest,
    prunedPairsOf nodes = p :: rest ∧ p ∈ allPairs nodes ∧
    ∀ pr, pr ∈ allPairs nodes → bySimilarity p pr.
Proof.
  intros Hv Hlen.
  pose proof (validNodes_allPairs nodes Hv) as Hnn.
  pose proof (sort_simCmp_sorted _ Hnn) as Hsorted.
  assert (allPairs nodes ≠ []) as Hne.
  { intros E. pose proof (allPairs_complete nodes 0 1) as Hin.
    rewrite E in Hin. apply elem_of_nil in Hin; [done | lia | lia]. }
  destruct (Js.sort simCmp (allPairs nodes)) as [| p sortedRest] eqn:Esort.
  { exfalso. apply Hne. apply Permutation_nil_r. by rewrite <- (sort_perm simCmp), Esort. }
  assert (p ∈ allPairs nodes) as Hp.
  { rewrite <- (sort_perm simCmp), Esort. by left. }
  assert (simNotNegative p) as Hpnn.
  { rewrite Forall_forall in Hnn. by apply Hnn. }
  assert (∀ pr, pr ∈ allPairs nodes → bySimilarity p pr) as Hmax.
  { intros pr Hpr. rewrite <- (sort_perm simCmp), Esort in Hpr.
    apply elem_of_cons in Hpr as [-> | Hpr].
    - by apply leb_refl_notNegative.
    - apply StronglySorted_inv in Hsorted as [_ Hall].
      rewrite Forall_forall in Hall. by apply Hall. }
  (* the greedy pass takes [p] first *)
  assert (∃ chosen, selectedPairsOf nodes = p :: chosen) as [chosen Hsel].
  { unfold selectedPairsOf. rewrite Esort. simpl.
    change (connectionCount ∅ (pair_i p)) with 0.
    change (connectionCount ∅ (pair_j p)) with 0. simpl.
    assert (3 ≤ targetTotalConnections (length nodes)) as Ht.
    { unfold targetTotalConnections. apply Nat.div_le_lower_bound; lia. }
    destruct (Nat.leb_spec (targetTotalConnections (length nodes)) 1) as [? | _]; [lia |].
    destruct (greedySelect_sublist (targetTotalConnections (length nodes)) sortedRest [p]
                (<[pair_j p := 1]> (<[pair_i p := 1]> ∅))) as (chosen & -> & _).
    by exists chosen. }
  unfold prunedPairsOf, Js.slice0. rewrite Hsel.
  destruct (sort_head p chosen Hpnn) with (acc := @nil Pair) as [acc' Hhead].
  { apply Forall_forall. intros pr Hpr.
    assert (pr ∈ allPairs nodes) as Hin.
    { apply selectedPairsOf_allPairs. rewrite Hsel. by right. }
    split; [| by apply Hmax]. rewrite Forall_forall in Hnn. by apply Hnn. }
  unfold Js.sort. simpl. rewrite Hhead.
  exists p, (take (edgesToKeep (length (p :: acc')) - 1) acc').
  split_and!; [| done | done].
  unfold edgesToKeep.
  destruct (Nat.max 1 _) as [| k] eqn:Ek; [lia |]. simpl. by rewrite Nat.sub_0_r.
Qed.

End TopPairGraph.

(** ** The genre graph *)

Lemma genreLinks_elem_of genres l :
  l ∈ genreLinks genres →
  ∃ i j, i < j ∧ j < length genres ∧
    let s := calculateGenreSimilarity (genreAt genres i) (genreAt genres j) in
    Js.gt (weight s) 0.4%float = true ∧
    l = {| source := genreAt genres i; target := genreAt genres j;
           similarityWeight := weight s; reason := genreReason s |}.
Proof.
  unfold genreLinks. intros Hin.
  apply list_elem_of_In, in_flat_map in Hin as (i & Hi & Hin).
  apply in_flat_map in Hin as (j & Hj & Hin).
  apply in_seq in Hi, Hj. exists i, j. split; [lia |]. split; [lia |]. simpl.
  destruct (Js.gt _ _); [| done]. split; [done |].
  by destruct Hin as [<- | []].
Qed.

Lemma genreAt_inj genres i j :
  NoDup genres → i < length genres → j < length genres →
  genreAt genres i = genreAt genres j → i = j.
Proof.
  intros Hnd Hi Hj E. unfold genreAt in E.
  destruct (lookup_lt_is_Some_2 genres i Hi) as [x Hx].
  destruct (lookup_lt_is_Some_2 genres j Hj) as [y Hy].
  rewrite (nth_lookup_Some _ _ "" _ Hx), (nth_lookup_Some _ _ "" _ Hy) in E. subst y.
  by eapply NoDup_lookup.
Qed.

Lemma lookup_in_table a b s :
  orElse (lookupSimilarity a b) (lookupSimilarity b a) = Some s →
  a ∈ genreKeys ∧ b ∈ genreKeys.
Proof.
  intros H. split.
  - destruct (decide (a ∈ genreKeys)) as [? | Ha]; [done |].
    by rewrite (lookupSimilarity_outside_l a b Ha), (lookupSimilarity_outside_r b a Ha) in H.
  - destruct (decide (b ∈ genreKeys)) as [? | Hb]; [done |].
    by rewrite (lookupSimilarity_outside_r a b Hb), (lookupSimilarity_outside_l b a Hb) in H.
Qed.

Lemma genreLinks_from_table genres l :
  NoDup genres → l ∈ genreLinks genres →
  source l ≠ target l ∧
  Js.gt (similarityWeight l) 0.4%float = true ∧
  ∃ s, orElse (lookupSimilarity (source l) (target l))
              (lookupSimilarity (target l) (source l)) = Some s ∧
       similarityWeight l = weight s ∧ reason l = genreReason s.
Proof.
  intros Hnd (i & j & Hij & Hj & Hgt & ->)%genreLinks_elem_of. simpl.
  assert (genreAt genres i ≠ genreAt genres j) as Hne.
  { intros E. apply (genreAt_inj genres i j) in E; [lia | done | lia | done]. }
  split; [done |]. split; [done |].
  unfold calculateGenreSimilarity in *.
  destruct (String.eqb_spec (genreAt genres i) (genreAt genres j)) as [? | _]; [done |].
  destruct (orElse _ _) as [s |]; [by exists s |].
  simpl in Hgt. by vm_compute in Hgt.
Qed.

(** ** findConnection on a built graph *)

Lemma connected_incident L a b :
  connected L a b → a ≠ b →
  (∃ l, l ∈ L ∧ (source l = a ∨ target l = a)) ∧
  (∃ l, l ∈ L ∧ (source l = b ∨ target l = b)).
Proof.
  induction 1 as [a | l Hl | a b _ IH | a b c _ IH1 _ IH2]; intros Hne.
  - done.
  - split; exists l; split; try done; [by left | by right].
  - destruct IH as [? ?]; [done |]. by split.
  - destruct (decide (a = b)) as [-> | Hab]; [by apply IH2 |].
    destruct (decide (b = c)) as [-> | Hbc]; [by apply IH1 |].
    destruct (IH1 Hab) as [? _], (IH2 Hbc) as [_ ?]. by split.
Qed.

Lemma find_is_Some {A : Type} (f : A → bool) (l : list A) x :
  x ∈ l → f x = true → ∃ y, List.find f l = Some y.
Proof.
  intros Hx Hf. destruct (List.find f l) as [y |] eqn:E; [by exists y |].
  apply list_elem_of_In in Hx. by rewrite (find_none f l E x Hx) in Hf.
Qed.

Section ConnectionFacts.

Context {engine : NumberToString}.

Lemma findConnection_link g bookId l0 :
  l0 ∈ links g → (source l0 = bookId ∨ target l0 = bookId) →
  ∃ l, l ∈ links g ∧
    (source l = bookId ∨ (source l ≠ bookId ∧ target l = bookId)) ∧
    findConnection view_books g bookId =
      Some (List.find (λ n, String.eqb (id n) (if String.eqb (source l) bookId
                                               then target l else source l)) (nodes g),
            reason l).
Proof.
  intros Hl0 Hends. unfold findConnection, endId.
  destruct (find_is_Some
              (λ l, String.eqb (source l) bookId || String.eqb (target l) bookId)
              (links g) l0 Hl0) as [l Hfind].
  { apply orb_true_iff. destruct Hends as [<- | <-]; [left | right]; apply String.eqb_refl. }
  rewrite Hfind. simpl. exists l.
  apply find_some in Hfind as [Hl Hp%orb_true_iff].
  split_and!; [by apply list_elem_of_In | | done].
  destruct (String.eqb_spec (source l) bookId) as [? | Hne]; [by left |].
  right. split; [done |]. by destruct Hp as [Hp | Hp%String.eqb_eq].
Qed.

Lemma findConnection_on_graph genreBooks highlightedBookId x :
  2 ≤ length genreBooks → NoDup (map id genreBooks) → validNodes genreBooks →
  x ∈ genreBooks →
  ∃ g y l,
    bookGraphData genreBooks highlightedBookId = Some g ∧
    findConnection view_books g (id x) = Some (Some y, reason l) ∧
    y ∈ genreBooks ∧ id y ≠ id x ∧ l ∈ links g ∧
    ((source l = id x ∧ target l = id y) ∨ (source l = id y ∧ target l = id x)).
Proof.
  intros Hlen Hnd Hvalid Hx.
  assert (genreBooks ≠ []) as Hne by (intros ->; simpl in Hlen; lia).
  destruct (validNodes_connected genreBooks highlightedBookId Hne Hvalid)
    as (p0 & g & bests & _ & Hrun & Hnodes & _ & _ & _ & Hconn).
  destruct (bookGraphData_links genreBooks highlightedBookId) as (g' & Hrun' & _ & Hlinks).
  assert (g' = g) as -> by congruence.
  set (s := searchedIdxOf (nodeIdToIndexOf genreBooks) highlightedBookId) in *.
  assert (s < length genreBooks) as Hs by (by apply searchedIdxOf_lt).
  apply elem_of_nodeAt in Hx as (ix & Hix & <-).
  (* a link touches the clicked book *)
  assert (∃ l0, l0 ∈ links g ∧
            (source l0 = id (nodeAt genreBooks ix) ∨ target l0 = id (nodeAt genreBooks ix)))
    as (l0 & Hl0 & Hends).
  { destruct (decide (ix = s)) as [-> | Hixs].
    - set (z := if decide (s = 0) then 1 else 0).
      assert (z < length genreBooks ∧ z ≠ s) as [Hz Hzs].
      { unfold z. case_decide; lia. }
      apply (connected_incident _ _ _ (Hconn z Hz)).
      intros E. by apply (nodeAt_id_inj genreBooks) in E.
    - apply (connected_incident _ _ _ (Hconn ix Hix)).
      intros E. by apply (nodeAt_id_inj genreBooks) in E. }
  destruct (findConnection_link g _ l0 Hl0 Hends) as (l & Hl & Hcase & Hfind).
  destruct (Hlinks l Hl) as (i & j & Hi & Hj & Hij & El).
  assert (id (nodeAt genreBooks i) ≠ id (nodeAt genreBooks j)) as Hids.
  { intros E. by apply (nodeAt_id_inj genreBooks) in E. }
  rewrite Hnodes in Hfind.
  assert (∀ k, k < length genreBooks →
            ∃ y, List.find (λ n, String.eqb (id n) (id (nodeAt genreBooks k))) genreBooks = Some y ∧
                 y ∈ genreBooks ∧ id y = id (nodeAt genreBooks k)) as Hnode.
  { intros k Hk.
    destruct (find_is_Some (λ n, String.eqb (id n) (id (nodeAt genreBooks k)))
                genreBooks (nodeAt genreBooks k)) as [y Hy].
    - by apply nodeAt_elem_of.
    - apply String.eqb_refl.
    - exists y. split; [done |]. apply find_some in Hy as [Hy1 Hy2%String.eqb_eq].
      split; [by apply list_elem_of_In | done]. }
  subst l. simpl in *.
  destruct Hcase as [Hsrc | [Hsrc Htgt]].
  - rewrite Hsrc, String.eqb_refl in Hfind.
    destruct (Hnode j Hj) as (y & Hy & Hyin & Hyid). rewrite Hy in Hfind.
    exists g, y, (linkOf genreBooks i j (simAt genreBooks i j)).
    split_and!; try done.
    + rewrite Hyid, <- Hsrc. by intros E.
    + left. by rewrite Hyid.
  - apply String.eqb_neq in Hsrc as Hsrc'. rewrite Hsrc' in Hfind.
    destruct (Hnode i Hi) as (y & Hy & Hyin & Hyid). rewrite Hy in Hfind.
    exists g, y, (linkOf genreBooks i j (simAt genreBooks i j)).
    split_and!; try done.
    + by rewrite Hyid.
    + right. by rewrite Hyid.
Qed.

End ConnectionFacts.

(** ** The background covers *)

Lemma loadedCovers_nonempty genreBooks u : u ∈ loadedCovers genreBooks → u ≠ "".
Proof.
  unfold loadedCovers. intros Hin.
  apply list_elem_of_In, in_flat_map in Hin as (book & _ & Hin).
  destruct (coverUrl book) as [c |]; simpl in Hin; [| done].
  destruct (String.eqb_spec c "") as [E | Hc]; simpl in Hin; [done |].
  by destruct Hin as [<- | []].
Qed.

Lemma backgroundImages_shape genreBooks :
  let covers := loadedCovers genreBooks in
  let images := backgroundImages genreBooks in
  covers `prefix_of` images ∧
  (length covers < 6 → length images = 8) ∧
  (6 ≤ length covers → images = covers) ∧
  (∀ u, u ∈ images → u ≠ "").
Proof.
  intros covers images. unfold images, backgroundImages. fold covers.
  destruct (Nat.ltb_spec (length covers) 6) as [Hlt | Hge].
  - split_and!.
    + by apply prefix_app_r.
    + intros _. unfold Js.slice0. rewrite length_app, length_take. simpl. lia.
    + lia.
    + intros u [Hu | Hu]%elem_of_app; [by eapply loadedCovers_nonempty |].
      unfold Js.slice0 in Hu. apply elem_of_take in Hu as (i & Hu & _).
      apply list_elem_of_lookup_2 in Hu. intros ->. revert Hu. unfold defaultCovers.
      rewrite !elem_of_cons, elem_of_nil. by intros [? | [? | [? | [? | [? | [? | [? | [? | ?]]]]]]]].
  - split_and!; [done | lia | done |].
    intros u Hu. by eapply loadedCovers_nonempty.
Qed.

(** ** The book list after a search selection *)

Lemma existsb_id books s :
  existsb (λ b, String.eqb (ApiBook.id b) s) books = true ↔
  ∃ b, b ∈ books ∧ ApiBook.id b = s.
Proof.
  rewrite existsb_exists. split.
  - intros (b & Hb & E%String.eqb_eq). exists b. by rewrite list_elem_of_In.
  - intros (b & Hb & E). exists b. rewrite <- list_elem_of_In. split; [done |].
    by apply String.eqb_eq.
Qed.

Lemma withSearchedBook_shape searchResult books :
  let books' := withSearchedBook searchResult books in
  (∃ b, b ∈ books' ∧ ApiBook.id b = ApiBook.id searchResult) ∧
  ((∀ b, b ∈ books → ApiBook.id b ≠ ApiBook.id searchResult) →
     books' = searchResult :: take 11 books) ∧
  (length books ≤ 11 → length books' ≤ 12) ∧
  (NoDup (map ApiBook.id books) → NoDup (map ApiBook.id books')).
Proof.
  intros books'. unfold books', withSearchedBook.
  destruct (existsb _ books) eqn:E; cbn [negb].
  - apply existsb_id in E as (b & Hb & Hid). split_and!.
    + by exists b.
    + intros Hno. by destruct (Hno b Hb).
    + lia.
    + done.
  - assert (∀ b, b ∈ books → ApiBook.id b ≠ ApiBook.id searchResult) as Hno.
    { intros b Hb Hid. assert (existsb (λ b, String.eqb (ApiBook.id b) (ApiBook.id searchResult)) books = true) as E'.
      { apply existsb_id. by exists b. }
      by rewrite E in E'. }
    assert ({| ApiBook.id := ApiBook.id searchResult;
               ApiBook.title := ApiBook.title searchResult;
               ApiBook.author := ApiBook.author searchResult;
               ApiBook.genre := ApiBook.genre searchResult;
               ApiBook.year := ApiBook.year searchResult;
               ApiBook.coverUrl := ApiBook.coverUrl searchResult;
               ApiBook.subjects := ApiBook.subjects searchResult;
               ApiBook.description := ApiBook.description searchResult |} = searchResult) as ->
      by (by destruct searchResult).
    unfold Js.slice0. split_and!.
    + exists searchResult. split; [by left | done].
    + done.
    + intros _. rewrite length_cons, length_take. lia.
    + intros Hnd.
      change (NoDup (ApiBook.id searchResult :: map ApiBook.id (take 11 books))).
      apply NoDup_cons. split.
      * intros (b & Hid & Hb)%list_elem_of_In%in_map_iff.
        apply list_elem_of_In in Hb. apply elem_of_take in Hb as (i & Hb & _).
        apply list_elem_of_lookup_2 in Hb. by destruct (Hno b Hb).
      * eapply sublist_NoDup; [exact Hnd |].
        apply (fmap_sublist ApiBook.id), sublist_take.
Qed.

Lemma booksWithSentiments_ids sentiments books :
  map id (booksWithSentiments sentiments books) = map ApiBook.id books.
Proof. unfold booksWithSentiments. rewrite map_map. done. Qed.

Lemma booksWithSentiments_valid sentiments books :
  (∀ k s, sentiments !! k = Some s → validScores s = true) →
  validNodes (booksWithSentiments sentiments books).
Proof.
  intros Hs x (book & <- & _)%list_elem_of_In%in_map_iff. simpl.
  destruct (sentiments !! ApiBook.id book) as [s |] eqn:E; simpl; [by eapply Hs | done].
Qed.

Lemma nodeIdToIndexOf_is_Some nodes x :
  x ∈ nodes → is_Some (nodeIdToIndexOf nodes !! id x).
Proof.
  induction nodes as [| y nodes IH] using rev_ind; [by intros ?%elem_of_nil |].
  rewrite nodeIdToIndexOf_snoc. intros [Hx | ->%list_elem_of_singleton]%elem_of_app.
  - destruct (decide (id y = id x)) as [-> | Hne].
    + rewrite lookup_insert_eq. by eexists.
    + rewrite lookup_insert_ne by done. by apply IH.
  - rewrite lookup_insert_eq. by eexists.
Qed.

Section SearchSelection.

Context {engine : NumberToString}.

Lemma searchSelection_graph searchResult books sentiments :
  ApiBook.id searchResult ≠ "" →
  (∀ k s, sentiments !! k = Some s → validScores s = true) →
  let genreBooks := booksWithSentiments sentiments (withSearchedBook searchResult books) in
  ∃ g searched,
    bookGraphData genreBooks (Some (ApiBook.id searchResult)) = Some g ∧
    nodes g = genreBooks ∧
    searched ∈ genreBooks ∧ id searched = ApiBook.id searchResult ∧
    ∀ x, x ∈ genreBooks → connected (links g) (id x) (ApiBook.id searchResult).
Proof.
  intros Hid Hvalid genreBooks.
  destruct (withSearchedBook_shape searchResult books) as [(b & Hb & Hbid) _].
  set (node := {| id := ApiBook.id b; title := ApiBook.title b; author := ApiBook.author b;
                  genre := ApiBook.genre b; year := orZero (ApiBook.year b);
                  coverUrl := ApiBook.coverUrl b; description := ApiBook.description b;
                  sentimentScores := default neutralScores (sentiments !! ApiBook.id b) |}).
  assert (node ∈ genreBooks) as Hnode.
  { apply list_elem_of_In, in_map_iff. exists b. by rewrite <- list_elem_of_In. }
  assert (genreBooks ≠ []) as Hne by (intros E; rewrite E in Hnode; by apply elem_of_nil in Hnode).
  destruct (validNodes_connected genreBooks (Some (ApiBook.id searchResult)) Hne)
    as (p0 & g & bests & _ & Hrun & Hnodes & _ & _ & _ & Hconn).
  { by apply booksWithSentiments_valid. }
  destruct (nodeIdToIndexOf_is_Some genreBooks node Hnode) as [a Ha].
  simpl in Ha. rewrite Hbid in Ha.
  assert (searchedIdxOf (nodeIdToIndexOf genreBooks) (Some (ApiBook.id searchResult)) = a) as Ea.
  { unfold searchedIdxOf. apply String.eqb_neq in Hid. by rewrite Hid, Ha. }
  rewrite Ea in Hconn. apply nodeIdToIndexOf_Some in Ha as [Halt Haid].
  exists g, (nodeAt genreBooks a). split_and!; try done.
  - by apply nodeAt_elem_of.
  - intros x (ix & Hix & <-)%elem_of_nodeAt. rewrite <- Haid. by apply Hconn.
Qed.

End SearchSelection.

(** ** Loading the books of a genre *)



Lemma fetchBooksForGenre_failure genre r1 r2 st :
  PageState.booksCache st !! genre = None → ¬ succeeded r1 r2 →
  let st' := fetchBooksForGenre genre r1 r2 st in
  PageState.genreBooks st' = PageState.genreBooks st ∧
  PageState.booksCache st' = PageState.booksCache st ∧
  is_Some (PageState.error st') ∧ PageState.loadingState st' = idle.
Proof.
  intros Hmiss Hfail. unfold fetchBooksForGenre. rewrite Hmiss.
  destruct r1 as [m | | books]; [by simpl | by simpl |].
  destruct (Nat.eqb_spec (length books) 0) as [E | Hlen]; [by simpl |].
  destruct r2 as [m | | sentiments]; [by simpl | by simpl |].
  exfalso. apply Hfail. exists books, sentiments. split_and!; try done.
  intros ->. by apply Hlen.
Qed.



(** ** Genre detection *)

Section DetectGenreFacts.

Import SearchRoute.

Context {lower : StringToLowerCase}.

Lemma increment_map genre scores :
  increment genre scores =
  map (λ e, (e.1, e.2 + (if String.eqb e.1 genre then 1 else 0))) scores.
Proof.
  unfold increment. apply map_ext. intros [g n]. simpl.
  destruct (String.eqb g genre); [done |]. by rewrite Nat.add_0_r.
Qed.

Lemma keywordHits_cons entry table lowerSubject genre :
  keywordHits (entry :: table) lowerSubject genre =
  (if String_includes lowerSubject entry.1 && String.eqb entry.2 genre then 1 else 0) +
  keywordHits table lowerSubject genre.
Proof.
  unfold keywordHits. rewrite filter_cons.
  destruct (String_includes lowerSubject entry.1 && String.eqb entry.2 genre) eqn:E.
  - rewrite decide_True by done. done.
  - rewrite decide_False by (by intros ?). done.
Qed.

Lemma fold_keywords lowerSubject table scores :
  fold_left (λ scores entry,
               if String_includes lowerSubject entry.1 then increment entry.2 scores else scores)
            table scores =
  map (λ e, (e.1, e.2 + keywordHits table lowerSubject e.1)) scores.
Proof.
  revert scores. induction table as [| entry table IH]; intros scores; simpl.
  - rewrite <- (map_id scores) at 1. apply map_ext. intros [g n]. simpl.
    unfold keywordHits. simpl. by rewrite Nat.add_0_r.
  - rewrite IH. destruct (String_includes lowerSubject entry.1) eqn:E.
    + rewrite increment_map, map_map. apply map_ext. intros [g n]. simpl.
      rewrite keywordHits_cons, E. simpl.
      rewrite (String.eqb_sym entry.2 g). f_equal. lia.
    + apply map_ext. intros [g n]. simpl. by rewrite keywordHits_cons, E.
Qed.

Lemma scoreSubject_hits scores subject :
  scoreSubject scores subject =
  map (λ e, (e.1, e.2 + keywordHits SUBJECT_TO_GENRE (string_toLowerCase subject) e.1)) scores.
Proof. apply fold_keywords. Qed.

(** Adding the counts of one subject after the other adds their sum. *)
Lemma fold_counts (count : string → string → nat) (step : list (string * nat) → string → list (string * nat))
    subjects scores :
  (∀ scores subject, step scores subject = map (λ e, (e.1, e.2 + count subject e.1)) scores) →
  fold_left step subjects scores =
  map (λ e, (e.1, e.2 + sum_list (map (λ subject, count subject e.1) subjects))) scores.
Proof.
  intros Hstep. revert scores. induction subjects as [| subject subjects IH]; intros scores.
  - simpl. rewrite <- (map_id scores) at 1. apply map_ext. intros [g n]. simpl.
    f_equal. lia.
  - simpl. rewrite IH, Hstep, map_map. apply map_ext. intros [g n]. simpl.
    f_equal. lia.
Qed.

Lemma scoreSubjects_hits subjects scores :
  fold_left scoreSubject subjects scores = map (λ e, (e.1, e.2 + hits subjects e.1)) scores.
Proof.
  apply (fold_counts (λ subject g, keywordHits SUBJECT_TO_GENRE (string_toLowerCase subject) g)).
  apply scoreSubject_hits.
Qed.

Lemma hits_nil g : hits [] g = 0.
Proof. reflexivity. Qed.

(** The scores after the first loop: the matches of every genre, in the
    order of the score object. *)
Lemma genreScores_hits subjects :
  fold_left scoreSubject subjects initialScores = map (λ g, (g, hits subjects g)) genreOrder.
Proof.
  rewrite scoreSubjects_hits. unfold genreOrder. rewrite map_map.
  apply map_ext_in. intros [g n] Hin. cbn [fst snd].
  assert (n = 0) as ->; [| done].
  unfold initialScores in Hin. cbn [In] in Hin.
  repeat (destruct Hin as [[= _ <-] | Hin]; [done |]). done.
Qed.

(** The scan for the highest score, from any starting point. *)
Lemma highest_fold (scores : list (string * nat)) (m0 : nat) (g0 : string) :
  let best := fold_left (λ best entry, if (best.1 <? entry.2)%nat then (entry.2, entry.1) else best)
                        scores (m0, g0) in
  (∀ e, e ∈ scores → e.2 ≤ best.1) ∧ m0 ≤ best.1 ∧
  ((best = (m0, g0) ∧ ∀ e, e ∈ scores → e.2 ≤ m0) ∨
   (m0 < best.1 ∧
    ∃ i, scores !! i = Some (best.2, best.1) ∧
         ∀ j e, j < i → scores !! j = Some e → e.2 < best.1)).
Proof.
  revert m0 g0. induction scores as [| [g n] scores IH]; intros m0 g0; simpl.
  - split_and!; [by intros e ?%elem_of_nil | done |]. left. split; [done |].
    by intros e ?%elem_of_nil.
  - destruct (Nat.ltb_spec m0 n) as [Hlt | Hge].
    + destruct (IH n g) as (Hmax & Hle & Hcase). split_and!.
      * intros e [-> | He]%elem_of_cons; [done | by apply Hmax].
      * lia.
      * right. destruct Hcase as [[E Hall] | (Hlt' & i & Hi & Hbefore)].
        -- rewrite E. simpl. split; [done |]. exists 0. split; [done |]. intros j e Hj. lia.
        -- split; [lia |]. exists (S i). split; [done |].
           intros [| j] e Hj He; simpl in He.
           ++ injection He as <-. simpl. lia.
           ++ eapply Hbefore; [| done]. lia.
    + destruct (IH m0 g0) as (Hmax & Hle & Hcase). split_and!.
      * intros e [-> | He]%elem_of_cons; [simpl; lia | by apply Hmax].
      * done.
      * destruct Hcase as [[E Hall] | (Hlt' & i & Hi & Hbefore)].
        -- left. split; [done |]. intros e [-> | He]%elem_of_cons; [done | by apply Hall].
        -- right. split; [done |]. exists (S i). split; [done |].
           intros [| j] e Hj He; simpl in He.
           ++ injection He as <-. simpl. lia.
           ++ eapply Hbefore; [| done]. lia.
Qed.

Lemma genreOrder_has_literary : "Literary Fiction" ∈ genreOrder.
Proof. apply (bool_decide_unpack _). by vm_compute. Qed.

Lemma scored_elem_of subjects g :
  g ∈ genreOrder → (g, hits subjects g) ∈ map (λ g, (g, hits subjects g)) genreOrder.
Proof.
  intros Hg. apply list_elem_of_In, (in_map (λ g, (g, hits subjects g))), list_elem_of_In, Hg.
Qed.

(** What [detectGenre] returns, in terms of the matches. *)
Lemma detectGenre_spec subjects :
  let r := detectGenre subjects in
  r ∈ genreOrder ∧
  (∀ g, g ∈ genreOrder → hits subjects g ≤ hits subjects r) ∧
  (hits subjects r = 0 → r = "Literary Fiction") ∧
  (0 < hits subjects r →
   ∀ i j g, genreOrder !! i = Some g → genreOrder !! j = Some r → i < j →
            hits subjects g < hits subjects r).
Proof.
  unfold detectGenre. destruct (Nat.eqb_spec (length subjects) 0) as [E | _].
  - apply nil_length_inv in E as ->. simpl. split_and!.
    + apply genreOrder_has_literary.
    + intros g _. by rewrite !hits_nil.
    + done.
    + rewrite hits_nil. lia.
  - unfold highestScore. rewrite genreScores_hits.
    pose proof (highest_fold (map (λ g, (g, hits subjects g)) genreOrder) 0 "Literary Fiction")
      as H.
    cbv zeta in H.
    set (best := fold_left _ _ _) in *. clearbody best.
    destruct H as (Hmax & _ & Hcase).
    destruct Hcase as [[E Hall] | (Hpos & i & Hi & Hbefore)].
    + rewrite E. cbn [fst snd].
      assert (∀ g, g ∈ genreOrder → hits subjects g = 0) as Hzero.
      { intros g Hg. assert (hits subjects g ≤ 0); [| lia].
        apply (Hall (g, hits subjects g)). by apply scored_elem_of. }
      split_and!.
      * apply genreOrder_has_literary.
      * intros g Hg. rewrite (Hzero g Hg). lia.
      * done.
      * rewrite (Hzero _ genreOrder_has_literary). lia.
    + change (map (λ g, (g, hits subjects g)) genreOrder)
        with ((λ g, (g, hits subjects g)) <$> genreOrder) in Hi, Hbefore.
      rewrite list_lookup_fmap in Hi.
      destruct (genreOrder !! i) as [g |] eqn:Eg; [| done]. cbn [fmap option_fmap option_map] in Hi.
      injection Hi as Hg Hm. subst g.
      assert (NoDup genreOrder) as Hnd by (unfold genreOrder; simpl; apply NoDup_ListNoDup; repeat constructor; simpl; intuition congruence).
      split_and!.
      * by eapply list_elem_of_lookup_2.
      * intros g Hg. rewrite Hm.
        apply (Hmax (g, hits subjects g)). by apply scored_elem_of.
      * intros Hz. rewrite Hm in Hz. cbn [fst] in Hpos. lia.
      * intros _ i' j g Hi' Hj Hlt.
        assert (j = i) as -> by (by eapply NoDup_lookup).
        rewrite Hm. apply (Hbefore i' (g, hits subjects g) Hlt).
        by rewrite list_lookup_fmap, Hi'.
Qed.

Lemma hits_perm subjects subjects' g :
  subjects ≡ₚ subjects' → hits subjects g = hits subjects' g.
Proof. intros Hp. unfold hits. by rewrite Hp. Qed.

Lemma detectGenre_perm subjects subjects' :
  subjects ≡ₚ subjects' → detectGenre subjects = detectGenre subjects'.
Proof.
  intros Hp. unfold detectGenre. rewrite (Permutation_length Hp).
  destruct (length subjects' =? 0); [done |].
  rewrite !genreScores_hits. do 2 f_equal.
  apply map_ext. intros g. by rewrite (hits_perm _ _ g Hp).
Qed.

Lemma genreOrder_cases g :
  g ∈ genreOrder →
  g = "Sci-Fi" ∨ g = "Fantasy" ∨ g = "Mystery" ∨ g = "Philosophy" ∨ g = "Non-Fiction" ∨
  g = "Literary Fiction" ∨ g = "Romance" ∨ g = "Horror" ∨ g = "Historical Fiction" ∨
  g = "Biography" ∨ g = "Self-Help" ∨ g = "Poetry".
Proof.
  unfold genreOrder, initialScores. cbn [map fst].
  rewrite !elem_of_cons, elem_of_nil. tauto.
Qed.

Lemma detectGenre_known subjects :
  let g := detectGenre subjects in
  g ∈ Object_keys genreColors ∧ is_Some (Object_get genreColors g) ∧
  ∃ q, BooksRoute.subjectQuery (Some g) = inr (Some q) ∧ q ≠ "".
Proof.
  intros g. destruct (detectGenre_spec subjects) as [Hg _]. fold g in Hg. clearbody g.
  apply genreOrder_cases in Hg.
  repeat (destruct Hg as [Hg | Hg]); subst g;
    (split_and!;
     [ apply (bool_decide_unpack _); by vm_compute
     | vm_compute; by eexists
     | eexists; split; [vm_compute; reflexivity | done] ]).
Qed.

End DetectGenreFacts.

(** ** The sentiment route *)

Section SentimentFacts.

Import SentimentRoute.

Lemma getFallbackScores_valid genre : validScores (getFallbackScores genre) = true.
Proof.
  unfold getFallbackScores. destruct (fallbacks !! genre) as [s |] eqn:E; simpl; [| done].
  unfold fallbacks in E. apply elem_of_list_to_map_2 in E.
  rewrite !elem_of_cons, elem_of_nil in E.
  destruct E as [E | [E | [E | [E | [E | [E | []]]]]]]; injection E as _ E; by subst s.
Qed.

Variable generateText : nat → Generated.

Lemma storeResults_app results l1 l2 :
  storeResults results (l1 ++ l2) = storeResults (storeResults results l1) l2.
Proof. unfold storeResults. by rewrite fold_left_app. Qed.

Lemma runBatches_prefix books k :
  k * BATCH_SIZE ≤ length books + BATCH_SIZE - 1 →
  fold_left (λ results i,
               storeResults results
                 (imap (λ k book, scoreBook generateText (i + k) book)
                       (take BATCH_SIZE (drop i books))))
            (map (λ k, k * BATCH_SIZE) (seq 0 k)) ∅ =
  storeResults ∅ (imap (scoreBook generateText) (take (k * BATCH_SIZE) books)).
Proof.
  induction k as [| k IH]; intros Hk; [done |].
  rewrite seq_S, map_app, fold_left_app. cbn [map fold_left]. change (0 + k) with k.
  rewrite IH by (unfold BATCH_SIZE in *; lia).
  rewrite <- storeResults_app. f_equal.
  replace (S k * BATCH_SIZE) with (k * BATCH_SIZE + BATCH_SIZE) by lia.
  rewrite <- take_take_drop, imap_app. f_equal.
  rewrite length_take, Nat.min_l by (unfold BATCH_SIZE in *; lia).
  done.
Qed.

Lemma runBatches_oneByOne books : runBatches generateText books = oneByOne generateText books.
Proof.
  unfold runBatches, batchStarts, oneByOne.
  rewrite runBatches_prefix.
  - rewrite take_ge; [done |]. unfold BATCH_SIZE.
    pose proof (Nat.div_mod_eq (length books + 5 - 1) 5).
    pose proof (Nat.mod_upper_bound (length books + 5 - 1) 5). lia.
  - unfold BATCH_SIZE.
    pose proof (Nat.div_mod_eq (length books + 5 - 1) 5). lia.
Qed.

Lemma storeResults_lookup results batchResults k s :
  storeResults results batchResults !! k = Some s →
  results !! k = Some s ∨ (k, Some s) ∈ batchResults.
Proof.
  revert results. induction batchResults as [| [k' o] l IH]; intros results; simpl; [by left |].
  intros [H | H]%IH; [| right; by right].
  destruct o as [s' |]; simpl in H; [| by left].
  destruct (decide (k' = k)) as [-> | Hne].
  - rewrite lookup_insert_eq in H. injection H as ->. right. by left.
  - rewrite lookup_insert_ne in H by done. by left.
Qed.

Lemma storeResults_is_Some results batchResults k :
  is_Some (results !! k) ∨ (∃ s, (k, Some s) ∈ batchResults) →
  is_Some (storeResults results batchResults !! k).
Proof.
  revert results. induction batchResults as [| [k' o] l IH]; intros results; simpl.
  - intros [? | (s & ?%elem_of_nil)]; done.
  - intros [Hr | (s & [E | Hin]%elem_of_cons)]; apply IH.
    + left. destruct o as [s' |]; simpl; [| done].
      destruct (decide (k' = k)) as [-> | Hne];
        [rewrite lookup_insert_eq; by eexists | by rewrite lookup_insert_ne].
    + left. injection E as <- <-. simpl. rewrite lookup_insert_eq. by eexists.
    + right. by exists s.
Qed.

Lemma scoreBook_elem_of books k o :
  (k, o) ∈ imap (scoreBook generateText) books →
  ∃ i b, books !! i = Some b ∧ scoreBook generateText i b = (k, o).
Proof.
  intros (i & b & E & Hb)%elem_of_lookup_imap. by exists i, b.
Qed.

Lemma oneByOne_entries books :
  (∀ i s, generateText i = Output (Some s) → validScores s = true) →
  (∀ k s, oneByOne generateText books !! k = Some s →
          validScores s = true ∧ ∃ b, b ∈ books ∧ id b = k) ∧
  (∀ i b, books !! i = Some b → generateText i ≠ Output None →
          is_Some (oneByOne generateText books !! id b)).
Proof.
  intros Hvalid. split.
  - intros k s [H | H]%storeResults_lookup; [by rewrite lookup_empty in H |].
    apply scoreBook_elem_of in H as (i & b & Hb & E).
    unfold scoreBook in E. split.
    + destruct (generateText i) as [| o] eqn:G.
      * injection E as _ <-. apply getFallbackScores_valid.
      * injection E as _ ->. by eapply Hvalid.
    + exists b. split; [by eapply list_elem_of_lookup_2 |].
      by destruct (generateText i); injection E as <- _.
  - intros i b Hb Hgen. apply storeResults_is_Some. right.
    destruct (generateText i) as [| [s |]] eqn:G; [| | done].
    + exists (getFallbackScores (genre b)).
      apply elem_of_lookup_imap. exists i, b. unfold scoreBook. by rewrite G.
    + exists s. apply elem_of_lookup_imap. exists i, b. unfold scoreBook. by rewrite G.
Qed.

End SentimentFacts.

(** ** The tiles of the cover background *)

Section CoverFacts.

Import BookCoverBackground.

Lemma lookup_imageAt u i : i < length u → u !! i = Some (imageAt u i).
Proof.
  intros Hi. destruct (lookup_lt_is_Some_2 u i Hi) as [img Himg].
  unfold imageAt. by rewrite (nth_lookup_Some _ _ _ _ Himg).
Qed.

Lemma imageAt_insert u a v k :
  a < length u → imageAt (<[a := v]> u) k = if decide (k = a) then v else imageAt u k.
Proof.
  intros Ha. unfold imageAt. rewrite !nth_lookup. case_decide.
  - subst. by rewrite list_lookup_insert_eq.
  - by rewrite list_lookup_insert_ne.
Qed.

Lemma swap_perm u i j :
  i < length u → j < length u → <[j := imageAt u i]> (<[i := imageAt u j]> u) ≡ₚ u.
Proof.
  intros Hi Hj. apply Permutation_inj. split; [by rewrite !length_insert |].
  exists (λ k, if decide (k = i) then j else if decide (k = j) then i else k). split.
  - intros a b. repeat case_decide; lia.
  - intros k. destruct (decide (k = j)) as [-> | Hkj].
    + rewrite list_lookup_insert_eq by (by rewrite length_insert).
      case_decide; subst; by rewrite lookup_imageAt.
    + rewrite list_lookup_insert_ne by done.
      destruct (decide (k = i)) as [-> | Hki].
      * rewrite list_lookup_insert_eq by done. by rewrite lookup_imageAt.
      * by rewrite list_lookup_insert_ne.
Qed.

Lemma swapWithNextDifferent_cases u i js :
  (swapWithNextDifferent u i js = u ∧
   ∀ j, j ∈ js → src (imageAt u j) = src (imageAt u i)) ∨
  (∃ j, j ∈ js ∧ src (imageAt u j) ≠ src (imageAt u i) ∧
        swapWithNextDifferent u i js = <[j := imageAt u i]> (<[i := imageAt u j]> u)).
Proof.
  induction js as [| j js IH]; simpl.
  - left. split; [done |]. by intros j ?%elem_of_nil.
  - destruct (String.eqb_spec (src (imageAt u j)) (src (imageAt u i))) as [E | Hne]; simpl.
    + destruct IH as [[-> Hall] | (j' & Hj' & Hne' & ->)].
      * left. split; [done |]. intros k [-> | Hk]%elem_of_cons; [done | by apply Hall].
      * right. exists j'. split; [by right | done].
    + right. exists j. split; [by left | done].
Qed.

Lemma shuffleStep_cases u i :
  (shuffleStep u i = u ∧
   (src (imageAt u i) = src (imageAt u (i - 1)) →
    ∀ k, i < k → k < length u → src (imageAt u k) = src (imageAt u i))) ∨
  (∃ j, i < j ∧ j < length u ∧
        src (imageAt u i) = src (imageAt u (i - 1)) ∧
        src (imageAt u j) ≠ src (imageAt u i) ∧
        shuffleStep u i = <[j := imageAt u i]> (<[i := imageAt u j]> u)).
Proof.
  unfold shuffleStep.
  destruct (String.eqb_spec (src (imageAt u i)) (src (imageAt u (i - 1)))) as [E | Hne].
  - destruct (swapWithNextDifferent_cases u i (seq (i + 1) (length u - (i + 1))))
      as [[-> Hall] | (j & Hj & Hne & ->)].
    + left. split; [done |]. intros _ k Hk1 Hk2. apply Hall, elem_of_seq. lia.
    + right. exists j. apply elem_of_seq in Hj. split_and!; try done; lia.
  - left. split; [done |]. by intros E.
Qed.

Lemma shuffleStep_perm u i : i < length u → shuffleStep u i ≡ₚ u.
Proof.
  intros Hi. destruct (shuffleStep_cases u i) as [[-> _] | (j & ? & ? & _ & _ & ->)]; [done |].
  by apply swap_perm.
Qed.

Lemma shuffleSteps_perm (steps : list nat) u :
  (∀ i, i ∈ steps → i < length u) → fold_left shuffleStep steps u ≡ₚ u.
Proof.
  revert u. induction steps as [| i steps IH]; intros u Hlt; simpl; [done |].
  assert (shuffleStep u i ≡ₚ u) as Hp by (apply shuffleStep_perm, Hlt; by left).
  rewrite IH; [done |]. intros k Hk. rewrite (Permutation_length Hp). apply Hlt. by right.
Qed.

Lemma shuffle_perm u : shuffle u ≡ₚ u.
Proof.
  unfold shuffle. apply shuffleSteps_perm. intros i Hi%elem_of_seq. lia.
Qed.

(** One round settles its slot and keeps the earlier slots settled. *)
Lemma shuffleStep_settles u i :
  1 ≤ i → i < length u →
  length (shuffleStep u i) = length u ∧
  settledAt (shuffleStep u i) i ∧
  ∀ m, 1 ≤ m → m < i → settledAt u m → settledAt (shuffleStep u i) m.
Proof.
  intros Hi1 Hi.
  destruct (shuffleStep_cases u i) as [[-> Hrest] | (j & Hij & Hj & Eprev & Hne & ->)].
  - split_and!; [done | | done].
    intros E k Hk1 Hk2. destruct (decide (k = i)) as [-> | Hki]; [done |].
    apply Hrest; [done | lia | done].
  - assert (∀ k, imageAt (<[j := imageAt u i]> (<[i := imageAt u j]> u)) k =
                 if decide (k = j) then imageAt u i
                 else if decide (k = i) then imageAt u j else imageAt u k) as Hat.
    { intros k. rewrite imageAt_insert by (by rewrite length_insert).
      case_decide; [done |]. by rewrite imageAt_insert. }
    split_and!.
    + by rewrite !length_insert.
    + intros E. rewrite !Hat in E.
      rewrite decide_False, decide_True in E by lia.
      rewrite (decide_False (P := i - 1 = j)), (decide_False (P := i - 1 = i)) in E by lia.
      congruence.
    + intros m Hm1 Hm Hsettled E. rewrite !Hat in E.
      rewrite (decide_False (P := m = j)), (decide_False (P := m = i)) in E by lia.
      rewrite (decide_False (P := m - 1 = j)), (decide_False (P := m - 1 = i)) in E by lia.
      exfalso. apply Hne.
      rewrite (Hsettled E j), (Hsettled E i) by lia. done.
Qed.

Lemma shuffle_rounds u t :
  t < length u →
  let u' := fold_left shuffleStep (seq 1 t) u in
  length u' = length u ∧ ∀ m, 1 ≤ m → m ≤ t → settledAt u' m.
Proof.
  induction t as [| t IH]; intros Ht; cbv zeta.
  - split; [done |]. intros m ? ?. lia.
  - rewrite seq_S, fold_left_app. cbn [fold_left]. change (1 + t) with (S t).
    destruct IH as [Hlen Hall]; [lia |].
    set (u' := fold_left shuffleStep (seq 1 t) u) in *.
    destruct (shuffleStep_settles u' (S t)) as (Hlen' & Hnew & Hold); [lia | lia |].
    split; [congruence |].
    intros m Hm1 Hm. destruct (decide (m = S t)) as [-> | Hne]; [done |].
    apply Hold; [done | lia |]. apply Hall; lia.
Qed.

Lemma shuffle_settled u : repeatsOnlyAtEnd (shuffle u).
Proof.
  unfold shuffle. destruct (decide (length u = 0)) as [E | Hne].
  { rewrite E. simpl. intros i ? Hi. lia. }
  destruct (shuffle_rounds u (length u - 1)) as [Hlen Hall]; [lia |].
  intros i Hi1 Hi. apply Hall; [done |]. rewrite Hlen in Hi. lia.
Qed.

(** *** A pool of distinct images *)

Lemma shuffle_fixed u :
  (∀ i, 1 ≤ i → i < length u → shuffleStep u i = u) → shuffle u = u.
Proof.
  intros Hfix. unfold shuffle.
  assert (∀ steps, (∀ i, i ∈ steps → 1 ≤ i ∧ i < length u) →
                   fold_left shuffleStep steps u = u) as H.
  { induction steps as [| i steps IH]; intros Hsteps; simpl; [done |].
    rewrite Hfix; [| apply Hsteps; by left | apply Hsteps; by left].
    apply IH. intros k Hk. apply Hsteps. by right. }
  apply H. intros i Hi%elem_of_seq. lia.
Qed.

Lemma length_fillSlots n imgs : length (fillSlots n imgs) = n.
Proof. unfold fillSlots. by rewrite length_map, length_seq. Qed.

Lemma imageAt_fillSlots n imgs i :
  i < n → imageAt (fillSlots n imgs) i = imageAt imgs (i mod length imgs).
Proof.
  intros Hi. apply nth_lookup_Some with (d := noImage). unfold fillSlots.
  change (map ?f ?l) with (f <$> l). rewrite list_lookup_fmap, lookup_seq_lt by done. done.
Qed.

Lemma imageAt_src_inj imgs a b :
  NoDup (map src imgs) → a < length imgs → b < length imgs →
  src (imageAt imgs a) = src (imageAt imgs b) → a = b.
Proof.
  intros Hnd Ha Hb E.
  eapply (NoDup_lookup (map src imgs)); [done | |].
  - change (map src imgs) with (src <$> imgs). by rewrite list_lookup_fmap, (lookup_imageAt imgs a Ha).
  - change (map src imgs) with (src <$> imgs).
    rewrite list_lookup_fmap, (lookup_imageAt imgs b Hb). simpl. by rewrite E.
Qed.

Lemma mod_succ_ne i n : 2 ≤ n → 1 ≤ i → i mod n ≠ (i - 1) mod n.
Proof.
  intros Hn Hi E.
  pose proof (Nat.div_mod_eq i n) as H1. pose proof (Nat.div_mod_eq (i - 1) n) as H2.
  rewrite E in H1.
  assert (n * (i / n) = n * ((i - 1) / n) + 1) as H by lia.
  assert (i / n ≤ (i - 1) / n ∨ (i - 1) / n + 1 ≤ i / n) as [Hle | Hgt] by lia; nia.
Qed.

Lemma shuffle_fillSlots n imgs :
  NoDup (map src imgs) → imgs ≠ [] → shuffle (fillSlots n imgs) = fillSlots n imgs.
Proof.
  intros Hnd Hne. apply shuffle_fixed. rewrite length_fillSlots. intros i Hi1 Hi.
  assert (0 < length imgs) as Hlen by (destruct imgs; [done | simpl; lia]).
  destruct (shuffleStep_cases (fillSlots n imgs) i) as [[E _] | (j & Hij & Hj & Eprev & Hdiff & _)];
    [done | exfalso].
  rewrite length_fillSlots in Hj.
  rewrite !imageAt_fillSlots in Eprev, Hdiff by lia.
  apply imageAt_src_inj in Eprev; [| done | by apply Nat.mod_upper_bound; lia..].
  destruct (decide (length imgs = 1)) as [E1 | Hne1].
  - apply Hdiff. rewrite E1, !Nat.mod_1_r. done.
  - by apply mod_succ_ne in Eprev; [| lia | done].
Qed.

(** *** The slots *)

Lemma coordsOf_S seg :
  coordsOf (S seg) =
  coordsOf seg ++
  map (λ y, {| coord_x := (-37 + Z.of_nat seg * 2)%Z; coord_y := y;
               coord_sizeX := 2; coord_sizeY := 2 |})
      (if (seg mod 2 =? 0)%nat then evenYs else oddYs).
Proof.
  unfold coordsOf, xCols. rewrite seq_S, map_app, imap_app, concat_app. simpl.
  rewrite length_map, length_seq, Nat.add_0_r, app_nil_r. done.
Qed.

Lemma length_coordsOf seg : length (coordsOf seg) = 5 * seg.
Proof.
  induction seg as [| seg IH]; [done |].
  rewrite coordsOf_S, length_app, IH, length_map.
  destruct (seg mod 2 =? 0)%nat; simpl; lia.
Qed.

Lemma coordsOf_elem_of seg c :
  c ∈ coordsOf seg →
  ∃ col, col < seg ∧ coord_x c = (-37 + Z.of_nat col * 2)%Z ∧
         coord_y c ∈ (if (col mod 2 =? 0)%nat then evenYs else oddYs) ∧
         coord_sizeX c = 2%Z ∧ coord_sizeY c = 2%Z.
Proof.
  induction seg as [| seg IH]; [by intros ?%elem_of_nil |].
  rewrite coordsOf_S. intros [Hc | Hc]%elem_of_app.
  - destruct (IH Hc) as (col & ? & ?). exists col. split; [lia | done].
  - apply list_elem_of_In, in_map_iff in Hc as (yy & <- & Hy%list_elem_of_In).
    exists seg. split_and!; try done. lia.
Qed.

Lemma coordsOf_NoDup seg : NoDup (map (λ c, (coord_x c, coord_y c)) (coordsOf seg)).
Proof.
  induction seg as [| seg IH]; [constructor |].
  rewrite coordsOf_S, map_app. apply NoDup_app. split_and!.
  - done.
  - intros xy (c & Hxy1 & Hc%list_elem_of_In)%list_elem_of_In%in_map_iff
              (c' & Hxy & Hc')%list_elem_of_In%in_map_iff.
    subst xy. apply coordsOf_elem_of in Hc as (col & Hcol & Hx & _).
    apply in_map_iff in Hc' as (yy & <- & _). simpl in Hxy.
    injection Hxy as Hx' _. lia.
  - rewrite map_map. cbn [coord_x coord_y]. generalize (-37 + Z.of_nat seg * 2)%Z. intros X.
    destruct (seg mod 2 =? 0)%nat; unfold evenYs, oddYs; cbn [map];
      apply NoDup_ListNoDup; repeat constructor; simpl; intuition congruence.
Qed.

Lemma imap_const_index {A B : Type} (g : nat → B) (l : list A) :
  imap (λ i _, g i) l = map g (seq 0 (length l)).
Proof.
  assert (∀ k, imap (λ i _, g (k + i)) l = map g (seq k (length l))) as H.
  { induction l as [| a l IH]; intros k; simpl; [done |].
    rewrite Nat.add_0_r. f_equal. rewrite <- IH. apply imap_ext. intros i b _. simpl.
    f_equal. lia. }
  apply (H 0).
Qed.

Lemma map_imageAt_seq u : map (imageAt u) (seq 0 (length u)) = u.
Proof.
  apply list_eq. intros i. change (map ?f ?l) with (f <$> l). rewrite list_lookup_fmap.
  destruct (decide (i < length u)) as [Hi | Hi].
  - rewrite lookup_seq_lt by done. simpl. by rewrite lookup_imageAt.
  - rewrite lookup_seq_ge by lia. simpl. symmetry. apply lookup_ge_None. lia.
Qed.

Lemma buildItems_coords pool seg :
  map (λ item, {| coord_x := x item; coord_y := y item;
                  coord_sizeX := sizeX item; coord_sizeY := sizeY item |})
      (buildItems pool seg) = coordsOf seg.
Proof.
  unfold buildItems. destruct (length pool =? 0)%nat.
  - rewrite map_map. simpl. rewrite <- (map_id (coordsOf seg)) at 2.
    apply map_ext. by intros [].
  - apply list_eq. intros i. change (map ?f ?l) with (f <$> l).
    rewrite list_lookup_fmap, list_lookup_imap.
    by destruct (coordsOf seg !! i) as [[] |].
Qed.

Lemma buildItems_images pool seg :
  pool ≠ [] →
  map imageOf (buildItems pool seg) = shuffle (fillSlots (5 * seg) (map normalize pool)).
Proof.
  intros Hne. unfold buildItems.
  destruct (Nat.eqb_spec (length pool) 0) as [E | _].
  { by destruct pool. }
  rewrite length_coordsOf.
  set (u := shuffle (fillSlots (5 * seg) (map normalize pool))).
  assert (length u = 5 * seg) as Hlen.
  { unfold u. by rewrite (Permutation_length (shuffle_perm _)), length_fillSlots. }
  apply list_eq. intros i. change (map ?f ?l) with (f <$> l).
  rewrite list_lookup_fmap, list_lookup_imap.
  destruct (decide (i < 5 * seg)) as [Hi | Hi].
  - destruct (lookup_lt_is_Some_2 (coordsOf seg) i) as [c ->]; [by rewrite length_coordsOf |].
    rewrite lookup_imageAt by lia. simpl. unfold imageOf. simpl. by destruct (imageAt u i).
  - rewrite (proj2 (lookup_ge_None (coordsOf seg) i)) by (rewrite length_coordsOf; lia).
    simpl. symmetry. apply lookup_ge_None. lia.
Qed.

Lemma fillSlots_elem_of n imgs img :
  imgs ≠ [] → img ∈ fillSlots n imgs → img ∈ imgs.
Proof.
  intros Hne (i & <- & Hi)%list_elem_of_In%in_map_iff.
  apply list_elem_of_In, nth_In, Nat.mod_upper_bound. by destruct imgs.
Qed.

End CoverFacts.

(** ** clamp *)

Section ClampFacts.

Import BookCoverBackground.

Lemma SFcompare_opp x y :
  x ≠ S754_nan → y ≠ S754_nan →
  ∃ c, SFcompare x y = Some c ∧ SFcompare y x = Some (CompOpp c).
Proof.
  intros Hx Hy.
  destruct x as [sx | sx | | sx mx ex], y as [sy | sy | | sy my ey]; try done;
    repeat match goal with s : bool |- _ => destruct s end;
    try (eexists; split; reflexivity); simpl;
    rewrite (Z.compare_antisym ex ey);
    (destruct (ex ?= ey)%Z eqn:E; simpl; try (eexists; split; reflexivity));
    change (PosDef.Pos.compare_cont Eq mx my) with (Pos.compare mx my);
    change (PosDef.Pos.compare_cont Eq my mx) with (Pos.compare my mx);
    rewrite (Pos.compare_antisym mx my); destruct (mx ?= my)%positive;
    eexists; split; reflexivity.
Qed.

Lemma SFcompare_refl x : x ≠ S754_nan → SFcompare x x = Some Eq.
Proof.
  destruct x as [sx | sx | | sx mx ex]; try done; intros _; simpl.
  - by destruct sx.
  - change (PosDef.Pos.compare_cont Eq mx mx) with (Pos.compare mx mx).
    destruct sx; by rewrite Z.compare_refl, Pos.compare_refl.
Qed.

Lemma SFcompare_Eq x y :
  SFcompare x y = Some Eq → x = y ∨ (isZero x ∧ isZero y).
Proof.
  destruct x as [sx | sx | | sx mx ex], y as [sy | sy | | sy my ey]; simpl; try done;
    try (intros _; by right);
    repeat match goal with s : bool |- _ => destruct s end; try done; try (intros _; by left);
    change (PosDef.Pos.compare_cont Eq mx my) with (Pos.compare mx my);
    destruct (Z.compare_spec ex ey); try done;
    destruct (Pos.compare_spec mx my); try done; intros _; left; congruence.
Qed.

Lemma SFcompare_Eq_r x y z : SFcompare x y = Some Eq → SFcompare z x = SFcompare z y.
Proof.
  intros [-> | [Hx Hy]]%SFcompare_Eq; [done |].
  destruct x, y; try done; by destruct z as [[] | [] | | [] m e].
Qed.

Local Open Scope float_scope.

Lemma is_nan_spec x : PrimFloat.is_nan x = false ↔ Prim2SF x ≠ S754_nan.
Proof.
  unfold PrimFloat.is_nan. rewrite FloatAxioms.eqb_spec. unfold SFeqb. split.
  - intros H E. rewrite E in H. done.
  - intros H. by rewrite SFcompare_refl.
Qed.

Lemma leb_refl x : PrimFloat.is_nan x = false → PrimFloat.leb x x = true.
Proof.
  intros H%is_nan_spec. rewrite FloatAxioms.leb_spec. unfold SFleb.
  by rewrite SFcompare_refl.
Qed.

Lemma ltb_leb x y : PrimFloat.ltb x y = true → PrimFloat.leb x y = true.
Proof.
  rewrite FloatAxioms.ltb_spec, FloatAxioms.leb_spec. unfold SFltb, SFleb.
  by destruct (SFcompare _ _) as [[] |].
Qed.

Lemma not_ltb_leb x y :
  PrimFloat.is_nan x = false → PrimFloat.is_nan y = false →
  PrimFloat.ltb x y = false → PrimFloat.leb y x = true.
Proof.
  intros Hx%is_nan_spec Hy%is_nan_spec.
  rewrite FloatAxioms.ltb_spec, FloatAxioms.leb_spec. unfold SFltb, SFleb.
  destruct (SFcompare_opp _ _ Hx Hy) as (c & -> & ->). by destruct c.
Qed.

Lemma leb_antisym x y :
  PrimFloat.leb x y = true → PrimFloat.leb y x = true → PrimFloat.eqb x y = true.
Proof.
  rewrite !FloatAxioms.leb_spec, FloatAxioms.eqb_spec. unfold SFleb, SFeqb.
  destruct (Prim2SF x) as [sx | sx | | sx mx ex] eqn:Ex; try done;
    destruct (Prim2SF y) as [sy | sy | | sy my ey] eqn:Ey; try done;
    match goal with
    | |- context [SFcompare ?a ?b] =>
        destruct (SFcompare_opp a b) as (c & -> & ->); [done | done |]
    end; by destruct c.
Qed.

Lemma leb_not_nan x y :
  PrimFloat.leb x y = true → PrimFloat.is_nan x = false ∧ PrimFloat.is_nan y = false.
Proof.
  rewrite FloatAxioms.leb_spec, !is_nan_spec. unfold SFleb.
  destruct (Prim2SF x), (Prim2SF y); try done; by destruct s.
Qed.

Lemma leb_eqb_r z x y :
  PrimFloat.leb z x = true → PrimFloat.eqb x y = true → PrimFloat.leb z y = true.
Proof.
  rewrite !FloatAxioms.leb_spec, FloatAxioms.eqb_spec. unfold SFleb, SFeqb.
  intros H E. destruct (SFcompare (Prim2SF x) (Prim2SF y)) as [[] |] eqn:Ec; try done.
  by rewrite <- (SFcompare_Eq_r _ _ (Prim2SF z) Ec).
Qed.

Lemma eqb_refl x : PrimFloat.is_nan x = false → PrimFloat.eqb x x = true.
Proof.
  intros H%is_nan_spec. rewrite FloatAxioms.eqb_spec. unfold SFeqb.
  by rewrite SFcompare_refl.
Qed.

Lemma Math_max_cases a b :
  PrimFloat.is_nan a = false → PrimFloat.is_nan b = false →
  (Math_max a b = a ∨ Math_max a b = b) ∧
  PrimFloat.leb a (Math_max a b) = true ∧ PrimFloat.leb b (Math_max a b) = true.
Proof.
  intros Ha Hb. unfold Math_max. rewrite Ha, Hb. simpl.
  destruct (PrimFloat.ltb a b) eqn:E1.
  { split_and!; [by right | by apply ltb_leb | by apply leb_refl]. }
  destruct (PrimFloat.ltb b a) eqn:E2.
  { split_and!; [by left | by apply leb_refl | by apply ltb_leb]. }
  destruct (PrimFloat.get_sign a).
  - split_and!; [by right | by apply not_ltb_leb | by apply leb_refl].
  - split_and!; [by left | by apply leb_refl | by apply not_ltb_leb].
Qed.

Lemma Math_min_cases a b :
  PrimFloat.is_nan a = false → PrimFloat.is_nan b = false →
  (Math_min a b = a ∨ Math_min a b = b) ∧
  PrimFloat.leb (Math_min a b) a = true ∧ PrimFloat.leb (Math_min a b) b = true.
Proof.
  intros Ha Hb. unfold Math_min. rewrite Ha, Hb. simpl.
  destruct (PrimFloat.ltb a b) eqn:E1.
  { split_and!; [by left | by apply leb_refl | by apply ltb_leb]. }
  destruct (PrimFloat.ltb b a) eqn:E2.
  { split_and!; [by right | by apply ltb_leb | by apply leb_refl]. }
  destruct (PrimFloat.get_sign a).
  - split_and!; [by left | by apply leb_refl | by apply not_ltb_leb].
  - split_and!; [by right | by apply not_ltb_leb | by apply leb_refl].
Qed.

Lemma clamp_bounds v lo hi :
  PrimFloat.is_nan v = false → PrimFloat.leb lo hi = true →
  PrimFloat.leb lo (clamp v lo hi) = true ∧
  PrimFloat.leb (clamp v lo hi) hi = true ∧
  (PrimFloat.leb lo v = true → PrimFloat.leb v hi = true →
   PrimFloat.eqb (clamp v lo hi) v = true).
Proof.
  intros Hv Hlohi. destruct (leb_not_nan _ _ Hlohi) as [Hlo Hhi].
  unfold clamp.
  destruct (Math_max_cases v lo Hv Hlo) as (Hm & Hvm & Hlom).
  set (m := Math_max v lo) in *.
  assert (PrimFloat.is_nan m = false) as Hmn by (by destruct Hm as [-> | ->]).
  destruct (Math_min_cases m hi Hmn Hhi) as (Hr & Hrm & Hrhi).
  set (r := Math_min m hi) in *. clearbody r. clearbody m.
  split_and!.
  - by destruct Hr as [-> | ->].
  - done.
  - intros Hlov Hvhi.
    assert (PrimFloat.eqb m v = true) as Emv.
    { destruct Hm as [-> | ->]; [by apply eqb_refl | by apply leb_antisym]. }
    destruct Hr as [-> | ->]; [done |].
    apply leb_antisym; [| done]. by apply (leb_eqb_r hi m v).
Qed.

Lemma clamp_nan lo hi : PrimFloat.is_nan (clamp PrimFloat.nan lo hi) = true.
Proof. reflexivity. Qed.

End ClampFacts.

(** * Rounding analysis

    The ranking of the dimensions and the bounds of the similarity depend on
    the rounding of the binary64 operations.  The engine's sort is shown to
    return a permutation in which no element stands directly before one the
    comparator orders strictly ahead of it; the operations of [SpecFloat] are
    then related to the real numbers they round, and the comparator, the sums
    of products and the quotient of [calculateSimilarity] are bounded through
    their real values. *)

(** ** The engine's sort on a short array *)

Section SortV8.

Context {A : Type} (cmp : A → A → Js.number).

Lemma run_tail_app descending previous l run rest :
  Js.run_tail cmp descending previous l = (run, rest) → l = run ++ rest.
Proof.
  revert previous run rest. induction l as [| current l IH]; intros previous run rest; simpl.
  - by intros [= <- <-].
  - destruct (Bool.eqb _ _); [| by intros [= <- <-]].
    destruct (Js.run_tail cmp descending current l) as [run' rest'] eqn:E.
    intros [= <- <-]. simpl. f_equal. by apply (IH current).
Qed.

Lemma count_and_make_run_perm l run rest :
  Js.count_and_make_run cmp l = (run, rest) → run ++ rest ≡ₚ l.
Proof.
  unfold Js.count_and_make_run. destruct l as [| a0 [| a1 l]].
  - by intros [= <- <-].
  - by intros [= <- <-].
  - destruct (Js.run_tail cmp (Js.before cmp a1 a0) a1 l) as [run' rest'] eqn:E.
    apply run_tail_app in E as ->. intros [= <- <-].
    destruct (Js.before cmp a1 a0); [| done].
    apply (Permutation_app_tail rest' (l := rev (a0 :: a1 :: run')) (l' := a0 :: a1 :: run')).
    symmetry. apply Permutation_rev.
Qed.

Lemma binary_insert_perm sorted pivot : Js.binary_insert cmp sorted pivot ≡ₚ pivot :: sorted.
Proof.
  unfold Js.binary_insert.
  rewrite <- Permutation_middle. by rewrite take_drop.
Qed.

Lemma fold_binary_insert_perm rest run :
  fold_left (Js.binary_insert cmp) rest run ≡ₚ run ++ rest.
Proof.
  revert run. induction rest as [| x rest IH]; intros run; simpl.
  - by rewrite app_nil_r.
  - rewrite IH, binary_insert_perm. by rewrite <- Permutation_middle.
Qed.

Lemma sortV8_perm l : Js.sortV8 cmp l ≡ₚ l.
Proof.
  unfold Js.sortV8. destruct (Js.count_and_make_run cmp l) as [run rest] eqn:E.
  rewrite fold_binary_insert_perm. by apply count_and_make_run_perm.
Qed.

Lemma sortV8_length l : length (Js.sortV8 cmp l) = length l.
Proof. apply Permutation_length, sortV8_perm. Qed.

(** *** The result is ascending for the comparator *)

Hypothesis cmp_antisym : ∀ a b, Js.before cmp a b = true → Js.before cmp b a = false.

Lemma notAfter_before x y : notAfter cmp x y ↔ Js.before cmp y x = false.
Proof. done. Qed.

Lemma Sorted_weaken (R R' : A → A → Prop) l :
  (∀ x y, R x y → R' x y) → Sorted R l → Sorted R' l.
Proof.
  intros HR. induction 1 as [| a l Hl IH Hhd]; constructor; [done |].
  destruct Hhd; constructor. by apply HR.
Qed.

Lemma Sorted_snoc (R : A → A → Prop) l x :
  Sorted R l → (∀ y, last l = Some y → R y x) → Sorted R (l ++ [x]).
Proof.
  induction 1 as [| a l Hl IH Hhd]; intros Hlast; simpl.
  - by repeat constructor.
  - constructor.
    + apply IH. intros y Hy. apply Hlast. destruct l; [done | by simpl].
    + destruct l as [| b l]; simpl.
      * constructor. by apply Hlast.
      * constructor. by inversion Hhd.
Qed.

Lemma Sorted_rev (R : A → A → Prop) l :
  Sorted R l → Sorted (flip R) (rev l).
Proof.
  induction 1 as [| a l Hl IH Hhd]; simpl; [constructor |].
  apply Sorted_snoc; [done |].
  intros y Hy. unfold flip.
  destruct l as [| b l]; [done |].
  simpl in Hy. rewrite last_snoc in Hy. injection Hy as <-. by inversion Hhd.
Qed.

Lemma run_tail_chain descending previous l run rest :
  Js.run_tail cmp descending previous l = (run, rest) →
  Sorted (λ x y, Js.before cmp y x = descending) (previous :: run).
Proof.
  revert previous run rest. induction l as [| current l IH]; intros previous run rest; simpl.
  - intros [= <- <-]. by repeat constructor.
  - destruct (Bool.eqb _ _) eqn:Eb; [| intros [= <- <-]; by repeat constructor].
    destruct (Js.run_tail cmp descending current l) as [run' rest'] eqn:E.
    intros [= <- <-]. constructor; [by apply (IH current _ rest') |].
    constructor. by apply Bool.eqb_prop in Eb.
Qed.

Lemma count_and_make_run_sorted l run rest :
  Js.count_and_make_run cmp l = (run, rest) → Sorted (notAfter cmp) run.
Proof.
  unfold Js.count_and_make_run. destruct l as [| a0 [| a1 l]].
  - intros [= <- <-]. constructor.
  - intros [= <- <-]. by repeat constructor.
  - destruct (Js.run_tail cmp (Js.before cmp a1 a0) a1 l) as [run' rest'] eqn:E.
    apply run_tail_chain in E. intros [= <- <-].
    destruct (Js.before cmp a1 a0) eqn:Ed.
    + assert (Sorted (λ x y, Js.before cmp y x = true) (a0 :: a1 :: run')) as Hs
        by (constructor; [done | by constructor]).
      apply Sorted_rev in Hs. eapply Sorted_weaken; [| exact Hs].
      intros x y Hxy. apply notAfter_before. by apply cmp_antisym.
    + constructor; [| by constructor].
      eapply Sorted_weaken; [| exact E]. by intros x y Hxy.
Qed.

Lemma insertion_point_spec pivot sorted fuel left right :
  left ≤ right → right ≤ length sorted → right - left ≤ fuel →
  (left = 0 ∨ ∃ x, sorted !! (left - 1) = Some x ∧ Js.before cmp pivot x = false) →
  (right = length sorted ∨ ∃ y, sorted !! right = Some y ∧ Js.before cmp pivot y = true) →
  let k := Js.insertion_point cmp pivot sorted fuel left right in
  k ≤ length sorted ∧
  (k = 0 ∨ ∃ x, sorted !! (k - 1) = Some x ∧ Js.before cmp pivot x = false) ∧
  (k = length sorted ∨ ∃ y, sorted !! k = Some y ∧ Js.before cmp pivot y = true).
Proof.
  revert left right. induction fuel as [| fuel IH]; intros left right Hlr Hr Hfuel Hl Hrr;
    cbn [Js.insertion_point]; cbv zeta.
  - assert (left = right) as -> by lia. split_and!; [lia | done | done].
  - destruct (Nat.ltb_spec left right) as [Hlt | Hge].
    + set (mid := left + (right - left) / 2).
      assert ((right - left) / 2 < right - left) as Hhalf by (apply Nat.div_lt; lia).
      assert ((right - left) / 2 ≤ fuel) as Hhalf'.
      { apply Nat.lt_succ_r. eapply Nat.lt_le_trans; [exact Hhalf | lia]. }
      destruct (sorted !! mid) as [x |] eqn:Ex.
      * destruct (Js.before cmp pivot x) eqn:Eb.
        -- apply IH; [lia | lia | lia | done |]. right. by exists x.
        -- apply IH; [lia | lia | lia | | done]. right. exists x.
           by replace (mid + 1 - 1) with mid by lia.
      * apply lookup_ge_None in Ex. lia.
    + assert (left = right) as -> by lia. split_and!; [lia | done | done].
Qed.

Lemma Sorted_insert_at (R : A → A → Prop) s k p :
  Sorted R s → k ≤ length s →
  (k = 0 ∨ ∃ x, s !! (k - 1) = Some x ∧ R x p) →
  (k = length s ∨ ∃ y, s !! k = Some y ∧ R p y) →
  Sorted R (take k s ++ p :: drop k s).
Proof.
  intros Hs. revert k. induction Hs as [| a l Hl IH Hhd]; intros k Hk Hlo Hhi.
  - destruct k; [| simpl in Hk; lia]. simpl. by repeat constructor.
  - destruct k as [| k]; simpl.
    + constructor; [by constructor |]. constructor.
      destruct Hhi as [Hhi | (y & [= <-] & Hy)]; [done | done].
    + simpl in Hk. constructor.
      * apply IH; [lia | |].
        -- destruct Hlo as [Hlo | (x & Hx & HR)]; [done |].
           destruct k as [| k]; [by left |]. right. exists x.
           split; [| done]. replace (S k - 1) with k by lia.
           replace (S (S k) - 1) with (S k) in Hx by lia. exact Hx.
        -- destruct Hhi as [Hhi | (y & Hy & HR)]; [left; simpl in Hhi; lia |].
           right. by exists y.
      * destruct k as [| k]; simpl.
        -- constructor. destruct Hlo as [Hlo | (x & [= <-] & HR)]; done.
        -- destruct l as [| b l]; [simpl in Hk; lia |]. simpl. constructor. by inversion Hhd.
Qed.

Lemma binary_insert_sorted sorted pivot :
  Sorted (notAfter cmp) sorted → Sorted (notAfter cmp) (Js.binary_insert cmp sorted pivot).
Proof.
  intros Hs. unfold Js.binary_insert.
  destruct (insertion_point_spec pivot sorted (length sorted) 0 (length sorted))
    as (Hk & Hlo & Hhi); [lia | lia | lia | by left | by left |].
  cbv zeta in Hk, Hlo, Hhi.
  apply Sorted_insert_at; [done | done | |].
  - destruct Hlo as [Hlo | (x & Hx & Hb)]; [by left |]. right. by exists x.
  - destruct Hhi as [Hhi | (y & Hy & Hb)]; [by left |]. right. exists y.
    split; [done |]. apply notAfter_before. by apply cmp_antisym.
Qed.

Lemma sortV8_sorted l : Sorted (notAfter cmp) (Js.sortV8 cmp l).
Proof.
  unfold Js.sortV8. destruct (Js.count_and_make_run cmp l) as [run rest] eqn:E.
  apply count_and_make_run_sorted in E. revert run E.
  induction rest as [| x rest IH]; intros run Hrun; simpl; [done |].
  by apply IH, binary_insert_sorted.
Qed.

End SortV8.

(** ** Binary64 arithmetic against the real numbers

    Every operation of [SpecFloat] returns the real result rounded to the
    nearest number of the format; this part derives the error bounds of the
    operations from the definitions of [SpecFloat]. *)

Section Pow2.

Local Open Scope R_scope.

Lemma pow2_pos e : 0 < pow2 e.
Proof. apply powerRZ_lt. lra. Qed.

Lemma pow2_add a b : pow2 (a + b) = pow2 a * pow2 b.
Proof. apply powerRZ_add. lra. Qed.

Lemma pow2_0 : pow2 0 = 1.
Proof. reflexivity. Qed.

Lemma pow2_1 : pow2 1 = 2.
Proof. unfold pow2. simpl. lra. Qed.

Lemma pow2_opp e : pow2 (- e) = / pow2 e.
Proof. apply powerRZ_neg'. Qed.

Lemma pow2_sub a b : pow2 (a - b) = pow2 a / pow2 b.
Proof. unfold Z.sub. rewrite pow2_add, pow2_opp. done. Qed.

Lemma pow2_succ e : pow2 (e + 1) = 2 * pow2 e.
Proof. rewrite pow2_add, pow2_1. lra. Qed.

Lemma pow2_pred e : pow2 (e - 1) = pow2 e / 2.
Proof. rewrite pow2_sub, pow2_1. done. Qed.

Lemma pow2_IZR k : (0 ≤ k)%Z → pow2 k = IZR (2 ^ k).
Proof.
  intros Hk. rewrite <- (Z2Nat.id k) by done. generalize (Z.to_nat k). clear. intros n.
  induction n as [| n IH].
  - reflexivity.
  - rewrite Nat2Z.inj_succ, <- Z.add_1_r, pow2_succ, IH, Z.pow_add_r, mult_IZR by lia.
    simpl. lra.
Qed.

Lemma pow2_ge_1 k : (0 ≤ k)%Z → 1 <= pow2 k.
Proof.
  intros Hk. rewrite pow2_IZR by done. apply IZR_le.
  pose proof (Z.pow_pos_nonneg 2 k). lia.
Qed.

Lemma pow2_le a b : (a ≤ b)%Z → pow2 a <= pow2 b.
Proof.
  intros H. assert (pow2 b = pow2 a * pow2 (b - a)) as -> by (rewrite <- pow2_add; f_equal; lia).
  pose proof (pow2_ge_1 (b - a) ltac:(lia)). pose proof (pow2_pos a). nra.
Qed.

Lemma pow2_lt a b : (a < b)%Z → pow2 a < pow2 b.
Proof.
  intros H. assert (pow2 b = 2 * pow2 a * pow2 (b - a - 1)) as ->.
  { rewrite <- pow2_succ, <- pow2_add. f_equal. lia. }
  pose proof (pow2_ge_1 (b - a - 1) ltac:(lia)). pose proof (pow2_pos a). nra.
Qed.

(** A positive integer of [d] binary digits lies in [2^(d-1), 2^d). *)
Lemma digits_bounds m : (0 < m)%Z → pow2 (Zdigits2 m - 1) <= IZR m < pow2 (Zdigits2 m).
Proof.
  intros Hm. pose proof (Z.log2_spec m Hm) as [Hlo Hhi].
  pose proof (Z.log2_nonneg m).
  rewrite Zdigits2_log2 by done.
  replace (Z.log2 m + 1 - 1)%Z with (Z.log2 m) by lia.
  rewrite !pow2_IZR by lia. rewrite <- Z.add_1_r in Hhi.
  split; [by apply IZR_le | by apply IZR_lt].
Qed.

End Pow2.

Section Rounding.

Local Open Scope R_scope.

Lemma shr_1_located y mrs :
  (0 ≤ shr_m mrs)%Z →
  located y (shr_m mrs) (loc_of_shr_record mrs) →
  located (y / 2) (shr_m (shr_1 mrs)) (loc_of_shr_record (shr_1 mrs)).
Proof.
  destruct mrs as [m r s]. simpl. intros Hm.
  destruct m as [| [p | p |] | p]; [| | | | lia].
  - destruct r, s; simpl; lra.
  - assert (IZR (Z.pos p~1) = 2 * IZR (Z.pos p) + 1) as E
      by (by rewrite <- mult_IZR, <- plus_IZR).
    destruct r, s; simpl; lra.
  - assert (IZR (Z.pos p~0) = 2 * IZR (Z.pos p)) as E by (by rewrite <- mult_IZR).
    destruct r, s; simpl; lra.
  - destruct r, s; simpl; lra.
Qed.

Lemma shr_1_nonneg mrs : (0 ≤ shr_m mrs)%Z → (0 ≤ shr_m (shr_1 mrs))%Z.
Proof. intros H. rewrite shr_1_m by done. rewrite Z.div2_div. by apply Z.div_pos. Qed.

Lemma shr_iter_located n y mrs :
  (0 ≤ shr_m mrs)%Z →
  located y (shr_m mrs) (loc_of_shr_record mrs) →
  (0 ≤ shr_m (Nat.iter n shr_1 mrs))%Z ∧
  located (y / pow2 (Z.of_nat n)) (shr_m (Nat.iter n shr_1 mrs))
          (loc_of_shr_record (Nat.iter n shr_1 mrs)).
Proof.
  intros Hm Hl. induction n as [| n [IH1 IH2]].
  - simpl Nat.iter. change (Z.of_nat 0) with 0%Z. rewrite pow2_0.
    split; [done |]. by replace (y / 1) with y by lra.
  - simpl Nat.iter. split; [by apply shr_1_nonneg |].
    rewrite Nat2Z.inj_succ, <- Z.add_1_r, pow2_succ.
    replace (y / (2 * pow2 (Z.of_nat n))) with (y / pow2 (Z.of_nat n) / 2).
    + by apply shr_1_located.
    + pose proof (pow2_pos (Z.of_nat n)). field. lra.
Qed.

Lemma shr_located y mrs e n :
  (0 ≤ shr_m mrs)%Z →
  located y (shr_m mrs) (loc_of_shr_record mrs) →
  (0 ≤ shr_m (shr mrs e n).1)%Z ∧
  located (y / pow2 (Z.max 0 n)) (shr_m (shr mrs e n).1) (loc_of_shr_record (shr mrs e n).1) ∧
  (shr mrs e n).2 = (e + Z.max 0 n)%Z.
Proof.
  intros Hm Hl. destruct n as [| p | p]; cbn [shr fst snd].
  - change (Z.max 0 0) with 0%Z. rewrite pow2_0. replace (y / 1) with y by lra.
    split_and!; [done | done | lia].
  - rewrite iter_pos_nat. destruct (shr_iter_located (Pos.to_nat p) y mrs Hm Hl) as [H1 H2].
    rewrite positive_nat_Z in H2. change (Z.max 0 (Z.pos p)) with (Z.pos p).
    split_and!; [done | done | lia].
  - change (Z.max 0 (Z.neg p)) with 0%Z. rewrite pow2_0. replace (y / 1) with y by lra.
    split_and!; [done | done | lia].
Qed.

Lemma loc_of_shr_record_of_loc m l : loc_of_shr_record (shr_record_of_loc m l) = l.
Proof. by destruct l as [| []]. Qed.

Lemma shr_fexp_located y m e l :
  (0 ≤ m)%Z → located y m l →
  let n := Z.max 0 (fexp prec emax (Zdigits2 m + e) - e) in
  (0 ≤ shr_m (shr_fexp prec emax m e l).1)%Z ∧
  located (y / pow2 n) (shr_m (shr_fexp prec emax m e l).1)
          (loc_of_shr_record (shr_fexp prec emax m e l).1) ∧
  (shr_fexp prec emax m e l).2 = (e + n)%Z.
Proof.
  intros Hm Hl n. unfold shr_fexp.
  apply shr_located; rewrite ?shr_record_of_loc_m, ?loc_of_shr_record_of_loc; done.
Qed.

Lemma round_nearest_even_located y m l :
  located y m l → Rabs (IZR (round_nearest_even m l) - y) <= / 2.
Proof.
  destruct l as [| []]; simpl; intros H.
  - rewrite H. rewrite Rminus_diag, Rabs_R0. lra.
  - destruct (Z.even m); [| rewrite plus_IZR]; rewrite H; apply Rabs_le; lra.
  - apply Rabs_le. lra.
  - rewrite plus_IZR. apply Rabs_le. lra.
Qed.

(** The second shift of the rounding function loses nothing: the rounded
    mantissa has at most one digit more than the format allows, and then it
    is a power of two. *)
Lemma second_shift_exact mx ex m2 :
  (0 ≤ mx)%Z →
  let n1 := Z.max 0 (fexp prec emax (Zdigits2 mx + ex) - ex) in
  let E := (ex + n1)%Z in
  (Z.shiftr mx n1 ≤ m2 ≤ Z.shiftr mx n1 + 1)%Z →
  let n2 := Z.max 0 (fexp prec emax (Zdigits2 m2 + E) - E) in
  (Z.shiftr m2 n2 * 2 ^ n2 = m2)%Z.
Proof.
  intros Hmx n1 E [Hlo Hhi] n2.
  assert (n1 = Z.max 0 (Z.max (Zdigits2 mx + ex - 53) (-1074) - ex))%Z as Hn1
    by (subst n1; by rewrite fexp_eq).
  clearbody n1.
  destruct (Zdigits2_shiftr mx n1 Hmx) as [Hs1 Hd1]; [lia |].
  set (m1 := Z.shiftr mx n1) in *. clearbody m1.
  assert (0 ≤ m2)%Z as Hm2 by lia.
  assert (Zdigits2 m1 ≤ Zdigits2 m2)%Z as Hda by (apply Zdigits2_mono; lia).
  assert (Zdigits2 m2 ≤ Zdigits2 m1 + 1)%Z as Hdb.
  { etrans; [apply (Zdigits2_mono m2 (m1 + 1)); lia |]. by apply Zdigits2_succ. }
  pose proof (Zdigits2_nonneg mx) as Hdmx.
  subst n2 E. rewrite !fexp_eq in *.
  destruct (decide (Z.max 0 (Z.max (Zdigits2 m2 + (ex + n1) - 53) (-1074) - (ex + n1)) = 0)%Z)
    as [-> | Hn2].
  { rewrite Z.shiftr_0_r. lia. }
  (* a real second shift: the mantissa has gained a digit *)
  assert (0 < m1)%Z as Hm1pos.
  { destruct (decide (m1 = 0)%Z) as [E0 | ?]; [| lia]. exfalso.
    assert (m2 = 0 ∨ m2 = 1)%Z as [-> | ->] by lia;
      [change (Zdigits2 0) with 0%Z in Hn2 | change (Zdigits2 1) with 1%Z in Hn2]; lia. }
  assert (Zdigits2 m1 = Zdigits2 mx - n1)%Z as Hd1' by (pose proof (Zdigits2_pos m1 Hm1pos); lia).
  assert (Zdigits2 m2 = Zdigits2 m1 + 1)%Z as Hcarry by lia.
  assert (Z.max 0 (Z.max (Zdigits2 m2 + (ex + n1) - 53) (-1074) - (ex + n1)) = 1)%Z as -> by lia.
  assert (m2 = 2 ^ Zdigits2 m1)%Z as ->.
  { pose proof (Zdigits2_pos m1 Hm1pos).
    pose proof (Zdigits2_bound m1 (Zdigits2 m1) Hm1pos ltac:(lia)).
    pose proof (Zdigits2_least m2 (Zdigits2 m1) ltac:(lia) ltac:(lia) ltac:(lia)). lia. }
  pose proof (Zdigits2_pos m1 Hm1pos).
  rewrite Z.shiftr_div_pow2 by lia.
  replace (Zdigits2 m1) with (Zdigits2 m1 - 1 + 1)%Z at 1 2 by lia.
  rewrite Z.pow_add_r by lia. change (2 ^ 1)%Z with 2%Z.
  rewrite Z.div_mul by lia. lia.
Qed.

(** The rounding function: the mantissa is shifted to the exponent [E] of
    the format, rounded to the nearest integer, ties to even, and the result
    has that mantissa at that exponent. *)
Lemma binary_round_aux_R sx mx ex lx x :
  (0 ≤ mx)%Z → located (x / pow2 ex) mx lx →
  SFfinite (binary_round_aux prec emax sx mx ex lx) →
  let E := Z.max ex (fexp prec emax (Zdigits2 mx + ex)) in
  ∃ m1 l1,
    located (x / pow2 E) m1 l1 ∧ (0 ≤ m1)%Z ∧ (E = ex → m1 = mx ∧ l1 = lx) ∧
    SFmagnitude (binary_round_aux prec emax sx mx ex lx) sx
                (IZR (round_nearest_even m1 l1) * pow2 E).
Proof.
  intros Hm Hl Hfin E. unfold binary_round_aux in *.
  destruct (shr_fexp_located (x / pow2 ex) mx ex lx Hm Hl) as (Hm1 & Hl1 & He1).
  destruct (shr_fexp_spec mx ex lx Hm) as [Hs1 _].
  assert (E = ex → (shr_fexp prec emax mx ex lx).1 = shr_record_of_loc mx lx) as Hsame.
  { intros HE. unfold shr_fexp, shr.
    destruct (fexp prec emax (Zdigits2 mx + ex) - ex)%Z eqn:En; [done | | done].
    subst E. lia. }
  destruct (shr_fexp prec emax mx ex lx) as [mrs' e'] eqn:E1. cbn [fst snd] in *.
  set (n1 := Z.max 0 (fexp prec emax (Zdigits2 mx + ex) - ex)) in *.
  assert (e' = E) as -> by (subst E n1; lia).
  set (m1 := shr_m mrs') in *. set (l1 := loc_of_shr_record mrs') in *.
  pose proof (round_nearest_even_bounds m1 l1) as [Hlo Hhi].
  set (m2 := round_nearest_even m1 l1) in *.
  assert (0 ≤ m2)%Z as Hm2 by lia.
  destruct (shr_fexp_spec m2 E loc_Exact Hm2) as [Hs2 He2].
  pose proof (second_shift_exact mx ex m2 Hm) as Hexact. cbv zeta in Hexact.
  fold n1 in Hexact. replace (ex + n1)%Z with E in Hexact by (subst E n1; lia).
  rewrite <- Hs1 in Hexact. specialize (Hexact (conj Hlo Hhi)).
  set (n2 := Z.max 0 (fexp prec emax (Zdigits2 m2 + E) - E)) in *.
  destruct (shr_fexp prec emax m2 E loc_Exact) as [mrs'' e''] eqn:E2. cbn [fst snd] in *.
  exists m1, l1. split_and!.
  - replace (x / pow2 E) with (x / pow2 ex / pow2 n1); [done |].
    assert (pow2 E = pow2 ex * pow2 n1) as -> by (rewrite <- pow2_add; f_equal; subst E n1; lia).
    pose proof (pow2_pos ex). pose proof (pow2_pos n1). field. lra.
  - done.
  - intros HE. specialize (Hsame HE). subst mrs'. subst m1 l1.
    by rewrite shr_record_of_loc_m, loc_of_shr_record_of_loc.
  - assert (0 ≤ n2)%Z as Hn2 by (subst n2; lia).
    fold m2.
    assert (IZR m2 * pow2 E = IZR (shr_m mrs'') * pow2 e'')%R as ->.
    { rewrite <- Hexact at 1. rewrite Hs2, He2, mult_IZR, pow2_add, <- pow2_IZR by done. lra. }
    destruct (shr_m mrs'') as [| p | p]; simpl.
    + split; [done | lra].
    + destruct (e'' <=? emax - prec)%Z; [done | done].
    + done.
Qed.

Lemma located_lower y m l : located y m l → IZR m <= y.
Proof. destruct l as [| []]; simpl; lra. Qed.

(** The error of the rounding function is at most half a unit of the
    exponent [E], and nothing is lost when the mantissa is already at that
    exponent and exact. *)
Lemma binary_round_aux_error sx mx ex lx x :
  (0 ≤ mx)%Z → located (x / pow2 ex) mx lx →
  SFfinite (binary_round_aux prec emax sx mx ex lx) →
  let E := Z.max ex (fexp prec emax (Zdigits2 mx + ex)) in
  ∃ v, SFmagnitude (binary_round_aux prec emax sx mx ex lx) sx v ∧
       Rabs (v - x) <= pow2 (E - 1) ∧
       (E = ex → lx = loc_Exact → v = x).
Proof.
  intros Hm Hl Hfin E.
  destruct (binary_round_aux_R sx mx ex lx x Hm Hl Hfin) as (m1 & l1 & Hl1 & Hm1 & Hsame & Hmag).
  fold E in Hl1, Hsame, Hmag.
  exists (IZR (round_nearest_even m1 l1) * pow2 E). split_and!; [done | |].
  - pose proof (round_nearest_even_located _ _ _ Hl1) as Hr.
    pose proof (pow2_pos E) as HE. rewrite pow2_pred.
    replace (IZR (round_nearest_even m1 l1) * pow2 E - x)
      with ((IZR (round_nearest_even m1 l1) - x / pow2 E) * pow2 E) by (field; lra).
    rewrite Rabs_mult, (Rabs_pos_eq (pow2 E)) by lra. nra.
  - intros HE Hx. destruct (Hsame HE) as [-> ->]. subst lx. simpl in *.
    rewrite HE in *. pose proof (pow2_pos ex). rewrite <- Hl. field. lra.
Qed.

(** A number below [2^K] has its digits below [K]. *)
Lemma digits_of_lt m e K : (0 < m)%Z → IZR m * pow2 e < pow2 K → (Zdigits2 m + e ≤ K)%Z.
Proof.
  intros Hm Hlt. destruct (digits_bounds m Hm) as [Hlo _].
  destruct (Z_le_gt_dec (Zdigits2 m + e) K) as [? | Hgt]; [done |]. exfalso.
  assert (pow2 K <= pow2 (Zdigits2 m - 1 + e)) as H by (apply pow2_le; lia).
  rewrite pow2_add in H. pose proof (pow2_pos e). nra.
Qed.

Lemma binary_round_aux_finite sx mx ex lx :
  (0 ≤ mx)%Z → (Zdigits2 mx + ex ≤ 900)%Z → SFfinite (binary_round_aux prec emax sx mx ex lx).
Proof.
  intros Hm Hd.
  assert (SFfinite (binary_round_aux prec emax false mx ex lx)) as H.
  { pose proof (binary_round_aux_below (Z.max 0 (Zdigits2 mx + ex)) mx ex lx Hm
                  ltac:(lia) ltac:(lia) ltac:(lia)) as Hb.
    by destruct (binary_round_aux prec emax false mx ex lx) as [| | | [] m e]. }
  destruct sx; [| done].
  rewrite (binary_round_aux_opp false).
  by destruct (binary_round_aux prec emax false mx ex lx).
Qed.

End Rounding.
(** ** The operations *)

Section Operations.

Local Open Scope R_scope.

Lemma SFmagnitude_R f s v :
  SFmagnitude f s v → SFfinite f ∧ SF2R f = (if s then -1 else 1) * v.
Proof.
  destruct f as [s' | | | s' m e]; simpl; try done.
  - intros [-> ->]. split; [done |]. destruct s; lra.
  - intros [-> ->]. split; [done |]. destruct s; lra.
Qed.

Lemma Rabs_sign (s : bool) v : Rabs ((if s then -1 else 1) * v) = Rabs v.
Proof. destruct s; [| by rewrite Rmult_1_l]. replace (-1 * v) with (- v) by lra. apply Rabs_Ropp. Qed.

Lemma IZR_pos_gt0 p : 0 < IZR (Z.pos p).
Proof. apply IZR_lt. lia. Qed.

Lemma SFmul_R x y :
  SFfinite x → SFfinite y → Rabs (SF2R x * SF2R y) < pow2 900 →
  SFfinite (SFmul prec emax x y) ∧
  Rabs (SF2R (SFmul prec emax x y) - SF2R x * SF2R y)
    <= Rmax (u64 * Rabs (SF2R x * SF2R y)) (pow2 (-1075)).
Proof.
  intros Hx Hy Hb.
  assert (0 <= Rmax (u64 * Rabs (SF2R x * SF2R y)) (pow2 (-1075))) as Hpos.
  { etrans; [| apply Rmax_r]. pose proof (pow2_pos (-1075)). lra. }
  destruct x as [sx | | | sx mx ex], y as [sy | | | sy my ey]; try done;
    try (simpl; split; [done |];
         match goal with |- Rabs ?t <= _ => replace t with 0 by lra end;
         rewrite Rabs_R0; exact Hpos).
  clear Hpos Hx Hy. cbn [SFmul].
  set (x := IZR (Z.pos (mx * my)) * pow2 (ex + ey)).
  assert (SF2R (S754_finite sx mx ex) * SF2R (S754_finite sy my ey)
          = (if xorb sx sy then -1 else 1) * x) as Hprod.
  { subst x. simpl. rewrite Pos2Z.inj_mul, mult_IZR, pow2_add. destruct sx, sy; simpl; lra. }
  rewrite Hprod in *. rewrite Rabs_sign in *.
  assert (0 < x) as Hxpos.
  { subst x. apply Rmult_lt_0_compat; [apply IZR_pos_gt0 | apply pow2_pos]. }
  rewrite (Rabs_pos_eq x) in * by lra.
  assert (Zdigits2 (Z.pos (mx * my)) + (ex + ey) ≤ 900)%Z as Hd by (by apply digits_of_lt).
  pose proof (binary_round_aux_finite (xorb sx sy) (Z.pos (mx * my)) (ex + ey) loc_Exact
                ltac:(done) Hd) as Hfin.
  destruct (binary_round_aux_error (xorb sx sy) (Z.pos (mx * my)) (ex + ey) loc_Exact x)
    as (v & Hmag & Herr & Hexact); [done | | done |].
  { simpl. subst x. pose proof (pow2_pos (ex + ey)). field. lra. }
  apply SFmagnitude_R in Hmag as [_ ->]. split; [done |].
  replace ((if xorb sx sy then -1 else 1) * v - (if xorb sx sy then -1 else 1) * x)
    with ((if xorb sx sy then -1 else 1) * (v - x)) by lra.
  rewrite Rabs_sign.
  set (D := (Zdigits2 (Z.pos (mx * my)) + (ex + ey))%Z) in *.
  rewrite fexp_eq in Herr, Hexact.
  destruct (Z.max_spec (ex + ey) (Z.max (D - 53) (-1074))) as [[Hlt HE] | [Hge HE]];
    rewrite HE in Herr, Hexact.
  - destruct (Z.max_spec (D - 53) (-1074)) as [[Hlt' HF] | [Hge' HF]]; rewrite HF in Herr.
    + etrans; [exact Herr |]. apply Rmax_r.
    + etrans; [exact Herr |]. etrans; [| apply Rmax_l].
      destruct (digits_bounds (Z.pos (mx * my)) ltac:(done)) as [Hlo _].
      assert (pow2 (D - 53 - 1) = u64 * (pow2 (Zdigits2 (Z.pos (mx * my)) - 1) * pow2 (ex + ey))) as ->.
      { unfold u64. rewrite <- !pow2_add. f_equal. subst D. lia. }
      pose proof (pow2_pos (ex + ey)). pose proof (pow2_pos (-53)). unfold u64. subst x.
      apply Rmult_le_compat_l; [lra |]. apply Rmult_le_compat_r; [lra | exact Hlo].
  - rewrite (Hexact eq_refl eq_refl), Rminus_diag, Rabs_R0.
    etrans; [| apply Rmax_r]. pose proof (pow2_pos (-1075)). lra.
Qed.

Lemma IZR_shiftl m k : (0 ≤ k)%Z → IZR (Z.shiftl m k) = IZR m * pow2 k.
Proof. intros Hk. by rewrite Z.shiftl_mul_pow2, mult_IZR, pow2_IZR. Qed.

Lemma binary_round_R sx mx ex :
  (-1074 ≤ ex)%Z → (Zdigits2 (Z.pos mx) + ex ≤ 900)%Z →
  ∃ v, SFmagnitude (binary_round prec emax sx mx ex) sx v ∧
       Rabs (v - IZR (Z.pos mx) * pow2 ex) <= u64 * (IZR (Z.pos mx) * pow2 ex).
Proof.
  intros He Hd. unfold binary_round.
  set (F := fexp prec emax (Z.pos (digits2_pos mx) + ex)).
  destruct (shl_align_spec mx ex F) as [Hmz Hez].
  pose proof (shl_align_digits mx ex F) as Hdz.
  destruct (shl_align mx ex F) as [mz ez]. cbn [fst snd] in *.
  set (x := IZR (Z.pos mx) * pow2 ex).
  assert (0 < x) as Hxpos.
  { subst x. apply Rmult_lt_0_compat; [apply IZR_pos_gt0 | apply pow2_pos]. }
  assert (x = IZR (Z.pos mz) * pow2 ez) as Hx.
  { subst x. rewrite Hmz, IZR_shiftl by lia. rewrite Rmult_assoc, <- pow2_add. do 2 f_equal. lia. }
  pose proof (binary_round_aux_finite sx (Z.pos mz) ez loc_Exact ltac:(done) ltac:(lia)) as Hfin.
  destruct (binary_round_aux_error sx (Z.pos mz) ez loc_Exact x)
    as (v & Hmag & Herr & Hexact); [done | | done |].
  { simpl. rewrite Hx. pose proof (pow2_pos ez). field. lra. }
  exists v. split; [done |].
  rewrite Hdz in Herr, Hexact.
  change (Z.pos (digits2_pos mx)) with (Zdigits2 (Z.pos mx)) in F.
  fold F in Herr, Hexact.
  assert (F = Z.max (Zdigits2 (Z.pos mx) + ex - 53) (-1074)) as HF by (subst F; by rewrite fexp_eq).
  clearbody F.
  destruct (Z_le_gt_dec F ex) as [Hle | Hgt].
  - rewrite (Hexact ltac:(lia) eq_refl), Rminus_diag, Rabs_R0.
    pose proof (pow2_pos (-53)). unfold u64. nra.
  - replace (Z.max ez F) with (Zdigits2 (Z.pos mx) + ex - 53)%Z in Herr by lia.
    etrans; [exact Herr |].
    destruct (digits_bounds (Z.pos mx) ltac:(done)) as [Hlo _].
    assert (pow2 (Zdigits2 (Z.pos mx) + ex - 53 - 1)
            = u64 * (pow2 (Zdigits2 (Z.pos mx) - 1) * pow2 ex)) as ->.
    { unfold u64. rewrite <- !pow2_add. f_equal. lia. }
    pose proof (pow2_pos ex). pose proof (pow2_pos (-53)). unfold u64. subst x.
    apply Rmult_le_compat_l; [lra |]. apply Rmult_le_compat_r; [lra | exact Hlo].
Qed.

Lemma binary_normalize_R m e :
  (-1074 ≤ e)%Z → (m ≠ 0 → Zdigits2 m + e ≤ 900)%Z →
  SFfinite (binary_normalize prec emax m e false) ∧
  Rabs (SF2R (binary_normalize prec emax m e false) - IZR m * pow2 e)
    <= u64 * Rabs (IZR m * pow2 e).
Proof.
  intros He Hd. destruct m as [| p | p]; cbn [binary_normalize].
  - split; [done |]. simpl. rewrite Rmult_0_l, Rminus_diag, Rabs_R0. lra.
  - destruct (binary_round_R false p e He (Hd ltac:(done))) as (v & Hmag & Herr).
    apply SFmagnitude_R in Hmag as [Hfin ->]. split; [done |].
    rewrite Rmult_1_l.
    assert (0 < IZR (Z.pos p) * pow2 e)
      by (apply Rmult_lt_0_compat; [apply IZR_pos_gt0 | apply pow2_pos]).
    by rewrite (Rabs_pos_eq (IZR (Z.pos p) * pow2 e)) by lra.
  - destruct (binary_round_R true p e He (Hd ltac:(done))) as (v & Hmag & Herr).
    apply SFmagnitude_R in Hmag as [Hfin ->]. split; [done |].
    assert (0 < IZR (Z.pos p) * pow2 e)
      by (apply Rmult_lt_0_compat; [apply IZR_pos_gt0 | apply pow2_pos]).
    change (Z.neg p) with (- Z.pos p)%Z. rewrite opp_IZR.
    replace (-1 * v - - IZR (Z.pos p) * pow2 e) with (- (v - IZR (Z.pos p) * pow2 e)) by lra.
    replace (- IZR (Z.pos p) * pow2 e) with (- (IZR (Z.pos p) * pow2 e)) by lra.
    rewrite !Rabs_Ropp. by rewrite (Rabs_pos_eq (IZR (Z.pos p) * pow2 e)) by lra.
Qed.

Lemma digits_of_lt_abs m e K :
  m ≠ 0%Z → Rabs (IZR m * pow2 e) < pow2 K → (Zdigits2 m + e ≤ K)%Z.
Proof.
  intros Hm Hlt. rewrite Rabs_mult, (Rabs_pos_eq (pow2 e)) in Hlt
    by (pose proof (pow2_pos e); lra).
  rewrite <- abs_IZR in Hlt.
  replace (Zdigits2 m) with (Zdigits2 (Z.abs m)) by (by destruct m).
  apply digits_of_lt; [lia | done].
Qed.

Lemma SFregular_finite f : SFregular f → SFfinite f.
Proof. by destruct f. Qed.

Lemma aligned_R s m e ez :
  (ez ≤ e)%Z →
  IZR (cond_Zopp s (Z.pos (shl_align m e ez).1)) * pow2 ez = SF2R (S754_finite s m e).
Proof.
  intros Hle. destruct (shl_align_spec m e ez) as [Hm He].
  rewrite He, Z.min_r in Hm by done.
  assert (IZR (Z.pos (shl_align m e ez).1) * pow2 ez = IZR (Z.pos m) * pow2 e) as H.
  { rewrite Hm, IZR_shiftl by lia. rewrite Rmult_assoc, <- pow2_add. do 2 f_equal. lia. }
  simpl. destruct s; simpl; [rewrite opp_IZR |]; lra.
Qed.

Lemma SFadd_R x y :
  SFregular x → SFregular y → Rabs (SF2R x + SF2R y) < pow2 900 →
  SFfinite (SFadd prec emax x y) ∧
  Rabs (SF2R (SFadd prec emax x y) - (SF2R x + SF2R y)) <= u64 * Rabs (SF2R x + SF2R y).
Proof.
  intros Hx Hy Hb.
  assert (0 <= u64 * Rabs (SF2R x + SF2R y)) as Hpos.
  { pose proof (pow2_pos (-53)). pose proof (Rabs_pos (SF2R x + SF2R y)). unfold u64. nra. }
  destruct x as [sx | | | sx mx ex], y as [sy | | | sy my ey]; try done.
  - destruct sx, sy; simpl in *; (split; [done |]);
      match goal with |- Rabs ?t <= _ => replace t with 0 by lra end;
      rewrite Rabs_R0; exact Hpos.
  - split; [done |]. cbn [SFadd]. change (SF2R (S754_zero sx)) with 0 in *.
    rewrite Rplus_0_l in *. by rewrite Rminus_diag, Rabs_R0.
  - split; [done |]. cbn [SFadd]. change (SF2R (S754_zero sy)) with 0 in *.
    rewrite Rplus_0_r in *. by rewrite Rminus_diag, Rabs_R0.
  - cbn [SFadd]. change IntDef.Z.min with Z.min. simpl in Hx, Hy.
    set (ez := Z.min ex ey).
    rewrite <- (aligned_R sx mx ex ez), <- (aligned_R sy my ey ez) in * by lia.
    rewrite <- Rmult_plus_distr_r, <- plus_IZR in *.
    apply binary_normalize_R; [lia |].
    intros Hne. by apply digits_of_lt_abs.
Qed.

Lemma SFsub_R x y :
  SFregular x → SFregular y → Rabs (SF2R x - SF2R y) < pow2 900 →
  SFfinite (SFsub prec emax x y) ∧
  Rabs (SF2R (SFsub prec emax x y) - (SF2R x - SF2R y)) <= u64 * Rabs (SF2R x - SF2R y).
Proof.
  intros Hx Hy Hb.
  assert (0 <= u64 * Rabs (SF2R x - SF2R y)) as Hpos.
  { pose proof (pow2_pos (-53)). pose proof (Rabs_pos (SF2R x - SF2R y)). unfold u64. nra. }
  destruct x as [sx | | | sx mx ex], y as [sy | | | sy my ey]; try done.
  - destruct sx, sy; simpl in *; (split; [done |]);
      match goal with |- Rabs ?t <= _ => replace t with 0 by lra end;
      rewrite Rabs_R0; exact Hpos.
  - split; [done |]. cbn [SFsub].
    replace (SF2R (S754_finite (negb sy) my ey)) with (SF2R (S754_zero sx) - SF2R (S754_finite sy my ey))
      by (simpl; destruct sy; simpl; lra).
    by rewrite Rminus_diag, Rabs_R0.
  - split; [done |]. cbn [SFsub]. change (SF2R (S754_zero sy)) with 0 in *.
    rewrite Rminus_0_r in *. by rewrite Rminus_diag, Rabs_R0.
  - cbn [SFsub]. change IntDef.Z.min with Z.min. simpl in Hx, Hy.
    set (ez := Z.min ex ey).
    rewrite <- (aligned_R sx mx ex ez), <- (aligned_R sy my ey ez) in * by lia.
    rewrite <- Rmult_minus_distr_r, <- minus_IZR in *.
    apply binary_normalize_R; [lia |].
    intros Hne. by apply digits_of_lt_abs.
Qed.

(** *** Division *)

Lemma new_location_located nb k q :
  (0 < nb)%Z → (0 ≤ k < nb)%Z →
  located (IZR q + IZR k / IZR nb) q (new_location nb k).
Proof.
  intros Hnb [Hk0 Hk].
  assert (0 < IZR nb) as Hnb' by (by apply IZR_lt).
  set (f := IZR k / IZR nb).
  assert (IZR k = f * IZR nb) as Hf by (subst f; field; lra).
  assert (∀ c : Z, IZR (2 * k + c) = 2 * f * IZR nb + IZR c) as H2k.
  { intros c. rewrite plus_IZR, mult_IZR, Hf. lra. }
  unfold new_location, new_location_even, new_location_odd.
  destruct (Z.eqb_spec k 0) as [-> | Hk'].
  - assert (f = 0) as -> by (subst f; rewrite Rdiv_0_l; done).
    destruct (Z.even nb); simpl; lra.
  - assert (0 < f).
    { subst f. apply Rdiv_lt_0_compat; [apply IZR_lt; lia | done]. }
    assert (f < 1).
    { assert (IZR k < IZR nb) by (by apply IZR_lt). nra. }
    assert ((2 * k < nb)%Z → f < / 2) as Hlt.
    { intros E. apply IZR_lt in E. rewrite mult_IZR, Hf in E.
      apply Rmult_lt_reg_r with (IZR nb); [done | lra]. }
    assert ((nb < 2 * k)%Z → / 2 < f) as Hgt.
    { intros E. apply IZR_lt in E. rewrite mult_IZR, Hf in E.
      apply Rmult_lt_reg_r with (IZR nb); [done | lra]. }
    assert ((2 * k = nb)%Z → f = / 2) as Heq.
    { intros E. apply (f_equal IZR) in E. rewrite mult_IZR, Hf in E.
      apply Rmult_eq_reg_r with (IZR nb); lra. }
    destruct (Z.even nb) eqn:Ev.
    + apply Z.eqb_neq in Hk'. rewrite Hk'.
      destruct (Z.compare_spec (2 * k) nb) as [E | E | E]; simpl.
      * specialize (Heq E). lra.
      * specialize (Hlt E). lra.
      * specialize (Hgt E). lra.
    + assert (2 * k ≠ nb)%Z as Hodd.
      { intros <-. by rewrite Z.even_mul in Ev. }
      apply Z.eqb_neq in Hk'. rewrite Hk'.
      destruct (Z.compare_spec (2 * k + 1) nb) as [E | E | E]; simpl.
      * specialize (Hlt ltac:(lia)). lra.
      * specialize (Hlt ltac:(lia)). lra.
      * specialize (Hgt ltac:(lia)). lra.
Qed.

Lemma SFdiv_core_spec mx ex my ey :
  let X := IZR (Z.pos mx) * pow2 ex / (IZR (Z.pos my) * pow2 ey) in
  let G := fexp prec emax (Zdigits2 (Z.pos mx) + ex - (Zdigits2 (Z.pos my) + ey)) in
  ∃ q e' l,
    SFdiv_core_binary prec emax (Z.pos mx) ex (Z.pos my) ey = (q, e', l) ∧
    (0 ≤ q)%Z ∧ (e' ≤ G)%Z ∧ located (X / pow2 e') q l ∧
    ((-1074 < e')%Z → (53 ≤ Zdigits2 q)%Z).
Proof.
  intros X G. unfold SFdiv_core_binary. cbv zeta. change IntDef.Z.min with Z.min.
  fold G. set (e' := Z.min G (ex - ey)). set (s := (ex - ey - e')%Z).
  assert (0 ≤ s)%Z as Hs by (subst s e'; lia).
  set (m' := match s with Z.pos _ => Z.shiftl (Z.pos mx) s | 0%Z => Z.pos mx | Z.neg _ => 0%Z end).
  assert (m' = Z.shiftl (Z.pos mx) s) as Hm'.
  { subst m'. destruct s; [by rewrite Z.shiftl_0_r | done | lia]. }
  clearbody m'.
  assert (0 < m')%Z as Hm'pos.
  { rewrite Hm', Z.shiftl_mul_pow2 by done. apply Z.mul_pos_pos; [done |]. by apply Z.pow_pos_nonneg. }
  pose proof (Z.div_eucl_eq m' (Z.pos my) ltac:(done)) as Heq.
  pose proof (Z.mod_pos_bound m' (Z.pos my) ltac:(done)) as Hr.
  pose proof (Z.div_pos m' (Z.pos my) ltac:(lia) ltac:(done)) as Hq.
  unfold Z.div, Z.modulo in Hr, Hq.
  destruct (Z.div_eucl m' (Z.pos my)) as [q r].
  exists q, e', (new_location (Z.pos my) r). split_and!; [done | done | subst e'; lia | |].
  - assert (X / pow2 e' = IZR q + IZR r / IZR (Z.pos my)) as ->; [| by apply new_location_located].
    pose proof (IZR_pos_gt0 my). pose proof (pow2_pos ey). pose proof (pow2_pos e').
    assert (IZR m' = IZR (Z.pos my) * IZR q + IZR r) as Hm'R by (by rewrite Heq, plus_IZR, mult_IZR).
    rewrite Hm', IZR_shiftl in Hm'R by done.
    subst X.
    assert (pow2 ex = pow2 s * pow2 e' * pow2 ey) as ->.
    { rewrite <- !pow2_add. f_equal. subst s. lia. }
    field_simplify_eq; [| lra]. nra.
  - intros He'.
    assert (e' ≤ Zdigits2 (Z.pos mx) + ex - (Zdigits2 (Z.pos my) + ey) - 53)%Z as He''.
    { subst e' G. rewrite fexp_eq in *. lia. }
    assert (Zdigits2 m' = Zdigits2 (Z.pos mx) + s)%Z as Hdm by (rewrite Hm'; by apply Zdigits2_shiftl).
    pose proof (Zdigits2_pos (Z.pos my) ltac:(done)) as Hd2.
    pose proof (Zdigits2_least m' (52 + Zdigits2 (Z.pos my)) Hm'pos ltac:(lia) ltac:(subst s; lia)) as Hlow.
    pose proof (Zdigits2_bound (Z.pos my) (Zdigits2 (Z.pos my)) ltac:(done) ltac:(lia)) as Hup.
    rewrite Z.pow_add_r in Hlow by lia.
    assert (2 ^ 52 ≤ q)%Z as Hq52.
    { assert (0 < 2 ^ Zdigits2 (Z.pos my))%Z by (apply Z.pow_pos_nonneg; lia). nia. }
    assert (0 < q)%Z by lia.
    rewrite Zdigits2_log2 by done.
    pose proof (Z.log2_le_mono _ _ Hq52) as Hl. rewrite Z.log2_pow2 in Hl by lia. lia.
Qed.

Lemma SFdiv_R x sy my ey :
  let y := S754_finite sy my ey in
  SFfinite x → Rabs (SF2R x / SF2R y) < pow2 900 →
  SFfinite (SFdiv prec emax x y) ∧
  Rabs (SF2R (SFdiv prec emax x y) - SF2R x / SF2R y)
    <= Rmax (u64 * Rabs (SF2R x / SF2R y)) (pow2 (-1075)).
Proof.
  intros y Hx Hb.
  assert (0 <= Rmax (u64 * Rabs (SF2R x / SF2R y)) (pow2 (-1075))) as Hpos.
  { etrans; [| apply Rmax_r]. pose proof (pow2_pos (-1075)). lra. }
  destruct x as [sx | | | sx mx ex]; try done.
  { simpl in *. split; [done |]. rewrite Rdiv_0_l, Rminus_diag, Rabs_R0 in *. exact Hpos. }
  clear Hpos Hx. subst y. cbn [SFdiv].
  destruct (SFdiv_core_spec mx ex my ey) as (q & e' & l & Hcore & Hq & HeG & Hloc & Hdig).
  cbv zeta in HeG, Hloc. rewrite Hcore.
  set (X := IZR (Z.pos mx) * pow2 ex / (IZR (Z.pos my) * pow2 ey)) in *.
  pose proof (IZR_pos_gt0 mx) as Hmx. pose proof (IZR_pos_gt0 my) as Hmy.
  pose proof (pow2_pos ex) as Hex. pose proof (pow2_pos ey) as Hey. pose proof (pow2_pos e') as He'.
  assert (0 < X) as HX.
  { subst X. apply Rdiv_lt_0_compat; by apply Rmult_lt_0_compat. }
  assert (SF2R (S754_finite sx mx ex) / SF2R (S754_finite sy my ey)
          = (if xorb sx sy then -1 else 1) * X) as Hquot.
  { subst X. simpl. destruct sx, sy; simpl; field; lra. }
  rewrite Hquot in *. rewrite Rabs_sign in *. rewrite (Rabs_pos_eq X) in * by lra.
  pose proof (located_lower _ _ _ Hloc) as Hlow.
  assert (IZR q * pow2 e' <= X) as Hlow'.
  { apply Rmult_le_reg_r with (/ pow2 e'); [by apply Rinv_0_lt_compat |].
    rewrite Rmult_assoc, Rinv_r by lra. lra. }
  set (dd := (Zdigits2 (Z.pos mx) + ex - (Zdigits2 (Z.pos my) + ey))%Z) in *.
  assert (dd ≤ 900)%Z as Hdd.
  { destruct (digits_bounds (Z.pos mx) ltac:(done)) as [Hlo1 _].
    destruct (digits_bounds (Z.pos my) ltac:(done)) as [_ Hhi2].
    destruct (Z_le_gt_dec dd 900) as [? | Hgt]; [done |]. exfalso.
    assert (pow2 900 <= pow2 (dd - 1)) as H9 by (apply pow2_le; lia).
    assert (pow2 (dd - 1) * (pow2 (Zdigits2 (Z.pos my)) * pow2 ey)
            = pow2 (Zdigits2 (Z.pos mx) - 1) * pow2 ex) as Hsplit.
    { rewrite <- !pow2_add. f_equal. subst dd. lia. }
    assert (pow2 (dd - 1) * (IZR (Z.pos my) * pow2 ey) <= IZR (Z.pos mx) * pow2 ex) as Hcmp.
    { pose proof (pow2_pos (dd - 1)).
      etrans; [| apply Rmult_le_compat_r; [lra | exact Hlo1]].
      rewrite <- Hsplit. apply Rmult_le_compat_l; [lra |].
      apply Rmult_le_compat_r; lra. }
    assert (pow2 (dd - 1) <= X) as HX'.
    { subst X. apply Rmult_le_reg_r with (IZR (Z.pos my) * pow2 ey); [nra |].
      unfold Rdiv. rewrite Rmult_assoc, Rinv_l by nra. lra. }
    lra. }
  rewrite fexp_eq in HeG.
  assert (Zdigits2 q + e' ≤ 900)%Z as Hd.
  { destruct (decide (q = 0)%Z) as [-> | Hq0]; [simpl; lia |].
    apply digits_of_lt; [lia |]. lra. }
  pose proof (binary_round_aux_finite (xorb sx sy) q e' l Hq Hd) as Hfin.
  destruct (binary_round_aux_error (xorb sx sy) q e' l X Hq Hloc Hfin) as (v & Hmag & Herr & _).
  apply SFmagnitude_R in Hmag as [_ ->]. split; [done |].
  replace ((if xorb sx sy then -1 else 1) * v - (if xorb sx sy then -1 else 1) * X)
    with ((if xorb sx sy then -1 else 1) * (v - X)) by lra.
  rewrite Rabs_sign. etrans; [exact Herr |]. rewrite fexp_eq.
  assert (e' ≤ Z.max (Zdigits2 q + e' - 53) (-1074))%Z as HE.
  { destruct (Z_le_gt_dec e' (-1074)) as [? | Hgt]; [lia |]. specialize (Hdig ltac:(lia)). lia. }
  rewrite Z.max_r by done.
  destruct (Z.max_spec (Zdigits2 q + e' - 53) (-1074)) as [[Hlt ->] | [Hge ->]]; [apply Rmax_r |].
  etrans; [| apply Rmax_l].
  assert (0 < q)%Z as Hqpos.
  { destruct (decide (q = 0)%Z) as [-> | ?]; [| lia]. exfalso.
    destruct (Z_le_gt_dec e' (-1074)) as [? | Hgt]; [simpl in Hge; lia |].
    specialize (Hdig ltac:(lia)). simpl in Hdig. lia. }
  destruct (digits_bounds q Hqpos) as [Hlo _].
  assert (pow2 (Zdigits2 q + e' - 53 - 1) = u64 * (pow2 (Zdigits2 q - 1) * pow2 e')) as ->.
  { unfold u64. rewrite <- !pow2_add. f_equal. lia. }
  pose proof (pow2_pos (-53)). unfold u64.
  apply Rmult_le_compat_l; [lra |]. etrans; [| exact Hlow'].
  apply Rmult_le_compat_r; [lra | exact Hlo].
Qed.

(** *** Square root *)

Lemma sqrt_above a y : 0 <= a → a * a < y → a < sqrt y.
Proof.
  intros Ha Hlt. replace a with (sqrt (a * a)) at 1 by (by apply sqrt_square).
  apply sqrt_lt_1_alt. split; [nra | done].
Qed.

Lemma sqrt_below a y : 0 <= a → 0 <= y → y < a * a → sqrt y < a.
Proof.
  intros Ha Hy Hlt. rewrite <- (sqrt_square a) by done.
  apply sqrt_lt_1_alt. split; done.
Qed.

Lemma sqrt_pow2 e : sqrt (pow2 (2 * e)) = pow2 e.
Proof.
  replace (2 * e)%Z with (e + e)%Z by lia. rewrite pow2_add.
  apply sqrt_square. pose proof (pow2_pos e). lra.
Qed.

Lemma SFsqrt_core_spec m e :
  (-1074 ≤ e)%Z →
  let X := sqrt (IZR (Z.pos m) * pow2 e) in
  ∃ q e' l,
    SFsqrt_core_binary prec emax (Z.pos m) e = (q, e', l) ∧
    (0 < q)%Z ∧ located (X / pow2 e') q l ∧ (53 ≤ Zdigits2 q)%Z ∧ (-1074 < e')%Z.
Proof.
  intros He X. unfold SFsqrt_core_binary. change IntDef.Z.min with Z.min.
  set (d := Zdigits2 (Z.pos m)) in *.
  assert (1 ≤ d)%Z as Hd by (subst d; by apply Zdigits2_pos).
  set (e' := Z.min (fexp prec emax (Z.div2 (d + e + 1))) (Z.div2 e)).
  assert (e' = Z.min (Z.max ((d + e + 1) / 2 - 53) (-1074)) (e / 2))%Z as He'
    by (subst e'; by rewrite fexp_eq, !Z.div2_div).
  clearbody e'.
  pose proof (Z.mul_div_le e 2 ltac:(done)) as He2.
  pose proof (Z.mul_div_le (d + e + 1) 2 ltac:(done)) as Hde2.
  pose proof (Z.mul_succ_div_gt e 2 ltac:(done)) as He3.
  pose proof (Z.mul_succ_div_gt (d + e + 1) 2 ltac:(done)) as Hde3.
  set (s := (e - 2 * e')%Z).
  assert (0 ≤ s)%Z as Hs by (subst s; lia).
  set (m' := match s with Z.pos _ => Z.shiftl (Z.pos m) s | 0%Z => Z.pos m | Z.neg _ => 0%Z end).
  assert (m' = Z.shiftl (Z.pos m) s) as Hm'.
  { subst m'. destruct s; [by rewrite Z.shiftl_0_r | done | lia]. }
  clearbody m'.
  assert (0 < m')%Z as Hm'pos.
  { rewrite Hm', Z.shiftl_mul_pow2 by done. apply Z.mul_pos_pos; [done |]. by apply Z.pow_pos_nonneg. }
  pose proof (Z.sqrtrem_spec m' ltac:(lia)) as Hspec.
  pose proof (Z.sqrtrem_sqrt m') as Hsq.
  pose proof (Zdigits2_sqrt m' Hm'pos) as Hdq.
  pose proof (Z.sqrt_pos m') as Hqpos.
  destruct (Z.sqrtrem m') as [q r]. simpl in Hsq. subst q.
  destruct Hspec as [Hm'eq [Hr0 Hr2]].
  set (q := Z.sqrt m') in *.
  assert (0 < q)%Z as Hq by (subst q; lia).
  assert (Zdigits2 m' = d + s)%Z as Hdm by (rewrite Hm'; by apply Zdigits2_shiftl).
  eexists q, e', _. split; [reflexivity |]. split_and!; [done | | | lia].
  - assert (IZR m' = IZR q * IZR q + IZR r) as HmR by (by rewrite Hm'eq, plus_IZR, mult_IZR).
    assert (0 < IZR q) as HqR by (by apply IZR_lt).
    assert (0 <= IZR r) as HrR by (by apply IZR_le).
    assert (X / pow2 e' = sqrt (IZR m')) as ->.
    { subst X. pose proof (pow2_pos e').
      assert (IZR (Z.pos m) * pow2 e = IZR m' * pow2 (2 * e')) as ->.
      { rewrite Hm', IZR_shiftl by done. rewrite Rmult_assoc, <- pow2_add. do 2 f_equal. subst s. lia. }
      rewrite sqrt_mult_alt, sqrt_pow2 by (apply IZR_le; lia). field. lra. }
    destruct (Z.eqb_spec r 0) as [-> | Hr].
    + simpl. rewrite HmR. replace (IZR q * IZR q + 0) with (IZR q * IZR q) by (simpl; lra).
      apply sqrt_square. lra.
    + assert (1 <= IZR r) as Hr1 by (apply IZR_le; lia).
      assert (0 <= IZR m') as Hm'R by (apply IZR_le; lia).
      assert (sqrt (IZR m') < IZR q + 1) as Hup.
      { apply sqrt_below; [lra | done |]. assert (IZR r <= 2 * IZR q); [| nra].
        rewrite <- mult_IZR. by apply IZR_le. }
      assert (IZR q < sqrt (IZR m')) as Hdown by (apply sqrt_above; [lra | nra]).
      destruct (Z.leb_spec r q) as [Hle | Hgt]; simpl.
      * split; [done |]. apply sqrt_below; [lra | done |]. apply IZR_le in Hle. nra.
      * split; [| done]. apply sqrt_above; [lra |].
        assert (IZR q + 1 <= IZR r) by (rewrite <- plus_IZR; apply IZR_le; lia). nra.
  - assert (105 ≤ Zdigits2 m')%Z as H105 by (subst s; lia).
    etrans; [| exact Hdq]. apply Z.div_le_lower_bound; lia.
Qed.

Lemma SFsqrt_R m e :
  (-1074 ≤ e)%Z →
  let X := sqrt (IZR (Z.pos m) * pow2 e) in
  X < pow2 900 →
  ∃ v, SFmagnitude (SFsqrt prec emax (S754_finite false m e)) false v ∧
       Rabs (v - X) <= u64 * X.
Proof.
  intros He X Hb. cbn [SFsqrt].
  destruct (SFsqrt_core_spec m e He) as (q & e' & l & Hcore & Hq & Hloc & Hdig & He').
  cbv zeta in Hloc. fold X in Hloc. rewrite Hcore.
  pose proof (pow2_pos e') as He'pos.
  pose proof (located_lower _ _ _ Hloc) as Hlow.
  assert (IZR q * pow2 e' <= X) as Hlow'.
  { apply Rmult_le_reg_r with (/ pow2 e'); [by apply Rinv_0_lt_compat |].
    rewrite Rmult_assoc, Rinv_r by lra. lra. }
  assert (Zdigits2 q + e' ≤ 900)%Z as Hd by (apply digits_of_lt; [done | lra]).
  pose proof (binary_round_aux_finite false q e' l ltac:(lia) Hd) as Hfin.
  destruct (binary_round_aux_error false q e' l X ltac:(lia) Hloc Hfin) as (v & Hmag & Herr & _).
  exists v. split; [done |]. etrans; [exact Herr |]. rewrite fexp_eq.
  replace (Z.max e' (Z.max (Zdigits2 q + e' - 53) (-1074))) with (Zdigits2 q + e' - 53)%Z by lia.
  destruct (digits_bounds q Hq) as [Hlo _].
  assert (pow2 (Zdigits2 q + e' - 53 - 1) = u64 * (pow2 (Zdigits2 q - 1) * pow2 e')) as ->.
  { unfold u64. rewrite <- !pow2_add. f_equal. lia. }
  pose proof (pow2_pos (-53)). unfold u64.
  apply Rmult_le_compat_l; [lra |]. etrans; [| exact Hlow'].
  apply Rmult_le_compat_r; [lra | exact Hlo].
Qed.

(** *** Comparisons *)

Lemma valid_finite_bounds s m e :
  valid_binary (S754_finite s m e) = true →
  (-1074 ≤ e ≤ 971)%Z ∧ (Zdigits2 (Z.pos m) ≤ 53)%Z ∧
  ((-1074 < e)%Z → Zdigits2 (Z.pos m) = 53%Z).
Proof. intros [H1 H2]%valid_finite. lia. Qed.

Lemma SFcompare_pos m1 e1 m2 e2 :
  valid_binary (S754_finite false m1 e1) = true →
  valid_binary (S754_finite false m2 e2) = true →
  ordered (SFcompare (S754_finite false m1 e1) (S754_finite false m2 e2))
          (IZR (Z.pos m1) * pow2 e1) (IZR (Z.pos m2) * pow2 e2).
Proof.
  intros (He1 & Hd1 & Hn1)%valid_finite_bounds (He2 & Hd2 & Hn2)%valid_finite_bounds.
  destruct (digits_bounds (Z.pos m1) ltac:(done)) as [Hlo1 Hhi1].
  destruct (digits_bounds (Z.pos m2) ltac:(done)) as [Hlo2 Hhi2].
  pose proof (pow2_pos e1). pose proof (pow2_pos e2).
  cbn [SFcompare]. destruct (Z.compare_spec e1 e2) as [-> | Hlt | Hgt].
  - change (PosDef.Pos.compare_cont Eq m1 m2) with (Pos.compare m1 m2).
    destruct (Pos.compare_spec m1 m2) as [-> | Hm | Hm]; simpl; [done | |].
    + apply Rmult_lt_compat_r; [done |]. apply IZR_lt. lia.
    + apply Rmult_lt_compat_r; [done |]. apply IZR_lt. lia.
  - simpl. specialize (Hn2 ltac:(lia)). rewrite Hn2 in Hlo2.
    apply Rlt_le_trans with (pow2 (Zdigits2 (Z.pos m1)) * pow2 e1);
      [apply Rmult_lt_compat_r; done |].
    apply Rle_trans with (pow2 (53 - 1) * pow2 e2); [| apply Rmult_le_compat_r; lra].
    rewrite <- !pow2_add. apply pow2_le. lia.
  - simpl. specialize (Hn1 ltac:(lia)). rewrite Hn1 in Hlo1.
    apply Rlt_le_trans with (pow2 (Zdigits2 (Z.pos m2)) * pow2 e2);
      [apply Rmult_lt_compat_r; done |].
    apply Rle_trans with (pow2 (53 - 1) * pow2 e1); [| apply Rmult_le_compat_r; lra].
    rewrite <- !pow2_add. apply pow2_le. lia.
Qed.

Lemma ordered_opp c a b : ordered (Some c) a b → ordered (Some (CompOpp c)) (- a) (- b).
Proof. destruct c; simpl; lra. Qed.

Lemma SFcompare_R f1 f2 :
  valid_binary f1 = true → valid_binary f2 = true → SFfinite f1 → SFfinite f2 →
  ordered (SFcompare f1 f2) (SF2R f1) (SF2R f2).
Proof.
  intros V1 V2 F1 F2.
  destruct f1 as [s1 | | | s1 m1 e1], f2 as [s2 | | | s2 m2 e2]; try done.
  - simpl. pose proof (IZR_pos_gt0 m2). pose proof (pow2_pos e2). destruct s2; simpl; nra.
  - simpl. pose proof (IZR_pos_gt0 m1). pose proof (pow2_pos e1). destruct s1; simpl; nra.
  - pose proof (IZR_pos_gt0 m1). pose proof (pow2_pos e1).
    pose proof (IZR_pos_gt0 m2). pose proof (pow2_pos e2).
    pose proof (SFcompare_pos m1 e1 m2 e2 V1 V2) as Hpos.
    destruct s1, s2.
    + cbn [SFcompare] in *. simpl SF2R.
      replace (-1 * IZR (Z.pos m1) * pow2 e1) with (- (IZR (Z.pos m1) * pow2 e1)) by lra.
      replace (-1 * IZR (Z.pos m2) * pow2 e2) with (- (IZR (Z.pos m2) * pow2 e2)) by lra.
      destruct (e1 ?= e2)%Z; [| by apply (ordered_opp Lt) | by apply (ordered_opp Gt)].
      destruct (PosDef.Pos.compare_cont Eq m1 m2); simpl in *; lra.
    + simpl. nra.
    + simpl. nra.
    + simpl SF2R. by rewrite !Rmult_1_l.
Qed.

Lemma SFltb_R f1 f2 :
  valid_binary f1 = true → valid_binary f2 = true → SFfinite f1 → SFfinite f2 →
  SFltb f1 f2 = true ↔ SF2R f1 < SF2R f2.
Proof.
  intros V1 V2 F1 F2. pose proof (SFcompare_R f1 f2 V1 V2 F1 F2) as H. unfold SFltb.
  destruct (SFcompare f1 f2) as [[] |]; simpl in H; split; try done; lra.
Qed.

Lemma SFleb_R f1 f2 :
  valid_binary f1 = true → valid_binary f2 = true → SFfinite f1 → SFfinite f2 →
  SFleb f1 f2 = true ↔ SF2R f1 <= SF2R f2.
Proof.
  intros V1 V2 F1 F2. pose proof (SFcompare_R f1 f2 V1 V2 F1 F2) as H. unfold SFleb.
  destruct (SFcompare f1 f2) as [[] |]; simpl in H; split; try done; lra.
Qed.

Lemma SFeqb_R f1 f2 :
  valid_binary f1 = true → valid_binary f2 = true → SFfinite f1 → SFfinite f2 →
  SFeqb f1 f2 = true ↔ SF2R f1 = SF2R f2.
Proof.
  intros V1 V2 F1 F2. pose proof (SFcompare_R f1 f2 V1 V2 F1 F2) as H. unfold SFeqb.
  destruct (SFcompare f1 f2) as [[] |]; simpl in H; split; try done; lra.
Qed.

End Operations.
(** ** The operations on numbers *)

Section PrimOps.

Local Open Scope R_scope.

Lemma isFinite_regular x : isFinite x → SFregular (Prim2SF x).
Proof.
  unfold isFinite. pose proof (Prim2SF_valid x) as V.
  destruct (Prim2SF x) as [| | | s m e]; try done. intros _.
  apply valid_finite_bounds in V. simpl. lia.
Qed.

Lemma pow2_900_big : 1024 <= pow2 900.
Proof.
  apply Rle_trans with (pow2 10); [| apply pow2_le; lia].
  rewrite pow2_IZR by lia. apply IZR_le. by vm_compute.
Qed.

Lemma add_R x y :
  isFinite x → isFinite y → Rabs (toR x + toR y) < pow2 900 →
  isFinite (x + y)%float ∧
  Rabs (toR (x + y)%float - (toR x + toR y)) <= u64 * Rabs (toR x + toR y).
Proof.
  intros Hx%isFinite_regular Hy%isFinite_regular Hb.
  unfold isFinite, toR in *. rewrite FloatAxioms.add_spec. by apply SFadd_R.
Qed.

Lemma sub_R x y :
  isFinite x → isFinite y → Rabs (toR x - toR y) < pow2 900 →
  isFinite (x - y)%float ∧
  Rabs (toR (x - y)%float - (toR x - toR y)) <= u64 * Rabs (toR x - toR y).
Proof.
  intros Hx%isFinite_regular Hy%isFinite_regular Hb.
  unfold isFinite, toR in *. rewrite FloatAxioms.sub_spec. by apply SFsub_R.
Qed.

Lemma mul_R x y :
  isFinite x → isFinite y → Rabs (toR x * toR y) < pow2 900 →
  isFinite (x * y)%float ∧
  Rabs (toR (x * y)%float - toR x * toR y) <= Rmax (u64 * Rabs (toR x * toR y)) (pow2 (-1075)).
Proof.
  intros Hx Hy Hb. unfold isFinite, toR in *. rewrite FloatAxioms.mul_spec. by apply SFmul_R.
Qed.

Lemma div_R x y :
  isFinite x → isFinite y → toR y ≠ 0 → Rabs (toR x / toR y) < pow2 900 →
  isFinite (x / y)%float ∧
  Rabs (toR (x / y)%float - toR x / toR y) <= Rmax (u64 * Rabs (toR x / toR y)) (pow2 (-1075)).
Proof.
  intros Hx Hy Hy0 Hb. unfold isFinite, toR in *. rewrite FloatAxioms.div_spec.
  destruct (Prim2SF y) as [| | | sy my ey] eqn:Ey; try done.
  by apply SFdiv_R.
Qed.

Lemma sqrt_R x :
  isFinite x → 0 < toR x → sqrt (toR x) < pow2 900 →
  isFinite (PrimFloat.sqrt x) ∧ 0 <= toR (PrimFloat.sqrt x) ∧
  Rabs (toR (PrimFloat.sqrt x) - sqrt (toR x)) <= u64 * sqrt (toR x).
Proof.
  intros Hx Hpos Hb. pose proof (isFinite_regular x Hx) as Hr.
  unfold isFinite, toR in *. rewrite FloatAxioms.sqrt_spec.
  destruct (Prim2SF x) as [| | | s m e] eqn:Ex; try done; [simpl in Hpos; lra |].
  assert (s = false) as ->.
  { destruct s; [| done]. simpl in Hpos. pose proof (IZR_pos_gt0 m). pose proof (pow2_pos e). nra. }
  unfold SF64sqrt.
  change (SF2R (S754_finite false m e)) with (1 * IZR (Z.pos m) * pow2 e) in *.
  rewrite Rmult_1_l in *. simpl in Hr.
  destruct (SFsqrt_R m e Hr Hb) as (v & Hmag & Herr).
  assert (0 <= v) as Hv.
  { destruct (SFsqrt prec emax (S754_finite false m e)) as [| | | s' m' e']; try done.
    - destruct Hmag as [_ ->]. lra.
    - destruct Hmag as [_ ->]. pose proof (IZR_pos_gt0 m'). pose proof (pow2_pos e'). nra. }
  apply SFmagnitude_R in Hmag as [Hfin ->]. rewrite Rmult_1_l. done.
Qed.

Lemma abs_R x : isFinite x → isFinite (PrimFloat.abs x) ∧ toR (PrimFloat.abs x) = Rabs (toR x).
Proof.
  unfold isFinite, toR. rewrite FloatAxioms.abs_spec.
  destruct (Prim2SF x) as [| | | s m e]; try done; intros _; (split; [done |]); simpl.
  - by rewrite Rabs_R0.
  - pose proof (IZR_pos_gt0 m). pose proof (pow2_pos e).
    destruct s.
    + replace (-1 * IZR (Z.pos m) * pow2 e) with (- (IZR (Z.pos m) * pow2 e)) by lra.
      rewrite Rabs_Ropp, Rabs_pos_eq by nra. lra.
    + rewrite Rabs_pos_eq by nra. lra.
Qed.

Lemma ltb_R x y : isFinite x → isFinite y → PrimFloat.ltb x y = true ↔ toR x < toR y.
Proof.
  intros Hx Hy. rewrite FloatAxioms.ltb_spec. by apply SFltb_R; try apply Prim2SF_valid.
Qed.

Lemma leb_R x y : isFinite x → isFinite y → PrimFloat.leb x y = true ↔ toR x <= toR y.
Proof.
  intros Hx Hy. rewrite FloatAxioms.leb_spec. by apply SFleb_R; try apply Prim2SF_valid.
Qed.

Lemma eqb_R x y : isFinite x → isFinite y → PrimFloat.eqb x y = true ↔ toR x = toR y.
Proof.
  intros Hx Hy. rewrite FloatAxioms.eqb_spec. by apply SFeqb_R; try apply Prim2SF_valid.
Qed.

(** Every finite number is a multiple of [2^-1074]. *)
Lemma toR_grid x : isFinite x → ∃ k : Z, toR x = IZR k * pow2 (-1074).
Proof.
  intros Hx. pose proof (isFinite_regular x Hx) as Hr. unfold isFinite, toR in *.
  destruct (Prim2SF x) as [| | | s m e]; try done.
  - exists 0%Z. simpl. lra.
  - simpl in Hr. exists ((if s then -1 else 1) * Z.pos m * 2 ^ (e + 1074))%Z.
    rewrite !mult_IZR, <- pow2_IZR by lia. simpl SF2R.
    assert (pow2 e = pow2 (e + 1074) * pow2 (-1074)) as -> by (rewrite <- pow2_add; f_equal; lia).
    destruct s; simpl; lra.
Qed.

End PrimOps.

(** ** Rounded operations on numbers that are not negative *)

Section Rounded.

Local Open Scope R_scope.

Lemma Rabs_le_both x a : Rabs x <= a → - a <= x <= a.
Proof. unfold Rabs. destruct (Rcase_abs x); lra. Qed.

Lemma pow2_neg k : (0 ≤ k)%Z → pow2 (- k) = / IZR (2 ^ k).
Proof. intros Hk. by rewrite pow2_opp, pow2_IZR. Qed.

Lemma u64_val : u64 = / 9007199254740992.
Proof. exact (pow2_neg 53 ltac:(lia)). Qed.

Lemma tiny_small : pow2 (-1075) <= / 1267650600228229401496703205376.
Proof.
  transitivity (pow2 (-100)); [apply pow2_le; lia |].
  apply Req_le. exact (pow2_neg 100 ltac:(lia)).
Qed.

Lemma tiny_double : pow2 (-1074) = 2 * pow2 (-1075).
Proof. rewrite <- pow2_succ. f_equal. Qed.

Lemma toR_zero : toR 0%float = 0.
Proof. reflexivity. Qed.

Lemma toR_one : toR 1%float = 1.
Proof.
  unfold toR. change (Prim2SF 1) with (S754_finite false 4503599627370496 (-52)).
  simpl. rewrite (pow2_neg 52 ltac:(lia) : pow2 (-52) = / 4503599627370496). lra.
Qed.

Lemma toR_two : toR 2%float = 2.
Proof.
  unfold toR. change (Prim2SF 2) with (S754_finite false 4503599627370496 (-51)).
  simpl. rewrite (pow2_neg 51 ltac:(lia) : pow2 (-51) = / 2251799813685248). lra.
Qed.

Lemma toR_half : toR 0.5%float = / 2.
Proof.
  unfold toR. change (Prim2SF 0.5) with (S754_finite false 4503599627370496 (-53)).
  simpl. rewrite (pow2_neg 53 ltac:(lia) : pow2 (-53) = / 9007199254740992). lra.
Qed.

Lemma isFinite_zero : isFinite 0%float.
Proof. done. Qed.

Lemma isFinite_one : isFinite 1%float.
Proof. done. Qed.

Lemma isFinite_two : isFinite 2%float.
Proof. done. Qed.

Lemma isFinite_half : isFinite 0.5%float.
Proof. done. Qed.

(** A finite number above [-2^-1074] is not negative, and two finite numbers
    less than [2^-1074] apart are equal. *)
Lemma grid_nonneg x : isFinite x → - pow2 (-1074) < toR x → 0 <= toR x.
Proof.
  intros Hx Hlow. destruct (toR_grid x Hx) as [k Hk']. rewrite Hk' in *.
  pose proof (pow2_pos (-1074)) as Hp.
  assert (-1 < IZR k) as Hk by (apply (Rmult_lt_reg_r (pow2 (-1074))); lra).
  apply lt_IZR in Hk. assert (0 <= IZR k) by (apply IZR_le; lia). nra.
Qed.

Lemma grid_eq x y :
  isFinite x → isFinite y → Rabs (toR x - toR y) < pow2 (-1074) → toR x = toR y.
Proof.
  intros Hx Hy Hd. destruct (toR_grid x Hx) as [k Hk]. destruct (toR_grid y Hy) as [j Hj].
  rewrite Hk, Hj in *. pose proof (pow2_pos (-1074)) as Hp.
  apply Rabs_def2 in Hd as [Hd1 Hd2].
  assert (IZR (k - j) < 1) as H1
    by (rewrite minus_IZR; apply (Rmult_lt_reg_r (pow2 (-1074))); lra).
  assert (-1 < IZR (k - j)) as H2
    by (rewrite minus_IZR; apply (Rmult_lt_reg_r (pow2 (-1074))); lra).
  apply lt_IZR in H1, H2. assert (k = j) as -> by lia. done.
Qed.

(** If two finite numbers differ, they are at least [2^-1074] apart. *)
Lemma grid_apart x y :
  isFinite x → isFinite y → Rabs (toR x - toR y) <= pow2 (-1074) ∨ pow2 (-1074) * 2 <= Rabs (toR x - toR y).
Proof.
  intros Hx Hy. destruct (toR_grid x Hx) as [k Hk]. destruct (toR_grid y Hy) as [j Hj].
  rewrite Hk, Hj. pose proof (pow2_pos (-1074)) as Hp.
  replace (IZR k * pow2 (-1074) - IZR j * pow2 (-1074)) with (IZR (k - j) * pow2 (-1074))
    by (rewrite minus_IZR; lra).
  rewrite Rabs_mult, (Rabs_pos_eq (pow2 _)) by lra. rewrite <- abs_IZR.
  destruct (Z_le_gt_dec (Z.abs (k - j)) 1) as [H | H].
  - left. apply IZR_le in H. nra.
  - right. assert (2 ≤ Z.abs (k - j))%Z as H2 by lia. apply IZR_le in H2. nra.
Qed.

Lemma add_nonneg_R x y :
  isFinite x → isFinite y → 0 <= toR x → 0 <= toR y → toR x + toR y < pow2 900 →
  isFinite (x + y)%float ∧
  (1 - u64) * (toR x + toR y) <= toR (x + y)%float <= (1 + u64) * (toR x + toR y).
Proof.
  intros Hx Hy H0x H0y Hb.
  destruct (add_R x y Hx Hy) as [Hf He]; [by rewrite Rabs_pos_eq by lra |].
  split; [done |]. rewrite (Rabs_pos_eq (toR x + toR y)) in He by lra.
  apply Rabs_le_both in He. lra.
Qed.

Lemma mul_nonneg_R x y :
  isFinite x → isFinite y → 0 <= toR x → 0 <= toR y → toR x * toR y < pow2 900 →
  isFinite (x * y)%float ∧ 0 <= toR (x * y)%float ∧
  Rabs (toR (x * y)%float - toR x * toR y) <= Rmax (u64 * (toR x * toR y)) (pow2 (-1075)).
Proof.
  intros Hx Hy H0x H0y Hb. assert (0 <= toR x * toR y) as Hp by nra.
  destruct (mul_R x y Hx Hy) as [Hf He]; [by rewrite Rabs_pos_eq |].
  rewrite (Rabs_pos_eq (toR x * toR y)) in He by done. split_and!; [done | | done].
  apply grid_nonneg; [done |]. rewrite tiny_double. pose proof (pow2_pos (-1075)).
  apply Rabs_le_both in He. pose proof u64_val.
  revert He. apply Rmax_case; intros; [| lra].
  destruct (Rle_lt_dec 0 (toR (x * y)%float)); [lra |]. nra.
Qed.

Lemma grid_below x k :
  isFinite x → (-1074 ≤ k)%Z → toR x < pow2 k → toR x <= pow2 k - pow2 (-1074).
Proof.
  intros Hx Hk Hlt. destruct (toR_grid x Hx) as [j Hj]. rewrite Hj in *.
  pose proof (pow2_pos (-1074)) as Hp.
  assert (pow2 k = IZR (2 ^ (k + 1074)) * pow2 (-1074)) as Hpk.
  { rewrite <- pow2_IZR, <- pow2_add by lia. f_equal. lia. }
  rewrite Hpk in *.
  assert (IZR j < IZR (2 ^ (k + 1074))) as Hlt' by (apply (Rmult_lt_reg_r (pow2 (-1074))); lra).
  apply lt_IZR in Hlt'. assert (j ≤ 2 ^ (k + 1074) - 1)%Z as Hle by lia.
  apply IZR_le in Hle. rewrite minus_IZR in Hle. nra.
Qed.

Lemma inUnitInterval_R x : inUnitInterval x = true → isFinite x ∧ 0 <= toR x <= 1.
Proof.
  unfold inUnitInterval. intros [H0 H1]%andb_true_iff.
  assert (isFinite x) as Hx.
  { unfold isFinite. rewrite FloatAxioms.leb_spec in H0, H1.
    change (Prim2SF 0) with (S754_zero false) in H0.
    change (Prim2SF 1) with (S754_finite false 4503599627370496 (-52)) in H1.
    by destruct (Prim2SF x) as [| [] | |]. }
  split; [done |].
  apply leb_R in H0, H1; try done. by rewrite toR_zero in H0; rewrite toR_one in H1.
Qed.

Lemma validScores_R a :
  validScores a = true →
  Forall (λ x, isFinite x ∧ 0 <= toR x <= 1) (scoreVec a).
Proof.
  unfold validScores. rewrite forallb_forall, Forall_forall.
  intros H x Hx. apply inUnitInterval_R, H. by apply list_elem_of_In.
Qed.

Lemma square_unit_R x :
  isFinite x → 0 <= toR x <= 1 →
  isFinite (x * x)%float ∧ 0 <= toR (x * x)%float <= 2.
Proof.
  intros Hx [H0 H1]. pose proof pow2_900_big. pose proof tiny_small. pose proof u64_val as Hu.
  assert (0 <= toR x * toR x <= 1) as Hp by nra.
  destruct (mul_nonneg_R x x Hx Hx H0 H0) as (Hf & Hn & He); [lra |].
  split_and!; [done | done |]. apply Rabs_le_both in He. revert He. rewrite Hu.
  apply Rmax_case; intros; lra.
Qed.

Lemma product_unit_R x y :
  isFinite x → 0 <= toR x <= 1 → isFinite y → 0 <= toR y <= 1 →
  isFinite (x * y)%float ∧ 0 <= toR (x * y)%float <= 2.
Proof.
  intros Hx [H0 H1] Hy [H0' H1']. pose proof pow2_900_big. pose proof tiny_small.
  pose proof u64_val as Hu.
  assert (0 <= toR x * toR y <= 1) as Hp by nra.
  destruct (mul_nonneg_R x y Hx Hy H0 H0') as (Hf & Hn & He); [lra |].
  split_and!; [done | done |]. apply Rabs_le_both in He. revert He. rewrite Hu.
  apply Rmax_case; intros; lra.
Qed.

Lemma sum_step_R s p K :
  isFinite s → isFinite p → 0 <= toR s <= K → 0 <= toR p <= 2 → K <= 100 →
  isFinite (s + p)%float ∧ 0 <= toR (s + p)%float <= K + 2.1.
Proof.
  intros Hs Hp [H0 H1] [H0' H1'] HK. pose proof pow2_900_big. pose proof u64_val as Hu.
  destruct (add_nonneg_R s p Hs Hp H0 H0') as (Hf & He); [lra |].
  split; [done |]. rewrite Hu in He. lra.
Qed.

Lemma sumSquares_R a :
  validScores a = true →
  isFinite (sumSquares (scoreVec a)) ∧ 0 <= toR (sumSquares (scoreVec a)) <= 11.
Proof.
  intros Ha%validScores_R. destruct a as [a0 a1 a2 a3 a4]. unfold scoreVec in *. cbn [moody
    scientific optimistic philosophical adventurous] in *.
  apply Forall_cons in Ha as [[F0 B0] Ha]. apply Forall_cons in Ha as [[F1 B1] Ha].
  apply Forall_cons in Ha as [[F2 B2] Ha]. apply Forall_cons in Ha as [[F3 B3] Ha].
  apply Forall_cons in Ha as [[F4 B4] _].
  unfold sumSquares, Js.reduce. cbn [Js.reduce_from].
  destruct (square_unit_R a0 F0 B0) as [G0 C0]. destruct (square_unit_R a1 F1 B1) as [G1 C1].
  destruct (square_unit_R a2 F2 B2) as [G2 C2]. destruct (square_unit_R a3 F3 B3) as [G3 C3].
  destruct (square_unit_R a4 F4 B4) as [G4 C4].
  destruct (sum_step_R 0%float _ 0 isFinite_zero G0) as [S0 D0]; [rewrite toR_zero; lra | done | lra |].
  destruct (sum_step_R _ _ _ S0 G1 D0 C1) as [S1 D1]; [lra |].
  destruct (sum_step_R _ _ _ S1 G2 D1 C2) as [S2 D2]; [lra |].
  destruct (sum_step_R _ _ _ S2 G3 D2 C3) as [S3 D3]; [lra |].
  destruct (sum_step_R _ _ _ S3 G4 D3 C4) as [S4 D4]; [lra |].
  split; [done |]. lra.
Qed.

Lemma sqrt_lt_4 x : 0 <= x <= 11 → sqrt x < 4.
Proof.
  intros Hx. rewrite <- (sqrt_square 4) by lra. apply sqrt_lt_1_alt. lra.
Qed.

(** A square root that is not zero is the root of a positive number. *)
Lemma sqrt_nonzero x :
  isFinite x → 0 <= toR x → Js.strict_eq (PrimFloat.sqrt x) 0%float = false → 0 < toR x.
Proof.
  unfold Js.strict_eq, isFinite, toR. rewrite FloatAxioms.eqb_spec, FloatAxioms.sqrt_spec.
  change (Prim2SF 0) with (S754_zero false).
  destruct (Prim2SF x) as [[] | | | s m e]; try done.
  simpl SF2R. intros _ H0 _. pose proof (IZR_pos_gt0 m). pose proof (pow2_pos e).
  destruct s; nra.
Qed.

(** The rounded square of the rounded root of [S] is within [5 u] of [S]. *)
Lemma square_of_root_R S :
  isFinite S → 0 < toR S <= 11 →
  isFinite (PrimFloat.sqrt S * PrimFloat.sqrt S)%float ∧
  Rabs (toR (PrimFloat.sqrt S * PrimFloat.sqrt S)%float - toR S) <= 5 * u64 * toR S.
Proof.
  intros HS [Hpos Hle]. pose proof pow2_900_big as Hbig. pose proof u64_val as Hu.
  pose proof (pow2_pos (-1075)) as Ht0.
  destruct (sqrt_R S HS Hpos) as (Hm & Hm0 & Hme); [pose proof (sqrt_lt_4 (toR S)); lra |].
  set (m := PrimFloat.sqrt S) in *. set (r := sqrt (toR S)) in *.
  assert (0 < r) as Hr by (by apply sqrt_lt_R0).
  assert (r * r = toR S) as Hrr by (apply sqrt_sqrt; lra).
  apply Rabs_le_both in Hme. rewrite Hu in Hme.
  assert (r < 4) as Hr4 by (apply sqrt_lt_4; lra).
  set (u := / 9007199254740992) in *.
  assert (0 < u < / 1000) as Hu' by (unfold u; lra).
  assert ((1 - u) * r <= toR m <= (1 + u) * r) as Hmr by lra.
  assert ((1 - u) * (1 - u) * toR S <= toR m * toR m <= (1 + u) * (1 + u) * toR S) as HP.
  { rewrite <- Hrr. split.
    - replace ((1 - u) * (1 - u) * (r * r)) with (((1 - u) * r) * ((1 - u) * r)) by ring.
      apply Rmult_le_compat; nra.
    - replace ((1 + u) * (1 + u) * (r * r)) with (((1 + u) * r) * ((1 + u) * r)) by ring.
      apply Rmult_le_compat; nra. }
  destruct (mul_nonneg_R m m Hm Hm Hm0 Hm0) as (HD & HD0 & HDe); [nra |].
  split; [done |]. fold u.
  set (P := toR m * toR m) in *. set (D := toR (m * m)%float) in *.
  apply Rabs_le_both in HDe. rewrite Hu in HDe. fold u in HDe.
  revert HDe. apply Rmax_case_strong; intros Hcase HDe.
  - apply Rabs_le. nra.
  - (* the product is subnormal *)
    assert (pow2 (-1023) = 4503599627370496 * pow2 (-1075)) as H1023.
    { change 4503599627370496 with (IZR (2 ^ 52)). rewrite <- pow2_IZR, <- pow2_add by lia. done. }
    destruct (Rle_lt_dec (pow2 (-1023)) (toR S)) as [Hbig' | Hsmall].
    + apply Rabs_le. unfold u in *. nra.
    + apply (grid_below S (-1023) HS ltac:(lia)) in Hsmall. rewrite tiny_double in Hsmall.
      assert (D = toR S) as ->.
      { apply grid_eq; [done | done |]. rewrite tiny_double. fold D.
        apply Rabs_def1; unfold u in *; nra. }
      rewrite Rminus_diag, Rabs_R0. nra.
Qed.

(** Dividing [S] by a number within [5 u] of it gives a number within
    [2^-50] of 1. *)
Lemma div_near_one S D :
  isFinite S → isFinite D → pow2 (-1074) <= toR S →
  Rabs (toR D - toR S) <= 5 * u64 * toR S →
  isFinite (S / D)%float ∧ Rabs (toR (S / D)%float - 1) <= pow2 (-50).
Proof.
  intros HS HD Hpos He. pose proof pow2_900_big as Hbig. pose proof u64_val as Hu.
  pose proof (pow2_pos (-1074)) as Hg. pose proof tiny_small as Ht.
  pose proof (pow2_pos (-1075)) as Ht0.
  rewrite (pow2_neg 50 ltac:(lia) : pow2 (-50) = / 1125899906842624).
  apply Rabs_le_both in He. rewrite Hu in He.
  set (u := / 9007199254740992) in *.
  assert (0 < u < / 1000) as Hu' by (unfold u; lra).
  set (s := toR S) in *. set (d := toR D) in *.
  assert (0 < d) as Hd by nra.
  set (q := s / d).
  assert (q * d = s) as Hq by (unfold q; field; lra).
  assert (1 - 6 * u <= q <= 1 + 6 * u) as Hq1.
  { split.
    - destruct (Rle_lt_dec (1 - 6 * u) q); [done |]. exfalso.
      assert (q * d < (1 - 6 * u) * d) by (apply Rmult_lt_compat_r; lra). nra.
    - destruct (Rle_lt_dec q (1 + 6 * u)); [done |]. exfalso.
      assert ((1 + 6 * u) * d < q * d) by (apply Rmult_lt_compat_r; lra). nra. }
  destruct (div_R S D HS HD) as [Hf Hdiv]; [fold d; lra | fold s d q; rewrite Rabs_pos_eq; lra |].
  split; [done |]. fold s d q in Hdiv. rewrite (Rabs_pos_eq q) in Hdiv by lra.
  apply Rabs_le_both in Hdiv. rewrite Hu in Hdiv. fold u in Hdiv.
  revert Hdiv. apply Rmax_case_strong; intros Hcase Hdiv; apply Rabs_le; unfold u in *; nra.
Qed.

Lemma self_similarity_R a :
  validScores a = true → Js.strict_eq (magnitude (scoreVec a)) 0%float = false →
  isFinite (calculateSimilarity a a) ∧ Rabs (toR (calculateSimilarity a a) - 1) <= pow2 (-50).
Proof.
  intros Ha Hz. unfold calculateSimilarity. cbv zeta. rewrite Hz. cbn [orb].
  rewrite dotProduct_self. destruct (sumSquares_R a Ha) as [HS [HS0 HS1]].
  unfold magnitude in *.
  pose proof (sqrt_nonzero _ HS HS0 Hz) as Hpos.
  destruct (square_of_root_R _ HS (conj Hpos HS1)) as [HD He].
  apply div_near_one; try done.
  destruct (toR_grid _ HS) as [k Hk]. rewrite Hk in *. pose proof (pow2_pos (-1074)) as Hg.
  assert (0 < IZR k) as Hk0 by (apply (Rmult_lt_reg_r (pow2 (-1074))); lra).
  apply lt_IZR in Hk0. assert (1 ≤ k)%Z as Hk1 by lia. apply IZR_le in Hk1. nra.
Qed.

End Rounded.

(** ** The ranking of the dimensions *)

Section Ranking.

Local Open Scope R_scope.

Lemma Sorted_suffix {A : Type} (R : A → A → Prop) l1 l2 : Sorted R (l1 ++ l2) → Sorted R l2.
Proof.
  induction l1 as [| x l1 IH]; [done |]. simpl. intros H. apply IH. by inversion H.
Qed.

Lemma Sorted_weaken_in {A : Type} (R R' : A → A → Prop) (P : A → Prop) l :
  (∀ x y, P x → P y → R x y → R' x y) → Forall P l → Sorted R l → Sorted R' l.
Proof.
  intros HR HP Hs. induction Hs as [| x l Hs IH Hd]; [constructor |].
  apply Forall_cons in HP as [Hx HP]. constructor; [by apply IH |].
  destruct Hd as [| y l Hxy]; constructor.
  apply Forall_cons in HP as [Hy _]. by apply HR.
Qed.

(** In a list sorted up to [ε] step by step, an element exceeds a later one
    by at most [ε] for each step between them. *)
Lemma sorted_tolerance {A : Type} (g : A → R) ε l1 x l2 y l3 :
  0 <= ε →
  Sorted (λ x y, g x <= g y + ε) (l1 ++ x :: l2 ++ y :: l3) →
  g x <= g y + INR (S (length l2)) * ε.
Proof.
  intros Hε Hs%Sorted_suffix. revert x Hs.
  induction l2 as [| z l2 IH]; intros x Hs.
  - simpl in *. inversion Hs as [| ? ? _ Hd]; subst. inversion Hd; subst. lra.
  - simpl app in Hs. inversion Hs as [| ? ? Hs' Hd]; subst. inversion Hd; subst.
    specialize (IH z Hs'). change (length (z :: l2)) with (S (length l2)).
    rewrite (S_INR (S (length l2))). lra.
Qed.

Lemma diff_R p q :
  isFinite p → 0 <= toR p <= 1 → isFinite q → 0 <= toR q <= 1 →
  isFinite (PrimFloat.abs (p - q)) ∧
  Rabs (toR (PrimFloat.abs (p - q)) - Rabs (toR p - toR q)) <= u64 ∧
  0 <= toR (PrimFloat.abs (p - q)) <= 1 + u64.
Proof.
  intros Hp Bp Hq Bq. pose proof pow2_900_big. pose proof u64_val as Hu.
  assert (Rabs (toR p - toR q) <= 1) as Hd by (apply Rabs_le; lra).
  destruct (sub_R p q Hp Hq) as [Hf He]; [lra |].
  destruct (abs_R _ Hf) as [Hf' ->]. split; [done |].
  pose proof (Rabs_triang_inv2 (toR (p - q)%float) (toR p - toR q)) as Ht.
  pose proof (Rabs_pos (toR (p - q)%float)). rewrite Hu in *.
  assert (Rabs (Rabs (toR (p - q)%float) - Rabs (toR p - toR q)) <= / 9007199254740992) as H1 by nra.
  split; [done |]. apply Rabs_le_both in H1. lra.
Qed.

Lemma avg_R p q :
  isFinite p → 0 <= toR p <= 1 → isFinite q → 0 <= toR q <= 1 →
  isFinite ((p + q) / 2)%float ∧
  Rabs (toR ((p + q) / 2)%float - (toR p + toR q) / 2) <= 201 / 100 * u64 ∧
  0 <= toR ((p + q) / 2)%float <= 1 + 3 * u64.
Proof.
  intros Hp Bp Hq Bq. pose proof pow2_900_big. pose proof u64_val as Hu.
  pose proof tiny_small as Ht. pose proof (pow2_pos (-1075)) as Ht0.
  destruct (add_nonneg_R p q Hp Hq) as [Hs Bs]; [lra | lra | lra |].
  destruct (div_R _ 2%float Hs isFinite_two) as [Hf He].
  { rewrite toR_two. lra. }
  { rewrite toR_two. rewrite Hu in Bs. apply Rabs_def1; lra. }
  rewrite toR_two in He. split; [done |].
  set (s := toR (p + q)%float) in *. set (v := toR ((p + q) / 2)%float) in *.
  rewrite Hu in *. rewrite (Rabs_pos_eq (s / 2)) in He by lra. apply Rabs_le_both in He.
  assert (0 <= v) as Hv.
  { apply grid_nonneg; [done |]. fold v. rewrite tiny_double.
    revert He. apply Rmax_case_strong; intros; [| lra].
    destruct (Rle_lt_dec 0 v); lra. }
  revert He. apply Rmax_case_strong; intros; (split; [apply Rabs_le |]); lra.
Qed.

Lemma component_R a k :
  validScores a = true → isFinite (component k a) ∧ 0 <= toR (component k a) <= 1.
Proof.
  intros Ha%validScores_R. rewrite Forall_forall in Ha. apply Ha.
  destruct a, k; unfold scoreVec; simpl; set_solver.
Qed.

Lemma dimensionOf_regular a b k :
  validScores a = true → validScores b = true → regularDimension (dimensionOf a b k).
Proof.
  intros [Fa Ba]%(component_R a k) [Fb Bb]%(component_R b k).
  destruct (diff_R _ _ Fa Ba Fb Bb) as (Hd & _ & Bd).
  destruct (avg_R _ _ Fa Ba Fb Bb) as (Hv & _ & Bv).
  pose proof u64_val as Hu. rewrite Hu in *.
  unfold regularDimension, dimensionOf. cbn [diff avg]. rewrite Hu. split_and!; try done; lra.
Qed.

Lemma storedScore_R a b k :
  validScores a = true → validScores b = true →
  Rabs (storedScore (dimensionOf a b k) - combinedScore a b k) <= 201 / 100 * u64.
Proof.
  intros [Fa Ba]%(component_R a k) [Fb Bb]%(component_R b k).
  destruct (diff_R _ _ Fa Ba Fb Bb) as (_ & Hd & _).
  destruct (avg_R _ _ Fa Ba Fb Bb) as (_ & Hv & _).
  unfold storedScore, combinedScore, dimensionOf. cbn [diff avg].
  pose proof u64_val as Hu. rewrite Hu in *.
  apply Rabs_le_both in Hd, Hv. apply Rabs_le. lra.
Qed.

(** When the comparator does not order [y] strictly ahead of [x], the stored
    score of [x] exceeds the one of [y] by at most [2.01 u]. *)
Lemma dimensionCmp_R x y :
  regularDimension x → regularDimension y → notAfter dimensionCmp x y →
  storedScore x <= storedScore y + 201 / 100 * u64.
Proof.
  intros (Fdx & Fvx & Bdx & Bvx) (Fdy & Fvy & Bdy & Bvy).
  unfold notAfter, Js.lt, dimensionCmp, storedScore.
  pose proof pow2_900_big as Hbig. pose proof u64_val as Hu.
  pose proof tiny_small as Ht. pose proof (pow2_pos (-1075)) as Ht0.
  rewrite Hu in *.
  set (dx := toR (diff x)) in *. set (dy := toR (diff y)) in *.
  set (vx := toR (avg x)) in *. set (vy := toR (avg y)) in *.
  assert (Rabs (dy - dx) <= 1 + 3 * / 9007199254740992) as HA1 by (apply Rabs_le; lra).
  assert (Rabs (vx - vy) <= 1 + 3 * / 9007199254740992) as HW1 by (apply Rabs_le; lra).
  destruct (sub_R (diff y) (diff x) Fdy Fdx) as [FA EA]; [fold dx dy; lra |].
  destruct (sub_R (avg x) (avg y) Fvx Fvy) as [FW EW]; [fold vx vy; lra |].
  fold dx dy in EA. fold vx vy in EW. rewrite Hu in EA, EW.
  set (A' := toR (diff y - diff x)%float) in *. set (W := toR (avg x - avg y)%float) in *.
  apply Rabs_le_both in EA, EW.
  assert (Rabs W <= 1 + 5 * / 9007199254740992) as HW2.
  { pose proof (Rabs_le_both _ _ HW1). apply Rabs_le. lra. }
  assert (Rabs (W * / 2) = Rabs W * / 2) as HW3
    by (by rewrite Rabs_mult, (Rabs_pos_eq (/ 2)) by lra).
  destruct (mul_R _ 0.5%float FW isFinite_half) as [FB EB].
  { rewrite toR_half. fold W. rewrite HW3. lra. }
  rewrite toR_half in EB. fold W in EB. rewrite Hu, HW3 in EB.
  set (B' := toR ((avg x - avg y) * 0.5)%float) in *.
  assert (Rabs (B' - W * / 2) <= / 9007199254740992 * (Rabs W * / 2) + pow2 (-1075)) as EB'.
  { pose proof (Rabs_pos W). revert EB. apply Rmax_case_strong; intros; lra. }
  clear EB. apply Rabs_le_both in EB'.
  pose proof (Rabs_pos W) as HW0.
  assert (Rabs (A' + B') <= 4) as HAB.
  { pose proof (Rabs_le_both _ _ HW2). pose proof (Rabs_le_both _ _ HA1). apply Rabs_le. lra. }
  destruct (add_R _ _ FA FB) as [FC EC]; [fold A' B'; lra |].
  fold A' B' in EC. rewrite Hu in EC.
  intros Hlt.
  assert (¬ toR (diff y - diff x + (avg x - avg y) * 0.5)%float < 0) as Hc.
  { intros Hneg. apply (ltb_R _ 0%float FC isFinite_zero) in Hneg. by rewrite Hneg in Hlt. }
  set (C := toR (diff y - diff x + (avg x - avg y) * 0.5)%float) in *.
  assert (0 <= A' + B') as Hsum.
  { destruct (Rle_lt_dec 0 (A' + B')) as [| Hn]; [done |]. exfalso. apply Hc.
    rewrite (Rabs_left (A' + B')) in EC by done. apply Rabs_le_both in EC. lra. }
  pose proof (Rabs_le_both _ _ HW2). pose proof (Rabs_le_both _ _ HA1). lra.
Qed.

End Ranking.

Section Explanation.

Context {engine : NumberToString}.

Lemma dimensions_components a b : dimensions a b = map (dimensionOf a b) allComponents.
Proof. reflexivity. Qed.

Lemma rankedDimensions_components a b :
  ∃ ks, allComponents ≡ₚ ks ∧ rankedDimensions a b = map (dimensionOf a b) ks.
Proof.
  destruct (Permutation_map_inv (dimensionOf a b) allComponents (l1 := rankedDimensions a b))
    as (ks & Hks & Hp); [| by exists ks].
  unfold rankedDimensions. rewrite sortV8_perm. by rewrite dimensions_components.
Qed.

Lemma rankedDimensions_tolerance a b l1 x l2 y l3 :
  validScores a = true → validScores b = true →
  rankedDimensions a b = map (dimensionOf a b) (l1 ++ x :: l2 ++ y :: l3) →
  (combinedScore a b x <= combinedScore a b y + pow2 (-49))%R.
Proof.
  intros Ha Hb Hr.
  assert (Sorted (notAfter dimensionCmp) (rankedDimensions a b)) as Hs
    by (apply sortV8_sorted; intros ? ?; apply dimensionCmp_antisym).
  assert (length (l1 ++ x :: l2 ++ y :: l3) = 5) as Hlen.
  { rewrite <- (length_map (dimensionOf a b)), <- Hr.
    unfold rankedDimensions. by rewrite sortV8_length. }
  rewrite Hr in Hs.
  apply (Sorted_weaken_in _ (λ d e, storedScore d <= storedScore e + 201 / 100 * u64)%R
           regularDimension) in Hs.
  - rewrite !map_app, !map_cons, !map_app, !map_cons in Hs.
    apply sorted_tolerance in Hs; [| pose proof u64_val; lra].
    rewrite length_map in Hs.
    pose proof (storedScore_R a b x Ha Hb) as Hx%Rabs_le_both.
    pose proof (storedScore_R a b y Ha Hb) as Hy%Rabs_le_both.
    assert (INR (S (length l2)) <= 4)%R as Hn.
    { replace 4%R with (INR 4) by (simpl; lra). apply le_INR.
      rewrite !length_app in Hlen. simpl in Hlen. rewrite !length_app in Hlen. simpl in Hlen. lia. }
    rewrite (pow2_neg 49 ltac:(lia) : pow2 (-49) = / 562949953421312)%R.
    rewrite u64_val in *.
    assert (INR (S (length l2)) * (201 / 100 * / 9007199254740992)
            <= 4 * (201 / 100 * / 9007199254740992))%R by (apply Rmult_le_compat_r; lra).
    lra.
  - intros d e Hd He. by apply dimensionCmp_R.
  - apply Forall_forall. intros d (k & <- & _)%list_elem_of_In%in_map_iff.
    by apply dimensionOf_regular.
Qed.

(** C6, amended: the five dimensions are ranked by the comparator of line 123
    evaluated in binary64.  The ranking is an arrangement of the five
    entries, each with the name of its dimension, the absolute difference
    and the average of the two components; on vectors with components in the
    unit interval a dimension exceeds no later one by more than [2^-49] in
    the combined score [difference - 0.5 * average].  The explanation is
    built from the first two: a clause is pushed for each of them exactly
    when its average exceeds 0.5, and when neither does, the result is the
    generic sentence; both forms cite [Math.round(similarity * 100)]. *)
Theorem C6_explanation_ranking bookA bookB similarity :
  let a := sentimentScores bookA in
  let b := sentimentScores bookB in
  let percentage := number_toString (Js.Math_round (similarity * 100)%float) in
  ∃ k0 k1 rest,
    k0 :: k1 :: rest ≡ₚ [Moody; Scientific; Optimistic; Philosophical; Adventurous] ∧
    rankedDimensions a b =
      map (λ k, {| name := label k;
                   diff := PrimFloat.abs (component k a - component k b)%float;
                   avg := ((component k a + component k b) / 2)%float |})
          (k0 :: k1 :: rest) ∧
    (validScores a = true → validScores b = true →
     ∀ l1 x l2 y l3, k0 :: k1 :: rest = l1 ++ x :: l2 ++ y :: l3 →
       (combinedScore a b x <= combinedScore a b y + pow2 (-49))%R) ∧
    generateConnectionReason bookA bookB similarity =
      match Js.gt ((component k0 a + component k0 b) / 2)%float 0.5%float,
            Js.gt ((component k1 a + component k1 b) / 2)%float 0.5%float with
      | true, true =>
          "Both share strong " +:+ label k0 +:+ " and similar " +:+ label k1
          +:+ ". Overall " +:+ percentage +:+ "% thematic match."
      | true, false =>
          "Both share strong " +:+ label k0
          +:+ ". Overall " +:+ percentage +:+ "% thematic match."
      | false, true =>
          "similar " +:+ label k1
          +:+ ". Overall " +:+ percentage +:+ "% thematic match."
      | false, false =>
          "These works share a " +:+ percentage +:+
          "% thematic similarity based on their emotional and intellectual profiles."
      end.
Proof.
  intros a b percentage.
  destruct (rankedDimensions_components a b) as (ks & Hp & Hr).
  assert (length ks = 5) as Hlen by (by rewrite <- Hp).
  destruct ks as [| k0 [| k1 rest]]; [done | done |].
  exists k0, k1, rest. split_and!.
  - done.
  - exact Hr.
  - intros Ha Hb l1 x l2 y l3 Hks. apply (rankedDimensions_tolerance a b l1 x l2 y l3 Ha Hb).
    by rewrite <- Hks.
  - unfold generateConnectionReason. fold a b. rewrite Hr.
    unfold Js.slice0, fallbackSentence, percent. fold percentage.
    cbn [map take reasonsOf dimensionOf avg name].
    destruct (Js.gt ((component k0 a + component k0 b) / 2)%float 0.5%float),
      (Js.gt ((component k1 a + component k1 b) / 2)%float 0.5%float);
      by destruct k0, k1.
Qed.

End Explanation.

Lemma toR_finite x s m e :
  Prim2SF x = S754_finite s m e → toR x = ((if s then -1 else 1) * IZR (Z.pos m) * pow2 e)%R.
Proof. unfold toR. by intros ->. Qed.

(** C6 fails as stated: on two vectors with components in the unit interval
    the scientific dimension has a smaller combined score than the moody one
    and an average above 0.5, yet the comparator ties the two, the moody
    dimension keeps the second place and the explanation has no clause for
    the scientific one. *)
Lemma C6_counterexample :
  validScores nearTieA = true ∧ validScores nearTieB = true ∧
  (combinedScore nearTieA nearTieB Optimistic < combinedScore nearTieA nearTieB Scientific)%R ∧
  (combinedScore nearTieA nearTieB Scientific < combinedScore nearTieA nearTieB Moody)%R ∧
  (combinedScore nearTieA nearTieB Moody < combinedScore nearTieA nearTieB Philosophical)%R ∧
  (combinedScore nearTieA nearTieB Moody < combinedScore nearTieA nearTieB Adventurous)%R ∧
  map name (rankedDimensions nearTieA nearTieB) =
    ["optimistic outlook"; "moody atmosphere"; "scientific rigor"; "philosophical depth";
     "adventurous spirit"] ∧
  Js.gt ((scientific nearTieA + scientific nearTieB) / 2)%float 0.5%float = true ∧
  generateConnectionReason (engine := Js.Number_toString) (book "a" nearTieA) (book "b" nearTieB)
    (calculateSimilarity nearTieA nearTieB)
  = "Both share strong optimistic outlook. Overall 68% thematic match.".
Proof.
  assert (toR 0x1p-60%float = / 1152921504606846976)%R as H60.
  { rewrite (toR_finite _ false 4503599627370496 (-112)) by reflexivity.
    rewrite (pow2_neg 112 ltac:(lia) : pow2 (-112) = / 5192296858534827628530496329220096)%R. lra. }
  assert (toR 0.5625%float = 9 / 16)%R as H9.
  { rewrite (toR_finite _ false 5066549580791808 (-53)) by reflexivity.
    rewrite (pow2_neg 53 ltac:(lia) : pow2 (-53) = / 9007199254740992)%R. lra. }
  assert (toR 0.9375%float = 15 / 16)%R as H15.
  { rewrite (toR_finite _ false 8444249301319680 (-53)) by reflexivity.
    rewrite (pow2_neg 53 ltac:(lia) : pow2 (-53) = / 9007199254740992)%R. lra. }
  assert (∀ k, combinedScore nearTieA nearTieB k =
               match k with
               | Moody => 3 / 4 * / 1152921504606846976
               | Scientific => 0
               | Optimistic => - (1 / 2)
               | Philosophical | Adventurous => 3 / 4
               end)%R as Hscore.
  { intros k. unfold combinedScore, nearTieA, nearTieB, component, mkScores.
    destruct k; cbn [moody scientific optimistic philosophical adventurous];
      rewrite ?H60, ?H9, ?H15, ?toR_zero, ?toR_one; unfold Rabs;
      match goal with |- context [Rcase_abs ?x] => destruct (Rcase_abs x) end; lra. }
  rewrite !Hscore.
  split_and!; [reflexivity | reflexivity | lra | lra | lra | lra | | |]; by vm_compute.
Qed.

(** On the two vectors of the counterexample the ranking respects the
    combined score up to [2^-49]. *)
Lemma C6_witness :
  ∃ ks,
    rankedDimensions nearTieA nearTieB = map (dimensionOf nearTieA nearTieB) ks ∧
    ∀ l1 x l2 y l3, ks = l1 ++ x :: l2 ++ y :: l3 →
      (combinedScore nearTieA nearTieB x <= combinedScore nearTieA nearTieB y + pow2 (-49))%R.
Proof.
  destruct (C6_explanation_ranking (engine := Js.Number_toString)
              (book "a" nearTieA) (book "b" nearTieB) 0%float)
    as (k0 & k1 & rest & _ & Hr & Hs & _).
  exists (k0 :: k1 :: rest). split; [exact Hr |]. exact (Hs eq_refl eq_refl).
Defined.

(** ** The upper bound of the similarity *)

Section UpperBound.

Local Open Scope R_scope.

Lemma add_zero_l_R x : isFinite x → isFinite (0 + x)%float ∧ toR (0 + x)%float = toR x.
Proof.
  unfold isFinite, toR. rewrite FloatAxioms.add_spec.
  change (Prim2SF 0) with (S754_zero false).
  by destruct (Prim2SF x) as [[] | | |].
Qed.

Lemma toR_awayFromUnderflow : toR 0x1p-500%float = pow2 (-500).
Proof.
  rewrite (toR_finite _ false 4503599627370496 (-552)) by reflexivity.
  change (IZR (Z.pos 4503599627370496)) with (IZR (2 ^ 52)).
  rewrite <- pow2_IZR, Rmult_1_l, <- pow2_add by lia. done.
Qed.

Lemma awayFromUnderflow_R x :
  isFinite x → awayFromUnderflow x = true → toR x = 0 ∨ pow2 (-500) <= toR x.
Proof.
  intros Hx [H | H]%orb_true_iff.
  - left. apply (eqb_R _ _ Hx isFinite_zero) in H. by rewrite toR_zero in H.
  - right. apply leb_R in H; [| done | done]. by rewrite toR_awayFromUnderflow in H.
Qed.

Lemma safeComponent_scores a :
  validScores a = true → noUnderflow a = true → Forall safeComponent (scoreVec a).
Proof.
  unfold validScores, noUnderflow. rewrite !forallb_forall, Forall_forall.
  intros Hv Hn x Hx%list_elem_of_In. destruct (inUnitInterval_R x (Hv x Hx)) as [Hf Hb].
  split; [done |]. split; [done |]. by apply awayFromUnderflow_R, Hn.
Qed.

Lemma mul_safe_R x y :
  safeComponent x → safeComponent y →
  isFinite (x * y)%float ∧
  (1 - u64) * (toR x * toR y) <= toR (x * y)%float <= (1 + u64) * (toR x * toR y) ∧
  0 <= toR x * toR y <= 1 ∧
  (toR x * toR y = 0 ∨ pow2 (-1000) <= toR x * toR y).
Proof.
  intros (Hx & Bx & Sx) (Hy & By & Sy).
  pose proof pow2_900_big as Hbig. pose proof u64_val as Hu.
  pose proof (pow2_pos (-1075)) as Ht0. pose proof (pow2_pos (-500)) as H500.
  assert (0 <= toR x * toR y <= 1) as Hp by nra.
  destruct (mul_nonneg_R x y Hx Hy) as (Hf & Hn & He); [lra | lra | lra |].
  split; [done |].
  assert (toR x * toR y = 0 ∨ pow2 (-1000) <= toR x * toR y) as [H0 | Hbig'].
  { destruct Sx as [-> | Sx]; [left; lra |]. destruct Sy as [-> | Sy]; [left; lra |].
    right. change (-1000)%Z with (-500 + -500)%Z. rewrite pow2_add.
    apply Rmult_le_compat; lra. }
  - rewrite H0 in *. rewrite Rmult_0_r in *.
    assert (toR (x * y)%float = toR 0%float) as ->.
    { apply grid_eq; [done | done |]. rewrite toR_zero, tiny_double.
      rewrite Rmax_right in He by lra. lra. }
    rewrite toR_zero. split_and!; [lra | lra | lra | lra | by left].
  - assert (pow2 (-1075) <= u64 * (toR x * toR y)) as Hrel.
    { transitivity (u64 * pow2 (-1000)).
      - unfold u64. rewrite <- pow2_add. apply pow2_le. lia.
      - apply Rmult_le_compat_l; [unfold u64; pose proof (pow2_pos (-53)); lra | done]. }
    rewrite Rmax_left in He by done. apply Rabs_le_both in He.
    split_and!; [lra | lra | lra | lra | by right].
Qed.

(** The sum of five products, accumulated from 0 as [reduce] does. *)
Lemma sum5_R p0 p1 p2 p3 p4 X0 X1 X2 X3 X4 :
  isFinite p0 → isFinite p1 → isFinite p2 → isFinite p3 → isFinite p4 →
  0 <= X0 <= 1 → 0 <= X1 <= 1 → 0 <= X2 <= 1 → 0 <= X3 <= 1 → 0 <= X4 <= 1 →
  (1 - u64) * X0 <= toR p0 <= (1 + u64) * X0 →
  (1 - u64) * X1 <= toR p1 <= (1 + u64) * X1 →
  (1 - u64) * X2 <= toR p2 <= (1 + u64) * X2 →
  (1 - u64) * X3 <= toR p3 <= (1 + u64) * X3 →
  (1 - u64) * X4 <= toR p4 <= (1 + u64) * X4 →
  isFinite (0 + p0 + p1 + p2 + p3 + p4)%float ∧
  (1 - 5 * u64) * (X0 + X1 + X2 + X3 + X4) <= toR (0 + p0 + p1 + p2 + p3 + p4)%float
    <= (1 + 501 / 100 * u64) * (X0 + X1 + X2 + X3 + X4).
Proof.
  intros F0 F1 F2 F3 F4 B0 B1 B2 B3 B4 E0 E1 E2 E3 E4.
  pose proof pow2_900_big as Hbig. pose proof u64_val as Hu. rewrite Hu in *.
  destruct (add_zero_l_R p0 F0) as [G0 H0].
  destruct (add_nonneg_R _ p1 G0 F1) as [G1 H1]; [lra | lra | lra |]. rewrite Hu in H1.
  destruct (add_nonneg_R _ p2 G1 F2) as [G2 H2]; [lra | lra | lra |]. rewrite Hu in H2.
  destruct (add_nonneg_R _ p3 G2 F3) as [G3 H3]; [lra | lra | lra |]. rewrite Hu in H3.
  destruct (add_nonneg_R _ p4 G3 F4) as [G4 H4]; [lra | lra | lra |]. rewrite Hu in H4.
  split; [done |]. lra.
Qed.

Lemma cauchy_schwarz5 a0 a1 a2 a3 a4 b0 b1 b2 b3 b4 :
  (a0 * b0 + a1 * b1 + a2 * b2 + a3 * b3 + a4 * b4) *
  (a0 * b0 + a1 * b1 + a2 * b2 + a3 * b3 + a4 * b4) <=
  (a0 * a0 + a1 * a1 + a2 * a2 + a3 * a3 + a4 * a4) *
  (b0 * b0 + b1 * b1 + b2 * b2 + b3 * b3 + b4 * b4).
Proof.
  pose proof (Rle_0_sqr (a0 * b1 - a1 * b0)). pose proof (Rle_0_sqr (a0 * b2 - a2 * b0)).
  pose proof (Rle_0_sqr (a0 * b3 - a3 * b0)). pose proof (Rle_0_sqr (a0 * b4 - a4 * b0)).
  pose proof (Rle_0_sqr (a1 * b2 - a2 * b1)). pose proof (Rle_0_sqr (a1 * b3 - a3 * b1)).
  pose proof (Rle_0_sqr (a1 * b4 - a4 * b1)). pose proof (Rle_0_sqr (a2 * b3 - a3 * b2)).
  pose proof (Rle_0_sqr (a2 * b4 - a4 * b2)). pose proof (Rle_0_sqr (a3 * b4 - a4 * b3)).
  unfold Rsqr in *. nra.
Qed.

Lemma sqrt_le_of_square a y : 0 <= a → a * a <= y → a <= sqrt y.
Proof.
  intros Ha Hle. rewrite <- (sqrt_square a) at 1 by done. by apply sqrt_le_1_alt.
Qed.

Lemma sqrt_ge_of_square a y : 0 <= a → 0 <= y → y <= a * a → sqrt y <= a.
Proof.
  intros Ha Hy Hle. rewrite <- (sqrt_square a) by done. by apply sqrt_le_1_alt.
Qed.

Lemma realDot_le a b : realDot a b <= sqrt (realSquares a) * sqrt (realSquares b).
Proof.
  unfold realSquares. rewrite <- sqrt_mult.
  - destruct (Rle_lt_dec 0 (realDot a b)) as [Hpos | Hneg].
    + apply sqrt_le_of_square; [done |]. apply cauchy_schwarz5.
    + pose proof (sqrt_pos (realDot a a * realDot b b)). lra.
  - unfold realDot. nra.
  - unfold realDot. nra.
Qed.

Lemma dotProduct_R a b :
  validScores a = true → noUnderflow a = true → validScores b = true → noUnderflow b = true →
  isFinite (dotProduct (scoreVec a) (scoreVec b)) ∧
  (1 - 5 * u64) * realDot a b <= toR (dotProduct (scoreVec a) (scoreVec b))
    <= (1 + 501 / 100 * u64) * realDot a b ∧
  0 <= realDot a b <= 5 ∧
  (realDot a b = 0 ∨ pow2 (-1000) <= realDot a b).
Proof.
  intros Ha Ha' Hb Hb'.
  pose proof (safeComponent_scores a Ha Ha') as Sa.
  pose proof (safeComponent_scores b Hb Hb') as Sb.
  destruct a as [a0 a1 a2 a3 a4], b as [b0 b1 b2 b3 b4]. unfold scoreVec, realDot in *.
  cbn [moody scientific optimistic philosophical adventurous] in *.
  apply Forall_cons in Sa as [A0 Sa]. apply Forall_cons in Sa as [A1 Sa].
  apply Forall_cons in Sa as [A2 Sa]. apply Forall_cons in Sa as [A3 Sa].
  apply Forall_cons in Sa as [A4 _].
  apply Forall_cons in Sb as [B0 Sb]. apply Forall_cons in Sb as [B1 Sb].
  apply Forall_cons in Sb as [B2 Sb]. apply Forall_cons in Sb as [B3 Sb].
  apply Forall_cons in Sb as [B4 _].
  destruct (mul_safe_R _ _ A0 B0) as (F0 & E0 & R0 & Z0).
  destruct (mul_safe_R _ _ A1 B1) as (F1 & E1 & R1 & Z1).
  destruct (mul_safe_R _ _ A2 B2) as (F2 & E2 & R2 & Z2).
  destruct (mul_safe_R _ _ A3 B3) as (F3 & E3 & R3 & Z3).
  destruct (mul_safe_R _ _ A4 B4) as (F4 & E4 & R4 & Z4).
  unfold dotProduct, Js.reduce. cbn [Js.reduce_from Js.num_at nth].
  split_and!.
  - by apply (sum5_R _ _ _ _ _ _ _ _ _ _ F0 F1 F2 F3 F4 R0 R1 R2 R3 R4 E0 E1 E2 E3 E4).
  - by apply (sum5_R _ _ _ _ _ _ _ _ _ _ F0 F1 F2 F3 F4 R0 R1 R2 R3 R4 E0 E1 E2 E3 E4).
  - by apply (sum5_R _ _ _ _ _ _ _ _ _ _ F0 F1 F2 F3 F4 R0 R1 R2 R3 R4 E0 E1 E2 E3 E4).
  - lra.
  - lra.
  - pose proof (pow2_pos (-1000)).
    destruct Z0 as [Z0 | Z0]; [| right; lra]. destruct Z1 as [Z1 | Z1]; [| right; lra].
    destruct Z2 as [Z2 | Z2]; [| right; lra]. destruct Z3 as [Z3 | Z3]; [| right; lra].
    destruct Z4 as [Z4 | Z4]; [| right; lra]. left. lra.
Qed.

Lemma magnitude_R a :
  validScores a = true → noUnderflow a = true →
  Js.strict_eq (magnitude (scoreVec a)) 0%float = false →
  isFinite (magnitude (scoreVec a)) ∧
  (1 - 4 * u64) * sqrt (realSquares a) <= toR (magnitude (scoreVec a)) <= 3 ∧
  pow2 (-500) <= sqrt (realSquares a) <= 3.
Proof.
  intros Ha Ha' Hz. unfold magnitude in *.
  change (sumSquares (scoreVec a)) with (dotProduct (scoreVec a) (scoreVec a)) in *.
  destruct (dotProduct_R a a Ha Ha' Ha Ha') as (HS & BS & BX & ZX).
  fold (realSquares a) in *.
  set (S := dotProduct (scoreVec a) (scoreVec a)) in *. set (X := realSquares a) in *.
  pose proof pow2_900_big as Hbig. pose proof u64_val as Hu. rewrite Hu in *.
  pose proof (pow2_pos (-1000)) as H1000. pose proof (pow2_pos (-500)) as H500.
  assert (0 < toR S) as Hpos by (apply sqrt_nonzero; [done | lra | done]).
  destruct ZX as [ZX | ZX]; [rewrite ZX in *; lra |].
  set (r := sqrt X).
  assert (r * r = X) as Hrr by (apply sqrt_sqrt; lra).
  assert (pow2 (-500) <= r) as Hr.
  { apply sqrt_le_of_square; [lra |]. rewrite <- pow2_add. done. }
  assert (r <= 3) as Hr3 by (apply sqrt_ge_of_square; lra).
  assert ((1 - 3 * / 9007199254740992) * r <= sqrt (toR S)) as Hlow.
  { apply sqrt_le_of_square; [nra |].
    replace ((1 - 3 * / 9007199254740992) * r * ((1 - 3 * / 9007199254740992) * r))
      with ((1 - 3 * / 9007199254740992) * (1 - 3 * / 9007199254740992) * (r * r)) by ring.
    rewrite Hrr. lra. }
  assert (sqrt (toR S) <= 2999 / 1000) as Hup by (apply sqrt_ge_of_square; lra).
  destruct (sqrt_R S HS Hpos) as (Hm & _ & Hme); [lra |].
  rewrite Hu in Hme. apply Rabs_le_both in Hme.
  split; [done |]. split; lra.
Qed.

(** The similarity of two vectors with components in the unit interval and
    away from underflow is at most [1 + 2^-49]. *)
Lemma calculateSimilarity_upper_R a b :
  validScores a = true → validScores b = true →
  noUnderflow a = true → noUnderflow b = true →
  isFinite (calculateSimilarity a b) ∧ toR (calculateSimilarity a b) <= 1 + pow2 (-49).
Proof.
  intros Ha Hb Ha' Hb'. pose proof (pow2_pos (-49)) as H49.
  unfold calculateSimilarity. cbv zeta.
  destruct (Js.strict_eq (magnitude (scoreVec a)) 0%float) eqn:Za;
    [cbn [orb]; rewrite toR_zero; split; [done | lra] |].
  destruct (Js.strict_eq (magnitude (scoreVec b)) 0%float) eqn:Zb;
    [cbn [orb]; rewrite toR_zero; split; [done | lra] |].
  cbn [orb].
  destruct (magnitude_R a Ha Ha' Za) as (FA & BA & RA).
  destruct (magnitude_R b Hb Hb' Zb) as (FB & BB & RB).
  destruct (dotProduct_R a b Ha Ha' Hb Hb') as (FD & BD & BX & _).
  pose proof (realDot_le a b) as Hcs.
  set (mA := magnitude (scoreVec a)) in *. set (mB := magnitude (scoreVec b)) in *.
  set (D := dotProduct (scoreVec a) (scoreVec b)) in *.
  set (rA := sqrt (realSquares a)) in *. set (rB := sqrt (realSquares b)) in *.
  pose proof pow2_900_big as Hbig. pose proof u64_val as Hu. rewrite Hu in *.
  pose proof (pow2_pos (-1075)) as Ht0. pose proof tiny_small as Ht.
  pose proof (pow2_pos (-500)) as H500. pose proof (pow2_pos (-1001)) as H1001.
  assert (pow2 (-1000) = 2 * pow2 (-1001)) as H1000 by (rewrite <- pow2_succ; f_equal).
  set (G := rA * rB) in *.
  assert (pow2 (-1000) <= G) as HG.
  { change (-1000)%Z with (-500 + -500)%Z. rewrite pow2_add. apply Rmult_le_compat; lra. }
  assert (G <= 9) as HG9 by (unfold G; nra).
  assert ((1 - 4 * / 9007199254740992) * (1 - 4 * / 9007199254740992) * G
          <= toR mA * toR mB <= 9) as HP.
  { split.
    - replace ((1 - 4 * / 9007199254740992) * (1 - 4 * / 9007199254740992) * G)
        with (((1 - 4 * / 9007199254740992) * rA) * ((1 - 4 * / 9007199254740992) * rB))
        by (unfold G; ring).
      apply Rmult_le_compat; nra.
    - replace 9 with (3 * 3) by lra. apply Rmult_le_compat; nra. }
  set (P := toR mA * toR mB) in *.
  destruct (mul_nonneg_R mA mB FA FB) as (FM & M0 & EM); [nra | nra | fold P; lra |].
  fold P in EM. rewrite Hu in EM.
  assert (pow2 (-1075) <= / 9007199254740992 * P) as Hrel.
  { transitivity (u64 * pow2 (-1001)).
    - unfold u64. rewrite <- pow2_add. apply pow2_le. lia.
    - rewrite Hu. lra. }
  rewrite Rmax_left in EM by done. apply Rabs_le_both in EM.
  set (M := toR (mA * mB)%float) in *.
  assert ((1 - 9 * / 9007199254740992) * G <= M) as HM by lra.
  assert (0 < M) as HM0 by lra.
  set (q := toR D / M).
  assert (q * M = toR D) as Hq by (unfold q; field; lra).
  assert (0 <= q) as Hq0 by (unfold q; apply Rmult_le_pos; [lra | left; by apply Rinv_0_lt_compat]).
  assert (q <= 1 + 141 / 10 * / 9007199254740992) as Hq1.
  { destruct (Rle_lt_dec q (1 + 141 / 10 * / 9007199254740992)) as [| Hgt]; [done |]. exfalso.
    assert ((1 + 141 / 10 * / 9007199254740992) * M < q * M)
      by (apply Rmult_lt_compat_r; lra).
    lra. }
  destruct (div_R D (mA * mB)%float FD FM) as [FQ EQ];
    [fold M; lra | fold M q; rewrite Rabs_pos_eq; lra |].
  fold M q in EQ. rewrite Hu, (Rabs_pos_eq q) in EQ by done.
  split; [done |]. apply Rabs_le_both in EQ.
  rewrite (pow2_neg 49 ltac:(lia) : pow2 (-49) = / 562949953421312).
  revert EQ. apply Rmax_case_strong; intros; lra.
Qed.

End UpperBound.

(** ** The similarity against 1 *)

Lemma toR_above_one : toR 0x1.0000000000008p+0%float = (1 + pow2 (-49))%R.
Proof.
  rewrite (toR_finite _ false 4503599627370504 (-52)) by reflexivity.
  rewrite (pow2_neg 52 ltac:(lia) : pow2 (-52) = / 4503599627370496)%R.
  rewrite (pow2_neg 49 ltac:(lia) : pow2 (-49) = / 562949953421312)%R. lra.
Qed.

Lemma toR_near_one_below : toR 0x1.ffffffffffff8p-1%float = (1 - pow2 (-50))%R.
Proof.
  rewrite (toR_finite _ false 9007199254740984 (-53)) by reflexivity.
  rewrite (pow2_neg 53 ltac:(lia) : pow2 (-53) = / 9007199254740992)%R.
  rewrite (pow2_neg 50 ltac:(lia) : pow2 (-50) = / 1125899906842624)%R. lra.
Qed.

Lemma toR_near_one_above : toR 0x1.0000000000004p+0%float = (1 + pow2 (-50))%R.
Proof.
  rewrite (toR_finite _ false 4503599627370500 (-52)) by reflexivity.
  rewrite (pow2_neg 52 ltac:(lia) : pow2 (-52) = / 4503599627370496)%R.
  rewrite (pow2_neg 50 ltac:(lia) : pow2 (-50) = / 1125899906842624)%R. lra.
Qed.

Lemma calculateSimilarity_upper a b :
  validScores a = true → validScores b = true →
  noUnderflow a = true → noUnderflow b = true →
  PrimFloat.leb (calculateSimilarity a b) 0x1.0000000000008p+0%float = true.
Proof.
  intros Ha Hb Ha' Hb'.
  destruct (calculateSimilarity_upper_R a b Ha Hb Ha' Hb') as [Hf Hle].
  apply leb_R; [done | done |]. by rewrite toR_above_one.
Qed.

Lemma calculateSimilarity_self a :
  validScores a = true → Js.strict_eq (magnitude (scoreVec a)) 0%float = false →
  PrimFloat.leb 0x1.ffffffffffff8p-1%float (calculateSimilarity a a) = true ∧
  PrimFloat.leb (calculateSimilarity a a) 0x1.0000000000004p+0%float = true.
Proof.
  intros Ha Hz. destruct (self_similarity_R a Ha Hz) as [Hf He%Rabs_le_both].
  split; (apply leb_R; [done | done |]).
  - rewrite toR_near_one_below. lra.
  - rewrite toR_near_one_above. lra.
Qed.

(** C7 fails as stated: the vector (1, 1, 1, 0, 0), whose components are in
    the unit interval, has similarity 1.0000000000000002 with itself, which is
    above 1; and on two vectors with components near [2^-537] the squares and
    the products underflow and the similarity is 2.5. *)
Lemma C7_counterexample :
  validScores diagonalScores = true ∧
  calculateSimilarity diagonalScores diagonalScores = 0x1.0000000000001p+0%float ∧
  Js.gt (calculateSimilarity diagonalScores diagonalScores) 1%float = true ∧
  validScores tinyA = true ∧ validScores tinyB = true ∧
  calculateSimilarity tinyA tinyB = 2.5%float.
Proof. repeat split; reflexivity. Qed.

(** C7, amended: the similarity is symmetric on all vectors; on vectors with
    components in the unit interval it is a number that is at least 0 (never
    NaN, so never below -1); and when moreover every component is 0 or at
    least [2^-500], it is at most [1 + 2^-49], the number
    1.0000000000000018. *)
Theorem C7_symmetric_and_bounded :
  (∀ a b, calculateSimilarity a b = calculateSimilarity b a) ∧
  (∀ a b, validScores a = true → validScores b = true →
          PrimFloat.leb 0 (calculateSimilarity a b) = true ∧
          Js.gt (calculateSimilarity a b) (-1)%float = true) ∧
  (∀ a b, validScores a = true → validScores b = true →
          noUnderflow a = true → noUnderflow b = true →
          PrimFloat.leb (calculateSimilarity a b) 0x1.0000000000008p+0%float = true).
Proof.
  split_and!.
  - apply calculateSimilarity_comm.
  - intros a b Ha Hb. split; [by apply calculateSimilarity_nonneg | by apply calculateSimilarity_above].
  - apply calculateSimilarity_upper.
Qed.

Lemma C7_witness :
  calculateSimilarity neutralScores diagonalScores = calculateSimilarity diagonalScores neutralScores ∧
  (PrimFloat.leb 0 (calculateSimilarity neutralScores diagonalScores) = true ∧
   Js.gt (calculateSimilarity neutralScores diagonalScores) (-1)%float = true) ∧
  PrimFloat.leb (calculateSimilarity neutralScores diagonalScores) 0x1.0000000000008p+0%float = true.
Proof.
  split_and!.
  - exact (proj1 C7_symmetric_and_bounded neutralScores diagonalScores).
  - exact (proj1 (proj1 (proj2 C7_symmetric_and_bounded) neutralScores diagonalScores eq_refl eq_refl)).
  - exact (proj2 (proj1 (proj2 C7_symmetric_and_bounded) neutralScores diagonalScores eq_refl eq_refl)).
  - exact (proj2 (proj2 C7_symmetric_and_bounded) neutralScores diagonalScores
             eq_refl eq_refl eq_refl eq_refl).
Defined.

(** C8 fails as stated: the neutral vector (0.5, ..., 0.5) has a non-zero
    magnitude and similarity 0.9999999999999998 with itself. *)
Lemma C8_counterexample :
  Js.strict_eq (magnitude (scoreVec neutralScores)) 0%float = false ∧
  calculateSimilarity neutralScores neutralScores = 0x1.ffffffffffffep-1%float ∧
  Js.strict_eq (calculateSimilarity neutralScores neutralScores) 1%float = false.
Proof. repeat split; reflexivity. Qed.

(** C8, amended: the similarity of a vector with components in the unit
    interval and non-zero magnitude with itself lies within [2^-50] of 1:
    it is at least 0.9999999999999991 and at most 1.0000000000000009. *)
Theorem C8_self_similarity a :
  validScores a = true → Js.strict_eq (magnitude (scoreVec a)) 0%float = false →
  PrimFloat.leb 0x1.ffffffffffff8p-1%float (calculateSimilarity a a) = true ∧
  PrimFloat.leb (calculateSimilarity a a) 0x1.0000000000004p+0%float = true.
Proof. apply calculateSimilarity_self. Qed.

Lemma C8_witness :
  PrimFloat.leb 0x1.ffffffffffff8p-1%float (calculateSimilarity neutralScores neutralScores) = true ∧
  PrimFloat.leb (calculateSimilarity neutralScores neutralScores) 0x1.0000000000004p+0%float = true.
Proof. exact (C8_self_similarity neutralScores eq_refl eq_refl). Defined.

(** * Further properties of the code *)

Section GraphProperties.

Context {engine : NumberToString}.

(** X1: on every input, every link of the built graph joins two different
    positions of the node list: its ends are the identifiers of the two
    nodes, its weight is their cosine similarity and its reason is the
    explanation generated for them with that weight. *)
Theorem links_join_two_nodes genreBooks highlightedBookId :
  ∃ g, bookGraphData genreBooks highlightedBookId = Some g ∧
    ∀ l, l ∈ links g →
      ∃ i j, i < length genreBooks ∧ j < length genreBooks ∧ i ≠ j ∧
        source l = id (nodeAt genreBooks i) ∧ target l = id (nodeAt genreBooks j) ∧
        similarityWeight l =
          calculateSimilarity (sentimentScores (nodeAt genreBooks i))
                              (sentimentScores (nodeAt genreBooks j)) ∧
        reason l = generateConnectionReason (nodeAt genreBooks i) (nodeAt genreBooks j)
                                            (similarityWeight l).
Proof.
  destruct (bookGraphData_links genreBooks highlightedBookId) as (g & Hrun & _ & Hlinks).
  exists g. split; [done |]. intros l (i & j & Hi & Hj & Hij & ->)%Hlinks.
  by exists i, j.
Qed.

(** X2: with distinct identifiers the built graph is simple: no link joins a
    node with itself and no two links join the same two nodes, in either
    direction. *)
Theorem graph_is_simple genreBooks highlightedBookId :
  NoDup (map id genreBooks) →
  ∃ g, bookGraphData genreBooks highlightedBookId = Some g ∧
       (∀ l, l ∈ links g → source l ≠ target l) ∧ distinctEnds (links g).
Proof. apply bookGraphData_simple. Qed.

(** X3: for sentiment vectors of the data model, the links kept by the
    pruning are listed by non-increasing weight, they are the first links of
    the built graph, and every pair kept is at least as similar as every
    selected pair the pruning drops. *)
Theorem pruning_keeps_strongest genreBooks highlightedBookId :
  validNodes genreBooks →
  StronglySorted byWeight (prunedLinksOf genreBooks) ∧
  (∃ g, bookGraphData genreBooks highlightedBookId = Some g ∧
        take (length (prunedLinksOf genreBooks)) (links g) = prunedLinksOf genreBooks) ∧
  ∃ dropped,
    selectedPairsOf genreBooks ≡ₚ prunedPairsOf genreBooks ++ dropped ∧
    ∀ kept d, kept ∈ prunedPairsOf genreBooks → d ∈ dropped → bySimilarity kept d.
Proof.
  intros Hv. destruct (prunedPairsOf_strongest genreBooks Hv) as (dropped & Hp & Hs & Hcross).
  split_and!.
  - by apply linksOf_sorted.
  - destruct (bookGraphData_shape genreBooks highlightedBookId) as (g & bests & Hrun & _ & Hl & _).
    exists g. split; [done |]. by rewrite Hl, take_app_length.
  - by exists dropped.
Qed.

(** X4: for at least two books with vectors of the data model, the first
    link of the built graph joins a most similar pair: no two nodes of the
    list are more similar than its two ends. *)
Theorem most_similar_pair_is_linked genreBooks highlightedBookId :
  validNodes genreBooks → 2 ≤ length genreBooks →
  ∃ g l rest i j,
    bookGraphData genreBooks highlightedBookId = Some g ∧ links g = l :: rest ∧
    i < j ∧ j < length genreBooks ∧
    l = linkOf genreBooks i j (simAt genreBooks i j) ∧
    ∀ i' j', i' < j' → j' < length genreBooks →
      PrimFloat.leb (simAt genreBooks i' j') (similarityWeight l) = true.
Proof.
  intros Hv Hlen.
  destruct (most_similar_first genreBooks Hv Hlen) as (p & rest & Hpruned & Hp & Hmax).
  destruct (bookGraphData_shape genreBooks highlightedBookId) as (g & bests & Hrun & _ & Hl & _).
  pose proof (allPairs_ordered _ _ Hp) as [? ?].
  exists g, (linkOf genreBooks (pair_i p) (pair_j p) (pair_sim p)),
         (map (λ pr, linkOf genreBooks (pair_i pr) (pair_j pr) (pair_sim pr)) rest ++
          map (repairLink genreBooks
                 (searchedIdxOf (nodeIdToIndexOf genreBooks) highlightedBookId)) bests),
         (pair_i p), (pair_j p).
  split_and!; try done.
  - rewrite Hl. unfold prunedLinksOf. by rewrite Hpruned.
  - by rewrite (allPairs_sim _ _ Hp).
  - intros i' j' Hij Hj. simpl.
    apply (Hmax {| pair_i := i'; pair_j := j'; pair_sim := simAt genreBooks i' j' |}).
    by apply allPairs_complete.
Qed.

(** X5: a list of one book gives the graph of that node without links,
    whatever its scores and whatever the highlighted identifier. *)
Theorem single_book_has_no_links x highlightedBookId :
  bookGraphData [x] highlightedBookId = Some {| nodes := [x]; links := [] |}.
Proof. apply bookGraphData_single. Qed.

(** X6: in the graph built from at least two books with distinct
    identifiers and vectors of the data model, [findConnection] finds a link
    for every book: it sets the connected book to a node with another
    identifier, the other end of that link, and the reason to the link's. *)
Theorem click_shows_a_connected_book genreBooks highlightedBookId x :
  2 ≤ length genreBooks → NoDup (map id genreBooks) → validNodes genreBooks →
  x ∈ genreBooks →
  ∃ g y l,
    bookGraphData genreBooks highlightedBookId = Some g ∧
    findConnection view_books g (id x) = Some (Some y, reason l) ∧
    y ∈ genreBooks ∧ id y ≠ id x ∧ l ∈ links g ∧
    ((source l = id x ∧ target l = id y) ∨ (source l = id y ∧ target l = id x)).
Proof. apply findConnection_on_graph. Qed.

(** X7: after a search result is selected, the node list made of the merged
    books and the sentiment response contains the searched book, and for
    plain identifiers and sentiment entries of the data model the graph
    built with its identifier as highlight connects every node to the
    searched book. *)
Theorem search_selection_graph searchResult books sentiments :
  ApiBook.id searchResult ≠ "" →
  plainKey (ApiBook.id searchResult) → Forall (λ b, plainKey (ApiBook.id b)) books →
  map_Forall (λ _ s, validScores s = true) sentiments →
  let genreBooks := booksWithSentiments sentiments (withSearchedBook searchResult books) in
  ∃ g searched,
    bookGraphData genreBooks (Some (ApiBook.id searchResult)) = Some g ∧
    nodes g = genreBooks ∧
    searched ∈ genreBooks ∧ id searched = ApiBook.id searchResult ∧
    ∀ x, x ∈ genreBooks → connected (links g) (id x) (ApiBook.id searchResult).
Proof. intros Hid _ _ Hvalid. by apply searchSelection_graph. Qed.

End GraphProperties.

Lemma graph_is_simple_witness :
  ∃ g, bookGraphData (engine := Js.Number_toString) sixBooks (Some "b") = Some g ∧
       distinctEnds (links g).
Proof.
  destruct (graph_is_simple (engine := Js.Number_toString) sixBooks (Some "b") sixBooks_NoDup)
    as (g & Hrun & _ & Hsimple).
  by exists g.
Defined.

Lemma pruning_keeps_strongest_witness :
  StronglySorted byWeight (prunedLinksOf (engine := Js.Number_toString) sixBooks).
Proof.
  exact (proj1 (pruning_keeps_strongest (engine := Js.Number_toString) sixBooks None
                  sixBooks_valid)).
Defined.

Lemma most_similar_pair_is_linked_witness :
  ∃ g l rest,
    bookGraphData (engine := Js.Number_toString) sixBooks None = Some g ∧
    links g = l :: rest ∧ source l = "a" ∧ target l = "b".
Proof.
  destruct (most_similar_pair_is_linked (engine := Js.Number_toString) sixBooks None)
    as (g & l & rest & i & j & Hrun & Hlinks & _).
  - exact sixBooks_valid.
  - simpl. lia.
  - exists g, l, rest. split; [exact Hrun |]. split; [exact Hlinks |].
    vm_compute in Hrun. injection Hrun as <-. simpl in Hlinks.
    injection Hlinks as <- _. split; reflexivity.
Defined.

Lemma click_shows_a_connected_book_witness :
  ∃ g y r,
    bookGraphData (engine := Js.Number_toString) sixBooks None = Some g ∧
    findConnection view_books g "e" = Some (Some y, r) ∧ id y ≠ "e".
Proof.
  destruct (click_shows_a_connected_book (engine := Js.Number_toString)
              sixBooks None (book "e" axis2))
    as (g & y & l & Hrun & Hfind & _ & Hid & _).
  - simpl. lia.
  - exact sixBooks_NoDup.
  - exact sixBooks_valid.
  - unfold sixBooks. do 4 right. left.
  - exists g, y, (reason l). split_and!; done.
Defined.


(** Six fetched books of three profiles and a searched book they lack: the
    seven nodes end up connected to the searched book. *)
Lemma search_selection_graph_witness :
  ∃ g, bookGraphData (engine := Js.Number_toString)
         (booksWithSentiments sixSentiments (withSearchedBook dune sixApiBooks))
         (Some "OL893415W") = Some g ∧
       length (nodes g) = 7 ∧
       ∀ x, x ∈ booksWithSentiments sixSentiments (withSearchedBook dune sixApiBooks) →
            connected (links g) (id x) "OL893415W".
Proof.
  destruct (search_selection_graph (engine := Js.Number_toString) dune sixApiBooks sixSentiments)
    as (g & _ & Hrun & Hnodes & _ & _ & Hconn).
  - done.
  - reflexivity.
  - repeat constructor.
  - intros k s Hk. apply elem_of_list_to_map_2 in Hk.
    repeat (apply elem_of_cons in Hk as [[= _ ->] | Hk]; [reflexivity |]).
    by apply elem_of_nil in Hk.
  - exists g. split; [exact Hrun |]. split; [by rewrite Hnodes | exact Hconn].
Defined.

(** X8: for a list of distinct genres that are plain keys, every link of the
    genre graph joins two different genres of the similarity table, carries
    the weight and the reason of their table entry, and that weight exceeds
    0.4: the links "Same genre" and "Shared literary heritage" never
    appear. *)
Theorem genre_links_come_from_table genres :
  NoDup genres → Forall plainKey genres →
  Forall (λ l,
    source l ∈ genreKeys ∧ target l ∈ genreKeys ∧ source l ≠ target l ∧
    Js.gt (similarityWeight l) 0.4%float = true ∧
    ∃ s, orElse (lookupSimilarity (source l) (target l))
                (lookupSimilarity (target l) (source l)) = Some s ∧
         similarityWeight l = weight s ∧ reason l = genreReason s)
    (genreLinks genres).
Proof.
  intros Hnd _. apply Forall_forall. intros l Hl.
  destruct (genreLinks_from_table genres l Hnd Hl) as (Hne & Hgt & s & Hs & Hw & Hr).
  destruct (lookup_in_table _ _ _ Hs) as [? ?].
  split_and!; try done. by exists s.
Qed.

Lemma genre_links_come_from_table_witness :
  Forall (λ l, source l ∈ genreKeys ∧ target l ∈ genreKeys)
         (GenreGraph.links genreGraphData) ∧
  length (GenreGraph.links genreGraphData) = 13.
Proof.
  split; [| by vm_compute].
  eapply Forall_impl.
  - apply (genre_links_come_from_table (Object_keys genreColors)).
    + apply (bool_decide_unpack _). by vm_compute.
    + repeat constructor.
  - intros l (? & ? & _). by split.
Defined.

(** X9: the background always gets the covers of the loaded books first, in
    their order; with fewer than six covers it is filled up to exactly eight
    images with the default covers, otherwise it is the loaded covers alone;
    hence at least six images, none of them the empty string. *)
Theorem background_has_at_least_six_covers genreBooks :
  let covers := loadedCovers genreBooks in
  let images := backgroundImages genreBooks in
  covers `prefix_of` images ∧
  6 ≤ length images ∧
  (length covers < 6 → length images = 8) ∧
  (6 ≤ length covers → images = covers) ∧
  Forall (λ u, u ≠ "") images.
Proof.
  intros covers images.
  destruct (backgroundImages_shape genreBooks) as (Hpre & Hlt & Hge & Hne).
  fold covers images in Hpre, Hlt, Hge, Hne.
  split_and!; try done.
  - destruct (decide (length covers < 6)) as [H | H]; [rewrite Hlt; lia |].
    rewrite Hge by lia. lia.
  - by apply Forall_forall.
Qed.

(** X10: the book list used after a search selection always contains a book
    with the searched identifier; when the fetched list lacks it, the
    searched book is put first, before the first eleven fetched books, so
    eleven fetched books give at most twelve; distinct identifiers stay
    distinct. *)
Theorem searched_book_is_listed searchResult books :
  let books' := withSearchedBook searchResult books in
  (∃ b, b ∈ books' ∧ ApiBook.id b = ApiBook.id searchResult) ∧
  ((∀ b, b ∈ books → ApiBook.id b ≠ ApiBook.id searchResult) →
     books' = searchResult :: take 11 books) ∧
  (length books ≤ 11 → length books' ≤ 12) ∧
  (NoDup (map ApiBook.id books) → NoDup (map ApiBook.id books')).
Proof. apply withSearchedBook_shape. Qed.

(** ** The search route *)

Section DetectGenreProperties.

Import SearchRoute.

Context {lower : StringToLowerCase}.

(** X11: whatever the subjects, the detected genre is one of the twelve
    genres of the page: it has a colour there, and the books route accepts
    it and queries a non-empty primary subject for it. *)
Theorem detected_genre_is_known subjects :
  let g := detectGenre subjects in
  g ∈ Object_keys genreColors ∧ is_Some (Object_get genreColors g) ∧
  ∃ q, BooksRoute.subjectQuery (Some g) = inr (Some q) ∧ q ≠ "".
Proof. apply detectGenre_known. Qed.

(** X12: the detected genre has the most keyword matches of all genres; when
    there is no match at all it is "Literary Fiction", and otherwise every
    genre read before it in the score object has strictly fewer matches. *)
Theorem detected_genre_has_most_matches subjects :
  let r := detectGenre subjects in
  r ∈ genreOrder ∧
  (∀ g, g ∈ genreOrder → hits subjects g ≤ hits subjects r) ∧
  (hits subjects r = 0 → r = "Literary Fiction") ∧
  (0 < hits subjects r →
   ∀ i j g, genreOrder !! i = Some g → genreOrder !! j = Some r → i < j →
            hits subjects g < hits subjects r).
Proof. apply detectGenre_spec. Qed.

(** X13: the detected genre does not depend on the order of the subjects. *)
Theorem detected_genre_ignores_order subjects subjects' :
  subjects ≡ₚ subjects' → detectGenre subjects = detectGenre subjects'.
Proof. apply detectGenre_perm. Qed.

End DetectGenreProperties.

Lemma detected_genre_ignores_order_witness :
  SearchRoute.detectGenre (lower := asciiToLowerCase) ["Magic"; "Space opera"] =
  SearchRoute.detectGenre (lower := asciiToLowerCase) ["Space opera"; "Magic"].
Proof.
  apply (detected_genre_ignores_order (lower := asciiToLowerCase)). apply perm_swap.
Defined.

(** ** The books route *)

(** X14: the books route accepts every genre of the page with a non-empty
    primary subject, and no other genre with a subject: a missing or empty
    genre and a genre outside the table are answered with status 400,
    except the names of inherited properties, which pass the check and are
    queried without a subject. *)
Theorem books_route_checks_genre genre :
  match BooksRoute.subjectQuery genre with
  | inr (Some q) => ∃ g, genre = Some g ∧ g ∈ Object_keys genreColors ∧ q ≠ ""
  | inr None => ∃ g, genre = Some g ∧ inheritedKey g = true
  | inl e => BooksRoute.status e = 400%Z ∧ ∀ g, genre = Some g → g ∉ Object_keys genreColors
  end ∧
  ∀ g, g ∈ Object_keys genreColors →
    ∃ q, BooksRoute.subjectQuery (Some g) = inr (Some q).
Proof.
  split.
  - unfold BooksRoute.subjectQuery.
    destruct genre as [g |]; cbn [truthyString negb]; [| split; [done | intros ? [=]]].
    change (default "" (Some g)) with g.
    destruct (String.eqb g "") eqn:Eg; cbn [negb].
    { apply String.eqb_eq in Eg as ->. split; [done |]. intros ? [= <-] Hin.
      by apply (bool_decide_pack _) in Hin. }
    destruct (BooksRoute.GENRE_TO_SUBJECTS !! g) as [subjects |] eqn:E.
    + apply elem_of_list_to_map_2 in E. rewrite !elem_of_cons, elem_of_nil in E.
      repeat (destruct E as [E | E]); try done;
        injection E as -> ->; (eexists; split; [reflexivity |]; split;
          [apply (bool_decide_unpack _); by vm_compute | done]).
    + destruct (inheritedKey g) eqn:I; cbn beta iota; [by exists g |].
      split; [done |]. intros ? [= <-] Hin.
      unfold Object_keys, genreColors in Hin. cbn [map fst] in Hin.
      rewrite !elem_of_cons, elem_of_nil in Hin.
      repeat (destruct Hin as [Hin | Hin]); try done; subst g; by vm_compute in E.
  - intros g Hin. unfold Object_keys, genreColors in Hin. cbn [map fst] in Hin.
    rewrite !elem_of_cons, elem_of_nil in Hin.
    repeat (destruct Hin as [Hin | Hin]); try done; subst g; eexists; by vm_compute.
Qed.

(** ** The sentiment route *)

Section SentimentProperties.

Import SentimentRoute.

(** X15: the batches of five do not change the result: for a non-empty array
    of books with plain identifiers and genres the response holds the sentiments obtained by storing the results of the
    books one after the other, in the order of the array; an empty array is
    answered with status 400. *)
Theorem batches_do_not_change_results generateText books :
  plainBooks books →
  POST generateText books =
  if (length books =? 0)%nat then Failed 400 "Books array is required"
  else Sentiments (oneByOne generateText books).
Proof. intros _. unfold POST. by rewrite runBatches_oneByOne. Qed.

(** X16: when every output of the model has its components in [0, 1], so
    has every entry of the returned sentiments, fallback profiles included,
    and every key is the identifier of a submitted book; a book has an entry
    unless its own call resolved without an output. *)
Theorem sentiments_cover_books generateText books :
  plainBooks books →
  (∀ i s, generateText i = Output (Some s) → validScores s = true) →
  (∀ k s, runBatches generateText books !! k = Some s →
          validScores s = true ∧ ∃ b, b ∈ books ∧ id b = k) ∧
  (∀ i b, books !! i = Some b → generateText i ≠ Output None →
          is_Some (runBatches generateText books !! id b)).
Proof. intros _ Hvalid. rewrite runBatches_oneByOne. by apply oneByOne_entries. Qed.

Lemma batches_do_not_change_results_witness :
  POST (λ _, Threw) (replicate 7 duneInput) =
  Sentiments
    (oneByOne (λ _, Threw) (replicate 7 duneInput)).
Proof.
  apply (batches_do_not_change_results (λ _, Threw) (replicate 7 duneInput)).
  repeat constructor.
Defined.

Lemma sentiments_cover_books_witness :
  is_Some (runBatches (λ _, Threw) [duneInput] !! "OL893415W").
Proof.
  refine (proj2 (sentiments_cover_books (λ _, Threw) [duneInput] _ _)
                0 duneInput eq_refl _);
    [repeat constructor | intros i s H; discriminate H | intros H; discriminate H].
Defined.

End SentimentProperties.

(** ** The cover background *)

Section CoverProperties.

Import BookCoverBackground.

(** X17: [buildItems] returns five tiles per segment, whatever the pool: the
    tiles of column [col] have [x = -37 + 2 col], a [y] of the even or the
    odd row pattern according to the parity of [col], and size 2 by 2; no two
    tiles have the same position. *)
Theorem tiles_form_a_grid pool seg :
  let items := buildItems pool seg in
  length items = 5 * seg ∧
  NoDup (map (λ item, (x item, y item)) items) ∧
  Forall (λ item,
    ∃ col, col < seg ∧ x item = (-37 + Z.of_nat col * 2)%Z ∧
           y item ∈ (if (col mod 2 =? 0)%nat then evenYs else oddYs) ∧
           sizeX item = 2%Z ∧ sizeY item = 2%Z) items.
Proof.
  intros items. pose proof (buildItems_coords pool seg) as Hc. fold items in Hc.
  split_and!.
  - rewrite <- (length_coordsOf seg), <- Hc. by rewrite length_map.
  - pose proof (coordsOf_NoDup seg) as Hnd. rewrite <- Hc, map_map in Hnd. exact Hnd.
  - apply Forall_forall. intros item Hitem.
    destruct (coordsOf_elem_of seg
                {| coord_x := x item; coord_y := y item;
                   coord_sizeX := sizeX item; coord_sizeY := sizeY item |})
      as (col & ? & ? & ? & ? & ?).
    + rewrite <- Hc. apply list_elem_of_In, in_map_iff. exists item.
      split; [done | by apply list_elem_of_In].
    + by exists col.
Qed.

(** X18: for a non-empty pool, the images of the tiles are a rearrangement
    of the pool repeated cyclically over the slots, so every tile shows an
    image of the pool. *)
Theorem tiles_show_the_pool pool seg :
  pool ≠ [] →
  map imageOf (buildItems pool seg) ≡ₚ fillSlots (5 * seg) (map normalize pool) ∧
  Forall (λ item, imageOf item ∈ map normalize pool) (buildItems pool seg).
Proof.
  intros Hne. rewrite buildItems_images by done. split; [apply shuffle_perm |].
  apply Forall_forall. intros item Hitem.
  apply (fillSlots_elem_of (5 * seg)); [by destruct pool |].
  rewrite <- (shuffle_perm (fillSlots (5 * seg) (map normalize pool))).
  rewrite <- buildItems_images by done.
  apply list_elem_of_In, in_map, list_elem_of_In, Hitem.
Qed.

Lemma tiles_show_the_pool_witness :
  Forall (λ item, imageOf item ∈ map normalize threeCovers) (buildItems threeCovers 2).
Proof.
  assert (threeCovers ≠ []) as Hne by discriminate.
  exact (proj2 (tiles_show_the_pool threeCovers 2 Hne)).
Defined.

(** X19: after the shuffle of a non-empty pool, a tile shows the image of the
    tile before it only when all the tiles after it show that image too: the
    loop leaves no repetition that moving a later image forward could
    remove. *)
Theorem tiles_repeat_only_at_end pool seg :
  pool ≠ [] → repeatsOnlyAtEnd (map imageOf (buildItems pool seg)).
Proof. intros Hne. rewrite buildItems_images by done. apply shuffle_settled. Qed.

Lemma tiles_repeat_only_at_end_witness :
  length (buildItems threeCovers 2) = 10 ∧
  repeatsOnlyAtEnd (map imageOf (buildItems threeCovers 2)).
Proof.
  assert (threeCovers ≠ []) as Hne by discriminate.
  split; [reflexivity | exact (tiles_repeat_only_at_end threeCovers 2 Hne)].
Defined.

(** X20: for a pool of images with pairwise different sources, the shuffle
    changes nothing: slot [i] shows image [i mod n] of the pool, and with at
    least two images no two neighbouring slots show the same image. *)
Theorem tiles_of_distinct_pool pool seg :
  pool ≠ [] → NoDup (map src (map normalize pool)) →
  map imageOf (buildItems pool seg) = fillSlots (5 * seg) (map normalize pool) ∧
  (2 ≤ length pool →
   ∀ i, 1 ≤ i → i < 5 * seg →
     src (imageAt (map imageOf (buildItems pool seg)) i) ≠
     src (imageAt (map imageOf (buildItems pool seg)) (i - 1))).
Proof.
  intros Hne Hnd.
  assert (map normalize pool ≠ []) as Hne' by (by destruct pool).
  rewrite buildItems_images, shuffle_fillSlots by done. split; [done |].
  intros Hlen i Hi1 Hi. rewrite !imageAt_fillSlots by lia. rewrite length_map.
  intros E. apply imageAt_src_inj in E; [| done | rewrite length_map; apply Nat.mod_upper_bound; lia..].
  by apply mod_succ_ne in E.
Qed.

Lemma tiles_of_distinct_pool_witness :
  map imageOf (buildItems [ImageUrl "a"; ImageUrl "b"] 1) =
  fillSlots 5 (map normalize [ImageUrl "a"; ImageUrl "b"]).
Proof.
  refine (proj1 (tiles_of_distinct_pool [ImageUrl "a"; ImageUrl "b"] 1 _ _)).
  - discriminate.
  - apply (bool_decide_unpack _). by vm_compute.
Defined.

(** X21: the page gives the component its background images and 34
    segments: the background then has 170 tiles, and every tile shows one of
    these images, never an empty source. *)
Theorem background_tiles_have_covers genreBooks :
  let items := buildItems (map ImageUrl (backgroundImages genreBooks)) 34 in
  length items = 170 ∧
  Forall (λ item, item_src item ≠ "" ∧ item_src item ∈ backgroundImages genreBooks) items.
Proof.
  intros items.
  destruct (backgroundImages_shape genreBooks) as (_ & Hlt & Hge & Hnonempty).
  assert (map ImageUrl (backgroundImages genreBooks) ≠ []) as Hne.
  { intros E. apply (f_equal length) in E. rewrite length_map in E. simpl in E.
    destruct (decide (length (loadedCovers genreBooks) < 6)) as [H | H].
    - rewrite Hlt in E by done. lia.
    - rewrite Hge in E by lia. lia. }
  split.
  - pose proof (buildItems_coords (map ImageUrl (backgroundImages genreBooks)) 34) as Hc.
    fold items in Hc. apply (f_equal length) in Hc.
    by rewrite length_map, length_coordsOf in Hc.
  - apply Forall_forall. intros item Hitem.
    assert (imageOf item ∈ map normalize (map ImageUrl (backgroundImages genreBooks))) as Hin.
    { apply (fillSlots_elem_of (5 * 34)); [by destruct (map ImageUrl _) |].
      rewrite <- (shuffle_perm (fillSlots (5 * 34) _)).
      rewrite <- buildItems_images by done.
      apply list_elem_of_In, in_map, list_elem_of_In, Hitem. }
    rewrite map_map in Hin.
    apply list_elem_of_In, in_map_iff in Hin as (u & Hu & Hin%list_elem_of_In).
    apply (f_equal src) in Hu. simpl in Hu. subst u.
    split; [by apply Hnonempty | done].
Qed.

(** X22: for a number that is not NaN and bounds with [min <= max], [clamp]
    returns a number between the bounds, and a number equal to its argument
    when that lies between them. *)
Theorem clamp_within_bounds v lo hi :
  PrimFloat.is_nan v = false → PrimFloat.leb lo hi = true →
  PrimFloat.leb lo (clamp v lo hi) = true ∧
  PrimFloat.leb (clamp v lo hi) hi = true ∧
  (PrimFloat.leb lo v = true → PrimFloat.leb v hi = true →
   PrimFloat.eqb (clamp v lo hi) v = true).
Proof. apply clamp_bounds. Qed.

Lemma clamp_within_bounds_witness :
  PrimFloat.leb 0%float (clamp 2%float 0%float 1%float) = true ∧
  PrimFloat.leb (clamp 2%float 0%float 1%float) 1%float = true.
Proof.
  destruct (clamp_within_bounds 2%float 0%float 1%float eq_refl eq_refl) as (H1 & H2 & _).
  by split.
Defined.

End CoverProperties.

(** ** Loading the books of a genre *)



(** X24: a call for a genre that is not cached and that does not go through
    (a request rejects or is not ok, or no book is found) keeps the books
    shown and the cache as they were, sets an error message and leaves the
    loading state idle. *)
Theorem failed_load_keeps_books genre booksResponse sentimentResponse st :
  PageState.booksCache st !! genre = None →
  ¬ succeeded booksResponse sentimentResponse →
  let st' := fetchBooksForGenre genre booksResponse sentimentResponse st in
  PageState.genreBooks st' = PageState.genreBooks st ∧
  PageState.booksCache st' = PageState.booksCache st ∧
  is_Some (PageState.error st') ∧ PageState.loadingState st' = idle.
Proof. apply fetchBooksForGenre_failure. Qed.

Lemma failed_load_keeps_books_witness :
  PageState.genreBooks (fetchBooksForGenre "Sci-Fi" (Body []) NotOk initialPage) = [] ∧
  is_Some (PageState.error (fetchBooksForGenre "Sci-Fi" (Body []) NotOk initialPage)).
Proof.
  assert (¬ succeeded (Body (A := list ApiBook.t) []) (NotOk (A := gmap string SentimentScores)))
    as Hfail.
  { intros (books & sentiments & [= <-] & Hne & _). by apply Hne. }
  destruct (failed_load_keeps_books "Sci-Fi" (Body []) NotOk initialPage eq_refl Hfail)
    as (Hbooks & _ & Herr & _).
  split; [exact Hbooks | exact Herr].
Defined.
